(** * A shallow embedding of the length-limited Huffman codec of
      [Myers/compression.c] (VGP tools), with the properties of its
      specification stated and settled against the code.

    Conventions of the embedding.

    - Unsigned C integers ([uint8], [uint16], [uint32], [uint64]) are values
      of [Z] reduced modulo their width at every operation that can leave the
      range ([u8], [u16], [u64]).  The bit counts of the encoder ([ibits],
      [tbits] and the value returned) are of type [int]: their sums and
      shifts wrap around as 32-bit two's complement values ([to_int]), which
      is what the compiled code does when a count leaves the range of [int].
    - Arrays indexed by a byte ([hist], [codelens], [codebits]) are total
      functions [Z -> Z] read on [0..255] and updated with [upd].  The decoder
      table [lookup] is a function [Z -> option Z]: [None] is a cell of the
      freshly allocated table that no assignment has reached.
    - A byte in a buffer or a table is its 8-bit value in [0..255].  Whether
      plain [char] is signed depends on the host; every function that uses a
      plain [char] as an array index takes this as the argument [schar], the
      way [vcCreate] takes the byte order.  On a host with signed chars the
      bytes 128..255 are negative indices, and an access with such an index
      (or with the escape code -1) lands on the fields that precede the array
      in the struct.  Its fields lie in declaration order, with no padding
      between those that precede [hist]: [isbig] and [state] (4 bytes each),
      [codebits] (512 bytes), [codelens] (256), [lookup] (65536), [esc_code]
      (4); [hist] follows on the next multiple of 8.
    - Buffers are lists of bytes; [isbig] is the byte order of the host, and
      a 64/32/16-bit value stored through a word pointer or [memcpy] is laid
      out in that order. *)

From Stdlib Require Import ZArith List Lia Bool Permutation QArith FinFun Sorted.
Import ListNotations.
Local Open Scope Z_scope.

(** ** Machine integers and arrays *)

Definition u8  (x : Z) : Z := x mod 2 ^ 8.
Definition u16 (x : Z) : Z := x mod 2 ^ 16.
Definition u32 (x : Z) : Z := x mod 2 ^ 32.
Definition u64 (x : Z) : Z := x mod 2 ^ 64.

(** A value brought into the range of [int]: the low 32 bits, read as two's
    complement.  This is the conversion of an unsigned 64-bit value to [int],
    and the result of [int] arithmetic that leaves the range. *)
Definition to_int (x : Z) : Z :=
  let y := u32 x in if y <? 2 ^ 31 then y else y - 2 ^ 32.

Definition upd {A : Type} (f : Z -> A) (k : Z) (v : A) : Z -> A :=
  fun i => if i =? k then v else f i.

(** The byte values [0; 1; ...; 255], the range of every [for (i = 0; i < 256; i++)]. *)
Definition bytes256 : list Z := map Z.of_nat (seq 0 256).

Definition HUFF_CUTOFF : Z := 12.

(** ** The compressor object *)

Inductive vc_state := EMPTY | FILLED | CODED_WITH | CODED_READ.

Record VGPcompressor := mkVC
  { isbig    : bool;
    state    : vc_state;
    codebits : Z -> Z;
    codelens : Z -> Z;
    lookup   : Z -> option Z;
    esc_code : Z;
    hist     : Z -> Z }.

(** ** vcCreate, vcAddToTable *)

Definition vcCreate (host_big : bool) : VGPcompressor :=
  mkVC host_big EMPTY (fun _ => 0) (fun _ => 0) (fun _ => None) 0 (fun _ => 0).

(** The plain [char] holding the byte [b], as an array index: where plain
    char is signed the bytes 128..255 are the indices -128..-1. *)
Definition char_index (schar : bool) (b : Z) : Z :=
  let x := u8 b in if schar && (128 <=? x) then x - 256 else x.

(** [hist[bytes[i]] += 1].  With a negative index the 64-bit word that is
    incremented lies before [hist]: on [esc_code] or among the last cells of
    [lookup], which hold no value as long as there is no codec; no count
    changes. *)
Definition add_bytes (schar : bool) (h : Z -> Z) (bytes : list Z) : Z -> Z :=
  fold_left (fun h b => let i := char_index schar b in
                        if i <? 0 then h else upd h i (u64 (h i + 1))) bytes h.

Definition vcAddToTable (schar : bool) (v : VGPcompressor) (bytes : list Z)
  : option VGPcompressor :=
  match state v with
  | CODED_WITH | CODED_READ => None
  | _ => Some (mkVC (isbig v) FILLED (codebits v) (codelens v) (lookup v)
                    (esc_code v) (add_bytes schar (hist v) bytes))
  end.

(** ** vcCreateCodec *)

(** The first loop: the bytes that take part, in increasing order, and the
    escape byte.  [ecode] starts at [-partial]. *)
Definition collect_step (h : Z -> Z) (st : Z * list Z) (i : Z) : Z * list Z :=
  let (ecode, code) := st in
  if 0 <? h i then (ecode, code ++ [i])
  else if ecode <? 0 then (i, code ++ [i])
  else (ecode, code).

Definition collect (h : Z -> Z) (partial : bool) : Z * list Z :=
  fold_left (collect_step h) bytes256 ((if partial then -1 else 0), []).

(** [HSORT]: the difference of two 64-bit counts, returned as an [int]. *)
Definition HSORT (HIST : Z -> Z) (x y : Z) : Z :=
  to_int (u64 (HIST x - HIST y)).

(** [qsort] is the C library's.  It is modelled as a stable insertion sort
    driven by the comparator's sign: an element moves in front of the sorted
    rest as long as the comparator does not report it greater.  Every sort
    gives this result when the comparator is a total order on the elements;
    when it is not (counts that differ by [2^31] and more, where [HSORT]
    reports the wrong sign) the library's sort may return another
    permutation of the same bytes. *)
Fixpoint qsort_insert (cmp : Z -> Z -> Z) (x : Z) (l : list Z) : list Z :=
  match l with
  | [] => [x]
  | y :: l' => if cmp x y <=? 0 then x :: y :: l' else y :: qsort_insert cmp x l'
  end.

Fixpoint qsort (cmp : Z -> Z -> Z) (l : list Z) : list Z :=
  match l with
  | [] => []
  | x :: l' => qsort_insert cmp x (qsort cmp l')
  end.

(** One row of the coin filter (the loop over [n] with the two cursors [j]
    and [k]).  [countb] is what is left of the base coins from index [j],
    [lcnt] what is left of the previous row from index [k]; [k < llen] holds
    exactly when two entries of the previous row are left.  Each output entry
    is the weight stored in [ccnt[n]] and the flag stored in [matrix[L][n]]. *)
Fixpoint coin_row (countb lcnt : list Z) {struct lcnt} : list (Z * bool) :=
  match lcnt with
  | a :: b :: rest =>
      let s := u64 (a + b) in
      (fix take (cb : list Z) : list (Z * bool) :=
         match cb with
         | c :: cb' => if c <=? s then (c, true) :: take cb'
                       else (s, false) :: coin_row cb rest
         | [] => (s, false) :: coin_row [] rest
         end) countb
  | _ => map (fun c => (c, true)) countb
  end.

(** The rows [matrix[1]], ..., [matrix[levels]]: row [levels] is computed
    first, from [lcnt], and each row below it from the row above. *)
Fixpoint coin_filter (levels : nat) (countb lcnt : list Z) : list (list bool) :=
  match levels with
  | O => []
  | S l => let r := coin_row countb lcnt in
           coin_filter l countb (map fst r) ++ [map snd r]
  end.

Fixpoint count_ones (row : list bool) : nat :=
  match row with
  | [] => O
  | b :: row' => (if b then 1 else 0) + count_ones row'
  end.

(** [leng[0..j)] each incremented by one. *)
Fixpoint incr_prefix (j : nat) (leng : list Z) : list Z :=
  match j, leng with
  | S j', l :: leng' => (l + 1) :: incr_prefix j' leng'
  | _, _ => leng
  end.

(** The back trace over rows [L = 1 .. HUFF_CUTOFF-1] and the final loop. *)
Fixpoint back_trace (matrix : list (list bool)) (span : nat) (leng : list Z) : list Z :=
  match matrix with
  | [] => incr_prefix span leng
  | row :: m' =>
      let j := count_ones (firstn span row) in
      back_trace m' (2 * (span - j)) (incr_prefix j leng)
  end.

Definition code_lengths (countb : list Z) : list Z :=
  let ncode := length countb in
  back_trace (coin_filter (Z.to_nat HUFF_CUTOFF - 1) countb countb)
             (2 * (ncode - 1)) (map (fun _ => 0) countb).

(** Canonical code assignment.  The first [while] loop does not end when
    [lbits] is 0: [strip_zeros] then runs out of fuel (a non-zero 16-bit
    value has at most 15 trailing zeros).  With no symbol at all ([ncode]
    is 0) the loop over [n] is not entered; what is computed from [leng[0]]
    goes to the local [bits[0]] and is never read. *)
Fixpoint strip_zeros (fuel : nat) (lbits llen : Z) : option (Z * Z) :=
  match fuel with
  | O => None
  | S f => if Z.land lbits 1 =? 0
           then strip_zeros f (Z.shiftr lbits 1) (llen - 1)
           else Some (lbits, llen)
  end.

(** The second [while] loop runs [leng[n] - llen] times when that is positive. *)
Definition fill_ones (lbits llen target : Z) : Z * Z :=
  (Nat.iter (Z.to_nat (target - llen))
            (fun lb => u16 (Z.lor (Z.shiftl lb 1) 1)) lbits,
   Z.max llen target).

Fixpoint assign_bits (lbits llen : Z) (leng : list Z) : option (list Z) :=
  match leng with
  | [] => Some []
  | l :: rest =>
      match strip_zeros 17 lbits llen with
      | None => None
      | Some (lb, ll) =>
          let '(lb2, ll2) := fill_ones (u16 (lb - 1)) ll l in
          option_map (cons lb2) (assign_bits lb2 ll2 rest)
      end
  end.

Definition canonical_bits (leng : list Z) : option (list Z) :=
  match leng with
  | [] => Some []
  | l0 :: rest =>
      let b0 := u16 (Z.shiftl 1 l0 - 1) in
      option_map (cons b0) (assign_bits b0 l0 rest)
  end.

(** [tab[code[i]] = vals[i]] for [i < ncode]. *)
Fixpoint scatter (code vals : list Z) (tab : Z -> Z) : Z -> Z :=
  match code, vals with
  | c :: code', v :: vals' => scatter code' vals' (upd tab c v)
  | _, _ => tab
  end.

(** The decoder table: for every byte with a code, the [powr] cells from
    [base] on receive that byte. *)
Fixpoint fill_cells (n : nat) (j : Z) (base i : Z) (look : Z -> option Z) : Z -> option Z :=
  match n with
  | O => look
  | S n' => fill_cells n' (j + 1) base i (upd look (base + j) (Some i))
  end.

Definition fill_lookup_step (lens bitv : Z -> Z) (look : Z -> option Z) (i : Z)
  : Z -> option Z :=
  if 0 <? lens i then
    let base := u16 (Z.shiftl (bitv i) (16 - lens i)) in
    let powr := Z.shiftl 1 (16 - lens i) in
    fill_cells (Z.to_nat powr) 0 base i look
  else look.

Definition fill_lookup (lens bitv : Z -> Z) (look : Z -> option Z) : Z -> option Z :=
  fold_left (fill_lookup_step lens bitv) bytes256 look.

Definition vcCreateCodec (v : VGPcompressor) (partial : bool) : option VGPcompressor :=
  match state v with
  | FILLED =>
      let (ecode, code0) := collect (hist v) partial in
      let code := qsort (HSORT (hist v)) code0 in
      let leng := code_lengths (map (hist v) code) in
      match canonical_bits leng with
      | None => None
      | Some bits =>
          let lens := scatter code (map u8 leng) (fun _ => 0) in
          let bitv := scatter code bits (fun _ => 0) in
          Some (mkVC (isbig v) CODED_WITH bitv lens
                     (fill_lookup lens bitv (lookup v))
                     (if partial then ecode else -1)
                     (hist v))
      end
  | _ => None
  end.

(** ** Memory layout of words *)

(** The [n] bytes of [w], most significant first. *)
Fixpoint be_bytes (n : nat) (w : Z) : list Z :=
  match n with
  | O => []
  | S n' => u8 (Z.shiftr w (8 * Z.of_nat n')) :: be_bytes n' w
  end.

Fixpoint be_value (bs : list Z) : Z :=
  match bs with
  | [] => 0
  | b :: bs' => b * 2 ^ (8 * Z.of_nat (length bs')) + be_value bs'
  end.

(** A value as it lies in memory on a host of the given byte order, and back. *)
Definition word_bytes (big : bool) (n : nat) (w : Z) : list Z :=
  if big then be_bytes n w else rev (be_bytes n w).

Definition bytes_word (big : bool) (bs : list Z) : Z :=
  if big then be_value bs else be_value (rev bs).

Definition big_flag (big : bool) : Z := if big then 1 else 0.

(** Reading a buffer: a byte past the end of the list reads as 0. *)
Definition rd (buf : list Z) (i : nat) : Z := nth i buf 0.

Definition rd_range (buf : list Z) (off n : nat) : list Z :=
  map (rd buf) (seq off n).

(** Overwriting [length bs] bytes of [buf] from offset [off] (the buffer is
    extended when it is shorter). *)
Definition wr_range (buf : list Z) (off : nat) (bs : list Z) : list Z :=
  rd_range buf 0 off ++ bs ++ skipn (off + length bs) buf.

(** ** vcSerialize, vcDeserialize *)

Inductive handle :=
| DNAcompressor
| Owned (v : VGPcompressor).

Definition is_coded (s : vc_state) : bool :=
  match s with CODED_WITH | CODED_READ => true | _ => false end.

Definition serial_entry (big : bool) (lens bits : Z -> Z) (i : Z) : list Z :=
  u8 (lens i) :: (if 0 <? lens i then word_bytes big 2 (bits i) else []).

Definition vcSerialize (vc : handle) : option (list Z) :=
  match vc with
  | DNAcompressor => Some []
  | Owned v =>
      if is_coded (state v) then
        Some (big_flag (isbig v)
              :: word_bytes (isbig v) 4 (u32 (esc_code v))
              ++ flat_map (serial_entry (isbig v) (codelens v) (codebits v)) bytes256)
      else None
  end.

(** [FLIP32], [FLIP16] and [FLIP64] reverse the bytes of an item in place, so
    an item read through them is read from the reversed bytes. *)
Definition read_item (flip : bool) (big : bool) (buf : list Z) (off n : nat) : Z :=
  let bs := rd_range buf off n in
  bytes_word big (if flip then rev bs else bs).

Definition deser_step (flip big : bool) (buf : list Z)
           (st : nat * (Z -> Z) * (Z -> Z)) (i : Z) : nat * (Z -> Z) * (Z -> Z) :=
  let '(ip, lens, bits) := st in
  let l := rd buf ip in
  if 0 <? l
  then ((ip + 3)%nat, upd lens i l, upd bits i (read_item flip big buf (ip + 1) 2))
  else ((ip + 1)%nat, upd lens i l, upd bits i 0).

(** [vcDeserialize] checks nothing.  The model gives a result for every
    blob, a byte past the end of the list reading as 0; the C function
    shifts by a negative amount when a length byte is above 16, and reads
    past a blob that is shorter than its entries say. *)
Definition vcDeserialize (host_big : bool) (blob : list Z) : VGPcompressor :=
  let flip := negb (big_flag host_big =? rd blob 0) in
  let esc := to_int (read_item flip host_big blob 1 4) in
  let '(_, lens, bits) :=
    fold_left (deser_step flip host_big blob) bytes256
              (5%nat, (fun _ => 0), (fun _ => 0)) in
  mkVC host_big CODED_READ bits lens
       (fill_lookup lens bits (fun _ => None)) esc (fun _ => 0).

(** ** The DNA compressor *)

Definition Number : list Z :=
  [ 0; 0; 0; 0; 0; 0; 0; 0;   0; 0; 0; 0; 0; 0; 0; 0;
    0; 0; 0; 0; 0; 0; 0; 0;   0; 0; 0; 0; 0; 0; 0; 0;
    0; 0; 0; 0; 0; 0; 0; 0;   0; 0; 0; 0; 0; 0; 0; 0;
    0; 0; 0; 0; 0; 0; 0; 0;   0; 0; 0; 0; 0; 0; 0; 0;
    0; 0; 0; 1; 0; 0; 0; 2;   0; 0; 0; 0; 0; 0; 0; 0;
    0; 0; 0; 0; 3; 0; 0; 0;   0; 0; 0; 0; 0; 0; 0; 0;
    0; 0; 0; 1; 0; 0; 0; 2;   0; 0; 0; 0; 0; 0; 0; 0;
    0; 0; 0; 0; 3; 0; 0; 0;   0; 0; 0; 0; 0; 0; 0; 0 ].

(** [Number[s[i]]]; the table has 128 entries and the inputs of interest are
    7-bit characters (an index outside the table reads as 0 here). *)
Definition number (c : Z) : Z := nth (Z.to_nat c) Number 0.

Definition pack4 (a b c d : Z) : Z :=
  u8 (Z.lor (Z.lor (Z.lor (Z.shiftl a 6) (Z.shiftl b 4)) (Z.shiftl c 2)) d).

(** The bytes written to [t]: one per four bases while [i < len-3], then the
    [switch] on the one to three bases that are left. *)
Fixpoint dna_pack (s : list Z) : list Z :=
  match s with
  | a :: b :: c :: d :: rest =>
      pack4 (number a) (number b) (number c) (number d) :: dna_pack rest
  | [a; b; c] => [pack4 (number a) (number b) (number c) 0]
  | [a; b] => [pack4 (number a) (number b) 0 0]
  | [a] => [pack4 (number a) 0 0 0]
  | [] => []
  end.

(** [Compress_DNA] returns [j << 1], where [j] counts the bytes written. *)
Definition Compress_DNA (s : list Z) : list Z * Z :=
  let t := dna_pack s in (t, Z.shiftl (Z.of_nat (length t)) 1).

Definition Base : list Z := [97; 99; 103; 116].

Definition base (byte shift : Z) : Z :=
  nth (Z.to_nat (Z.land (Z.shiftr byte shift) 3)) Base 0.

(** One byte is read per group of four bases (with [s] advanced); a byte past the end
    of the input list reads as 0. *)
Fixpoint dna_unpack (s : list Z) (len : nat) {struct len} : list Z :=
  let byte := hd 0 s in
  match len with
  | O => []
  | S O => [base byte 6]
  | S (S O) => [base byte 6; base byte 4]
  | S (S (S O)) => [base byte 6; base byte 4; base byte 2]
  | S (S (S (S len'))) =>
      base byte 6 :: base byte 4 :: base byte 2 :: base byte 0
        :: dna_unpack (tl s) len'
  end.

Definition Uncompress_DNA (s : list Z) (len : Z) : list Z :=
  dna_unpack s (Z.to_nat len).

(** ** vcEncode *)

(** The bit accumulator: [ocode] with [rem] free bits, and the 64-bit words
    already stored through [ob], in order. *)
Record enc_state := mkEnc
  { ocode : Z;
    erem  : Z;
    owords : list Z }.

(** The macro [OCODE(L,C)]. *)
Definition OCODE (L C : Z) (st : enc_state) : enc_state :=
  let rem := erem st - L in
  if rem <=? 0 then
    let oc := Z.lor (ocode st) (Z.shiftr C (- rem)) in
    if rem <? 0
    then mkEnc (u64 (Z.shiftl C (rem + 64))) (rem + 64) (owords st ++ [oc])
    else mkEnc 0 64 (owords st ++ [oc])
  else mkEnc (Z.lor (ocode st) (u64 (Z.shiftl C rem))) rem (owords st).

Inductive enc_exit :=
| EncBreak                                (* left the loop with [k < ilen] *)
| EncDone (st : enc_state) (tbits : Z).   (* ran to [k = ilen] *)

Definition state_code (s : vc_state) : Z :=
  match s with EMPTY => 0 | FILLED => 1 | CODED_WITH => 2 | CODED_READ => 3 end.

(** Byte [k] of the array [codebits] as it lies in memory. *)
Definition codebits_byte (v : VGPcompressor) (k : Z) : Z :=
  nth (Z.to_nat (k mod 2)) (word_bytes (isbig v) 2 (codebits v (k / 2))) 0.

(** [clens[esc]] and [cbits[esc]] for the int [esc].  With [esc = -1] (no
    escape) the two reads fall just before the arrays: [clens[-1]] is the
    last byte of [codebits], [cbits[-1]] the half-word of [state] at the
    higher address. *)
Definition esc_len (v : VGPcompressor) : Z :=
  if esc_code v =? -1 then codebits_byte v 511 else codelens v (esc_code v).

Definition esc_bits (v : VGPcompressor) : Z :=
  if esc_code v =? -1
  then (if isbig v then state_code (state v) else 0)
  else codebits v (esc_code v).

(** The loop over [ibytes].  [None]: the byte has no code and [esc] is
    neither an index of the tables nor -1; such a compressor is made only by
    [vcDeserialize] from a blob that [vcSerialize] did not write. *)
Fixpoint encode_loop (v : VGPcompressor) (ibits : Z) (ibytes : list Z)
         (st : enc_state) (tbits : Z) : option enc_exit :=
  match ibytes with
  | [] => Some (EncDone st tbits)
  | b :: rest =>
      let x := u8 b in
      let n := codelens v x in
      if n =? 0 then
        let esc := esc_code v in
        if (-1 <=? esc) && (esc <? 256) then
          let n := esc_len v in
          let c := esc_bits v in
          let tbits := to_int (tbits + (8 + n)) in
          if tbits >? ibits then Some EncBreak
          else encode_loop v ibits rest (OCODE 8 x (OCODE n c st)) tbits
        else None
      else
        let tbits := to_int (tbits + n) in
        if tbits >? ibits then Some EncBreak
        else encode_loop v ibits rest (OCODE n (codebits v x) st) tbits
  end.

(** [bcode[k]]: byte [k] of [ocode] as it lies in memory. *)
Definition bcode (big : bool) (w : Z) (k : Z) : Z :=
  nth (Z.to_nat k) (word_bytes big 8 w) 0.

(** [k] running from [hi] down to [lo], at most [n] values. *)
Fixpoint down_from (n : nat) (hi lo : Z) : list Z :=
  match n with
  | O => []
  | S n' => if lo <=? hi then hi :: down_from n' (hi - 1) lo else []
  end.

Fixpoint up_to (n : nat) (k hi : Z) : list Z :=
  match n with
  | O => []
  | S n' => if k <? hi then k :: up_to n' (k + 1) hi else []
  end.

(** The bytes of the partly filled last word. *)
Definition tail_bytes (big : bool) (w rem : Z) : list Z :=
  if big
  then map (bcode big w) (up_to 8 0 (Z.shiftr (71 - rem) 3))
  else map (bcode big w) (down_from 8 7 (7 - Z.shiftr (63 - rem) 3)).

(** The result is the output buffer as far as it was written, and the number
    of bits returned.  [ilen] is the length of [ibytes]. *)
Definition vcEncode (vc : handle) (ibytes : list Z) : option (list Z * Z) :=
  match vc with
  | DNAcompressor => Some (Compress_DNA ibytes)
  | Owned v =>
      if is_coded (state v) then
        let ilen := Z.of_nat (length ibytes) in
        let ibits := to_int (Z.shiftl ilen 3) in
        let st0 := mkEnc (if isbig v then 0x4000000000000000 else 0) 62 [] in
        match encode_loop v ibits ibytes st0 2 with
        | None => None
        | Some EncBreak => Some (0xff :: ibytes, to_int (ibits + 8))
        | Some (EncDone st tbits) =>
            let buf := flat_map (word_bytes (isbig v) 8) (owords st)
                       ++ tail_bytes (isbig v) (ocode st) (erem st) in
            let buf :=
              if (64 <=? tbits) && negb (isbig v)
              then wr_range buf 0
                     (word_bytes (isbig v) 8
                        (u64 (Z.shiftl (bytes_word (isbig v) (rd_range buf 0 8)) 2)))
              else buf in
            Some (buf, tbits)
        end
      else None
  end.

(** ** vcDecode *)

Record dec_state := mkDec
  { icode : Z;
    ncode : Z;
    drem  : Z;
    nem   : Z;
    dlen  : Z;      (* [ilen], the bits still to decode *)
    dp    : nat }.  (* [p], as a byte offset into the input buffer *)

(** The loop [for (k = 0; k < nbits; k += 8)] that ORs the byte at [q],
    shifted left by [56-k], into [w] and advances [q]; [q] starts at
    offset [off]. *)
Fixpoint gather (n : nat) (buf : list Z) (off : nat) (k nbits : Z) (w : Z) : Z :=
  match n with
  | O => w
  | S n' =>
      if k <? nbits
      then gather n' buf (S off) (k + 8) nbits
                  (Z.lor w (u64 (Z.shiftl (rd buf off) (56 - k))))
      else w
  end.

(** The [while (rem < 16)] loop of the macro [GET]. *)
Fixpoint GET_refill (fuel : nat) (big : bool) (buf : list Z) (st : dec_state)
  : option dec_state :=
  match fuel with
  | O => None
  | S f =>
      if drem st <? 16 then
        let z := 64 - drem st in
        let ic := Z.lor (icode st) (Z.shiftr (ncode st) (drem st)) in
        if nem st >? z
        then Some (mkDec ic (u64 (Z.shiftl (ncode st) z)) 64 (nem st - z)
                         (dlen st) (dp st))
        else
          let rem := drem st + nem st in
          if rem >=? dlen st
          then Some (mkDec ic (ncode st) rem (nem st) (dlen st) (dp st))
          else if dlen st - rem <? 64
          then
            let nem' := dlen st - rem in
            GET_refill f big buf
              (mkDec ic (gather 8 buf (dp st) 0 nem' 0) rem nem' (dlen st) (dp st))
          else
            GET_refill f big buf
              (mkDec ic (bytes_word big (rd_range buf (dp st) 8)) rem 64
                     (dlen st) (dp st + 8))
      else Some st
  end.

(** The macro [GET(n)]. *)
Definition GET (n : Z) (big : bool) (buf : list Z) (st : dec_state)
  : option dec_state :=
  GET_refill 100 big buf
    (mkDec (u64 (Z.shiftl (icode st) n)) (ncode st) (drem st - n) (nem st)
           (dlen st - n) (dp st)).

(** [lens[c]] for the plain char [c] read from [lookup].  Where plain char
    is signed a symbol of 128 and more is a negative index, and the byte
    read is one of [codebits], which precedes [codelens] in the struct. *)
Definition lens_char (schar : bool) (v : VGPcompressor) (c : Z) : Z :=
  if char_index schar c <? 0 then codebits_byte v (512 + char_index schar c)
  else codelens v c.

(** One turn of [while (ilen > 0)]: the new state and the byte stored to
    [*o++].  [None]: the table cell was never assigned.  [c] and [esc] are
    chars: they are compared as 8-bit values. *)
Definition decode_step (schar : bool) (v : VGPcompressor) (buf : list Z)
           (st : dec_state) : option (dec_state * Z) :=
  match lookup v (Z.shiftr (icode st) 48) with
  | None => None
  | Some c =>
      let esc := u8 (esc_code v) in
      let n := lens_char schar v c in
      match GET n (isbig v) buf st with
      | None => None
      | Some st1 =>
          if c =? esc then
            let c' := u8 (Z.shiftr (icode st1) 56) in
            match GET 8 (isbig v) buf st1 with
            | None => None
            | Some st2 => Some (st2, c')
            end
          else Some (st1, c)
      end
  end.

Fixpoint decode_loop (fuel : nat) (schar : bool) (v : VGPcompressor)
         (buf : list Z) (st : dec_state) : option (list Z) :=
  if 0 <? dlen st then
    match fuel with
    | O => None
    | S f =>
        match decode_step schar v buf st with
        | None => None
        | Some (st', c) => option_map (cons c) (decode_loop f schar v buf st')
        end
    end
  else Some [].

(** [FLIP64] on each complete word: [for (k = 64; k <= ilen; k += 64)]. *)
Fixpoint flip_words (n : nat) (buf : list Z) (off : nat) : list Z :=
  match n with
  | O => buf
  | S n' => flip_words n' (wr_range buf off (rev (rd_range buf off 8))) (off + 8)
  end.

(** The decoded bytes written to [obytes]; the value returned by the C
    function is their number. *)
Definition vcDecode (schar : bool) (vc : handle) (ilen : Z) (ibytes : list Z)
  : option (list Z) :=
  match vc with
  | DNAcompressor => Some (Uncompress_DNA ibytes (Z.shiftr ilen 1))
  | Owned v =>
      if is_coded (state v) then
        if rd ibytes 0 =? 255 then
          let olen := Z.shiftr ilen 3 - 1 in
          Some (rd_range ibytes 1 (Z.to_nat olen))
        else
          let big := isbig v in
          let inbig := Z.land (rd ibytes 0) 0x40 in
          let buf :=
            if (inbig =? 0) && (64 <=? ilen)
            then wr_range ibytes 0
                   (word_bytes big 8 (Z.shiftr (bytes_word big (rd_range ibytes 0 8)) 2))
            else ibytes in
          let buf :=
            if inbig =? big_flag big then buf
            else flip_words (Z.to_nat (ilen / 64)) buf 0 in
          let '(ic, p) :=
            if ilen <? 64 then (gather 8 buf 0 0 ilen 0, 0%nat)
            else (bytes_word big (rd_range buf 0 8), 8%nat) in
          let ilen' := ilen - 2 in
          let st0 := mkDec (u64 (Z.shiftl ic 2)) 0
                           (if 62 >? ilen' then ilen' else 62) 0 ilen' p in
          decode_loop (64 * Z.to_nat ilen + 64) schar v buf st0
      else None
  end.

Fixpoint count_zeros (row : list bool) : nat :=
  match row with
  | [] => O
  | b :: row' => (if b then 0 else 1) + count_zeros row'
  end.

(** [2^(12 - l)]: the weight of a code of length [l], scaled by [2^12]. *)
Definition K (l : Z) : Z := 2 ^ (HUFF_CUTOFF - l).

Fixpoint kraft12 (leng : list Z) : Z :=
  match leng with
  | [] => 0
  | l :: leng' => K l + kraft12 leng'
  end.

(** The rows of the matrix as a chain: [N] base picks in every row, and as
    many merged picks as there are pairs in the row it was built from. *)
Definition hd_len (M : nat) (matrix : list (list bool)) : nat :=
  match matrix with
  | [] => M
  | R :: _ => length R
  end.

Fixpoint chain_ok (N M : nat) (matrix : list (list bool)) : Prop :=
  match matrix with
  | [] => True
  | R :: m' => count_ones R = N /\ count_zeros R = (hd_len M m' / 2)%nat /\ chain_ok N M m'
  end.

(** The weight of a byte in the scaled sum: only bytes with a code count. *)
Definition G (l : Z) : Z := if 0 <? l then K l else 0.

Definition table_sum (lens : Z -> Z) (all : list Z) : Z :=
  fold_right (fun i acc => G (lens i) + acc) 0 all.

(** The Kraft sum as a rational number, as the specification writes it. *)
Definition kraft_term (l : Z) : Q :=
  if 0 <? l then (1 / inject_Z (2 ^ l))%Q else 0%Q.

Definition kraft_sum (lens : Z -> Z) : Q :=
  fold_right (fun i acc => (kraft_term (lens i) + acc)%Q) 0%Q bytes256.

Record codec_parts (v : VGPcompressor) (partial : bool)
       (e : Z) (code leng bits : list Z) : Prop :=
  { cp_collect : exists code0, collect (hist v) partial = (e, code0) /\
                               code = qsort (HSORT (hist v)) code0;
    cp_leng : leng = code_lengths (map (hist v) code);
    cp_bits : canonical_bits leng = Some bits;
    cp_esc : -1 <= e < 256;
    cp_range : forall x, In x code -> 0 <= x < 256;
    cp_nodup : NoDup code;
    cp_ncode : (length code <= 256)%nat;
    cp_present : forall x, 0 <= x < 256 -> 0 < hist v x -> In x code;
    cp_nopartial : partial = false -> forall x, In x code -> 0 < hist v x;
    cp_len_leng : length leng = length code;
    cp_leng_range : Forall (fun l => 0 <= l <= 12) leng;
    cp_kraft : kraft12 leng <= 2 ^ 12;
    cp_len_bits : length bits = length code;
    cp_bits_range : Forall (fun b => 0 <= b < 65536) bits }.

Definition codec_of (v : VGPcompressor) (partial : bool)
           (e : Z) (code leng bits : list Z) : VGPcompressor :=
  let lens := scatter code (map u8 leng) (fun _ => 0) in
  let bitv := scatter code bits (fun _ => 0) in
  mkVC (isbig v) CODED_WITH bitv lens (fill_lookup lens bitv (lookup v))
       (if partial then e else -1) (hist v).

(** ** Reachable compressors *)

Definition is_byte (b : Z) : Prop := 0 <= b < 256.

(** Compressors in state FILLED: made by [vcCreate] and [vcAddToTable], on
    a host of either byte order and either kind of plain char. *)
Inductive filled : VGPcompressor -> Prop :=
| filled_create schar big bytes v :
    vcAddToTable schar (vcCreate big) bytes = Some v -> filled v
| filled_add schar v bytes v' :
    filled v -> vcAddToTable schar v bytes = Some v' -> filled v'.

(** Compressors with a codec: made by [vcCreateCodec] from a filled one, or
    by [vcDeserialize] from a blob of bytes. *)
Inductive coded : VGPcompressor -> Prop :=
| coded_with v partial c :
    filled v -> vcCreateCodec v partial = Some c -> coded c
| coded_read big blob :
    Forall is_byte blob -> coded (vcDeserialize big blob).

(** ** The encoder's bit count *)

Definition enc_start (v : VGPcompressor) : enc_state :=
  mkEnc (if isbig v then 0x4000000000000000 else 0) 62 [].

(** The encoder leaves its loop early and writes the literal copy. *)
Definition takes_fallback (v : VGPcompressor) (x : list Z) : Prop :=
  encode_loop v (to_int (Z.shiftl (Z.of_nat (length x)) 3)) x (enc_start v) 2
  = Some EncBreak.

(** The largest value of an [int]. *)
Definition INT_MAX : Z := 2 ^ 31 - 1.

(** The bits a byte adds to [tbits]: its code, or the escape code and 8. *)
Definition byte_cost (v : VGPcompressor) (b : Z) : Z :=
  let n := codelens v (u8 b) in
  if n =? 0 then 8 + esc_len v else n.

Fixpoint sum_cost (v : VGPcompressor) (x : list Z) : Z :=
  match x with
  | [] => 0
  | b :: rest => byte_cost v b + sum_cost v rest
  end.

(** The size of the complete compressed form: the 2-bit tag and the codes. *)
Definition total_bits (v : VGPcompressor) (x : list Z) : Z := 2 + sum_cost v x.

(** ** Well-formed code tables *)

Record wf_codec (c : VGPcompressor) : Prop :=
  { wf_lens : forall i, 0 <= codelens c i < 256;
    wf_bits : forall i, 0 <= codebits c i < 65536;
    wf_zero : forall i, codelens c i = 0 -> codebits c i = 0;
    wf_esc : - 2 ^ 31 <= esc_code c < 2 ^ 31;
    wf_look : forall x,
        lookup c x = fill_lookup (codelens c) (codebits c) (fun _ => None) x }.

(** ** Comparing compressors, and a blob as another host would write it *)

(** The code tables of [d] are those of [c]. *)
Definition same_codec (c d : VGPcompressor) : Prop :=
  (forall i, 0 <= i < 256 ->
             codelens d i = codelens c i /\ codebits d i = codebits c i) /\
  esc_code d = esc_code c /\
  (forall x, lookup d x = lookup c x).

(** Byte-swapping the [bits] entry of each of the next [n] table entries. *)
Fixpoint swap_entries (n : nat) (bs : list Z) : list Z :=
  match n with
  | O => bs
  | S n' =>
      match bs with
      | l :: rest =>
          if 0 <? l then
            match rest with
            | b0 :: b1 :: rest' => l :: b1 :: b0 :: swap_entries n' rest'
            | _ => l :: rest
            end
          else l :: swap_entries n' rest
      | [] => []
      end
  end.

(** The cross-endian simulation of the specification: the stored endian
    flag flipped, the 4-byte escape field and every 2-byte [bits] entry
    byte-swapped. *)
Definition cross_endian (blob : list Z) : list Z :=
  match blob with
  | f :: e0 :: e1 :: e2 :: e3 :: rest =>
      (1 - f) :: e3 :: e2 :: e1 :: e0 :: swap_entries 256 rest
  | _ => blob
  end.

Definition deser_inv (st : nat * (Z -> Z) * (Z -> Z)) : Prop :=
  let '(_, lens, bits) := st in
  forall i, 0 <= lens i < 256 /\ 0 <= bits i < 65536 /\ (lens i = 0 -> bits i = 0).

Definition ser_bytes (writer : bool) (c : VGPcompressor) : list Z :=
  big_flag writer :: word_bytes writer 4 (u32 (esc_code c))
    ++ flat_map (serial_entry writer (codelens c) (codebits c)) bytes256.

(** ** Rows of the coin filter with their weights *)

(** The weights of the base picks of a row, in order. *)
Definition coins_of (row : list (Z * bool)) : list Z :=
  map fst (filter snd row).

(** Row [R] was built from row [R']: the merged picks among the first [s]
    entries of [R] cover the first [2p] entries of [R'], and those hold no
    more base picks than the first [s] entries of [R]. *)
Definition mono (R R' : list bool) : Prop :=
  forall s, (s <= length R)%nat ->
            (count_ones (firstn (2 * (s - count_ones (firstn s R))) R')
             <= count_ones (firstn s R))%nat.

Fixpoint mono_chain (base : list bool) (matrix : list (list bool)) : Prop :=
  match matrix with
  | [] => True
  | R :: m' => mono R (hd base m') /\ mono_chain base m'
  end.

(** Lengths in non-increasing order. *)
Fixpoint desc (leng : list Z) : Prop :=
  match leng with
  | [] => True
  | l :: leng' => match leng' with [] => True | l' :: _ => l' <= l end /\ desc leng'
  end.

(** ** Prefix codes and the decoder table *)

(** The code [(b1, l1)] is a prefix of the code [(b2, l2)], most
    significant bit first. *)
Definition is_prefix (b1 l1 b2 l2 : Z) : Prop :=
  l1 <= l2 /\ Z.shiftr b2 (l2 - l1) = b1.

Definition prefix_code (c : VGPcompressor) : Prop :=
  (forall i, 0 <= i < 256 -> 0 < codelens c i ->
             0 <= codebits c i < 2 ^ codelens c i) /\
  (forall i j, 0 <= i < 256 -> 0 <= j < 256 -> i <> j ->
               0 < codelens c i -> 0 < codelens c j ->
               ~ is_prefix (codebits c i) (codelens c i) (codebits c j) (codelens c j)).

(** [lookup[x] = i] exactly when [i] has a code and the top [length[i]]
    bits of the 16-bit value [x] are [bits[i]]. *)
Definition lookup_spec (c : VGPcompressor) : Prop :=
  forall x i, 0 <= x < 65536 ->
    (lookup c x = Some i <->
     0 <= i < 256 /\ 0 < codelens c i /\
     Z.shiftr x (16 - codelens c i) = codebits c i).

(** The codes [bits] of the lengths [leng] tile the code space downwards
    from position [T] (in units of [2^-12]): each code occupies the [K l]
    units just below the previous one. *)
Fixpoint positions (T : Z) (leng bits : list Z) : Prop :=
  match leng, bits with
  | [], [] => True
  | l :: leng', b :: bits' =>
      0 <= b /\ b * K l + K l = T /\ positions (T - K l) leng' bits'
  | _, _ => False
  end.

(** Two codes occupy disjoint parts of the code space. *)
Definition disjoint_codes (l1 b1 l2 b2 : Z) : Prop :=
  b1 * K l1 + K l1 <= b2 * K l2 \/ b2 * K l2 + K l2 <= b1 * K l1.

(** The codes of a byte table lie in the code space and are disjoint. *)
Definition tiled (lens bitv : Z -> Z) : Prop :=
  (forall i, 0 <= i < 256 -> 0 < lens i ->
             lens i <= 12 /\ 0 <= bitv i /\
             bitv i * K (lens i) + K (lens i) <= 2 ^ 12) /\
  (forall i j, 0 <= i < 256 -> 0 <= j < 256 -> i <> j ->
               0 < lens i -> 0 < lens j ->
               disjoint_codes (lens i) (bitv i) (lens j) (bitv j)).

(** The test made by the decoder table on a 16-bit value. *)
Definition in_range_b (lens bitv : Z -> Z) (x i : Z) : bool :=
  (0 <? lens i) && (Z.shiftr x (16 - lens i) =? bitv i).

Definition flag_count (f : bool) : nat := if f then 1 else 0.

(** ** Concrete compressors used in the examples *)

Definition is_some {A : Type} (o : option A) : bool :=
  match o with Some _ => true | None => false end.

(** A fresh compressor after one call of [vcAddToTable], on a host where
    plain char is unsigned. *)
Definition filled_with (big : bool) (bytes : list Z) : VGPcompressor :=
  match vcAddToTable false (vcCreate big) bytes with
  | Some v => v
  | None => vcCreate big
  end.

(** The compressor [vcCreateCodec] turns [v] into. *)
Definition codec_or (v : VGPcompressor) (partial : bool) : VGPcompressor :=
  match vcCreateCodec v partial with
  | Some c => c
  | None => v
  end.

(** A little-endian host, the histogram of the two bytes "ab". *)
Definition v_ab : VGPcompressor := filled_with false [97; 98].
Definition c_ab : VGPcompressor := codec_or v_ab false.
Definition c_ab_esc : VGPcompressor := codec_or v_ab true.

(** [2^28] times the byte 'c'. *)
Definition x_wrap : list Z := repeat 99 (Z.to_nat (2 ^ 28)).

(** 62 times the byte 'a'. *)
Definition x62 : list Z := repeat 97 62.

(** A histogram with the single byte 'a'. *)
Definition v_a : VGPcompressor := filled_with false [97].

(** A histogram with the bytes 254 and 255, and no escape. *)
Definition c_ff : VGPcompressor := codec_or (filled_with false [254; 255]) false.

(** Counts whose difference does not fit an [int]. *)
Definition hist_wide : Z -> Z := upd (upd (fun _ => 0) 0 2147483650) 1 1.

(** Counts whose sum does not fit 64 bits. *)
Definition v_overflow : VGPcompressor :=
  mkVC false FILLED (fun _ => 0) (fun _ => 0) (fun _ => None) 0
       (upd (upd (fun _ => 0) 97 (2 ^ 63)) 98 (2 ^ 63)).

(** A blob in which the bytes 0 and 1 carry the same one-bit code. *)
Definition blob_same_code : list Z :=
  [0; 255; 255; 255; 255; 1; 0; 0; 1; 0; 0] ++ repeat 0 254.

(** "ACGTACGTAC" *)
Definition dna10 : list Z := [65; 67; 71; 84; 65; 67; 71; 84; 65; 67].

(** ** vcMaxSerialSize *)

(** [257 + sizeof(int) + 256*sizeof(uint16)], with a 4-byte [int]. *)
Definition vcMaxSerialSize : Z := 257 + 4 + 256 * 2.

(** ** Vocabulary of the further properties *)

(** The bytes that carry a code in the tables of [c]. *)
Definition coded_bytes (c : VGPcompressor) : list Z :=
  filter (fun i => 0 <? codelens c i) bytes256.

(** The bytes [vcCreateCodec] gives a place in [code]: those with a non-zero
    count, and the escape byte of the result. *)
Definition takes_part (v : VGPcompressor) (partial : bool) (c : VGPcompressor)
           (i : Z) : Prop :=
  0 < hist v i \/ (partial = true /\ i = esc_code c).

(** [Base[Number[c]]]: the letter a base comes back as. *)
Definition base_of (c : Z) : Z := nth (Z.to_nat (number c)) Base 0.

(** The letters A, C, G, T in either case, and the lower-case letter. *)
Definition is_dna (c : Z) : Prop := In c [65; 67; 71; 84; 97; 99; 103; 116].

Definition to_lower (c : Z) : Z := if c <? 97 then c + 32 else c.

(** The code word written for one input byte, a number of [byte_cost] bits:
    the code of the byte, or the escape code followed by the byte itself. *)
Definition byte_word (v : VGPcompressor) (b : Z) : Z :=
  if codelens v (u8 b) =? 0
  then esc_bits v * 2 ^ 8 + u8 b
  else codebits v (u8 b).

(** The code words of a string written one after the other, first byte in
    the most significant position. *)
Fixpoint stream_value (v : VGPcompressor) (x : list Z) : Z :=
  match x with
  | [] => 0
  | b :: rest => byte_word v b * 2 ^ sum_cost v rest + stream_value v rest
  end.

(** The byte can be written by the encoder: it has a code, or there is an
    escape code. *)
Definition encodable (c : VGPcompressor) (b : Z) : Prop :=
  codelens c (u8 b) = 0 -> 0 <= esc_code c < 256.

(** The symbol the decoder looks up for the input byte [b]: the byte, or the
    escape byte when [b] has no code. *)
Definition symbol_of (c : VGPcompressor) (b : Z) : Z :=
  if codelens c (u8 b) =? 0 then esc_code c else u8 b.

(** The decoder indexes [lens] with the symbol inside the table: plain char
    is unsigned, or the symbol is below 128. *)
Definition char_safe (schar : bool) (c : VGPcompressor) (b : Z) : Prop :=
  schar = true -> symbol_of c b < 128.

(** What the encoder has fixed of the first 64-bit word of its output: while
    no word is stored, [ocode] holds a number of fewer than [63 - rem] bits
    above [rem] free bits; afterwards the first stored word is below
    [2^63]. *)
Definition head_inv (st : enc_state) : Prop :=
  match owords st with
  | [] => 1 <= erem st <= 62 /\
          exists m, 0 <= m < 2 ^ (63 - erem st) /\ ocode st = m * 2 ^ erem st
  | F :: _ => 0 <= F < 2 ^ 63
  end.

(** The 64-bit words of a list read as one number, first word in the most
    significant position. *)
Fixpoint be_words (ws : list Z) : Z :=
  match ws with
  | [] => 0
  | w :: r => w * 2 ^ (64 * Z.of_nat (length r)) + be_words r
  end.

(** The encoder's state after [t] bits: the words stored and the
    [64 - rem] bits of the accumulator together hold the number [m]. *)
Definition gen_inv (st : enc_state) (t m : Z) : Prop :=
  Forall (fun w => 0 <= w < 2 ^ 64) (owords st) /\
  1 <= erem st <= 64 /\
  64 * Z.of_nat (length (owords st)) + (64 - erem st) = t /\
  exists mo, 0 <= mo < 2 ^ (64 - erem st) /\
             ocode st = mo * 2 ^ erem st /\
             be_words (owords st) * 2 ^ (64 - erem st) + mo = m.

(** The bytes of the buffer from offset [p] on hold the [M]-bit number [Q]
    as the decoder of a host of byte order [big] reads it: whole 64-bit
    words first, then the bytes of a last partial word, most significant
    first. *)
Inductive unread (big : bool) (buf : list Z) : nat -> Z -> Z -> Prop :=
| unread_nil p : unread big buf p 0 0
| unread_tail p Q M :
    0 < M < 64 -> 0 <= Q < 2 ^ M ->
    gather 8 buf p 0 M 0 = Q * 2 ^ (64 - M) ->
    unread big buf p Q M
| unread_word p Q M :
    64 <= M -> 0 <= Q < 2 ^ M ->
    bytes_word big (rd_range buf p 8) = Q / 2 ^ (M - 64) ->
    unread big buf (p + 8) (Q mod 2 ^ (M - 64)) (M - 64) ->
    unread big buf p Q M.

(** The decoder's state while part of the stream is still in the buffer.
    [R] is what is left of the stream, a number of [L] bits: [icode] holds
    its first [rem] bits, left-aligned; [ncode] holds the next [nem] bits,
    left-aligned; the bits after those are in the buffer from [p] on. *)
Definition pre_a (big : bool) (buf : list Z) (st : dec_state) (R L : Z) : Prop :=
  dlen st = L /\
  0 <= drem st <= 64 /\ 0 <= nem st <= 64 /\ drem st + nem st <= L /\
  icode st = R / 2 ^ (L - drem st) * 2 ^ (64 - drem st) /\
  ncode st = (R / 2 ^ (L - drem st - nem st)) mod 2 ^ nem st * 2 ^ (64 - nem st) /\
  unread big buf (dp st) (R mod 2 ^ (L - drem st - nem st))
         (L - drem st - nem st).

(** The decoder's state once all that is left of the stream is in [icode]:
    its top [L] bits are [R]; what lies below them does not matter. *)
Definition mode_b (st : dec_state) (R L : Z) : Prop :=
  dlen st = L /\
  0 <= L <= drem st /\ drem st <= 64 /\ 0 <= nem st /\
  0 <= ncode st < 2 ^ 64 /\ 0 <= icode st < 2 ^ 64 /\
  icode st / 2 ^ (64 - L) = R.

(** The state at the top of the decoder's loop. *)
Definition dec_mode (big : bool) (buf : list Z) (st : dec_state) (R L : Z) : Prop :=
  (pre_a big buf st R L /\ 16 <= drem st /\ drem st < L) \/ mode_b st R L.

(** The accumulator holds [64 - rem] bits, and with the words already
    stored that makes [t] bits. *)
Definition enc_inv (st : enc_state) (t : Z) : Prop :=
  1 <= erem st <= 64 /\
  64 * Z.of_nat (length (owords st)) + (64 - erem st) = t.

(** Twenty times the bytes 'b', 'a', then bytes of which two have no code. *)
Definition x_long : list Z := concat (repeat [98; 97] 20) ++ [99; 97; 98; 120; 98].

(** The decoder's window on the 9-bit stream 0 01000001: in the codec of the
    bytes 254 and 255 the bit 0 is the code of 255. *)
Definition st_ff : dec_state := mkDec (65 * 2 ^ 55) 0 9 0 9 0.

#[local] Arguments coin_row : simpl never.

(** * Structure of the coin filter *)

Lemma Some_inj (A : Type) (a b : A) : Some a = Some b -> a = b.
Proof. intro H. injection H. auto. Qed.

Lemma list_pair_ind (A : Type) (P : list A -> Prop) :
  P [] -> (forall a, P [a]) ->
  (forall a b l, P l -> P (a :: b :: l)) -> forall l, P l.
Proof.
  intros H0 H1 H2.
  assert (H : forall l, P l /\ forall a, P (a :: l)).
  { induction l as [|b l [IH1 IH2]]; split; auto. }
  intro l; apply H.
Qed.

Lemma coin_row_short cb lc :
  (length lc < 2)%nat -> coin_row cb lc = map (fun c => (c, true)) cb.
Proof.
  destruct lc as [|a [|b lc]]; simpl; intros; try reflexivity; lia.
Qed.

Lemma coin_row_nil a b lc :
  coin_row [] (a :: b :: lc) = (u64 (a + b), false) :: coin_row [] lc.
Proof. reflexivity. Qed.

Lemma coin_row_cons c cb a b lc :
  coin_row (c :: cb) (a :: b :: lc) =
  if c <=? u64 (a + b) then (c, true) :: coin_row cb (a :: b :: lc)
  else (u64 (a + b), false) :: coin_row (c :: cb) lc.
Proof. reflexivity. Qed.

Lemma count_ones_zeros row : (count_ones row + count_zeros row = length row)%nat.
Proof. induction row as [|[] row IH]; simpl; lia. Qed.

Lemma count_ones_app r1 r2 : count_ones (r1 ++ r2) = (count_ones r1 + count_ones r2)%nat.
Proof. induction r1 as [|[] r1 IH]; simpl; lia. Qed.

Lemma count_zeros_app r1 r2 : count_zeros (r1 ++ r2) = (count_zeros r1 + count_zeros r2)%nat.
Proof. induction r1 as [|[] r1 IH]; simpl; lia. Qed.

Lemma count_ones_firstn s row : (count_ones (firstn s row) <= count_ones row)%nat.
Proof.
  rewrite <- (firstn_skipn s row) at 2. rewrite count_ones_app. lia.
Qed.

Lemma count_zeros_firstn s row : (count_zeros (firstn s row) <= count_zeros row)%nat.
Proof.
  rewrite <- (firstn_skipn s row) at 2. rewrite count_zeros_app. lia.
Qed.

Lemma count_ones_all_true (A : Type) (l : list A) (f : A -> Z) :
  count_ones (map snd (map (fun c => (f c, true)) l)) = length l.
Proof. induction l; simpl; auto. Qed.

Lemma count_zeros_all_true (A : Type) (l : list A) (f : A -> Z) :
  count_zeros (map snd (map (fun c => (f c, true)) l)) = O.
Proof. induction l; simpl; auto. Qed.

(** Every base coin is emitted once, and every pair of the previous row once. *)
Lemma coin_row_counts lc : forall cb,
  count_ones (map snd (coin_row cb lc)) = length cb /\
  count_zeros (map snd (coin_row cb lc)) = (length lc / 2)%nat.
Proof.
  induction lc as [| a | a b lc IH] using list_pair_ind; intro cb.
  - rewrite coin_row_short by (simpl; lia).
    rewrite (count_ones_all_true _ cb (fun c => c)), (count_zeros_all_true _ cb (fun c => c)).
    auto.
  - rewrite coin_row_short by (simpl; lia).
    rewrite (count_ones_all_true _ cb (fun c => c)), (count_zeros_all_true _ cb (fun c => c)).
    auto.
  - assert (E : (length (a :: b :: lc) / 2 = S (length lc / 2))%nat).
    { change (length (a :: b :: lc)) with (2 + length lc)%nat.
      replace (2 + length lc)%nat with (length lc + 1 * 2)%nat by lia.
      rewrite Nat.div_add by lia. lia. }
    rewrite E.
    induction cb as [|c cb IHcb].
    + rewrite coin_row_nil. simpl. destruct (IH []) as [H1 H2].
      simpl in H1. rewrite H1, H2. auto.
    + rewrite coin_row_cons. destruct (c <=? u64 (a + b)).
      * simpl. destruct IHcb as [H1 H2]. rewrite H1, H2. auto.
      * simpl. destruct (IH (c :: cb)) as [H1 H2]. rewrite H1, H2. auto.
Qed.

Lemma coin_row_length cb lc :
  length (coin_row cb lc) = (length cb + length lc / 2)%nat.
Proof.
  destruct (coin_row_counts lc cb) as [H1 H2].
  rewrite <- (length_map snd), <- count_ones_zeros. lia.
Qed.

(** * The Kraft sum of the computed lengths *)

Lemma K_pos l : 0 <= l <= 12 -> 1 <= K l.
Proof.
  intros H. unfold K, HUFF_CUTOFF.
  assert (0 < 2 ^ (12 - l)) by (apply Z.pow_pos_nonneg; lia). lia.
Qed.

Lemma K_succ l : 0 <= l <= 11 -> K l = 2 * K (l + 1).
Proof.
  intros H. unfold K, HUFF_CUTOFF.
  replace (12 - l) with (Z.succ (12 - (l + 1))) by lia.
  rewrite Z.pow_succ_r by lia. reflexivity.
Qed.

Lemma K_mono l B : 0 <= l <= B -> B <= 12 -> K B <= K l.
Proof.
  intros H HB. unfold K, HUFF_CUTOFF. apply Z.pow_le_mono_r; lia.
Qed.

Lemma length_incr_prefix j : forall leng, length (incr_prefix j leng) = length leng.
Proof.
  induction j as [|j IH]; intros [|l leng]; simpl; auto.
Qed.

Lemma incr_prefix_kraft B : 0 <= B <= 11 ->
  forall j leng,
    Forall (fun l => 0 <= l <= B) leng -> (j <= length leng)%nat ->
    kraft12 (incr_prefix j leng) + Z.of_nat j * K (B + 1) <= kraft12 leng /\
    Forall (fun l => 0 <= l <= B + 1) (incr_prefix j leng).
Proof.
  intros HB. induction j as [|j IH]; intros leng Hall Hlen.
  - split.
    + destruct leng; simpl; lia.
    + replace (incr_prefix 0 leng) with leng by (destruct leng; reflexivity).
      eapply Forall_impl; [|exact Hall]. simpl; intros; lia.
  - destruct leng as [|l leng]; [simpl in Hlen; lia|].
    inversion Hall as [|? ? Hl Hall']; subst.
    simpl in Hlen. destruct (IH leng Hall' ltac:(lia)) as [IH1 IH2].
    split.
    + cbn [incr_prefix kraft12]. rewrite (K_succ l) by lia.
      assert (K (B + 1) <= K (l + 1)) by (apply K_mono; lia).
      rewrite Nat2Z.inj_succ. lia.
    + cbn [incr_prefix]. constructor; [lia|exact IH2].
Qed.

Lemma chain_ok_snoc N M R : forall X,
  chain_ok N (length R) X -> count_ones R = N -> count_zeros R = (M / 2)%nat ->
  chain_ok N M (X ++ [R]).
Proof.
  induction X as [|R0 X IH]; simpl; intros H H1 H2.
  - auto.
  - destruct H as (Ha & Hb & Hc). repeat split; auto.
    rewrite Hb. destruct X; reflexivity.
Qed.

Lemma coin_filter_chain levels cb : forall lc,
  chain_ok (length cb) (length lc) (coin_filter levels cb lc).
Proof.
  induction levels as [|l IH]; intro lc; simpl; auto.
  destruct (coin_row_counts lc cb) as [H1 H2].
  apply chain_ok_snoc; auto.
  rewrite length_map. rewrite <- (length_map fst). apply IH.
Qed.

Lemma length_coin_filter levels cb : forall lc,
  length (coin_filter levels cb lc) = levels.
Proof.
  induction levels as [|l IH]; intro lc; simpl; auto.
  rewrite length_app, IH. simpl. lia.
Qed.

(** Row lengths grow towards [2N-1]: the distance at least halves per row. *)
Lemma chain_ok_head_len N M : forall matrix,
  chain_ok N M matrix ->
  (2 * Z.of_nat N - 1 - Z.of_nat (hd_len M matrix)) * 2 ^ Z.of_nat (length matrix)
  <= 2 * Z.of_nat N - 1 - Z.of_nat M.
Proof.
  induction matrix as [|R m' IH]; intro H.
  - simpl. lia.
  - destruct H as (H1 & H2 & H3). specialize (IH H3).
    change (length (R :: m')) with (S (length m')).
    rewrite Nat2Z.inj_succ, Z.pow_succ_r by lia.
    cbn [hd_len].
    assert (HR : length R = (N + hd_len M m' / 2)%nat).
    { rewrite <- count_ones_zeros. lia. }
    pose proof (Nat.div_mod_eq (hd_len M m') 2) as Hd.
    pose proof (Nat.mod_upper_bound (hd_len M m') 2 ltac:(lia)) as Hm.
    assert (0 <= 2 ^ Z.of_nat (length m')) by (apply Z.pow_nonneg; lia).
    nia.
Qed.

Lemma count_zeros_firstn_exact s R :
  (s <= length R)%nat ->
  (count_zeros (firstn s R) = s - count_ones (firstn s R))%nat.
Proof.
  intro H. pose proof (count_ones_zeros (firstn s R)) as E.
  rewrite length_firstn in E. lia.
Qed.

Lemma back_trace_kraft N : forall matrix L s leng,
  chain_ok N N matrix -> (s <= hd_len N matrix)%nat ->
  1 <= L -> L + Z.of_nat (length matrix) = 12 ->
  length leng = N -> Forall (fun l => 0 <= l <= L - 1) leng ->
  kraft12 leng <= 2 ^ 12 + Z.of_nat s * K L ->
  kraft12 (back_trace matrix s leng) <= 2 ^ 12 /\
  Forall (fun l => 0 <= l <= 12) (back_trace matrix s leng) /\
  length (back_trace matrix s leng) = N.
Proof.
  induction matrix as [|R m' IH]; intros L s leng Hch Hs HL HLm Hlen Hall Hk.
  - cbn [hd_len length back_trace] in *. assert (L = 12) by lia. subst L.
    destruct (incr_prefix_kraft 11 ltac:(lia) s leng Hall ltac:(lia)) as [H1 H2].
    change (K (11 + 1)) with 1 in H1. change (K 12) with 1 in Hk.
    rewrite length_incr_prefix. repeat split; auto; try lia.
  - destruct Hch as (H1 & H2 & H3). cbn [hd_len] in Hs.
    change (length (R :: m')) with (S (length m')) in HLm.
    cbn [back_trace].
    set (j := count_ones (firstn s R)).
    assert (Hj : (j <= N)%nat) by (unfold j; rewrite <- H1; apply count_ones_firstn).
    assert (Hz : (count_zeros (firstn s R) = s - j)%nat)
      by (apply count_zeros_firstn_exact; exact Hs).
    assert (Hjs : (j <= s)%nat).
    { pose proof (count_ones_zeros (firstn s R)) as E.
      rewrite length_firstn in E. unfold j. lia. }
    destruct (incr_prefix_kraft (L - 1) ltac:(lia) j leng Hall ltac:(lia)) as [Hk1 Hk2].
    replace (L - 1 + 1) with L in Hk1, Hk2 by lia.
    apply (IH (L + 1)); auto.
    + pose proof (count_zeros_firstn s R) as Hz'.
      pose proof (Nat.div_mod_eq (hd_len N m') 2). lia.
    + lia.
    + lia.
    + rewrite length_incr_prefix. exact Hlen.
    + eapply Forall_impl; [|exact Hk2]. simpl; intros; lia.
    + rewrite (K_succ L) in Hk, Hk1 by lia.
      rewrite Nat2Z.inj_mul, Nat2Z.inj_sub by lia. simpl Z.of_nat. nia.
Qed.

Lemma kraft12_zeros (A : Type) (l : list A) :
  kraft12 (map (fun _ => 0) l) = Z.of_nat (length l) * 2 ^ 12.
Proof.
  induction l as [|a l IH]; [reflexivity|].
  cbn [map kraft12 length]. rewrite IH, Nat2Z.inj_succ.
  change (K 0) with (2 ^ 12). lia.
Qed.

(** The lengths computed for [N] coins, [1 <= N <= 256]: each within
    [0..12], and their Kraft sum at most 1. *)
Lemma code_lengths_kraft cb :
  (1 <= length cb <= 256)%nat ->
  kraft12 (code_lengths cb) <= 2 ^ 12 /\
  Forall (fun l => 0 <= l <= 12) (code_lengths cb) /\
  length (code_lengths cb) = length cb.
Proof.
  intro HN. unfold code_lengths.
  set (matrix := coin_filter (Z.to_nat HUFF_CUTOFF - 1) cb cb).
  assert (Hch : chain_ok (length cb) (length cb) matrix) by apply coin_filter_chain.
  assert (Hlm : length matrix = 11%nat) by apply length_coin_filter.
  apply (back_trace_kraft (length cb) matrix 1); auto;
    [| lia | rewrite length_map; reflexivity | |];
    try (rewrite Hlm; reflexivity).
  - pose proof (chain_ok_head_len _ _ _ Hch) as H. rewrite Hlm in H.
    change (2 ^ Z.of_nat 11) with 2048 in H. lia.
  - apply Forall_forall. intros x Hx. apply in_map_iff in Hx.
    destruct Hx as (? & <- & _). lia.
  - rewrite kraft12_zeros. change (K 1) with (2 ^ 11).
    rewrite Nat2Z.inj_mul, Nat2Z.inj_sub by lia. simpl Z.of_nat.
    change (2 ^ 12) with 4096. change (2 ^ 11) with 2048. lia.
Qed.

(** * The canonical assignment returns *)

Lemma land_1 x : Z.land x 1 = x mod 2.
Proof. change 1 with (Z.ones 1) at 1. rewrite Z.land_ones by lia. reflexivity. Qed.

Lemma shiftr_1 x : Z.shiftr x 1 = x / 2.
Proof. rewrite Z.shiftr_div_pow2 by lia. reflexivity. Qed.

Lemma shiftl_1 x : Z.shiftl x 1 = 2 * x.
Proof. rewrite Z.shiftl_mul_pow2 by lia. change (2 ^ 1) with 2. lia. Qed.

Lemma lor_shiftl_1 x : Z.lor (Z.shiftl x 1) 1 = 2 * x + 1.
Proof.
  rewrite shiftl_1.
  assert (H : Z.land (2 * x) 1 = 0).
  { rewrite land_1. rewrite Z.mul_comm. apply Z.mod_mul. lia. }
  rewrite <- Z.lxor_lor by exact H.
  symmetry. apply Z.add_nocarry_lxor. exact H.
Qed.

Lemma u16_small x : 0 <= x < 2 ^ 16 -> u16 x = x.
Proof. intro H. unfold u16. apply Z.mod_small. exact H. Qed.

Lemma u16_range x : 0 <= u16 x < 65536.
Proof. unfold u16. change 65536 with (2 ^ 16). apply Z.mod_pos_bound. lia. Qed.

Lemma K_split a b : 0 <= a <= b -> b <= 12 -> K a = 2 ^ (b - a) * K b.
Proof.
  intros H Hb. unfold K, HUFF_CUTOFF. rewrite <- Z.pow_add_r by lia.
  f_equal. lia.
Qed.

Lemma K_nonneg l : 0 <= K l.
Proof. unfold K. apply Z.pow_nonneg. lia. Qed.

Lemma kraft12_nonneg leng : 0 <= kraft12 leng.
Proof.
  induction leng as [|l leng IH]; simpl; [lia|]. pose proof (K_nonneg l). lia.
Qed.

(** Stripping the trailing zeros of a non-zero value ends, and keeps the
    position [lbits * 2^(12 - llen)] of the code. *)
Lemma strip_zeros_spec : forall fuel k lbits llen,
  (k < fuel)%nat -> 0 < lbits < 2 ^ Z.of_nat k ->
  exists lb ll,
    strip_zeros fuel lbits llen = Some (lb, ll) /\
    lb mod 2 = 1 /\ 0 < lb /\ ll <= llen /\ lbits = lb * 2 ^ (llen - ll).
Proof.
  induction fuel as [|fuel IH]; intros k lbits llen Hk Hb; [lia|].
  cbn [strip_zeros]. rewrite land_1.
  destruct (lbits mod 2 =? 0) eqn:E.
  - apply Z.eqb_eq in E.
    destruct k as [|k]; [simpl in Hb; lia|].
    rewrite Nat2Z.inj_succ, Z.pow_succ_r in Hb by lia.
    pose proof (Z.div_mod lbits 2 ltac:(lia)) as Hd.
    destruct (IH k (Z.shiftr lbits 1) (llen - 1) ltac:(lia)) as (lb & ll & H1 & H2 & H3 & H4 & H5).
    { rewrite shiftr_1. lia. }
    exists lb, ll. repeat split; auto; try lia.
    rewrite shiftr_1 in H5.
    replace (llen - ll) with (Z.succ (llen - 1 - ll)) by lia.
    rewrite Z.pow_succ_r by lia. lia.
  - apply Z.eqb_neq in E. exists lbits, llen.
    pose proof (Z.mod_pos_bound lbits 2 ltac:(lia)).
    repeat split; try lia.
    rewrite Z.sub_diag. simpl. lia.
Qed.

Lemma fill_iter : forall n x,
  0 <= x -> (x + 1) * 2 ^ Z.of_nat n <= 2 ^ 16 ->
  Nat.iter n (fun lb => u16 (Z.lor (Z.shiftl lb 1) 1)) x = (x + 1) * 2 ^ Z.of_nat n - 1.
Proof.
  induction n as [|n IH]; intros x Hx Hb.
  - simpl. lia.
  - rewrite Nat2Z.inj_succ, Z.pow_succ_r in * by lia.
    assert (0 < 2 ^ Z.of_nat n) by (apply Z.pow_pos_nonneg; lia).
    rewrite Nat.iter_succ. rewrite IH by nia.
    rewrite lor_shiftl_1.
    rewrite u16_small by nia. lia.
Qed.

(** One symbol of the assignment loop: from position [T] the code moves
    down by the weight of its final length [ll2 >= l]. *)
Lemma assign_step lbits llen l T :
  0 <= llen <= 12 -> 0 <= l <= 12 ->
  T = lbits * K llen -> 0 < T < 2 ^ 12 ->
  exists lb ll lb2 ll2,
    strip_zeros 17 lbits llen = Some (lb, ll) /\
    fill_ones (u16 (lb - 1)) ll l = (lb2, ll2) /\
    0 < ll <= llen /\ lb mod 2 = 1 /\ T = lb * K ll /\
    ll2 = Z.max ll l /\ 0 <= lb2 < 2 ^ ll2 /\
    lb2 * K ll2 = T - K ll2.
Proof.
  intros Hllen Hl HT HT0.
  assert (HK : 0 < K llen) by (pose proof (K_pos llen); lia).
  assert (Hlb0 : 0 < lbits) by nia.
  assert (Hlt : lbits < 2 ^ llen).
  { assert (E : 2 ^ 12 = 2 ^ llen * K llen).
    { unfold K, HUFF_CUTOFF. rewrite <- Z.pow_add_r by lia. f_equal. lia. }
    nia. }
  destruct (strip_zeros_spec 17 (Z.to_nat llen) lbits llen) as (lb & ll & H1 & H2 & H3 & H4 & H5).
  { lia. }
  { rewrite Z2Nat.id by lia. lia. }
  assert (Hp : 0 < 2 ^ (llen - ll)) by (apply Z.pow_pos_nonneg; lia).
  assert (Hll : 0 < ll).
  { assert (2 ^ (llen - ll) < 2 ^ llen) by nia.
    apply Z.pow_lt_mono_r_iff in H; lia. }
  assert (Hlb : lb < 2 ^ ll).
  { assert (E : 2 ^ llen = 2 ^ ll * 2 ^ (llen - ll)).
    { rewrite <- Z.pow_add_r by lia. f_equal. lia. }
    nia. }
  assert (HTl : T = lb * K ll).
  { rewrite HT, H5, (K_split ll llen) by lia. lia. }
  set (n := Z.to_nat (l - ll)).
  assert (Hn : ll + Z.of_nat n = Z.max ll l) by (unfold n; lia).
  assert (Hpn : 0 < 2 ^ Z.of_nat n) by (apply Z.pow_pos_nonneg; lia).
  assert (E2 : 2 ^ (Z.max ll l) = 2 ^ ll * 2 ^ Z.of_nat n).
  { rewrite <- Hn. rewrite Z.pow_add_r by lia. reflexivity. }
  assert (Hmax : Z.max ll l <= 12) by lia.
  assert (Hb16 : 2 ^ (Z.max ll l) <= 2 ^ 16) by (apply Z.pow_le_mono_r; lia).
  assert (R1 : 0 <= lb * 2 ^ Z.of_nat n - 1) by nia.
  assert (R2 : lb * 2 ^ Z.of_nat n - 1 < 2 ^ Z.max ll l).
  { rewrite E2.
    assert (lb * 2 ^ Z.of_nat n <= (2 ^ ll - 1) * 2 ^ Z.of_nat n)
      by (apply Z.mul_le_mono_nonneg_r; lia).
    nia. }
  assert (R3 : (lb * 2 ^ Z.of_nat n - 1) * K (Z.max ll l) = T - K (Z.max ll l)).
  { rewrite HTl. rewrite (K_split ll (Z.max ll l)) by lia.
    replace (Z.max ll l - ll) with (Z.of_nat n) by lia. lia. }
  assert (R4 : fill_ones (u16 (lb - 1)) ll l = (lb * 2 ^ Z.of_nat n - 1, Z.max ll l)).
  { unfold fill_ones. fold n.
    assert (Hlb16 : 2 ^ ll <= 2 ^ 16) by (apply Z.pow_le_mono_r; lia).
    rewrite u16_small by lia.
    rewrite fill_iter; [| lia | replace (lb - 1 + 1) with lb by lia; nia].
    replace (lb - 1 + 1) with lb by lia. reflexivity. }
  exists lb, ll, (lb * 2 ^ Z.of_nat n - 1), (Z.max ll l).
  repeat split; auto; lia.
Qed.

Lemma assign_bits_total : forall rest lbits llen T,
  0 <= llen <= 12 -> T = lbits * K llen -> 0 <= T < 2 ^ 12 ->
  Forall (fun l => 0 <= l <= 12) rest -> kraft12 rest <= T ->
  exists bs, assign_bits lbits llen rest = Some bs /\
             length bs = length rest /\
             Forall (fun b => 0 <= b < 65536) bs.
Proof.
  induction rest as [|l rest IH]; intros lbits llen T Hllen HT HT0 Hall Hk.
  - exists []. simpl. auto.
  - apply Forall_cons_iff in Hall. destruct Hall as [Hl Hall'].
    cbn [kraft12] in Hk. pose proof (K_pos l Hl) as HKl.
    pose proof (kraft12_nonneg rest) as Hr.
    destruct (assign_step lbits llen l T) as
      (lb & ll & lb2 & ll2 & H1 & H2 & H3 & H4 & H5 & H6 & H7 & H8); auto; try lia.
    cbn [assign_bits]. rewrite H1, H2.
    assert (HK2 : K ll2 <= K l) by (apply K_mono; lia).
    destruct (IH lb2 ll2 (T - K ll2)) as (bs & Hb1 & Hb2 & Hb3); auto; try lia.
    + pose proof (K_pos ll2 ltac:(lia)). pose proof (K_nonneg ll2). nia.
    + rewrite Hb1. exists (lb2 :: bs). simpl. repeat split; auto.
      constructor; auto.
      assert (2 ^ ll2 <= 2 ^ 16) by (apply Z.pow_le_mono_r; lia).
      change 65536 with (2 ^ 16). lia.
Qed.

Lemma canonical_bits_total leng :
  leng <> [] -> Forall (fun l => 0 <= l <= 12) leng -> kraft12 leng <= 2 ^ 12 ->
  exists bs, canonical_bits leng = Some bs /\
             length bs = length leng /\
             Forall (fun b => 0 <= b < 65536) bs.
Proof.
  intros Hne Hall Hk. destruct leng as [|l0 rest]; [congruence|].
  apply Forall_cons_iff in Hall. destruct Hall as [Hl Hall'].
  cbn [kraft12] in Hk. cbn [canonical_bits].
  assert (Hp : 0 < 2 ^ l0) by (apply Z.pow_pos_nonneg; lia).
  assert (Hp16 : 2 ^ l0 <= 2 ^ 16) by (apply Z.pow_le_mono_r; lia).
  assert (E : 2 ^ 12 = 2 ^ l0 * K l0).
  { unfold K, HUFF_CUTOFF. rewrite <- Z.pow_add_r by lia. f_equal. lia. }
  pose proof (K_pos l0 Hl) as HK.
  rewrite Z.shiftl_mul_pow2, Z.mul_1_l by lia.
  rewrite u16_small by lia.
  destruct (assign_bits_total rest (2 ^ l0 - 1) l0 (2 ^ 12 - K l0))
    as (bs & H1 & H2 & H3); auto; try lia.
  rewrite H1. exists ((2 ^ l0 - 1) :: bs). simpl. repeat split; auto.
  constructor; auto. change 65536 with (2 ^ 16). lia.
Qed.

(** * The symbols that take part, and their order *)

Lemma bytes256_range x : In x bytes256 <-> 0 <= x < 256.
Proof.
  unfold bytes256. rewrite in_map_iff. split.
  - intros (n & <- & Hn). apply in_seq in Hn. lia.
  - intros H. exists (Z.to_nat x). split; [lia|]. apply in_seq. lia.
Qed.

Lemma bytes256_NoDup : NoDup bytes256.
Proof.
  unfold bytes256. apply Finite.Injective_map_NoDup.
  - intros a b H. lia.
  - apply seq_NoDup.
Qed.

Lemma length_bytes256 : length bytes256 = 256%nat.
Proof. reflexivity. Qed.

Lemma collect_inv h : forall l e code,
  (forall x, In x l -> 0 <= x < 256) -> -1 <= e < 256 ->
  exists e' sel,
    fold_left (collect_step h) l (e, code) = (e', code ++ sel) /\
    -1 <= e' < 256 /\
    (forall x, In x sel -> In x l) /\
    (NoDup l -> NoDup sel) /\
    (length sel <= length l)%nat /\
    (forall x, In x l -> 0 < h x -> In x sel) /\
    (0 <= e -> e' = e /\ forall x, In x sel -> 0 < h x).
Proof.
  induction l as [|i l IH]; intros e code Hr He.
  - exists e, []. cbn [fold_left]. rewrite app_nil_r.
    repeat split; auto; try lia; try constructor; intros; contradiction.
  - assert (Hi : 0 <= i < 256) by (apply Hr; left; reflexivity).
    assert (Hr' : forall x, In x l -> 0 <= x < 256) by (intros; apply Hr; right; auto).
    cbn [fold_left]. unfold collect_step at 2.
    destruct (0 <? h i) eqn:Eh; [|destruct (e <? 0) eqn:Ee].
    + apply Z.ltb_lt in Eh.
      destruct (IH e (code ++ [i]) Hr' He) as (e' & sel & H1 & H2 & H3 & H4 & H5 & H6 & H7).
      exists e', (i :: sel). rewrite H1, <- app_assoc. cbn [app].
      split; [reflexivity|]. split; [exact H2|].
      split; [intros x [->|Hx]; [left; auto|right; auto]|].
      split; [intro Hnd; inversion Hnd; subst; constructor; auto|].
      split; [cbn [length]; lia|].
      split; [intros x [->|Hx] Hh; [left; auto|right; auto]|].
      intro He0. destruct (H7 He0) as [H7a H7b]. split; auto.
      intros x [<-|Hx]; auto.
    + apply Z.ltb_lt in Ee.
      destruct (IH i (code ++ [i]) Hr' ltac:(lia)) as (e' & sel & H1 & H2 & H3 & H4 & H5 & H6 & H7).
      exists e', (i :: sel). rewrite H1, <- app_assoc. cbn [app].
      split; [reflexivity|]. split; [exact H2|].
      split; [intros x [->|Hx]; [left; auto|right; auto]|].
      split; [intro Hnd; inversion Hnd; subst; constructor; auto|].
      split; [cbn [length]; lia|].
      split; [intros x [->|Hx] Hh; [left; auto|right; auto]|].
      intro He0. lia.
    + apply Z.ltb_ge in Eh. apply Z.ltb_ge in Ee.
      destruct (IH e code Hr' He) as (e' & sel & H1 & H2 & H3 & H4 & H5 & H6 & H7).
      exists e', sel. rewrite H1.
      split; [reflexivity|]. split; [exact H2|].
      split; [intros x Hx; right; auto|].
      split; [intro Hnd; inversion Hnd; subst; auto|].
      split; [cbn [length]; lia|].
      split; [intros x [->|Hx] Hh; [lia|auto]|].
      exact H7.
Qed.

Lemma collect_spec h partial :
  exists e code,
    collect h partial = (e, code) /\
    -1 <= e < 256 /\
    (forall x, In x code -> 0 <= x < 256) /\
    NoDup code /\
    (length code <= 256)%nat /\
    (forall x, 0 <= x < 256 -> 0 < h x -> In x code) /\
    (partial = false -> forall x, In x code -> 0 < h x).
Proof.
  unfold collect.
  destruct (collect_inv h bytes256 (if partial then -1 else 0) [])
    as (e & sel & H1 & H2 & H3 & H4 & H5 & H6 & H7).
  { intros x Hx. apply bytes256_range; auto. }
  { destruct partial; lia. }
  exists e, sel. rewrite H1. cbn [app].
  split; [reflexivity|]. split; [exact H2|].
  split; [intros x Hx; apply bytes256_range; auto|].
  split; [apply H4, bytes256_NoDup|].
  split; [rewrite <- length_bytes256; exact H5|].
  split; [intros x Hx Hh; apply H6; auto; apply bytes256_range; auto|].
  intros -> x Hx. apply H7; auto. lia.
Qed.

Lemma qsort_insert_perm cmp x : forall l, Permutation (qsort_insert cmp x l) (x :: l).
Proof.
  induction l as [|y l IH]; cbn [qsort_insert]; auto.
  destruct (cmp x y <=? 0); auto.
  rewrite IH. apply perm_swap.
Qed.

Lemma qsort_perm cmp : forall l, Permutation (qsort cmp l) l.
Proof.
  induction l as [|x l IH]; cbn [qsort]; auto.
  rewrite qsort_insert_perm. auto.
Qed.

(** * Scattering into the byte tables *)

Lemma scatter_notin : forall code vals tab i,
  ~ In i code -> scatter code vals tab i = tab i.
Proof.
  induction code as [|c code IH]; intros vals tab i Hn; [reflexivity|].
  destruct vals as [|v vals]; [reflexivity|].
  cbn [scatter]. rewrite IH by (intro; apply Hn; right; auto).
  unfold upd. destruct (i =? c) eqn:E; auto.
  apply Z.eqb_eq in E. subst. exfalso. apply Hn. left; auto.
Qed.

Lemma scatter_in : forall code vals tab c v,
  NoDup code -> In (c, v) (combine code vals) ->
  scatter code vals tab c = v.
Proof.
  induction code as [|c0 code IH]; intros vals tab c v Hnd Hin; [contradiction|].
  destruct vals as [|v0 vals]; [contradiction|].
  inversion Hnd as [|? ? Hn0 Hnd']; subst.
  cbn [scatter]. destruct Hin as [E|Hin].
  - inversion E; subst. rewrite scatter_notin by auto.
    unfold upd. rewrite Z.eqb_refl. reflexivity.
  - apply IH; auto.
Qed.

Lemma scatter_cases : forall code vals tab i,
  scatter code vals tab i = tab i \/ In (scatter code vals tab i) vals.
Proof.
  induction code as [|c code IH]; intros vals tab i; [left; reflexivity|].
  destruct vals as [|v vals]; [left; reflexivity|].
  cbn [scatter]. destruct (IH vals (upd tab c v) i) as [H|H].
  - rewrite H. unfold upd. destruct (i =? c); [right; left|left]; auto.
  - right. right. auto.
Qed.

(** * The Kraft sum over the byte table *)

Lemma G_nonneg l : 0 <= G l.
Proof. unfold G. destruct (0 <? l); [apply K_nonneg|lia]. Qed.

Lemma G_le_K l : G l <= K l.
Proof. unfold G. destruct (0 <? l); [lia|apply K_nonneg]. Qed.

Lemma table_sum_upd_notin lens c v : forall all,
  ~ In c all -> table_sum (upd lens c v) all = table_sum lens all.
Proof.
  induction all as [|i all IH]; intro Hn; [reflexivity|].
  cbn [table_sum fold_right]. fold (table_sum (upd lens c v) all). fold (table_sum lens all).
  rewrite IH by (intro; apply Hn; right; auto).
  unfold upd at 1. destruct (i =? c) eqn:E; auto.
  apply Z.eqb_eq in E. subst. exfalso. apply Hn. left; auto.
Qed.

Lemma table_sum_upd lens c v : forall all,
  NoDup all -> table_sum (upd lens c v) all <= table_sum lens all + G v.
Proof.
  induction all as [|i all IH]; intro Hnd.
  - cbn. pose proof (G_nonneg v). lia.
  - inversion Hnd as [|? ? Hni Hnd']; subst.
    cbn [table_sum fold_right]. fold (table_sum (upd lens c v) all). fold (table_sum lens all).
    unfold upd at 1. destruct (i =? c) eqn:E.
    + apply Z.eqb_eq in E. subst.
      rewrite table_sum_upd_notin by auto. pose proof (G_nonneg (lens c)). lia.
    + specialize (IH Hnd'). lia.
Qed.

Lemma table_sum_scatter all : NoDup all ->
  forall code vals tab,
    table_sum (scatter code vals tab) all
    <= table_sum tab all + fold_right (fun v acc => G v + acc) 0 vals.
Proof.
  intro Hnd. induction code as [|c code IH]; intros vals tab.
  - cbn [scatter]. assert (0 <= fold_right (fun v acc => G v + acc) 0 vals).
    { induction vals as [|v vals IHv]; cbn; [lia|]. pose proof (G_nonneg v). lia. }
    lia.
  - destruct vals as [|v vals]; [cbn; lia|].
    cbn [scatter fold_right]. specialize (IH vals (upd tab c v)).
    pose proof (table_sum_upd tab c v all Hnd). lia.
Qed.

Lemma table_sum_zero : forall all, table_sum (fun _ => 0) all = 0.
Proof. induction all as [|i all IH]; cbn; auto. Qed.

Lemma u8_small x : 0 <= x < 256 -> u8 x = x.
Proof. intro H. unfold u8. apply Z.mod_small. change (2 ^ 8) with 256. lia. Qed.

Lemma sum_G_le_kraft leng :
  Forall (fun l => 0 <= l <= 12) leng ->
  fold_right (fun v acc => G v + acc) 0 (map u8 leng) <= kraft12 leng.
Proof.
  induction 1 as [|l leng Hl Hall IH]; cbn [map fold_right kraft12]; [lia|].
  rewrite u8_small by lia. pose proof (G_le_K l). lia.
Qed.

Lemma kraft_term_scaled l : 0 <= l <= 12 ->
  (kraft_term l * inject_Z 4096 == inject_Z (G l))%Q.
Proof.
  intro H. unfold kraft_term, G. destruct (0 <? l) eqn:E.
  - assert (Hp : 0 < 2 ^ l) by (apply Z.pow_pos_nonneg; lia).
    assert (E2 : 4096 = 2 ^ l * K l).
    { change 4096 with (2 ^ 12). unfold K, HUFF_CUTOFF. rewrite <- Z.pow_add_r by lia.
      f_equal. lia. }
    rewrite E2. rewrite inject_Z_mult.
    field. intro Hc. change 0%Q with (inject_Z 0) in Hc.
    rewrite inject_Z_injective in Hc. lia.
  - ring.
Qed.

Lemma kraft_sum_scaled lens : forall all,
  (forall i, In i all -> 0 <= lens i <= 12) ->
  (fold_right (fun i acc => (kraft_term (lens i) + acc)%Q) 0%Q all * inject_Z 4096
   == inject_Z (table_sum lens all))%Q.
Proof.
  induction all as [|i all IH]; intro H.
  - cbn. ring.
  - cbn [fold_right table_sum]. fold (table_sum lens all).
    rewrite inject_Z_plus, <- IH by (intros; apply H; right; auto).
    rewrite <- kraft_term_scaled by (apply H; left; auto). ring.
Qed.

Lemma kraft_sum_le_1 lens :
  (forall i, 0 <= i < 256 -> 0 <= lens i <= 12) ->
  table_sum lens bytes256 <= 4096 ->
  (kraft_sum lens <= 1)%Q.
Proof.
  intros H Hs. unfold kraft_sum.
  pose proof (kraft_sum_scaled lens bytes256
                ltac:(intros i Hi; apply H; apply bytes256_range; auto)) as E.
  apply (Qmult_le_r _ _ (inject_Z 4096)); [reflexivity|].
  rewrite E. rewrite Qmult_1_l. rewrite <- Zle_Qle. exact Hs.
Qed.

(** * What [vcCreateCodec] returns *)

Lemma code_lengths_nil : code_lengths [] = [].
Proof. reflexivity. Qed.

Lemma parts_from_collect v partial e code0 :
  collect (hist v) partial = (e, code0) ->
  exists leng bits,
    codec_parts v partial e (qsort (HSORT (hist v)) code0) leng bits.
Proof.
  intros Hc.
  destruct (collect_spec (hist v) partial) as (e' & code0' & Hc' & He & Hr & Hnd & Hlen & Hin & Hnp).
  rewrite Hc in Hc'. inversion Hc'; subst e' code0'. clear Hc'.
  destruct code0 as [|c0 code1] eqn:Ecode0.
  { exists [], []. cbn [qsort].
    constructor; auto; try (cbn; lia); try constructor.
    exists []. auto. }
  rewrite <- Ecode0 in *.
  assert (Hne0 : code0 <> []) by (rewrite Ecode0; discriminate).
  clear Ecode0.
  set (code := qsort (HSORT (hist v)) code0).
  assert (Hperm : Permutation code code0) by apply qsort_perm.
  assert (Hlc : length code = length code0) by (apply Permutation_length; auto).
  assert (Hne : (1 <= length code0)%nat).
  { destruct code0; [congruence|cbn; lia]. }
  set (leng := code_lengths (map (hist v) code)).
  destruct (code_lengths_kraft (map (hist v) code)) as (Hk & Hall & Hll).
  { rewrite length_map. lia. }
  fold leng in Hk, Hall, Hll. rewrite length_map in Hll.
  destruct (canonical_bits_total leng) as (bits & Hb1 & Hb2 & Hb3); auto.
  { intro E. rewrite E in Hll. cbn in Hll. lia. }
  exists leng, bits.
  constructor; auto; try lia.
  - exists code0. auto.
  - intros x Hx. apply Hr. eapply Permutation_in; eauto.
  - eapply Permutation_NoDup; [symmetry; exact Hperm|exact Hnd].
  - intros x Hx Hh. eapply Permutation_in; [symmetry; exact Hperm|]. auto.
  - intros Hp x Hx. apply Hnp; auto. eapply Permutation_in; eauto.
Qed.

Lemma codec_parts_create v partial e code leng bits :
  state v = FILLED -> codec_parts v partial e code leng bits ->
  vcCreateCodec v partial = Some (codec_of v partial e code leng bits).
Proof.
  intros Hst P. destruct (cp_collect _ _ _ _ _ _ P) as (code0 & Hc & Hq).
  unfold vcCreateCodec. rewrite Hst, Hc. rewrite <- Hq.
  rewrite <- (cp_leng _ _ _ _ _ _ P). rewrite (cp_bits _ _ _ _ _ _ P).
  reflexivity.
Qed.

Lemma vcCreateCodec_parts v partial :
  state v = FILLED ->
  (exists i, 0 <= i < 256 /\ 0 < hist v i) ->
  exists e code leng bits,
    codec_parts v partial e code leng bits /\
    vcCreateCodec v partial = Some (codec_of v partial e code leng bits).
Proof.
  intros Hst (i0 & Hi0 & Hh0).
  destruct (collect_spec (hist v) partial) as (e & code0 & Hc & He & Hr & Hnd & Hlen & Hin & Hnp).
  destruct (parts_from_collect v partial e code0 Hc) as (leng & bits & P).
  exists e, (qsort (HSORT (hist v)) code0), leng, bits. split; [exact P|].
  apply codec_parts_create; auto.
Qed.

Lemma vcCreateCodec_inv v partial c :
  vcCreateCodec v partial = Some c ->
  state v = FILLED /\
  exists e code leng bits,
    codec_parts v partial e code leng bits /\
    c = codec_of v partial e code leng bits.
Proof.
  intro H.
  assert (Hst : state v = FILLED).
  { unfold vcCreateCodec in H. destruct (state v); try discriminate. reflexivity. }
  split; [exact Hst|].
  destruct (collect (hist v) partial) as [e code0] eqn:Hc.
  destruct (parts_from_collect v partial e code0 Hc) as (leng & bits & P).
  exists e, (qsort (HSORT (hist v)) code0), leng, bits. split; [exact P|].
  pose proof (codec_parts_create _ _ _ _ _ _ Hst P) as E.
  rewrite H in E. apply Some_inj in E. exact E.
Qed.

Lemma codelens_codec_of v partial e code leng bits :
  codec_parts v partial e code leng bits ->
  forall i, 0 <= codelens (codec_of v partial e code leng bits) i <= 12.
Proof.
  intros P i. cbn [codec_of codelens].
  destruct (scatter_cases code (map u8 leng) (fun _ => 0) i) as [H|H].
  - rewrite H. lia.
  - apply in_map_iff in H. destruct H as (l & Hl & Hin).
    pose proof (cp_leng_range _ _ _ _ _ _ P) as Hall.
    rewrite Forall_forall in Hall. specialize (Hall l Hin).
    rewrite <- Hl. rewrite u8_small by lia. lia.
Qed.

(** C2.  For every histogram with at least one non-zero count,
    [vcCreateCodec] returns a codec whose code lengths are all at most
    [HUFF_CUTOFF] = 12 and satisfy Kraft's inequality: the sum of
    [2^(-length[i])] over the bytes [i] with [length[i] > 0] is at most 1. *)
Theorem create_codec_lengths_kraft (v : VGPcompressor) (partial : bool) :
  state v = FILLED ->
  (exists i, 0 <= i < 256 /\ 0 < hist v i) ->
  exists c, vcCreateCodec v partial = Some c /\
            (forall i, 0 <= codelens c i <= HUFF_CUTOFF) /\
            (kraft_sum (codelens c) <= 1)%Q.
Proof.
  intros Hst Hne.
  destruct (vcCreateCodec_parts v partial Hst Hne) as (e & code & leng & bits & P & E).
  exists (codec_of v partial e code leng bits). split; [exact E|].
  split; [apply codelens_codec_of; exact P|].
  apply kraft_sum_le_1.
  - intros i _. apply (codelens_codec_of _ _ _ _ _ _ P).
  - cbn [codec_of codelens].
    pose proof (table_sum_scatter bytes256 bytes256_NoDup code (map u8 leng) (fun _ => 0)) as H.
    rewrite table_sum_zero in H.
    pose proof (sum_G_le_kraft leng (cp_leng_range _ _ _ _ _ _ P)).
    pose proof (cp_kraft _ _ _ _ _ _ P). change (2 ^ 12) with 4096 in *. lia.
Qed.

Lemma NoDup_singleton (b : Z) : forall l,
  NoDup l -> In b l -> (forall x, In x l -> x = b) -> l = [b].
Proof.
  intros l Hnd Hin Hall. destruct l as [|x l]; [contradiction|].
  assert (x = b) by (apply Hall; left; auto). subst x.
  destruct l as [|y l]; [reflexivity|].
  assert (y = b) by (apply Hall; right; left; auto). subst y.
  inversion Hnd as [|? ? Hn _]; subst. exfalso. apply Hn. left; auto.
Qed.

Lemma code_lengths_single c : code_lengths [c] = [0].
Proof. reflexivity. Qed.

(** C9.  With [partial] false and a histogram whose non-zero counts lie on a
    single byte [b], [vcCreateCodec] succeeds and every code length is 0,
    that of [b] included: the single symbol receives no length increment,
    its code is 0 and no cell of the decoder table is assigned. *)
Theorem create_codec_single_symbol (v : VGPcompressor) (b : Z) :
  state v = FILLED ->
  0 <= b < 256 -> 0 < hist v b ->
  (forall i, 0 <= i < 256 -> i <> b -> hist v i = 0) ->
  exists c, vcCreateCodec v false = Some c /\
            state c = CODED_WITH /\
            (forall i, codelens c i = 0) /\
            (forall i, codebits c i = 0) /\
            (forall x, lookup c x = lookup v x) /\
            esc_code c = -1.
Proof.
  intros Hst Hb Hh Hz.
  destruct (vcCreateCodec_parts v false Hst) as (e & code & leng & bits & P & E).
  { exists b. auto. }
  assert (Hcode : code = [b]).
  { apply NoDup_singleton.
    - exact (cp_nodup _ _ _ _ _ _ P).
    - apply (cp_present _ _ _ _ _ _ P); auto.
    - intros x Hx. pose proof (cp_range _ _ _ _ _ _ P x Hx) as Hr.
      pose proof (cp_nopartial _ _ _ _ _ _ P eq_refl x Hx) as Hp.
      destruct (Z.eq_dec x b) as [|Hne]; auto.
      rewrite (Hz x Hr Hne) in Hp. lia. }
  assert (Hleng : leng = [0]).
  { rewrite (cp_leng _ _ _ _ _ _ P), Hcode. apply code_lengths_single. }
  assert (Hbits : bits = [0]).
  { pose proof (cp_bits _ _ _ _ _ _ P) as Hcb. rewrite Hleng in Hcb.
    cbn in Hcb. congruence. }
  exists (codec_of v false e code leng bits). split; [exact E|].
  subst code leng bits. cbn [codec_of state codelens codebits lookup esc_code scatter map].
  assert (Hl : forall i, upd (fun _ : Z => 0) b (u8 0) i = 0).
  { intro i. unfold upd. destruct (i =? b); reflexivity. }
  assert (Hbv : forall i, upd (fun _ : Z => 0) b 0 i = 0).
  { intro i. unfold upd. destruct (i =? b); reflexivity. }
  repeat split; auto.
  intro x. unfold fill_lookup.
  assert (Hstep : forall l look, fold_left
            (fill_lookup_step (upd (fun _ : Z => 0) b (u8 0)) (upd (fun _ : Z => 0) b 0))
            l look = look).
  { induction l as [|i l IH]; intro look; cbn [fold_left]; auto.
    unfold fill_lookup_step at 2. rewrite Hl. cbn. apply IH. }
  rewrite Hstep. reflexivity.
Qed.

(** * Buffers *)

Lemma rd_range_exact : forall x pre suf,
  rd_range (pre ++ x ++ suf) (length pre) (length x) = x.
Proof.
  unfold rd_range. induction x as [|a x IH]; intros pre suf; [reflexivity|].
  cbn [length seq map]. f_equal.
  - unfold rd. cbn [app]. apply nth_middle.
  - specialize (IH (pre ++ [a]) suf).
    rewrite <- app_assoc in IH. cbn [app] in IH.
    rewrite length_app in IH. cbn [length] in IH.
    replace (length pre + 1)%nat with (S (length pre)) in IH by lia.
    exact IH.
Qed.

Lemma shiftl_3 n : Z.shiftl n 3 = 8 * n.
Proof. rewrite Z.shiftl_mul_pow2 by lia. change (2 ^ 3) with 8. lia. Qed.

Lemma shiftr_3 n : Z.shiftr (8 * n) 3 = n.
Proof.
  rewrite Z.shiftr_div_pow2 by lia. change (2 ^ 3) with 8.
  rewrite Z.mul_comm. apply Z.div_mul. lia.
Qed.

(** * Values of type int *)

Lemma to_int_small x : - 2 ^ 31 <= x < 2 ^ 31 -> to_int x = x.
Proof.
  intro H. unfold to_int, u32.
  destruct (Z_lt_le_dec x 0) as [Hn|Hp].
  - replace (x mod 2 ^ 32) with (x + 2 ^ 32).
    + assert (E : (x + 2 ^ 32 <? 2 ^ 31) = false) by (apply Z.ltb_ge; lia).
      rewrite E. lia.
    + symmetry. rewrite <- (Z.mod_add x 1 (2 ^ 32)) by lia.
      rewrite Z.mul_1_l. apply Z.mod_small. lia.
  - rewrite Z.mod_small by lia.
    assert (E : (x <? 2 ^ 31) = true) by (apply Z.ltb_lt; lia).
    rewrite E. reflexivity.
Qed.

(** * States of reachable compressors *)

Lemma filled_state v : filled v -> state v = FILLED /\ lookup v = (fun _ => None).
Proof.
  induction 1 as [schar big bytes v H | schar v bytes v' Hf [IH1 IH2] H].
  - unfold vcAddToTable in H. cbn [vcCreate state] in H.
    apply Some_inj in H. subst v. cbn [state lookup vcCreate]. auto.
  - unfold vcAddToTable in H. rewrite IH1 in H.
    apply Some_inj in H. subst v'. cbn [state lookup]. auto.
Qed.

Lemma vcCreateCodec_state v partial c :
  vcCreateCodec v partial = Some c -> state c = CODED_WITH.
Proof.
  unfold vcCreateCodec. destruct (state v); try discriminate.
  destruct (collect (hist v) partial) as [e code0].
  destruct (canonical_bits _); [|discriminate].
  intro H. apply Some_inj in H. subst c. reflexivity.
Qed.

Lemma vcDeserialize_state big blob : state (vcDeserialize big blob) = CODED_READ.
Proof.
  unfold vcDeserialize.
  destruct (fold_left _ _ _) as [[ip lens] bits]. reflexivity.
Qed.

Lemma coded_is_coded c : coded c -> is_coded (state c) = true.
Proof.
  destruct 1 as [v partial c Hf H | big blob Hb].
  - rewrite (vcCreateCodec_state _ _ _ H). reflexivity.
  - rewrite vcDeserialize_state. reflexivity.
Qed.

(** * The overflow fallback *)

(** C4 (as amended).  Whenever the encoder takes the overflow fallback on an
    [n]-byte input, its output is the byte 0xFF followed by the [n] input
    bytes; when [8(n+1)] is a value of type [int] it returns [8(n+1)] bits,
    and the decoder applied to that buffer with that bit count, on a host
    with either kind of plain char, returns the [n] input bytes unchanged. *)
Theorem overflow_fallback_roundtrip (schar : bool) (c : VGPcompressor) (x : list Z) :
  coded c -> takes_fallback c x ->
  let n := Z.of_nat (length x) in
  (exists bits, vcEncode (Owned c) x = Some (0xff :: x, bits)) /\
  (8 * (n + 1) <= INT_MAX ->
   vcEncode (Owned c) x = Some (0xff :: x, 8 * (n + 1)) /\
   vcDecode schar (Owned c) (8 * (n + 1)) (0xff :: x) = Some x).
Proof.
  intros Hc Hf n. pose proof (coded_is_coded c Hc) as Hs.
  unfold takes_fallback in Hf. unfold enc_start in Hf.
  assert (He : vcEncode (Owned c) x
               = Some (0xff :: x, to_int (to_int (Z.shiftl n 3) + 8))).
  { unfold vcEncode. rewrite Hs. cbv zeta. rewrite Hf. reflexivity. }
  split; [eexists; exact He|].
  intro Hn. unfold INT_MAX in Hn. split.
  - rewrite He. rewrite shiftl_3. unfold n in *.
    rewrite (to_int_small (8 * _)) by lia.
    rewrite to_int_small by lia. f_equal. f_equal. lia.
  - unfold vcDecode. rewrite Hs.
    change (rd (255 :: x) 0) with 255. rewrite Z.eqb_refl.
    rewrite shiftr_3. replace (n + 1 - 1) with n by lia.
    unfold n. rewrite Nat2Z.id.
    f_equal. pose proof (rd_range_exact x [255] []) as E.
    rewrite app_nil_r in E. exact E.
Qed.

(** * The encoder's bit count *)

Lemma codebits_byte_range v k : 0 <= codebits_byte v k < 256.
Proof.
  unfold codebits_byte, word_bytes.
  assert (Hu : forall z, 0 <= u8 z < 256)
    by (intro z; unfold u8; apply Z.mod_pos_bound; reflexivity).
  destruct (isbig v); cbn [be_bytes rev app];
    destruct (Z.to_nat (k mod 2)) as [|[|m]]; cbn [nth];
    try apply Hu; try lia; destruct m; lia.
Qed.

Lemma esc_len_range v :
  (forall i, 0 <= codelens v i < 256) -> 0 <= esc_len v < 256.
Proof.
  intro H. unfold esc_len.
  destruct (esc_code v =? -1); [apply codebits_byte_range|apply H].
Qed.

Lemma esc_len_byte v :
  0 <= esc_code v < 256 -> esc_len v = codelens v (esc_code v).
Proof.
  intro H. unfold esc_len.
  assert (E : (esc_code v =? -1) = false) by (apply Z.eqb_neq; lia).
  rewrite E. reflexivity.
Qed.

Lemma esc_bits_byte v :
  0 <= esc_code v < 256 -> esc_bits v = codebits v (esc_code v).
Proof.
  intro H. unfold esc_bits.
  assert (E : (esc_code v =? -1) = false) by (apply Z.eqb_neq; lia).
  rewrite E. reflexivity.
Qed.

Lemma byte_cost_range v b :
  (forall i, 0 <= codelens v i < 256) -> 0 <= byte_cost v b <= 263.
Proof.
  intro H. unfold byte_cost. pose proof (esc_len_range v H).
  pose proof (H (u8 b)). destruct (codelens v (u8 b) =? 0); lia.
Qed.

Lemma sum_cost_nonneg v x :
  (forall i, 0 <= codelens v i < 256) -> 0 <= sum_cost v x.
Proof.
  intro H. induction x as [|a x IH]; cbn [sum_cost]; [lia|].
  pose proof (byte_cost_range v a H). lia.
Qed.

(** One turn of the loop when no sum leaves the range of [int]. *)
Lemma encode_loop_cons v ibits b x st t :
  (forall i, 0 <= codelens v i < 256) ->
  ibits + 263 <= INT_MAX ->
  - 2 ^ 31 <= t <= ibits ->
  encode_loop v ibits (b :: x) st t
  = if codelens v (u8 b) =? 0 then
      if (-1 <=? esc_code v) && (esc_code v <? 256) then
        if t + (8 + esc_len v) >? ibits then Some EncBreak
        else encode_loop v ibits x
               (OCODE 8 (u8 b) (OCODE (esc_len v) (esc_bits v) st))
               (t + (8 + esc_len v))
      else None
    else
      if t + codelens v (u8 b) >? ibits then Some EncBreak
      else encode_loop v ibits x
             (OCODE (codelens v (u8 b)) (codebits v (u8 b)) st)
             (t + codelens v (u8 b)).
Proof.
  intros Hnn Hmax Ht. unfold INT_MAX in Hmax. cbn [encode_loop].
  pose proof (esc_len_range v Hnn). pose proof (Hnn (u8 b)).
  rewrite !to_int_small by lia. reflexivity.
Qed.

(** As long as [ibits] is at least 263 below [INT_MAX], no sum made in the
    loop leaves the range of [int]: the count that is returned, or that
    makes the loop end, is the sum of the costs. *)
Lemma encode_loop_bits v ibits : forall x st t r,
  (forall i, 0 <= codelens v i < 256) ->
  ibits + 263 <= INT_MAX ->
  encode_loop v ibits x st t = Some r ->
  - 2 ^ 31 <= t <= ibits ->
  match r with
  | EncBreak => ibits < t + sum_cost v x
  | EncDone _ t' => t' = t + sum_cost v x /\ t' <= ibits
  end.
Proof.
  intros x st t r Hnn Hmax. unfold INT_MAX in Hmax. revert st t r.
  induction x as [|b x IH]; intros st t r H Ht.
  - cbn in H. inversion H; subst. cbn. lia.
  - cbn [encode_loop] in H. cbn [sum_cost].
    pose proof (sum_cost_nonneg v x Hnn) as Hs.
    pose proof (byte_cost_range v b Hnn) as Hc.
    unfold byte_cost in *.
    destruct (codelens v (u8 b) =? 0) eqn:E.
    + destruct ((-1 <=? esc_code v) && (esc_code v <? 256)); [|discriminate].
      rewrite to_int_small in H by lia.
      destruct (t + (8 + esc_len v) >? ibits) eqn:Eo.
      * inversion H; subst. lia.
      * specialize (IH _ _ _ H ltac:(lia)). destruct r; lia.
    + rewrite to_int_small in H by lia.
      destruct (t + codelens v (u8 b) >? ibits) eqn:Eo.
      * inversion H; subst. lia.
      * specialize (IH _ _ _ H ltac:(lia)). destruct r; lia.
Qed.

(** The loop ends early exactly at the first byte with which the running
    count passes [ibits]. *)
Lemma encode_loop_break v ibits : forall x st t,
  (forall i, 0 <= codelens v i < 256) ->
  ibits + 263 <= INT_MAX ->
  - 2 ^ 31 <= t <= ibits ->
  (forall b, In b x -> codelens v (u8 b) = 0 -> -1 <= esc_code v < 256) ->
  (encode_loop v ibits x st t = Some EncBreak <->
   exists p b s, x = p ++ b :: s /\ ibits < t + sum_cost v (p ++ [b])).
Proof.
  intros x st t Hnn Hmax. unfold INT_MAX in Hmax. revert st t.
  induction x as [|b x IH]; intros st t Ht Hesc.
  - cbn [encode_loop]. split; [discriminate|].
    intros (p & b & s & E & _). destruct p; discriminate.
  - pose proof (byte_cost_range v b Hnn) as Hc.
    assert (Hstep :
               encode_loop v ibits (b :: x) st t
               = if t + byte_cost v b >? ibits then Some EncBreak
                 else if codelens v (u8 b) =? 0
                      then encode_loop v ibits x
                             (OCODE 8 (u8 b) (OCODE (esc_len v) (esc_bits v) st))
                             (t + byte_cost v b)
                      else encode_loop v ibits x
                             (OCODE (codelens v (u8 b)) (codebits v (u8 b)) st)
                             (t + byte_cost v b)).
    { cbn [encode_loop]. unfold byte_cost in *.
      destruct (codelens v (u8 b) =? 0) eqn:E.
      - assert (Hr : (-1 <=? esc_code v) && (esc_code v <? 256) = true).
        { apply Z.eqb_eq in E. specialize (Hesc b (or_introl eq_refl) E).
          apply andb_true_intro. split; [apply Z.leb_le|apply Z.ltb_lt]; lia. }
        rewrite Hr. rewrite to_int_small by lia. reflexivity.
      - rewrite to_int_small by lia. reflexivity. }
    rewrite Hstep. clear Hstep.
    destruct (t + byte_cost v b >? ibits) eqn:Eo.
    + split; [intros _|reflexivity].
      exists [], b, x. cbn [app sum_cost]. split; [reflexivity|].
      apply Z.gtb_lt in Eo. lia.
    + rewrite Z.gtb_ltb in Eo. apply Z.ltb_ge in Eo.
      assert (Hx : forall st1,
                 encode_loop v ibits x st1 (t + byte_cost v b) = Some EncBreak <->
                 exists p b' s, b :: x = p ++ b' :: s /\
                                ibits < t + sum_cost v (p ++ [b'])).
      { intro st1. rewrite IH; [|lia|intros b' Hb'; apply Hesc; right; exact Hb'].
        split.
        - intros (p & b' & s & E & Hlt). exists (b :: p), b', s.
          cbn [app sum_cost]. split; [rewrite E; reflexivity|lia].
        - intros (p & b' & s & E & Hlt). destruct p as [|a p].
          + cbn [app sum_cost] in *. inversion E; subst b'. lia.
          + cbn [app sum_cost] in *. inversion E; subst a.
            exists p, b', s. split; [reflexivity|lia]. }
      destruct (codelens v (u8 b) =? 0); apply Hx.
Qed.

(** * Coded compressors have well-formed tables *)

Lemma kraft12_ge_in l : forall leng,
  In l leng -> Forall (fun l => 0 <= l <= 12) leng ->
  K l + (Z.of_nat (length leng) - 1) <= kraft12 leng.
Proof.
  induction leng as [|a leng IH]; intros Hin Hall; [contradiction|].
  apply Forall_cons_iff in Hall. destruct Hall as [Ha Hall].
  cbn [kraft12 length]. rewrite Nat2Z.inj_succ.
  destruct Hin as [->|Hin].
  - assert (Z.of_nat (length leng) <= kraft12 leng).
    { clear -Hall. induction Hall as [|b leng Hb Hall IH]; cbn [kraft12 length]; [lia|].
      pose proof (K_pos b Hb). lia. }
    lia.
  - specialize (IH Hin Hall). pose proof (K_pos a Ha). lia.
Qed.

Lemma kraft_no_zero leng :
  Forall (fun l => 0 <= l <= 12) leng -> kraft12 leng <= 2 ^ 12 ->
  (2 <= length leng)%nat -> Forall (fun l => 1 <= l <= 12) leng.
Proof.
  intros Hall Hk Hn. apply Forall_forall. intros l Hl.
  pose proof (kraft12_ge_in l leng Hl Hall) as H.
  rewrite Forall_forall in Hall. specialize (Hall l Hl).
  destruct (Z.eq_dec l 0) as [->|]; [|lia].
  change (K 0) with (2 ^ 12) in H. lia.
Qed.

Lemma scatter_pair (P : Z -> Z -> Prop) : forall code vals1 vals2 t1 t2 i,
  Forall2 P vals1 vals2 -> P (t1 i) (t2 i) ->
  P (scatter code vals1 t1 i) (scatter code vals2 t2 i).
Proof.
  induction code as [|c code IH]; intros vals1 vals2 t1 t2 i HF Ht; [exact Ht|].
  destruct HF as [|v1 v2 vals1 vals2 Hv HF]; [exact Ht|].
  cbn [scatter]. apply IH; auto.
  unfold upd. destruct (i =? c); auto.
Qed.

Lemma parts_zero_pair v partial e code leng bits :
  codec_parts v partial e code leng bits ->
  Forall2 (fun l b => l = 0 -> b = 0) (map u8 leng) bits.
Proof.
  intro P.
  pose proof (cp_leng_range _ _ _ _ _ _ P) as Hall.
  pose proof (cp_kraft _ _ _ _ _ _ P) as Hk.
  pose proof (cp_len_leng _ _ _ _ _ _ P) as Hl1.
  pose proof (cp_len_bits _ _ _ _ _ _ P) as Hl2.
  pose proof (cp_ncode _ _ _ _ _ _ P) as Hn.
  pose proof (cp_bits _ _ _ _ _ _ P) as Hb.
  destruct (Nat.eq_dec (length code) 0) as [E0|E0].
  { destruct leng as [|l0 leng]; cbn in Hl1; try lia.
    destruct bits as [|b0 bits]; cbn in Hl2; try lia. constructor. }
  destruct (Nat.eq_dec (length code) 1) as [E1|E1].
  - destruct leng as [|l0 [|l1 leng]]; cbn in Hl1; try lia.
    cbn in Hb. inversion Hb; subst bits.
    constructor; [|constructor].
    intro H0. apply Forall_cons_iff in Hall. destruct Hall as [Hl0 _].
    rewrite u8_small in H0 by lia. subst l0. reflexivity.
  - assert (Hpos : Forall (fun l => 1 <= l <= 12) leng)
      by (apply kraft_no_zero; auto; lia).
    assert (Hlen : length (map u8 leng) = length bits)
      by (rewrite length_map; lia).
    clear -Hpos Hlen. revert bits Hlen.
    induction Hpos as [|l leng Hl Hpos IH]; intros [|b bits] Hlen;
      cbn in Hlen; try lia; constructor.
    + intro H0. rewrite u8_small in H0 by lia. lia.
    + apply IH. cbn. lia.
Qed.

Lemma codec_of_wf v partial e code leng bits :
  lookup v = (fun _ => None) ->
  codec_parts v partial e code leng bits ->
  wf_codec (codec_of v partial e code leng bits).
Proof.
  intros Hlk P. constructor.
  - intro i. pose proof (codelens_codec_of _ _ _ _ _ _ P i). lia.
  - intro i. cbn [codec_of codebits].
    destruct (scatter_cases code bits (fun _ => 0) i) as [H|H].
    + rewrite H. lia.
    + pose proof (cp_bits_range _ _ _ _ _ _ P) as Hall.
      rewrite Forall_forall in Hall. apply Hall; auto.
  - intro i. cbn [codec_of codelens codebits].
    apply (scatter_pair (fun l b => l = 0 -> b = 0)); auto.
    apply (parts_zero_pair _ _ _ _ _ _ P).
  - cbn [codec_of esc_code]. pose proof (cp_esc _ _ _ _ _ _ P).
    destruct partial; lia.
  - intro x. cbn [codec_of lookup codelens codebits]. rewrite Hlk. reflexivity.
Qed.

(** Values read from a buffer of bytes. *)
Lemma rd_byte buf i : Forall is_byte buf -> is_byte (rd buf i).
Proof.
  intro H. unfold rd. destruct (Nat.lt_ge_cases i (length buf)) as [Hi|Hi].
  - rewrite Forall_forall in H. apply H. apply nth_In. exact Hi.
  - rewrite nth_overflow by exact Hi. unfold is_byte. lia.
Qed.

Lemma rd_range_bytes buf off n : Forall is_byte buf -> Forall is_byte (rd_range buf off n).
Proof.
  intro H. unfold rd_range. apply Forall_forall. intros x Hx.
  apply in_map_iff in Hx. destruct Hx as (i & <- & _). apply rd_byte. exact H.
Qed.

Lemma be_value_range bs : Forall is_byte bs ->
  0 <= be_value bs < 2 ^ (8 * Z.of_nat (length bs)).
Proof.
  induction 1 as [|b bs Hb Hall IH]; cbn [be_value length].
  - cbn. lia.
  - unfold is_byte in Hb. rewrite Nat2Z.inj_succ.
    replace (8 * Z.succ (Z.of_nat (length bs))) with (8 + 8 * Z.of_nat (length bs)) by lia.
    rewrite Z.pow_add_r by lia. change (2 ^ 8) with 256.
    assert (0 < 2 ^ (8 * Z.of_nat (length bs))) by (apply Z.pow_pos_nonneg; lia).
    nia.
Qed.

Lemma bytes_word_range big bs : Forall is_byte bs ->
  0 <= bytes_word big bs < 2 ^ (8 * Z.of_nat (length bs)).
Proof.
  intro H. unfold bytes_word. destruct big.
  - apply be_value_range; auto.
  - rewrite <- length_rev. apply be_value_range. apply Forall_rev. auto.
Qed.

Lemma read_item_range flip big buf off n : Forall is_byte buf ->
  0 <= read_item flip big buf off n < 2 ^ (8 * Z.of_nat n).
Proof.
  intro H. unfold read_item.
  pose proof (rd_range_bytes buf off n H) as Hr.
  assert (Hl : length (rd_range buf off n) = n)
    by (unfold rd_range; rewrite length_map, length_seq; reflexivity).
  destruct flip.
  - rewrite <- Hl at 3. rewrite <- length_rev. apply bytes_word_range.
    apply Forall_rev. auto.
  - rewrite <- Hl at 3. apply bytes_word_range. auto.
Qed.

Lemma to_int_range x : - 2 ^ 31 <= to_int x < 2 ^ 31.
Proof.
  unfold to_int, u32. pose proof (Z.mod_pos_bound x (2 ^ 32) ltac:(lia)).
  destruct (x mod 2 ^ 32 <? 2 ^ 31) eqn:E.
  - apply Z.ltb_lt in E. lia.
  - apply Z.ltb_ge in E. lia.
Qed.

Lemma deser_fold_inv flip big buf : Forall is_byte buf ->
  forall l st, deser_inv st -> deser_inv (fold_left (deser_step flip big buf) l st).
Proof.
  intros Hb. induction l as [|i l IH]; intros st Hst; [exact Hst|].
  cbn [fold_left]. apply IH.
  destruct st as [[ip lens] bits]. unfold deser_step.
  pose proof (rd_byte buf ip Hb) as Hl. unfold is_byte in Hl.
  destruct (0 <? rd buf ip) eqn:E; unfold deser_inv; intro k;
    destruct (Hst k) as (H1 & H2 & H3); unfold upd; destruct (k =? i).
  - apply Z.ltb_lt in E.
    pose proof (read_item_range flip big buf (ip + 1) 2 Hb) as Hr.
    change (2 ^ (8 * Z.of_nat 2)) with 65536 in Hr. repeat split; lia.
  - auto.
  - apply Z.ltb_ge in E. repeat split; lia.
  - auto.
Qed.

Lemma vcDeserialize_wf big blob : Forall is_byte blob -> wf_codec (vcDeserialize big blob).
Proof.
  intro Hb. unfold vcDeserialize.
  pose proof (deser_fold_inv (negb (big_flag big =? rd blob 0)) big blob Hb bytes256
                (5%nat, (fun _ => 0), (fun _ => 0))) as H.
  destruct (fold_left _ _ _) as [[ip lens] bits].
  assert (Hi : deser_inv (ip, lens, bits)).
  { apply H. unfold deser_inv. intro i. repeat split; auto; lia. }
  unfold deser_inv in Hi.
  constructor; cbn [codelens codebits esc_code lookup].
  - intro i. apply Hi.
  - intro i. apply Hi.
  - intro i. apply Hi.
  - apply to_int_range.
  - reflexivity.
Qed.

Lemma coded_wf c : coded c -> wf_codec c.
Proof.
  destruct 1 as [v partial c Hf H | big blob Hb].
  - destruct (vcCreateCodec_inv _ _ _ H) as (Hst & e & code & leng & bits & P & ->).
    apply codec_of_wf; auto. apply filled_state. exact Hf.
  - apply vcDeserialize_wf. exact Hb.
Qed.

(** The loop returns unless it meets a byte without a code while [esc] is
    neither a byte value nor -1. *)
Lemma encode_loop_defined v ibits : forall x,
  (forall b, In b x -> codelens v (u8 b) = 0 -> -1 <= esc_code v < 256) ->
  forall st t, exists r, encode_loop v ibits x st t = Some r.
Proof.
  induction x as [|b x IH]; intros Hesc st t.
  - eexists. reflexivity.
  - cbn [encode_loop].
    assert (Hx : forall b', In b' x -> codelens v (u8 b') = 0 -> -1 <= esc_code v < 256)
      by (intros b' Hb'; apply Hesc; right; exact Hb').
    destruct (codelens v (u8 b) =? 0) eqn:E0.
    + apply Z.eqb_eq in E0. pose proof (Hesc b (or_introl eq_refl) E0) as He.
      assert (Hr : (-1 <=? esc_code v) && (esc_code v <? 256) = true).
      { apply andb_true_intro. split; [apply Z.leb_le|apply Z.ltb_lt]; lia. }
      rewrite Hr. destruct (_ >? _); [eexists; reflexivity|]. apply IH. exact Hx.
    + destruct (_ >? _); [eexists; reflexivity|]. apply IH. exact Hx.
Qed.

(** C5 (as amended).  Take an input of [n] bytes, [n < 2^28 - 32] (so that
    no bit count leaves the range of [int]), in which every byte has a code
    unless the escape code is a byte value or -1.  The encoder takes the
    literal-copy fallback, writing 0xFF and the input and returning [8n+8],
    exactly when at some input byte the running bit count (the 2-bit tag
    plus the widths emitted so far and that of this byte, an escaped byte
    counting its escape code plus 8 bits) exceeds [8n]; that is, when the
    input is not empty and its complete compressed form has more than [8n]
    bits.  Otherwise the compressed stream is returned, with the size of the
    complete compressed form as its bit count: an input whose compressed
    form occupies exactly [8n] bits is emitted as a compressed stream of
    [8n] bits. *)
Theorem fallback_iff_exceeds (c : VGPcompressor) (x : list Z) :
  coded c ->
  (forall b, In b x -> codelens c (u8 b) = 0 -> -1 <= esc_code c < 256) ->
  let n := Z.of_nat (length x) in
  n < 2 ^ 28 - 32 ->
  (takes_fallback c x <->
   exists p b s, x = p ++ b :: s /\ 8 * n < total_bits c (p ++ [b])) /\
  (takes_fallback c x <-> x <> [] /\ 8 * n < total_bits c x) /\
  (takes_fallback c x -> vcEncode (Owned c) x = Some (0xff :: x, 8 * n + 8)) /\
  (~ takes_fallback c x ->
   exists buf, vcEncode (Owned c) x = Some (buf, total_bits c x)) /\
  (total_bits c x = 8 * n -> ~ takes_fallback c x).
Proof.
  intros Hc Hesc n Hn.
  pose proof (coded_wf c Hc) as Hwf.
  assert (Hnn : forall i, 0 <= codelens c i < 256) by (intro i; apply (wf_lens c Hwf i)).
  assert (Hn0 : 0 <= n) by (unfold n; lia).
  assert (Eib : to_int (Z.shiftl n 3) = 8 * n).
  { rewrite shiftl_3. apply to_int_small. lia. }
  assert (Hmax : 8 * n + 263 <= INT_MAX) by (unfold INT_MAX; lia).
  assert (Ht : - 2 ^ 31 <= 2 <= 8 * n \/ x = []).
  { destruct x; [right; reflexivity|left; unfold n; cbn [length]; lia]. }
  assert (Hbrk : takes_fallback c x <->
                 exists p b s, x = p ++ b :: s /\ 8 * n < total_bits c (p ++ [b])).
  { unfold takes_fallback. fold n. rewrite Eib. unfold total_bits.
    destruct Ht as [Ht| ->].
    - apply encode_loop_break; auto.
    - cbn [encode_loop]. split; [discriminate|].
      intros (p & b & s & E & _). destruct p; discriminate. }
  assert (Htot : takes_fallback c x <-> x <> [] /\ 8 * n < total_bits c x).
  { rewrite Hbrk. unfold total_bits. split.
    - intros (p & b & s & E & Hlt). split; [rewrite E; destruct p; discriminate|].
      assert (Es : sum_cost c x = sum_cost c (p ++ [b]) + sum_cost c s).
      { rewrite E. clear. induction p as [|a p IH]; cbn [app sum_cost]; lia. }
      pose proof (sum_cost_nonneg c s Hnn). lia.
    - intros [Hne Hlt]. destruct (exists_last Hne) as (p & b & E).
      exists p, b, []. split; [exact E|]. rewrite <- E. exact Hlt. }
  split; [exact Hbrk|]. split; [exact Htot|]. split; [|split].
  - intro Hf. unfold takes_fallback, enc_start in Hf.
    unfold vcEncode. rewrite (coded_is_coded c Hc). cbv zeta. rewrite Hf.
    fold n. rewrite Eib. rewrite to_int_small by lia. reflexivity.
  - intro Hnf. unfold vcEncode. rewrite (coded_is_coded c Hc). cbv zeta.
    fold n. rewrite Eib.
    destruct (encode_loop c (8 * n) x _ 2) as [[|st t]|] eqn:E.
    + exfalso. apply Hnf. unfold takes_fallback, enc_start. fold n.
      rewrite Eib. exact E.
    + eexists. unfold total_bits.
      destruct Ht as [Ht| ->].
      * pose proof (encode_loop_bits c (8 * n) x _ 2 _ Hnn Hmax E Ht) as [-> _].
        reflexivity.
      * cbn [encode_loop] in E. apply Some_inj in E. inversion E; subst.
        reflexivity.
    + exfalso.
      destruct (encode_loop_defined c (8 * n) x Hesc
                  (mkEnc (if isbig c then 4611686018427387904 else 0) 62 []) 2)
        as (r & Er).
      rewrite Er in E. discriminate.
  - intros Etie Hf. apply Htot in Hf. lia.
Qed.

(** * The macro GET *)

Lemma GET_refill_dlen big buf : forall fuel st st',
  GET_refill fuel big buf st = Some st' -> dlen st' = dlen st.
Proof.
  induction fuel as [|fuel IH]; intros st st' H; [discriminate|].
  cbn [GET_refill] in H.
  destruct (drem st <? 16); [|inversion H; reflexivity].
  destruct (nem st >? 64 - drem st); [inversion H; reflexivity|].
  destruct (drem st + nem st >=? dlen st); [inversion H; reflexivity|].
  destruct (dlen st - (drem st + nem st) <? 64);
    apply IH in H; cbn [dlen] in H; exact H.
Qed.

Lemma GET_dlen n big buf st st' :
  GET n big buf st = Some st' -> dlen st' = dlen st - n.
Proof.
  unfold GET. intro H. apply GET_refill_dlen in H. cbn [dlen] in H. exact H.
Qed.

Lemma GET_refill_total big buf : forall fuel st,
  0 <= nem st ->
  16 - drem st + (if nem st =? 0 then 1 else 0) < Z.of_nat fuel ->
  (0 < fuel)%nat ->
  exists st', GET_refill fuel big buf st = Some st' /\
              drem st <= drem st' /\ 0 <= nem st'.
Proof.
  induction fuel as [|fuel IH]; intros st Hn Hf Hpos; [lia|].
  cbn [GET_refill].
  destruct (drem st <? 16) eqn:E16; [|exists st; repeat split; auto; lia].
  apply Z.ltb_lt in E16.
  destruct (nem st >? 64 - drem st) eqn:Ez.
  { eexists. split; [reflexivity|]. cbn [drem nem]. lia. }
  destruct (drem st + nem st >=? dlen st) eqn:Ed.
  { eexists. split; [reflexivity|]. cbn [drem nem]. lia. }
  assert (Hd : drem st + nem st < dlen st) by lia.
  assert (Hcase : (if nem st =? 0 then 1 else 0) = 1 /\ nem st = 0 \/
                  (if nem st =? 0 then 1 else 0) = 0 /\ 1 <= nem st).
  { destruct (nem st =? 0) eqn:E0; [left|right]; lia. }
  destruct (dlen st - (drem st + nem st) <? 64) eqn:E64.
  - match goal with |- context [GET_refill fuel big buf ?s] =>
      destruct (IH s) as (st' & H1 & H2 & H3) end.
    + cbn [nem]. lia.
    + cbn [nem drem].
      destruct (dlen st - (drem st + nem st) =? 0) eqn:E0; lia.
    + lia.
    + exists st'. cbn [drem] in H2. repeat split; auto. lia.
  - match goal with |- context [GET_refill fuel big buf ?s] =>
      destruct (IH s) as (st' & H1 & H2 & H3) end.
    + cbn [nem]. lia.
    + cbn [nem drem]. change (64 =? 0) with false. lia.
    + lia.
    + exists st'. cbn [drem] in H2. repeat split; auto. lia.
Qed.

Lemma GET_total n big buf st :
  0 <= nem st -> - 80 <= drem st - n ->
  exists st', GET n big buf st = Some st' /\
              drem st - n <= drem st' /\ 0 <= nem st' /\
              dlen st' = dlen st - n.
Proof.
  intros Hn Hd. unfold GET.
  match goal with |- context [GET_refill 100 big buf ?s] =>
    destruct (GET_refill_total big buf 100 s) as (st' & H1 & H2 & H3) end.
  - exact Hn.
  - cbn [nem drem]. destruct (nem st =? 0); lia.
  - lia.
  - exists st'. cbn [drem] in H2. repeat split; auto.
    apply GET_refill_dlen in H1. exact H1.
Qed.

(** * Serialisation *)

Ltac app_norm := repeat (progress (rewrite <- ?app_assoc; cbn [app])).

Lemma length_be_bytes n w : length (be_bytes n w) = n.
Proof. induction n as [|n IH]; cbn [be_bytes length]; auto. Qed.

Lemma be_value_be_bytes : forall n w,
  be_value (be_bytes n w) = w mod 2 ^ (8 * Z.of_nat n).
Proof.
  induction n as [|n IH]; intro w.
  - cbn. rewrite Z.mod_1_r. reflexivity.
  - cbn [be_bytes be_value]. rewrite length_be_bytes, IH.
    rewrite Nat2Z.inj_succ.
    replace (8 * Z.succ (Z.of_nat n)) with (8 * Z.of_nat n + 8) by lia.
    rewrite Z.pow_add_r by lia.
    assert (Hp : 0 < 2 ^ (8 * Z.of_nat n)) by (apply Z.pow_pos_nonneg; lia).
    rewrite Z.rem_mul_r by lia.
    unfold u8. rewrite Z.shiftr_div_pow2 by lia. lia.
Qed.

(** A value written by one host and read by another, with the bytes
    reversed exactly when the two byte orders differ. *)
Lemma read_written reader writer n w :
  0 <= w < 2 ^ (8 * Z.of_nat n) ->
  bytes_word reader (if negb (big_flag reader =? big_flag writer)
                     then rev (word_bytes writer n w)
                     else word_bytes writer n w) = w.
Proof.
  intro H. rewrite <- (Z.mod_small w (2 ^ (8 * Z.of_nat n))) at 3 by exact H.
  rewrite <- be_value_be_bytes.
  destruct reader, writer; cbn [big_flag Z.eqb negb bytes_word word_bytes];
    rewrite ?rev_involutive; reflexivity.
Qed.

Lemma vcSerialize_bytes c :
  is_coded (state c) = true -> vcSerialize (Owned c) = Some (ser_bytes (isbig c) c).
Proof. intro H. unfold vcSerialize. rewrite H. reflexivity. Qed.

Lemma length_word_bytes big n w : length (word_bytes big n w) = n.
Proof.
  unfold word_bytes. destruct big; rewrite ?length_rev; apply length_be_bytes.
Qed.

Lemma fold_upd_value (f : Z -> Z) : forall l t k,
  fold_left (fun t i => upd t i (f i)) l t k = if in_dec Z.eq_dec k l then f k else t k.
Proof.
  induction l as [|i l IH]; intros t k; [reflexivity|].
  cbn [fold_left]. rewrite IH.
  destruct (in_dec Z.eq_dec k l) as [Hin|Hn];
    destruct (in_dec Z.eq_dec k (i :: l)) as [Hin'|Hn']; auto.
  - exfalso. apply Hn'. right; auto.
  - unfold upd. destruct Hin' as [->|Hin']; [|contradiction].
    rewrite Z.eqb_refl. reflexivity.
  - unfold upd. destruct (k =? i) eqn:E; auto.
    apply Z.eqb_eq in E. subst. exfalso. apply Hn'. left; auto.
Qed.

(** Reading back the table entries written for the bytes of [l]. *)
Lemma deser_fold_entries reader writer c blob : wf_codec c ->
  forall l pre suf lens0 bits0,
    blob = pre ++ flat_map (serial_entry writer (codelens c) (codebits c)) l ++ suf ->
    exists ip,
      fold_left (deser_step (negb (big_flag reader =? big_flag writer)) reader blob) l
                (length pre, lens0, bits0)
      = (ip,
         fold_left (fun t i => upd t i (codelens c i)) l lens0,
         fold_left (fun t i => upd t i (codebits c i)) l bits0).
Proof.
  intros Hwf. induction l as [|i l IH]; intros pre suf lens0 bits0 Hb.
  - exists (length pre). reflexivity.
  - cbn [flat_map] in Hb. cbn [fold_left].
    pose proof (wf_lens c Hwf i) as Hl. pose proof (wf_bits c Hwf i) as Hbi.
    assert (Hrd : rd blob (length pre) = codelens c i).
    { rewrite Hb. unfold rd, serial_entry. app_norm.
      rewrite nth_middle. apply u8_small. lia. }
    unfold deser_step at 2. rewrite Hrd.
    unfold serial_entry in Hb at 1. rewrite u8_small in Hb by lia.
    destruct (0 <? codelens c i) eqn:E.
    + assert (Hitem : read_item (negb (big_flag reader =? big_flag writer)) reader blob
                                (length pre + 1) 2 = codebits c i).
      { unfold read_item.
        assert (Hr : rd_range blob (length pre + 1) 2 = word_bytes writer 2 (codebits c i)).
        { rewrite Hb.
          pose proof (rd_range_exact (word_bytes writer 2 (codebits c i))
                        (pre ++ [codelens c i])
                        (flat_map (serial_entry writer (codelens c) (codebits c)) l ++ suf)) as R.
          rewrite length_app, length_word_bytes in R. cbn [length] in R.
          etransitivity; [|exact R]. f_equal.
          app_norm. reflexivity. }
        rewrite Hr. apply read_written. change (2 ^ (8 * Z.of_nat 2)) with 65536. lia. }
      rewrite Hitem.
      destruct (IH (pre ++ [codelens c i] ++ word_bytes writer 2 (codebits c i)) suf
                   (upd lens0 i (codelens c i)) (upd bits0 i (codebits c i))) as (ip & Hip).
      { rewrite Hb. app_norm. reflexivity. }
      exists ip. rewrite <- Hip. f_equal. f_equal. f_equal.
      rewrite !length_app, length_word_bytes. cbn [length]. lia.
    + apply Z.ltb_ge in E. assert (E0 : codelens c i = 0) by lia.
      rewrite (wf_zero c Hwf i E0).
      destruct (IH (pre ++ [codelens c i]) suf
                   (upd lens0 i (codelens c i)) (upd bits0 i 0)) as (ip & Hip).
      { rewrite Hb. app_norm. reflexivity. }
      exists ip. rewrite <- Hip. f_equal. f_equal. f_equal.
      rewrite length_app. cbn [length]. lia.
Qed.

Lemma to_int_u32 x : - 2 ^ 31 <= x < 2 ^ 31 -> to_int (u32 x) = x.
Proof.
  intro H. unfold to_int, u32. rewrite Z.mod_mod by lia.
  destruct (Z_lt_le_dec x 0) as [Hneg|Hpos].
  - assert (E : x mod 2 ^ 32 = x + 2 ^ 32).
    { symmetry. apply (Z.mod_unique x (2 ^ 32) (-1) (x + 2 ^ 32)); lia. }
    rewrite E. destruct (x + 2 ^ 32 <? 2 ^ 31) eqn:El; [apply Z.ltb_lt in El|]; lia.
  - rewrite Z.mod_small by lia.
    destruct (x <? 2 ^ 31) eqn:El; [|apply Z.ltb_ge in El]; lia.
Qed.

Lemma fill_lookup_ext lens bitv lens' bitv' : forall l look,
  (forall i, In i l -> lens' i = lens i /\ bitv' i = bitv i) ->
  fold_left (fill_lookup_step lens' bitv') l look
  = fold_left (fill_lookup_step lens bitv) l look.
Proof.
  induction l as [|i l IH]; intros look H; [reflexivity|].
  cbn [fold_left]. destruct (H i (or_introl eq_refl)) as [H1 H2].
  unfold fill_lookup_step at 2 4. rewrite H1, H2.
  apply IH. intros k Hk. apply H. right; auto.
Qed.

(** Any host reads back the tables that any host wrote. *)
Lemma deserialize_ser_bytes reader writer c :
  wf_codec c -> same_codec c (vcDeserialize reader (ser_bytes writer c)).
Proof.
  intro Hwf. unfold vcDeserialize.
  set (blob := ser_bytes writer c).
  assert (Hflag : rd blob 0 = big_flag writer) by reflexivity.
  rewrite Hflag.
  set (flip := negb (big_flag reader =? big_flag writer)).
  assert (Hesc : to_int (read_item flip reader blob 1 4) = esc_code c).
  { unfold read_item.
    assert (Hr : rd_range blob 1 4 = word_bytes writer 4 (u32 (esc_code c))).
    { pose proof (rd_range_exact (word_bytes writer 4 (u32 (esc_code c)))
                    [big_flag writer]
                    (flat_map (serial_entry writer (codelens c) (codebits c)) bytes256)) as R.
      rewrite length_word_bytes in R. exact R. }
    rewrite Hr. unfold flip. rewrite read_written.
    - apply to_int_u32. apply (wf_esc c Hwf).
    - unfold u32. change (2 ^ (8 * Z.of_nat 4)) with (2 ^ 32).
      apply Z.mod_pos_bound. lia. }
  destruct (deser_fold_entries reader writer c blob Hwf bytes256
              (big_flag writer :: word_bytes writer 4 (u32 (esc_code c))) []
              (fun _ => 0) (fun _ => 0)) as (ip & Hfold).
  { unfold blob, ser_bytes. rewrite app_nil_r. reflexivity. }
  cbn [length] in Hfold. rewrite length_word_bytes in Hfold.
  fold flip in Hfold. rewrite Hfold.
  assert (Hval : forall i, 0 <= i < 256 ->
            fold_left (fun t i => upd t i (codelens c i)) bytes256 (fun _ => 0) i = codelens c i /\
            fold_left (fun t i => upd t i (codebits c i)) bytes256 (fun _ => 0) i = codebits c i).
  { intros i Hi. rewrite !fold_upd_value.
    destruct (in_dec Z.eq_dec i bytes256) as [|Hn]; auto.
    exfalso. apply Hn. apply bytes256_range. exact Hi. }
  split; [|split]; cbn [codelens codebits esc_code lookup].
  - exact Hval.
  - exact Hesc.
  - intro x. rewrite (wf_look c Hwf x). unfold fill_lookup.
    rewrite (fill_lookup_ext (codelens c) (codebits c)); [reflexivity|].
    intros i Hi. apply Hval. apply bytes256_range. exact Hi.
Qed.

Lemma swap_entries_ser writer c : wf_codec c -> forall l suf,
  swap_entries (length l)
    (flat_map (serial_entry writer (codelens c) (codebits c)) l ++ suf)
  = flat_map (serial_entry (negb writer) (codelens c) (codebits c)) l ++ suf.
Proof.
  intro Hwf. induction l as [|i l IH]; intro suf; [reflexivity|].
  cbn [length flat_map]. unfold serial_entry at 1 3.
  pose proof (wf_lens c Hwf i) as Hl. rewrite u8_small by lia.
  cbn [swap_entries app].
  destruct (0 <? codelens c i) eqn:E.
  - assert (Hw : word_bytes (negb writer) 2 (codebits c i)
                 = rev (word_bytes writer 2 (codebits c i))).
    { unfold word_bytes. destruct writer; cbn [negb]; rewrite ?rev_involutive; reflexivity. }
    rewrite Hw.
    destruct (word_bytes writer 2 (codebits c i)) as [|b0 [|b1 [|b2 r]]] eqn:Eb;
      pose proof (length_word_bytes writer 2 (codebits c i)) as Hlen;
      rewrite Eb in Hlen; cbn in Hlen; try lia.
    cbn [app rev]. rewrite IH. reflexivity.
  - cbn [app]. rewrite IH. reflexivity.
Qed.

Lemma cross_endian_ser writer c :
  wf_codec c -> cross_endian (ser_bytes writer c) = ser_bytes (negb writer) c.
Proof.
  intro Hwf. unfold ser_bytes.
  assert (Hw : word_bytes (negb writer) 4 (u32 (esc_code c))
               = rev (word_bytes writer 4 (u32 (esc_code c)))).
  { unfold word_bytes. destruct writer; cbn [negb]; rewrite ?rev_involutive; reflexivity. }
  rewrite Hw.
  destruct (word_bytes writer 4 (u32 (esc_code c))) as [|e0 [|e1 [|e2 [|e3 [|e4 r]]]]] eqn:Eb;
    pose proof (length_word_bytes writer 4 (u32 (esc_code c))) as Hlen;
    rewrite Eb in Hlen; cbn in Hlen; try lia.
  cbn [app rev cross_endian].
  pose proof (swap_entries_ser writer c Hwf bytes256 []) as Hs.
  rewrite !app_nil_r in Hs. rewrite length_bytes256 in Hs. rewrite Hs.
  destruct writer; reflexivity.
Qed.

(** C8.  For every coded compressor [c] (the DNA singleton is not one),
    deserialising the blob that [vcSerialize] writes for [c] yields a
    compressor with the same code lengths, code bits, escape code and
    decoder table, on a host of either byte order; and the same holds for
    the blob with its endian flag flipped and its escape field and every
    [bits] entry byte-swapped. *)
Theorem serialize_deserialize_roundtrip (c : VGPcompressor) :
  coded c ->
  exists blob,
    vcSerialize (Owned c) = Some blob /\
    (forall reader, same_codec c (vcDeserialize reader blob)) /\
    (forall reader, same_codec c (vcDeserialize reader (cross_endian blob))).
Proof.
  intro Hc. pose proof (coded_wf c Hc) as Hwf.
  exists (ser_bytes (isbig c) c). split; [|split].
  - apply vcSerialize_bytes. apply coded_is_coded. exact Hc.
  - intro reader. apply deserialize_ser_bytes. exact Hwf.
  - intro reader. rewrite cross_endian_ser by exact Hwf.
    apply deserialize_ser_bytes. exact Hwf.
Qed.

(** * The rows of the coin filter are nested *)

Lemma u64_small x : 0 <= x < 2 ^ 64 -> u64 x = x.
Proof. intro H. unfold u64. apply Z.mod_small. exact H. Qed.

Lemma coins_of_cons a f r :
  coins_of ((a, f) :: r) = (if f then [a] else []) ++ coins_of r.
Proof. destruct f; reflexivity. Qed.

Lemma count_zeros_firstn_all_true t (l : list Z) :
  count_zeros (firstn t (map snd (map (fun c => (c, true)) l))) = O.
Proof.
  pose proof (count_zeros_firstn t (map snd (map (fun c => (c, true)) l))) as H.
  rewrite (count_zeros_all_true _ l (fun c => c)) in H. lia.
Qed.

Lemma firstn_double_succ (A : Type) z (a b : A) l :
  firstn (2 * S z) (a :: b :: l) = a :: b :: firstn (2 * z) l.
Proof. replace (2 * S z)%nat with (S (S (2 * z))) by lia. reflexivity. Qed.

(** The merge never emits a pair before the base coins it contains: when
    [d] lists the coins already emitted that still lie ahead in the previous
    row, the previous-row entries consumed by the first [t] outputs hold at
    most [length d] coins more than those outputs. *)
Lemma coin_row_mono_gen : forall suf cbr d t,
  Forall (fun wf => 0 <= fst wf < 2 ^ 63) suf ->
  coins_of suf = d ++ cbr ->
  (count_ones (firstn (2 * count_zeros
                             (firstn t (map snd (coin_row cbr (map fst suf)))))
                      (map snd suf))
   <= length d + count_ones (firstn t (map snd (coin_row cbr (map fst suf)))))%nat.
Proof.
  induction suf as [| x | x y suf IH] using list_pair_ind; intros cbr d t Hb Hc.
  - rewrite coin_row_short by (cbn; lia).
    rewrite count_zeros_firstn_all_true. cbn. lia.
  - rewrite coin_row_short by (cbn; lia).
    rewrite count_zeros_firstn_all_true. cbn. lia.
  - destruct x as [a fa], y as [b fb]. cbn [map fst snd].
    apply Forall_cons_iff in Hb. destruct Hb as [Ha Hb].
    apply Forall_cons_iff in Hb. destruct Hb as [Hb0 Hb].
    cbn [fst] in Ha, Hb0.
    assert (Hu : u64 (a + b) = a + b) by (apply u64_small; lia).
    rewrite !coins_of_cons in Hc.
    revert d t Hc. induction cbr as [|c cbr IHc]; intros d t Hc.
    + rewrite coin_row_nil. destruct t as [|t]; [cbn; lia|].
      cbn [map snd firstn count_zeros count_ones]. rewrite Nat.add_0_l.
      change (1 + ?z)%nat with (S z). rewrite firstn_double_succ.
      cbn [count_ones].
      rewrite app_nil_r in Hc.
      specialize (IH [] (coins_of suf) t Hb ltac:(rewrite app_nil_r; reflexivity)).
      assert (Hl : length d = (flag_count fa + flag_count fb + length (coins_of suf))%nat).
      { rewrite <- Hc. rewrite !length_app. destruct fa, fb; reflexivity. }
      unfold flag_count in Hl. destruct fa, fb; lia.
    + rewrite coin_row_cons. destruct (c <=? u64 (a + b)) eqn:E.
      * destruct t as [|t]; [cbn; lia|].
        cbn [map snd firstn count_zeros count_ones]. rewrite Nat.add_0_l.
        specialize (IHc (d ++ [c]) t ltac:(rewrite <- app_assoc; exact Hc)).
        rewrite length_app in IHc. cbn [length] in IHc. cbn [map fst] in IHc. lia.
      * apply Z.leb_gt in E. rewrite Hu in E.
        destruct t as [|t]; [cbn; lia|].
        cbn [map snd firstn count_zeros count_ones]. rewrite Nat.add_0_l.
        change (1 + ?z)%nat with (S z). rewrite firstn_double_succ.
        cbn [count_ones].
        assert (Hd : exists d', coins_of suf = d' ++ c :: cbr /\
                       length d = (flag_count fa + flag_count fb + length d')%nat).
        { destruct fa, fb; cbn [app] in Hc.
          - destruct d as [|d0 [|d1 d']]; cbn [app] in Hc; inversion Hc; subst; try lia.
            exists d'. split; auto.
          - destruct d as [|d0 d']; cbn [app] in Hc; inversion Hc; subst; try lia.
            exists d'. split; auto.
          - destruct d as [|d0 d']; cbn [app] in Hc; inversion Hc; subst; try lia.
            exists d'. split; auto.
          - exists d. split; auto. }
        destruct Hd as (d' & Hd1 & Hd2).
        specialize (IH (c :: cbr) d' t Hb Hd1).
        unfold flag_count in Hd2. destruct fa, fb; lia.
Qed.

Lemma coin_row_mono cb prev :
  Forall (fun wf => 0 <= fst wf < 2 ^ 63) prev ->
  coins_of prev = cb ->
  mono (map snd (coin_row cb (map fst prev))) (map snd prev).
Proof.
  intros Hb Hc s Hs.
  pose proof (coin_row_mono_gen prev cb [] s Hb Hc) as H.
  rewrite count_zeros_firstn_exact in H by exact Hs.
  cbn [length] in H. lia.
Qed.

(** The row keeps the base coins in order, and its weights at most double. *)
Lemma coin_row_coins lc : forall cb, coins_of (coin_row cb lc) = cb.
Proof.
  induction lc as [| a | a b lc IH] using list_pair_ind; intro cb.
  - rewrite coin_row_short by (cbn; lia).
    induction cb as [|c cb IHc]; [reflexivity|].
    cbn [map]. rewrite coins_of_cons. cbn [app]. f_equal. exact IHc.
  - rewrite coin_row_short by (cbn; lia).
    induction cb as [|c cb IHc]; [reflexivity|].
    cbn [map]. rewrite coins_of_cons. cbn [app]. f_equal. exact IHc.
  - induction cb as [|c cb IHc].
    + rewrite coin_row_nil, coins_of_cons. cbn [app]. apply IH.
    + rewrite coin_row_cons. destruct (c <=? u64 (a + b)).
      * rewrite coins_of_cons. cbn [app]. f_equal. exact IHc.
      * rewrite coins_of_cons. cbn [app]. apply IH.
Qed.

Lemma coin_row_bound B lc : 0 < B -> 2 * B <= 2 ^ 64 ->
  Forall (fun w => 0 <= w < B) lc ->
  forall cb, Forall (fun w => 0 <= w < B) cb ->
  Forall (fun wf => 0 <= fst wf < 2 * B) (coin_row cb lc).
Proof.
  intros HB HB2.
  induction lc as [| a | a b lc IH] using list_pair_ind; intros Hl cb Hcb.
  - rewrite coin_row_short by (cbn; lia).
    apply Forall_forall. intros wf Hin. apply in_map_iff in Hin.
    destruct Hin as (c & <- & Hin). rewrite Forall_forall in Hcb.
    specialize (Hcb c Hin). cbn [fst]. lia.
  - rewrite coin_row_short by (cbn; lia).
    apply Forall_forall. intros wf Hin. apply in_map_iff in Hin.
    destruct Hin as (c & <- & Hin). rewrite Forall_forall in Hcb.
    specialize (Hcb c Hin). cbn [fst]. lia.
  - apply Forall_cons_iff in Hl. destruct Hl as [Ha Hl].
    apply Forall_cons_iff in Hl. destruct Hl as [Hb Hl].
    assert (Hu : u64 (a + b) = a + b) by (apply u64_small; lia).
    induction cb as [|c cb IHc].
    + rewrite coin_row_nil. constructor; [cbn [fst]; rewrite Hu; lia|]. apply IH; auto.
    + apply Forall_cons_iff in Hcb. destruct Hcb as [Hc Hcb].
      rewrite coin_row_cons. destruct (c <=? u64 (a + b)).
      * constructor; [cbn [fst]; lia|]. apply IHc; auto.
      * constructor; [cbn [fst]; rewrite Hu; lia|]. apply IH; auto.
Qed.

(** * The lengths are ordered and fill the code space *)

Lemma mono_chain_snoc base R : forall X,
  mono_chain R X -> mono R base -> mono_chain base (X ++ [R]).
Proof.
  induction X as [|R0 X IH]; intros HX HR.
  - cbn. auto.
  - destruct HX as [H0 HX]. cbn [app mono_chain]. split.
    + destruct X; exact H0.
    + apply IH; auto.
Qed.

Lemma coin_filter_mono cb : forall l B prev,
  0 < B -> B * 2 ^ Z.of_nat l <= 2 ^ 63 ->
  Forall (fun w => 0 <= w < B) cb ->
  coins_of prev = cb ->
  Forall (fun wf => 0 <= fst wf < B) prev ->
  mono_chain (map snd prev) (coin_filter l cb (map fst prev)).
Proof.
  induction l as [|l IH]; intros B prev HB HBl Hcb Hc Hp; [exact I|].
  rewrite Nat2Z.inj_succ, Z.pow_succ_r in HBl by lia.
  assert (Hpl : 0 < 2 ^ Z.of_nat l) by (apply Z.pow_pos_nonneg; lia).
  assert (HB63 : 2 * B <= 2 ^ 63) by nia.
  cbn [coin_filter]. apply mono_chain_snoc.
  - apply (IH (2 * B)); [lia | nia | | |].
    + eapply Forall_impl; [|exact Hcb]. cbv beta. intros; lia.
    + apply coin_row_coins.
    + apply coin_row_bound; auto; try lia.
      apply Forall_forall. intros w Hw. apply in_map_iff in Hw.
      destruct Hw as (wf & <- & Hin). rewrite Forall_forall in Hp. apply Hp; auto.
  - apply coin_row_mono; auto.
    eapply Forall_impl; [|exact Hp]. cbv beta. intros; lia.
Qed.

Lemma incr_prefix_exact B : 0 <= B <= 11 -> forall j leng,
  (forall n, (n < j)%nat -> nth n leng 0 = B) -> (j <= length leng)%nat ->
  kraft12 (incr_prefix j leng) = kraft12 leng - Z.of_nat j * K (B + 1) /\
  (forall n, (n < j)%nat -> nth n (incr_prefix j leng) 0 = B + 1).
Proof.
  intros HB. induction j as [|j IH]; intros leng Hn Hl.
  - split; [destruct leng; cbn [incr_prefix]; lia|]. intros n Hlt. lia.
  - destruct leng as [|l leng]; [cbn in Hl; lia|].
    cbn [length] in Hl. assert (El : l = B) by (apply (Hn O); lia). subst l.
    destruct (IH leng) as [IH1 IH2].
    { intros n Hlt. apply (Hn (S n)). lia. }
    { lia. }
    cbn [incr_prefix kraft12]. split.
    + rewrite IH1, (K_succ B) by lia. rewrite Nat2Z.inj_succ. lia.
    + intros [|n] Hlt; [reflexivity|]. cbn [nth]. apply IH2. lia.
Qed.

Lemma back_trace_exact N base :
  (forall s, count_ones (firstn s base) = Nat.min s N) ->
  forall matrix L s leng J,
    chain_ok N N matrix -> mono_chain base matrix ->
    (s <= hd_len N matrix)%nat ->
    (count_ones (firstn s (hd base matrix)) <= J)%nat -> (J <= N)%nat ->
    (forall n, (n < J)%nat -> nth n leng 0 = L - 1) ->
    length leng = N ->
    kraft12 leng = 2 ^ 12 + Z.of_nat s * K L ->
    1 <= L -> L + Z.of_nat (length matrix) = 12 ->
    kraft12 (back_trace matrix s leng) = 2 ^ 12.
Proof.
  intros Hbase. induction matrix as [|R m' IH];
    intros L s leng J Hch Hm Hs Hj HJ Hn Hlen Hk HL HLm.
  - cbn [hd_len hd length back_trace] in *. assert (L = 12) by lia. subst L.
    rewrite Hbase in Hj.
    destruct (incr_prefix_exact 11 ltac:(lia) s leng) as [H1 _].
    { intros n Hlt. apply Hn. lia. }
    { lia. }
    rewrite H1, Hk. change (K (11 + 1)) with 1. change (K 12) with 1. lia.
  - destruct Hch as (H1 & H2 & H3). destruct Hm as [Hm0 Hm].
    cbn [hd_len hd] in Hs, Hj.
    change (length (R :: m')) with (S (length m')) in HLm.
    cbn [back_trace].
    set (j := count_ones (firstn s R)) in *.
    assert (Hz : (count_zeros (firstn s R) = s - j)%nat)
      by (apply count_zeros_firstn_exact; exact Hs).
    assert (Hjs : (j <= s)%nat).
    { pose proof (count_ones_zeros (firstn s R)) as E.
      rewrite length_firstn in E. unfold j. lia. }
    destruct (incr_prefix_exact (L - 1) ltac:(lia) j leng) as [E1 E2].
    { intros n Hlt. apply Hn. lia. }
    { lia. }
    replace (L - 1 + 1) with L in E1, E2 by lia.
    apply (IH (L + 1) _ _ j);
      [exact H3 | exact Hm | | apply Hm0; exact Hs | lia | | | | lia | lia].
    + pose proof (count_zeros_firstn s R) as Hz'.
      pose proof (Nat.div_mod_eq (hd_len N m') 2). lia.
    + intros n Hlt. rewrite E2 by exact Hlt. lia.
    + rewrite length_incr_prefix. exact Hlen.
    + rewrite E1, Hk. rewrite (K_succ L) by lia.
      rewrite Nat2Z.inj_mul, Nat2Z.inj_sub by lia. simpl Z.of_nat. nia.
Qed.

Lemma incr_prefix_desc : forall j leng, desc leng -> desc (incr_prefix j leng).
Proof.
  induction j as [|j IH]; intros leng Hd; [destruct leng; exact Hd|].
  destruct leng as [|l leng]; [exact Hd|].
  destruct Hd as [H1 H2]. cbn [incr_prefix].
  specialize (IH leng H2). cbn [desc]. split; [|exact IH].
  destruct leng as [|l' leng]; [destruct j; exact I|].
  destruct j; cbn [incr_prefix]; lia.
Qed.

Lemma back_trace_desc : forall matrix s leng,
  desc leng -> desc (back_trace matrix s leng).
Proof.
  induction matrix as [|R m' IH]; intros s leng Hd; cbn [back_trace].
  - apply incr_prefix_desc. exact Hd.
  - apply IH. apply incr_prefix_desc. exact Hd.
Qed.

Lemma desc_zeros (A : Type) (l : list A) : desc (map (fun _ => 0) l).
Proof.
  induction l as [|a l IH]; [exact I|]. cbn [map desc]. split; [|exact IH].
  destruct l; cbn; [exact I|lia].
Qed.

Lemma nth_zeros (A : Type) (l : list A) : forall n, nth n (map (fun _ => 0) l) 0 = 0.
Proof.
  induction l as [|a l IH]; intros [|n]; cbn [map nth]; auto.
Qed.

Lemma code_lengths_desc cb : desc (code_lengths cb).
Proof. unfold code_lengths. apply back_trace_desc. apply desc_zeros. Qed.

Lemma count_ones_firstn_all_true (l : list Z) s :
  count_ones (firstn s (map snd (map (fun c => (c, true)) l))) = Nat.min s (length l).
Proof.
  revert s. induction l as [|a l IH]; intros [|s]; cbn [map firstn count_ones length Nat.min];
    try reflexivity.
  rewrite IH. reflexivity.
Qed.

(** Without overflow of the 64-bit sums the lengths have Kraft sum exactly 1. *)
Lemma code_lengths_exact cb :
  (1 <= length cb <= 256)%nat ->
  Forall (fun w => 0 <= w < 2 ^ 52) cb ->
  kraft12 (code_lengths cb) = 2 ^ 12.
Proof.
  intros HN Hcb. unfold code_lengths.
  set (base := map (fun c => (c, true)) cb).
  assert (Hfst : map fst base = cb).
  { unfold base. rewrite map_map. cbn [fst]. apply map_id. }
  assert (Hco : coins_of base = cb).
  { unfold base. clear. induction cb as [|c cb IH]; [reflexivity|].
    cbn [map]. rewrite coins_of_cons. cbn [app]. f_equal. exact IH. }
  set (matrix := coin_filter (Z.to_nat HUFF_CUTOFF - 1) cb cb).
  assert (Hch : chain_ok (length cb) (length cb) matrix) by apply coin_filter_chain.
  assert (Hlm : length matrix = 11%nat) by apply length_coin_filter.
  assert (Hmono : mono_chain (map snd base) matrix).
  { unfold matrix. rewrite <- Hfst at 2.
    apply (coin_filter_mono cb _ (2 ^ 52)); auto; try lia.
    - change (Z.of_nat (Z.to_nat HUFF_CUTOFF - 1)) with 11.
      rewrite <- Z.pow_add_r by lia. apply Z.pow_le_mono_r; lia.
    - apply Forall_forall. intros wf Hin. unfold base in Hin.
      apply in_map_iff in Hin. destruct Hin as (c & <- & Hin).
      rewrite Forall_forall in Hcb. apply Hcb; auto. }
  apply (back_trace_exact (length cb) (map snd base)
           (count_ones_firstn_all_true cb) matrix 1 _ _ (length cb)); auto; try lia.
  - pose proof (chain_ok_head_len _ _ _ Hch) as H. rewrite Hlm in H.
    change (2 ^ Z.of_nat 11) with 2048 in H. lia.
  - destruct matrix as [|R m']; [discriminate|].
    destruct Hch as (H1 & _). cbn [hd]. rewrite <- H1. apply count_ones_firstn.
  - intros n Hlt. rewrite nth_zeros. reflexivity.
  - rewrite length_map. reflexivity.
  - rewrite kraft12_zeros. change (K 1) with (2 ^ 11).
    rewrite Nat2Z.inj_mul, Nat2Z.inj_sub by lia. simpl Z.of_nat.
    change (2 ^ 12) with 4096. change (2 ^ 11) with 2048. lia.
Qed.

(** * The canonical codes tile the code space *)

Lemma desc_head_max l rest : desc (l :: rest) -> Forall (fun x => x <= l) rest.
Proof.
  revert l. induction rest as [|a rest IH]; intros l Hd; [constructor|].
  destruct Hd as [H1 H2]. constructor; [exact H1|].
  specialize (IH a H2). eapply Forall_impl; [|exact IH]. cbv beta. intros; lia.
Qed.

Lemma kraft12_multiple l : 0 <= l <= 12 -> forall rest,
  Forall (fun x => 0 <= x <= 12) rest -> Forall (fun x => x <= l) rest ->
  exists q, 0 <= q /\ kraft12 rest = q * K l.
Proof.
  intros Hl. induction rest as [|a rest IH]; intros H1 H2.
  - exists 0. cbn. lia.
  - apply Forall_cons_iff in H1. destruct H1 as [Ha H1].
    apply Forall_cons_iff in H2. destruct H2 as [Ha2 H2].
    destruct (IH H1 H2) as (q & Hq & E).
    exists (2 ^ (l - a) + q). cbn [kraft12]. rewrite E, (K_split a l) by lia.
    assert (0 < 2 ^ (l - a)) by (apply Z.pow_pos_nonneg; lia).
    split; lia.
Qed.

Lemma assign_bits_exact : forall rest lbits llen T,
  0 <= llen <= 12 -> T = lbits * K llen -> 0 <= T < 2 ^ 12 ->
  Forall (fun l => 0 <= l <= 12) rest -> desc rest -> kraft12 rest = T ->
  exists bs, assign_bits lbits llen rest = Some bs /\ positions T rest bs.
Proof.
  induction rest as [|l rest IH]; intros lbits llen T Hllen HT HT0 Hall Hd Hk.
  - exists []. cbn. auto.
  - apply Forall_cons_iff in Hall. destruct Hall as [Hl Hall'].
    cbn [kraft12] in Hk. pose proof (K_pos l Hl) as HKl.
    pose proof (kraft12_nonneg rest) as Hr.
    destruct (assign_step lbits llen l T) as
      (lb & ll & lb2 & ll2 & H1 & H2 & H3 & H4 & H5 & H6 & H7 & H8); auto; try lia.
    assert (Hll : ll <= l).
    { destruct (Z_le_gt_dec ll l) as [|Hgt]; [assumption|exfalso].
      destruct (kraft12_multiple l Hl rest Hall' (desc_head_max l rest Hd)) as (q & Hq & Eq).
      assert (HKll : 0 < K ll) by (pose proof (K_pos ll); lia).
      assert (E : lb * K ll = (1 + q) * (2 ^ (ll - l) * K ll)).
      { rewrite <- (K_split l ll) by lia. lia. }
      assert (E2 : lb = (1 + q) * 2 ^ (ll - l)) by nia.
      replace (ll - l) with (Z.succ (ll - l - 1)) in E2 by lia.
      rewrite Z.pow_succ_r in E2 by lia.
      assert (lb mod 2 = 0).
      { rewrite E2. replace ((1 + q) * (2 * 2 ^ (ll - l - 1)))
          with ((1 + q) * 2 ^ (ll - l - 1) * 2) by lia.
        apply Z.mod_mul. lia. }
      lia. }
    assert (E2 : ll2 = l) by lia. clear H6. subst ll2.
    cbn [assign_bits]. rewrite H1, H2.
    destruct Hd as [_ Hd'].
    destruct (IH lb2 l (T - K l)) as (bs & Hb1 & Hb2); auto; try lia.
    rewrite Hb1. exists (lb2 :: bs). split; [reflexivity|].
    cbn [positions]. repeat split; auto; lia.
Qed.

Lemma canonical_bits_exact leng :
  leng <> [] -> Forall (fun l => 0 <= l <= 12) leng -> desc leng ->
  kraft12 leng = 2 ^ 12 ->
  exists bs, canonical_bits leng = Some bs /\ positions (2 ^ 12) leng bs.
Proof.
  intros Hne Hall Hd Hk. destruct leng as [|l0 rest]; [congruence|].
  apply Forall_cons_iff in Hall. destruct Hall as [Hl Hall'].
  cbn [kraft12] in Hk. cbn [canonical_bits].
  assert (Hp : 0 < 2 ^ l0) by (apply Z.pow_pos_nonneg; lia).
  assert (Hp16 : 2 ^ l0 <= 2 ^ 16) by (apply Z.pow_le_mono_r; lia).
  assert (E : 2 ^ 12 = 2 ^ l0 * K l0).
  { unfold K, HUFF_CUTOFF. rewrite <- Z.pow_add_r by lia. f_equal. lia. }
  pose proof (K_pos l0 Hl) as HK.
  rewrite Z.shiftl_mul_pow2, Z.mul_1_l by lia.
  rewrite u16_small by lia.
  destruct Hd as [_ Hd'].
  destruct (assign_bits_exact rest (2 ^ l0 - 1) l0 (2 ^ 12 - K l0))
    as (bs & H1 & H2); auto; try lia.
  rewrite H1. exists ((2 ^ l0 - 1) :: bs). split; [reflexivity|].
  cbn [positions]. repeat split; auto; lia.
Qed.

(** Every code lies inside the space below [T], above 0. *)
Lemma positions_below : forall leng bits T,
  positions T leng bits -> Forall (fun l => 0 <= l <= 12) leng ->
  length bits = length leng /\
  forall l b, In (l, b) (combine leng bits) ->
              0 <= l <= 12 /\ 0 <= b /\ b * K l + K l <= T.
Proof.
  induction leng as [|l0 leng IH]; intros [|b0 bits] T HP Hall; cbn [positions] in HP;
    try contradiction.
  - split; [reflexivity|]. intros l b [].
  - destruct HP as (Hb & HT & HP).
    apply Forall_cons_iff in Hall. destruct Hall as [Hl Hall].
    destruct (IH bits (T - K l0) HP Hall) as [Hlen Hin].
    split; [cbn [length]; lia|].
    intros l b [E|H].
    + inversion E; subst. lia.
    + destruct (Hin l b H) as (? & ? & ?). pose proof (K_nonneg l0). lia.
Qed.

(** Codes of different symbols occupy disjoint parts of the code space. *)
Lemma positions_pairwise : forall (code leng bits : list Z) (T : Z),
  positions T leng bits -> Forall (fun l => 0 <= l <= 12) leng ->
  NoDup code ->
  forall i j l1 b1 l2 b2 : Z,
    In (i, (l1, b1)) (combine code (combine leng bits)) ->
    In (j, (l2, b2)) (combine code (combine leng bits)) ->
    i <> j -> disjoint_codes l1 b1 l2 b2.
Proof.
  induction code as [|c code IH]; intros leng bits T HP Hall Hnd i j l1 b1 l2 b2 H1 H2 Hij;
    [contradiction|].
  destruct leng as [|l0 leng]; [cbn in H1; contradiction|].
  destruct bits as [|b0 bits]; [cbn in H1; contradiction|].
  cbn [positions] in HP. destruct HP as (Hb & HT & HP).
  apply Forall_cons_iff in Hall. destruct Hall as [Hl Hall].
  apply NoDup_cons_iff in Hnd. destruct Hnd as [Hn Hnd'].
  destruct (positions_below leng bits (T - K l0) HP Hall) as [_ Hbelow].
  cbn [combine] in H1, H2.
  destruct H1 as [E1|H1], H2 as [E2|H2].
  - inversion E1; inversion E2; subst. congruence.
  - inversion E1; subst. apply in_combine_r in H2.
    destruct (Hbelow _ _ H2) as (? & ? & ?). right. lia.
  - inversion E2; subst. apply in_combine_r in H1.
    destruct (Hbelow _ _ H1) as (? & ? & ?). left. lia.
  - eapply IH; eauto.
Qed.

(** * The decoder table of a tiled code *)

Lemma fill_cells_spec base i x : forall n j look,
  fill_cells n j base i look x =
  if (base + j <=? x) && (x <? base + j + Z.of_nat n) then Some i else look x.
Proof.
  induction n as [|n IH]; intros j look.
  - cbn [fill_cells]. destruct (base + j <=? x) eqn:E1; cbn [andb]; auto.
    destruct (x <? base + j + Z.of_nat 0) eqn:E2; auto.
    apply Z.leb_le in E1. apply Z.ltb_lt in E2. lia.
  - cbn [fill_cells]. rewrite IH. unfold upd.
    destruct (base + (j + 1) <=? x) eqn:E1; destruct (x <? base + (j + 1) + Z.of_nat n) eqn:E2;
      destruct (base + j <=? x) eqn:E3; destruct (x <? base + j + Z.of_nat (S n)) eqn:E4;
      destruct (x =? base + j) eqn:E5; cbn [andb]; auto;
      rewrite ?Z.leb_le, ?Z.leb_gt, ?Z.ltb_lt, ?Z.ltb_ge, ?Z.eqb_eq, ?Z.eqb_neq in *; lia.
Qed.

Lemma shiftr_eq_range x k b : 0 <= k ->
  Z.shiftr x k = b <-> b * 2 ^ k <= x < (b + 1) * 2 ^ k.
Proof.
  intro Hk. rewrite Z.shiftr_div_pow2 by lia.
  assert (Hp : 0 < 2 ^ k) by (apply Z.pow_pos_nonneg; lia).
  pose proof (Z.div_mod x (2 ^ k) ltac:(lia)) as Hd.
  pose proof (Z.mod_pos_bound x (2 ^ k) Hp) as Hm.
  split.
  - intros <-. nia.
  - intros [H1 H2]. symmetry. apply (Z.div_unique x (2 ^ k) b (x - b * 2 ^ k)); lia.
Qed.

Lemma K_16 l : 0 <= l <= 12 -> 2 ^ (16 - l) = 16 * K l.
Proof.
  intro H. unfold K, HUFF_CUTOFF. change 16 with (2 ^ 4) at 2.
  rewrite <- Z.pow_add_r by lia. f_equal. lia.
Qed.

Lemma fill_lookup_step_spec lens bitv look i x :
  (0 < lens i -> lens i <= 12 /\ 0 <= bitv i /\
                 bitv i * K (lens i) + K (lens i) <= 2 ^ 12) ->
  fill_lookup_step lens bitv look i x =
  if in_range_b lens bitv x i then Some i else look x.
Proof.
  intro H. unfold fill_lookup_step, in_range_b.
  destruct (0 <? lens i) eqn:E; cbn [andb]; [|reflexivity].
  apply Z.ltb_lt in E. destruct (H E) as (Hl & Hb & Ht).
  pose proof (K_pos (lens i) ltac:(lia)) as HK.
  pose proof (K_16 (lens i) ltac:(lia)) as H16.
  assert (Hp : 0 < 2 ^ (16 - lens i)) by lia.
  rewrite !Z.shiftl_mul_pow2 by lia. rewrite Z.mul_1_l.
  rewrite u16_small by (change (2 ^ 16) with 65536; change (2 ^ 12) with 4096 in Ht; nia).
  rewrite fill_cells_spec. rewrite Z2Nat.id by lia.
  pose proof (shiftr_eq_range x (16 - lens i) (bitv i) ltac:(lia)) as Hr.
  destruct (Z.shiftr x (16 - lens i) =? bitv i) eqn:Es.
  - apply Z.eqb_eq in Es. apply Hr in Es.
    replace (bitv i * 2 ^ (16 - lens i) + 0 <=? x) with true by (symmetry; apply Z.leb_le; lia).
    replace (x <? bitv i * 2 ^ (16 - lens i) + 0 + 2 ^ (16 - lens i)) with true
      by (symmetry; apply Z.ltb_lt; lia).
    reflexivity.
  - apply Z.eqb_neq in Es.
    destruct (bitv i * 2 ^ (16 - lens i) + 0 <=? x) eqn:E1; cbn [andb]; auto.
    destruct (x <? bitv i * 2 ^ (16 - lens i) + 0 + 2 ^ (16 - lens i)) eqn:E2; auto.
    apply Z.leb_le in E1. apply Z.ltb_lt in E2. exfalso. apply Es. apply Hr. lia.
Qed.

(** Two disjoint codes never both match the same 16-bit value. *)
Lemma disjoint_not_both lens bitv x i j :
  0 < lens i <= 12 -> 0 < lens j <= 12 ->
  disjoint_codes (lens i) (bitv i) (lens j) (bitv j) ->
  in_range_b lens bitv x i = true -> in_range_b lens bitv x j = true -> False.
Proof.
  intros Hi Hj Hd Ri Rj. unfold in_range_b in Ri, Rj.
  apply andb_true_iff in Ri. destruct Ri as [_ Ri]. apply Z.eqb_eq in Ri.
  apply andb_true_iff in Rj. destruct Rj as [_ Rj]. apply Z.eqb_eq in Rj.
  apply shiftr_eq_range in Ri; [|lia]. apply shiftr_eq_range in Rj; [|lia].
  rewrite K_16 in Ri, Rj by lia.
  unfold disjoint_codes in Hd. lia.
Qed.

Lemma fill_lookup_find lens bitv x :
  (forall i, 0 <= i < 256 -> 0 < lens i ->
             lens i <= 12 /\ 0 <= bitv i /\
             bitv i * K (lens i) + K (lens i) <= 2 ^ 12) ->
  forall l look,
    (forall i, In i l -> 0 <= i < 256) -> NoDup l ->
    (forall i j, In i l -> In j l -> i <> j ->
                 in_range_b lens bitv x i = true ->
                 in_range_b lens bitv x j = true -> False) ->
    fold_left (fill_lookup_step lens bitv) l look x =
    match find (in_range_b lens bitv x) l with
    | Some i => Some i
    | None => look x
    end.
Proof.
  intros Hwf. induction l as [|i0 l IH]; intros look Hr Hnd Hdis; [reflexivity|].
  apply NoDup_cons_iff in Hnd. destruct Hnd as [Hn0 Hnd].
  cbn [fold_left find]. rewrite IH; auto.
  - destruct (in_range_b lens bitv x i0) eqn:E0.
    + destruct (find (in_range_b lens bitv x) l) as [j|] eqn:Ef.
      * exfalso. apply find_some in Ef. destruct Ef as [Hj Rj].
        apply (Hdis i0 j); auto.
        -- left; auto.
        -- right; auto.
        -- intros ->. contradiction.
      * rewrite fill_lookup_step_spec by (apply Hwf; apply Hr; left; auto).
        rewrite E0. reflexivity.
    + destruct (find (in_range_b lens bitv x) l); auto.
      rewrite fill_lookup_step_spec by (apply Hwf; apply Hr; left; auto).
      rewrite E0. reflexivity.
  - intros i Hi. apply Hr. right; auto.
  - intros i j Hi Hj. apply Hdis; right; auto.
Qed.

Lemma tiled_lookup c :
  tiled (codelens c) (codebits c) ->
  (forall x, lookup c x = fill_lookup (codelens c) (codebits c) (fun _ => None) x) ->
  lookup_spec c.
Proof.
  intros [Ht1 Ht2] Hlk x i Hx. rewrite Hlk. unfold fill_lookup.
  assert (Hdis : forall i j, In i bytes256 -> In j bytes256 -> i <> j ->
                   in_range_b (codelens c) (codebits c) x i = true ->
                   in_range_b (codelens c) (codebits c) x j = true -> False).
  { intros a b Ha Hb Hab Ra Rb.
    apply bytes256_range in Ha. apply bytes256_range in Hb.
    assert (La : 0 < codelens c a).
    { unfold in_range_b in Ra. apply andb_true_iff in Ra. destruct Ra as [Ra _].
      apply Z.ltb_lt in Ra. exact Ra. }
    assert (Lb : 0 < codelens c b).
    { unfold in_range_b in Rb. apply andb_true_iff in Rb. destruct Rb as [Rb _].
      apply Z.ltb_lt in Rb. exact Rb. }
    destruct (Ht1 a Ha La) as (? & _). destruct (Ht1 b Hb Lb) as (? & _).
    apply (disjoint_not_both (codelens c) (codebits c) x a b); auto; try lia. }
  rewrite (fill_lookup_find (codelens c) (codebits c) x Ht1 bytes256 (fun _ => None));
    auto using bytes256_NoDup.
  2:{ intros k Hk. apply bytes256_range. exact Hk. }
  split.
  - intro H. destruct (find (in_range_b (codelens c) (codebits c) x) bytes256) as [j|] eqn:Ef;
      [|discriminate].
    inversion H; subst j. apply find_some in Ef. destruct Ef as [Hin R].
    apply bytes256_range in Hin. unfold in_range_b in R.
    apply andb_true_iff in R. destruct R as [R1 R2].
    apply Z.ltb_lt in R1. apply Z.eqb_eq in R2. auto.
  - intros (Hi & Hl & Hs).
    assert (R : in_range_b (codelens c) (codebits c) x i = true).
    { unfold in_range_b. apply andb_true_iff. split; [apply Z.ltb_lt|apply Z.eqb_eq]; auto. }
    destruct (find (in_range_b (codelens c) (codebits c) x) bytes256) as [j|] eqn:Ef.
    + apply find_some in Ef. destruct Ef as [Hin Rj].
      destruct (Z.eq_dec j i) as [->|Hne]; [reflexivity|].
      exfalso. apply (Hdis j i); auto. apply bytes256_range. exact Hi.
    + exfalso. pose proof (find_none _ _ Ef i ltac:(apply bytes256_range; exact Hi)) as Hn.
      congruence.
Qed.

Lemma tiled_prefix_code c :
  tiled (codelens c) (codebits c) -> prefix_code c.
Proof.
  intros [Ht1 Ht2]. split.
  - intros i Hi Hl. destruct (Ht1 i Hi Hl) as (H12 & Hb & Ht).
    pose proof (K_pos (codelens c i) ltac:(lia)) as HK.
    assert (E : 2 ^ 12 = 2 ^ codelens c i * K (codelens c i)).
    { unfold K, HUFF_CUTOFF. rewrite <- Z.pow_add_r by lia. f_equal. lia. }
    split; [lia|]. nia.
  - intros i j Hi Hj Hij Li Lj [Hle Hs].
    destruct (Ht1 i Hi Li) as (Hi12 & Hbi & Hti).
    destruct (Ht1 j Hj Lj) as (Hj12 & Hbj & Htj).
    pose proof (Ht2 i j Hi Hj Hij Li Lj) as Hd.
    apply shiftr_eq_range in Hs; [|lia].
    pose proof (K_pos (codelens c j) ltac:(lia)) as HKj.
    unfold disjoint_codes in Hd.
    rewrite (K_split (codelens c i) (codelens c j)) in Hd by lia.
    assert (HP : 0 < 2 ^ (codelens c j - codelens c i))
      by (apply Z.pow_pos_nonneg; lia).
    set (P := 2 ^ (codelens c j - codelens c i)) in *.
    set (Kj := K (codelens c j)) in *.
    nia.
Qed.

(** * The codec built from a histogram is a prefix code *)

Lemma in_combine3 : forall (code leng bits : list Z) (i : Z),
  length leng = length code -> length bits = length code -> In i code ->
  exists l b, In (i, (l, b)) (combine code (combine leng bits)).
Proof.
  induction code as [|c code IH]; intros leng bits i H1 H2 Hin; [contradiction|].
  destruct leng as [|l0 leng]; [discriminate|].
  destruct bits as [|b0 bits]; [discriminate|].
  cbn [length] in H1, H2. cbn [combine].
  destruct Hin as [->|Hin].
  - exists l0, b0. left. reflexivity.
  - destruct (IH leng bits i ltac:(lia) ltac:(lia) Hin) as (l & b & H).
    exists l, b. right. exact H.
Qed.

Lemma in_combine3_split (f : Z -> Z) : forall (code leng bits : list Z) (i l b : Z),
  In (i, (l, b)) (combine code (combine leng bits)) ->
  In (i, f l) (combine code (map f leng)) /\ In (i, b) (combine code bits).
Proof.
  induction code as [|c code IH]; intros leng bits i l b Hin; [contradiction|].
  destruct leng as [|l0 leng]; [cbn in Hin; contradiction|].
  destruct bits as [|b0 bits]; [cbn in Hin; contradiction|].
  cbn [combine map] in *. destruct Hin as [E|Hin].
  - inversion E; subst. split; left; reflexivity.
  - destruct (IH leng bits i l b Hin). split; right; assumption.
Qed.

Lemma codec_of_entry v partial e code leng bits i :
  codec_parts v partial e code leng bits ->
  0 < codelens (codec_of v partial e code leng bits) i ->
  exists l b,
    In (i, (l, b)) (combine code (combine leng bits)) /\
    codelens (codec_of v partial e code leng bits) i = l /\
    codebits (codec_of v partial e code leng bits) i = b /\
    0 <= l <= 12.
Proof.
  intros P Hl. cbn [codec_of codelens codebits] in *.
  assert (Hin : In i code).
  { destruct (in_dec Z.eq_dec i code) as [|Hn]; [assumption|].
    rewrite scatter_notin in Hl by exact Hn. lia. }
  destruct (in_combine3 code leng bits i (cp_len_leng _ _ _ _ _ _ P)
              (cp_len_bits _ _ _ _ _ _ P) Hin) as (l & b & HE).
  destruct (in_combine3_split u8 _ _ _ _ _ _ HE) as [H1 H2].
  exists l, b. split; [exact HE|].
  assert (Hr : 0 <= l <= 12).
  { pose proof (cp_leng_range _ _ _ _ _ _ P) as Hall. rewrite Forall_forall in Hall.
    apply Hall. apply in_combine_r in HE. apply in_combine_l in HE. exact HE. }
  rewrite (scatter_in code (map u8 leng) _ i (u8 l) (cp_nodup _ _ _ _ _ _ P) H1).
  rewrite (scatter_in code bits _ i b (cp_nodup _ _ _ _ _ _ P) H2).
  rewrite u8_small by lia. auto.
Qed.

Lemma codec_of_tiled v partial e code leng bits :
  codec_parts v partial e code leng bits ->
  positions (2 ^ 12) leng bits ->
  tiled (codelens (codec_of v partial e code leng bits))
        (codebits (codec_of v partial e code leng bits)).
Proof.
  intros P HP.
  pose proof (cp_leng_range _ _ _ _ _ _ P) as Hall.
  destruct (positions_below leng bits (2 ^ 12) HP Hall) as [_ Hbelow].
  split.
  - intros i Hi Hl.
    destruct (codec_of_entry _ _ _ _ _ _ i P Hl) as (l & b & HE & E1 & E2 & Hr).
    rewrite E1, E2. apply in_combine_r in HE.
    destruct (Hbelow l b HE) as (? & ? & ?). repeat split; auto; lia.
  - intros i j Hi Hj Hij Li Lj.
    destruct (codec_of_entry _ _ _ _ _ _ i P Li) as (l1 & b1 & HE1 & E1 & E1' & Hr1).
    destruct (codec_of_entry _ _ _ _ _ _ j P Lj) as (l2 & b2 & HE2 & E2 & E2' & Hr2).
    rewrite E1, E1', E2, E2'.
    exact (positions_pairwise code leng bits (2 ^ 12) HP Hall
             (cp_nodup _ _ _ _ _ _ P) i j l1 b1 l2 b2 HE1 HE2 Hij).
Qed.

Lemma same_codec_props c d :
  same_codec c d -> prefix_code c -> lookup_spec c ->
  prefix_code d /\ lookup_spec d.
Proof.
  intros (Ht & He & Hl) [Hp1 Hp2] Hs. split; [split|].
  - intros i Hi. destruct (Ht i Hi) as [E1 E2]. rewrite E1, E2. apply Hp1; auto.
  - intros i j Hi Hj. destruct (Ht i Hi) as [E1 E2]. destruct (Ht j Hj) as [E3 E4].
    rewrite E1, E2, E3, E4. apply Hp2; auto.
  - intros x i Hx. rewrite Hl. rewrite (Hs x i Hx). split.
    + intros (Hi & H1 & H2). destruct (Ht i Hi) as [E1 E2]. rewrite E1, E2. auto.
    + intros (Hi & H1 & H2). destruct (Ht i Hi) as [E1 E2]. rewrite E1, E2 in *. auto.
Qed.

(** C3 (as amended).  For a compressor filled through [vcAddToTable] whose
    counts are all below [2^52], [vcCreateCodec] returns whenever some count
    is non-zero, and the codec it returns is a prefix code under MSB-first
    reading whose decoder table satisfies: [lookup[x] = i] exactly when [i]
    has a code and the top [length[i]] bits of the 16-bit value [x] equal
    [bits[i]].  The same holds for the compressor obtained by deserialising,
    on a host of either byte order, the blob that [vcSerialize] writes for
    that codec. *)
Theorem create_codec_prefix_code (v : VGPcompressor) (partial : bool) :
  filled v ->
  (forall i, 0 <= i < 256 -> 0 <= hist v i < 2 ^ 52) ->
  ((exists i, 0 <= i < 256 /\ 0 < hist v i) ->
   exists c, vcCreateCodec v partial = Some c) /\
  (forall c, vcCreateCodec v partial = Some c ->
     prefix_code c /\ lookup_spec c /\
     exists blob, vcSerialize (Owned c) = Some blob /\
       forall reader, prefix_code (vcDeserialize reader blob) /\
                      lookup_spec (vcDeserialize reader blob)).
Proof.
  intros Hf Hh. destruct (filled_state v Hf) as [Hst Hlk]. split.
  - intro Hne. destruct (vcCreateCodec_parts v partial Hst Hne) as (e & code & leng & bits & P & E).
    eexists. exact E.
  - intros c Hc.
    destruct (vcCreateCodec_inv _ _ _ Hc) as (_ & e & code & leng & bits & P & ->).
    assert (Ht : tiled (codelens (codec_of v partial e code leng bits))
                       (codebits (codec_of v partial e code leng bits))).
    { destruct (Nat.eq_dec (length code) 0) as [E0|E0].
      { destruct code; [|discriminate E0]. cbn [codec_of codelens codebits scatter].
        split; intros; lia. }
      assert (Hn1 : (1 <= length code <= 256)%nat)
        by (pose proof (cp_ncode _ _ _ _ _ _ P); lia).
      assert (Hcb : Forall (fun w => 0 <= w < 2 ^ 52) (map (hist v) code)).
      { apply Forall_forall. intros w Hw. apply in_map_iff in Hw.
        destruct Hw as (i & <- & Hi). apply Hh. apply (cp_range _ _ _ _ _ _ P). exact Hi. }
      assert (Hk : kraft12 leng = 2 ^ 12).
      { rewrite (cp_leng _ _ _ _ _ _ P). apply code_lengths_exact; auto.
        rewrite length_map. exact Hn1. }
      assert (Hd : desc leng).
      { rewrite (cp_leng _ _ _ _ _ _ P). apply code_lengths_desc. }
      destruct (canonical_bits_exact leng) as (bs & Hb1 & Hb2); auto.
      { intro E. pose proof (cp_len_leng _ _ _ _ _ _ P) as Hl.
        rewrite E in Hl. cbn in Hl. lia. }
      { apply (cp_leng_range _ _ _ _ _ _ P). }
      rewrite (cp_bits _ _ _ _ _ _ P) in Hb1. inversion Hb1; subst bs.
      exact (codec_of_tiled _ _ _ _ _ _ P Hb2). }
    pose proof (codec_of_wf _ _ _ _ _ _ Hlk P) as Hwf.
    assert (Hp : prefix_code (codec_of v partial e code leng bits))
      by (apply tiled_prefix_code; exact Ht).
    assert (Hs : lookup_spec (codec_of v partial e code leng bits))
      by (apply tiled_lookup; [exact Ht|apply (wf_look _ Hwf)]).
    split; [exact Hp|]. split; [exact Hs|].
    exists (ser_bytes (isbig (codec_of v partial e code leng bits))
                      (codec_of v partial e code leng bits)).
    split; [apply vcSerialize_bytes; reflexivity|].
    intro reader. apply (same_codec_props (codec_of v partial e code leng bits)); auto.
    apply deserialize_ser_bytes. exact Hwf.
Qed.

(** * Concrete runs *)

Lemma codec_or_created v partial :
  is_some (vcCreateCodec v partial) = true ->
  vcCreateCodec v partial = Some (codec_or v partial).
Proof.
  unfold codec_or. destruct (vcCreateCodec v partial); [reflexivity|discriminate].
Defined.

Lemma filled_with_filled big bytes : filled (filled_with big bytes).
Proof.
  apply (filled_create false big bytes). reflexivity.
Defined.

Lemma codec_or_coded big bytes partial :
  is_some (vcCreateCodec (filled_with big bytes) partial) = true ->
  coded (codec_or (filled_with big bytes) partial).
Proof.
  intro H. apply (coded_with (filled_with big bytes) partial).
  - apply filled_with_filled.
  - apply codec_or_created. exact H.
Defined.

Lemma is_byte_forallb l :
  forallb (fun b => (0 <=? b) && (b <? 256)) l = true -> Forall is_byte l.
Proof.
  intro H. apply Forall_forall. intros b Hb.
  rewrite forallb_forall in H. specialize (H b Hb).
  apply andb_true_iff in H. destruct H as [H1 H2].
  apply Z.leb_le in H1. apply Z.ltb_lt in H2. split; assumption.
Defined.

Lemma v_ab_hist i : hist v_ab i = if i =? 98 then 1 else if i =? 97 then 1 else 0.
Proof.
  change (hist v_ab i) with (upd (upd (fun _ => 0) 97 1) 98 1 i).
  unfold upd. destruct (i =? 98); [reflexivity|]. destruct (i =? 97); reflexivity.
Defined.

(** Witness of C2: the histogram of "ab". *)
Lemma create_codec_lengths_kraft_witness :
  state v_ab = FILLED /\
  (exists i, 0 <= i < 256 /\ 0 < hist v_ab i) /\
  exists c, vcCreateCodec v_ab false = Some c /\
            (forall i, 0 <= codelens c i <= HUFF_CUTOFF) /\
            (kraft_sum (codelens c) <= 1)%Q.
Proof.
  assert (H1 : state v_ab = FILLED) by reflexivity.
  assert (H2 : exists i, 0 <= i < 256 /\ 0 < hist v_ab i).
  { exists 97. split; [lia|]. vm_compute. reflexivity. }
  split; [exact H1|]. split; [exact H2|].
  exact (create_codec_lengths_kraft v_ab false H1 H2).
Defined.

(** Witness of C3 (amended): the histogram of "ab". *)
Lemma create_codec_prefix_code_witness :
  filled v_ab /\
  (forall i, 0 <= i < 256 -> 0 <= hist v_ab i < 2 ^ 52) /\
  prefix_code c_ab /\ lookup_spec c_ab.
Proof.
  assert (H1 : filled v_ab) by apply filled_with_filled.
  assert (H2 : forall i, 0 <= i < 256 -> 0 <= hist v_ab i < 2 ^ 52).
  { intros i _. rewrite v_ab_hist.
    destruct (i =? 98); [|destruct (i =? 97)]; vm_compute; split; congruence. }
  split; [exact H1|]. split; [exact H2|].
  destruct (create_codec_prefix_code v_ab false H1 H2) as [_ H].
  destruct (H c_ab (codec_or_created v_ab false eq_refl)) as (Hp & Hs & _).
  split; assumption.
Defined.

Lemma c_ab_esc_coded : coded c_ab_esc.
Proof. apply codec_or_coded. vm_compute. reflexivity. Defined.

(** Witness of C4 (amended): with the escape codec of "ab", the single
    unseen byte 'c' costs 10 bits and overflows the 8 bits of the input. *)
Lemma overflow_fallback_roundtrip_witness :
  coded c_ab_esc /\ takes_fallback c_ab_esc [99] /\
  8 * (1 + 1) <= INT_MAX /\
  vcEncode (Owned c_ab_esc) [99] = Some ([255; 99], 16) /\
  vcDecode true (Owned c_ab_esc) 16 [255; 99] = Some [99].
Proof.
  assert (H1 : coded c_ab_esc) by exact c_ab_esc_coded.
  assert (H2 : takes_fallback c_ab_esc [99]) by (vm_compute; reflexivity).
  assert (H3 : 8 * (1 + 1) <= INT_MAX) by (vm_compute; discriminate).
  split; [exact H1|]. split; [exact H2|]. split; [exact H3|].
  exact (proj2 (overflow_fallback_roundtrip true c_ab_esc [99] H1 H2) H3).
Defined.

(** The first byte ends the loop when its cost takes the count past [ibits]. *)
Lemma first_byte_breaks v ibits b x st t :
  (codelens v (u8 b) = 0 -> -1 <= esc_code v < 256) ->
  to_int (t + byte_cost v b) > ibits ->
  encode_loop v ibits (b :: x) st t = Some EncBreak.
Proof.
  intros Hesc Hgt. cbn [encode_loop]. unfold byte_cost in Hgt.
  destruct (codelens v (u8 b) =? 0) eqn:E.
  - apply Z.eqb_eq in E. specialize (Hesc E).
    assert (Hr : (-1 <=? esc_code v) && (esc_code v <? 256) = true).
    { apply andb_true_intro. split; [apply Z.leb_le|apply Z.ltb_lt]; lia. }
    rewrite Hr.
    assert (Eg : (to_int (t + (8 + esc_len v)) >? ibits) = true)
      by (apply Z.gtb_lt; lia).
    rewrite Eg. reflexivity.
  - assert (Eg : (to_int (t + codelens v (u8 b)) >? ibits) = true)
      by (apply Z.gtb_lt; lia).
    rewrite Eg. reflexivity.
Qed.

Lemma x_wrap_length : Z.of_nat (length x_wrap) = 2 ^ 28.
Proof.
  unfold x_wrap. rewrite repeat_length. apply Z2Nat.id.
  apply Z.pow_nonneg. discriminate.
Qed.

Lemma x_wrap_cons : x_wrap = 99 :: repeat 99 (Z.to_nat (2 ^ 28 - 1)).
Proof.
  unfold x_wrap.
  replace (Z.to_nat (2 ^ 28)) with (S (Z.to_nat (2 ^ 28 - 1))); [reflexivity|].
  rewrite <- Z2Nat.inj_succ.
  - apply f_equal. reflexivity.
  - discriminate.
Qed.

(** Counterexample to C4 as stated.  On an input of [2^28] bytes 'c' under
    the escape codec of "ab" the bit budget [ilen << 3] is [2^31], which as
    an [int] is [-2^31]: the first byte ends the loop, the fallback is
    taken, and the value returned is [-2^31 + 8], not [8(n+1)]. *)
Lemma fallback_count_leaves_int :
  coded c_ab_esc /\
  takes_fallback c_ab_esc x_wrap /\
  vcEncode (Owned c_ab_esc) x_wrap = Some (0xff :: x_wrap, -2147483640) /\
  8 * (Z.of_nat (length x_wrap) + 1) = 2147483656.
Proof.
  assert (Hf : takes_fallback c_ab_esc x_wrap).
  { unfold takes_fallback. rewrite x_wrap_length. rewrite x_wrap_cons.
    apply first_byte_breaks.
    - intros _. vm_compute. split; [discriminate|reflexivity].
    - vm_compute. reflexivity. }
  split; [exact c_ab_esc_coded|]. split; [exact Hf|]. split.
  - unfold takes_fallback, enc_start in Hf.
    unfold vcEncode. rewrite (coded_is_coded _ c_ab_esc_coded). cbv zeta.
    rewrite Hf. rewrite x_wrap_length.
    change (to_int (to_int (Z.shiftl (2 ^ 28) 3) + 8)) with (-2147483640).
    reflexivity.
  - rewrite x_wrap_length. reflexivity.
Qed.

(** Witness of C5 (amended): "cca" under the escape codec of "ab" costs
    2 + 10 + 10 + 2 = 24 bits, the size of the input. *)
Lemma fallback_iff_exceeds_witness :
  coded c_ab_esc /\
  (forall b, In b [99; 99; 97] -> codelens c_ab_esc (u8 b) = 0 ->
             -1 <= esc_code c_ab_esc < 256) /\
  Z.of_nat (length [99; 99; 97]) < 2 ^ 28 - 32 /\
  ~ takes_fallback c_ab_esc [99; 99; 97] /\
  exists buf, vcEncode (Owned c_ab_esc) [99; 99; 97]
              = Some (buf, total_bits c_ab_esc [99; 99; 97]).
Proof.
  assert (H1 : coded c_ab_esc) by exact c_ab_esc_coded.
  assert (H2 : forall b, In b [99; 99; 97] -> codelens c_ab_esc (u8 b) = 0 ->
                         -1 <= esc_code c_ab_esc < 256).
  { intros b _ _. vm_compute. split; [discriminate|reflexivity]. }
  assert (H3 : Z.of_nat (length [99; 99; 97]) < 2 ^ 28 - 32) by reflexivity.
  split; [exact H1|]. split; [exact H2|]. split; [exact H3|].
  destruct (fallback_iff_exceeds c_ab_esc [99; 99; 97] H1 H2 H3)
    as (_ & _ & _ & Hc & Ht).
  assert (Hn : ~ takes_fallback c_ab_esc [99; 99; 97]) by (apply Ht; reflexivity).
  split; [exact Hn|]. exact (Hc Hn).
Defined.

(** Counterexample to C5 as stated: the complete compressed form of "cca"
    occupies exactly [8n] = 24 bits, the running bit count reaches [8n], and
    the encoder does not take the fallback: it returns the 24-bit compressed
    stream. *)
Lemma tie_is_emitted_compressed :
  total_bits c_ab_esc [99; 99; 97] = 8 * Z.of_nat (length [99; 99; 97]) /\
  ~ takes_fallback c_ab_esc [99; 99; 97] /\
  vcEncode (Owned c_ab_esc) [99; 99; 97] = Some ([54; 61; 142], 24).
Proof.
  split; [vm_compute; reflexivity|]. split.
  - unfold takes_fallback. vm_compute. discriminate.
  - vm_compute. reflexivity.
Qed.

(** Witness of C8. *)
Lemma serialize_deserialize_roundtrip_witness :
  coded c_ab_esc /\
  exists blob,
    vcSerialize (Owned c_ab_esc) = Some blob /\
    (forall reader, same_codec c_ab_esc (vcDeserialize reader blob)) /\
    (forall reader, same_codec c_ab_esc (vcDeserialize reader (cross_endian blob))).
Proof.
  split; [exact c_ab_esc_coded|].
  exact (serialize_deserialize_roundtrip c_ab_esc c_ab_esc_coded).
Defined.

Lemma v_a_hist i : hist v_a i = if i =? 97 then 1 else 0.
Proof.
  change (hist v_a i) with (upd (fun _ => 0) 97 1 i).
  unfold upd. destruct (i =? 97); reflexivity.
Defined.

(** Witness of C9: the histogram of the single byte 'a'. *)
Lemma create_codec_single_symbol_witness :
  state v_a = FILLED /\ 0 < hist v_a 97 /\
  exists c, vcCreateCodec v_a false = Some c /\
            state c = CODED_WITH /\
            (forall i, codelens c i = 0) /\
            (forall i, codebits c i = 0) /\
            (forall x, lookup c x = lookup v_a x) /\
            esc_code c = -1.
Proof.
  assert (H1 : state v_a = FILLED) by reflexivity.
  assert (H2 : 0 <= 97 < 256) by lia.
  assert (H3 : 0 < hist v_a 97) by (vm_compute; reflexivity).
  assert (H4 : forall i, 0 <= i < 256 -> i <> 97 -> hist v_a i = 0).
  { intros i _ Hne. rewrite v_a_hist. destruct (i =? 97) eqn:E; [|reflexivity].
    apply Z.eqb_eq in E. contradiction. }
  split; [exact H1|]. split; [exact H3|].
  exact (create_codec_single_symbol v_a 97 H1 H2 H3 H4).
Defined.

(** Counterexample to C3 as stated.  [vcDeserialize] accepts any blob: for
    one in which two bytes carry the same code, the result is no prefix
    code.  And [vcCreateCodec] on counts whose sums overflow 64 bits returns
    a codec whose table does not follow the stated rule: cell 0 holds the
    byte 'b', whose stored code is 2 on one bit. *)
Lemma coded_tables_not_always_prefix_code :
  coded (vcDeserialize false blob_same_code) /\
  ~ prefix_code (vcDeserialize false blob_same_code) /\
  vcCreateCodec v_overflow false = Some (codec_or v_overflow false) /\
  ~ lookup_spec (codec_or v_overflow false).
Proof.
  split; [|split; [|split]].
  - apply coded_read. apply is_byte_forallb. vm_compute. reflexivity.
  - intros [_ H]. apply (H 0 1); try lia.
    + vm_compute. reflexivity.
    + vm_compute. reflexivity.
    + split; vm_compute; [discriminate|reflexivity].
  - apply codec_or_created. vm_compute. reflexivity.
  - intro H. specialize (H 0 98 ltac:(lia)). destruct H as [H _].
    assert (E : lookup (codec_or v_overflow false) 0 = Some 98) by (vm_compute; reflexivity).
    destruct (H E) as (_ & _ & Hs). vm_compute in Hs. discriminate.
Qed.

(** C1, at a failing input.  On a little-endian host, with the codec built
    from the histogram of "ab" (both bytes have a one-bit code), the 62
    bytes "aa...a" are encoded in 64 bits; decoding those 64 bits does not
    return the input: bytes 4 and 5 come back as 'b'. *)
Theorem roundtrip_fails_on_64_bit_stream :
  vcCreateCodec v_ab false = Some c_ab /\
  (forall b, In b x62 -> 0 < codelens c_ab b) /\
  vcEncode (Owned c_ab) x62 = Some ([252; 255; 255; 255; 255; 255; 255; 255], 64) /\
  (forall schar,
     vcDecode schar (Owned c_ab) 64 [252; 255; 255; 255; 255; 255; 255; 255]
     = Some (repeat 97 4 ++ [98; 98] ++ repeat 97 56)) /\
  repeat 97 4 ++ [98; 98] ++ repeat 97 56 <> x62.
Proof.
  split; [apply codec_or_created; vm_compute; reflexivity|].
  split.
  - intros b Hb. apply repeat_spec in Hb. subst b. vm_compute. reflexivity.
  - split; [vm_compute; reflexivity|].
    split; [intros []; vm_compute; reflexivity|].
    vm_compute. discriminate.
Qed.

(** C6, at a failing input.  Encoding the 10 bases "ACGTACGTAC" through the
    DNA compressor packs them four per byte, MSB first, into 3 bytes, and
    returns 6 (twice the number of bytes written), not 20; decoding with the
    returned bit count yields 3 bases. *)
Theorem dna_encode_returns_twice_the_bytes :
  vcEncode DNAcompressor dna10 = Some ([0x1B; 0x1B; 0x10], 6) /\
  (forall schar,
     vcDecode schar DNAcompressor 6 [0x1B; 0x1B; 0x10] = Some [97; 99; 103]) /\
  (forall schar,
     vcDecode schar DNAcompressor 20 [0x1B; 0x1B; 0x10]
     = Some [97; 99; 103; 116; 97; 99; 103; 116; 97; 99]).
Proof. repeat split; try intros []; vm_compute; reflexivity. Qed.

(** C7, at a failing input.  With counts 2147483650 for byte 0 and 1 for
    byte 1, [HSORT] reports byte 0 as smaller in both orders of its
    arguments, so the sorted symbols are [0; 1]: their counts are not in
    ascending order. *)
Theorem hsort_truncation_misorders :
  collect hist_wide false = (0, [0; 1]) /\
  HSORT hist_wide 0 1 = -2147483647 /\
  HSORT hist_wide 1 0 = 2147483647 /\
  qsort (HSORT hist_wide) [0; 1] = [0; 1] /\
  map hist_wide (qsort (HSORT hist_wide) [0; 1]) = [2147483650; 1].
Proof. repeat split; vm_compute; reflexivity. Qed.

(** * The histogram and the life cycle of a compressor *)

Lemma u64_range x : 0 <= u64 x < 2 ^ 64.
Proof. unfold u64. apply Z.mod_pos_bound. lia. Qed.

Lemma u64_add_l a b : u64 (u64 a + b) = u64 (a + b).
Proof. unfold u64. apply Zplus_mod_idemp_l. Qed.

Lemma char_index_range schar b : -128 <= char_index schar b < 256.
Proof.
  unfold char_index, u8. pose proof (Z.mod_pos_bound b (2 ^ 8) ltac:(lia)) as H.
  change (2 ^ 8) with 256 in *.
  destruct schar; cbn [andb]; [|lia].
  destruct (128 <=? b mod 256) eqn:E; [apply Z.leb_le in E|]; lia.
Qed.

Lemma char_index_unsigned b : char_index false b = u8 b.
Proof. reflexivity. Qed.

Lemma char_index_low schar b : 0 <= b < 128 -> char_index schar b = b.
Proof.
  intro H. unfold char_index. rewrite u8_small by lia.
  assert (E : (128 <=? b) = false) by (apply Z.leb_gt; lia).
  rewrite E, andb_false_r. reflexivity.
Qed.

Lemma char_index_high b : 128 <= b < 256 -> char_index true b = b - 256.
Proof.
  intro H. unfold char_index. rewrite u8_small by lia.
  assert (E : (128 <=? b) = true) by (apply Z.leb_le; lia).
  rewrite E. reflexivity.
Qed.

Lemma add_bytes_cons schar h a bytes :
  add_bytes schar h (a :: bytes)
  = add_bytes schar
      (if char_index schar a <? 0 then h
       else upd h (char_index schar a) (u64 (h (char_index schar a) + 1))) bytes.
Proof. reflexivity. Qed.

Lemma add_bytes_count schar b : 0 <= b -> forall bytes h,
  0 <= h b < 2 ^ 64 ->
  add_bytes schar h bytes b
  = u64 (h b + Z.of_nat (count_occ Z.eq_dec (map (char_index schar) bytes) b)).
Proof.
  intro Hb. induction bytes as [|a bytes IH]; intros h Hr.
  - cbn [map count_occ]. unfold add_bytes. cbn [fold_left].
    rewrite Z.add_0_r. symmetry. apply u64_small. exact Hr.
  - rewrite add_bytes_cons. cbn [map count_occ].
    destruct (char_index schar a <? 0) eqn:Eneg.
    + apply Z.ltb_lt in Eneg.
      destruct (Z.eq_dec (char_index schar a) b) as [E|Hne]; [lia|].
      apply IH. exact Hr.
    + destruct (Z.eq_dec (char_index schar a) b) as [->|Hne].
      * rewrite IH.
        -- unfold upd at 1. rewrite Z.eqb_refl. rewrite u64_add_l. f_equal. lia.
        -- unfold upd. rewrite Z.eqb_refl. apply u64_range.
      * assert (E : upd h (char_index schar a) (u64 (h (char_index schar a) + 1)) b
                    = h b).
        { unfold upd. destruct (b =? char_index schar a) eqn:Eb; [|reflexivity].
          apply Z.eqb_eq in Eb. congruence. }
        rewrite IH; rewrite E; auto.
Qed.

(** On a host with signed chars the bytes 128..255 are never counted. *)
Lemma count_char_index schar b : 0 <= b < 256 -> forall bytes,
  count_occ Z.eq_dec (map (char_index schar) bytes) b
  = if schar && (128 <=? b) then 0%nat
    else count_occ Z.eq_dec (map u8 bytes) b.
Proof.
  intros Hb. induction bytes as [|a bytes IH]; cbn [map count_occ].
  - destruct (schar && (128 <=? b)); reflexivity.
  - rewrite IH. clear IH.
    assert (Hu : 0 <= u8 a < 256) by (unfold u8; apply Z.mod_pos_bound; reflexivity).
    unfold char_index.
    destruct schar; cbn [andb].
    + destruct (128 <=? b) eqn:E1; destruct (128 <=? u8 a) eqn:E2;
        try apply Z.leb_le in E1; try apply Z.leb_le in E2;
        try apply Z.leb_gt in E1; try apply Z.leb_gt in E2.
      * destruct (Z.eq_dec (u8 a - 256) b); [lia|reflexivity].
      * destruct (Z.eq_dec (u8 a) b); [lia|reflexivity].
      * destruct (Z.eq_dec (u8 a - 256) b); [lia|].
        destruct (Z.eq_dec (u8 a) b); [lia|reflexivity].
      * reflexivity.
    + reflexivity.
Qed.

Lemma add_bytes_range schar : forall bytes h,
  (forall i, 0 <= h i < 2 ^ 64) ->
  forall i, 0 <= add_bytes schar h bytes i < 2 ^ 64.
Proof.
  induction bytes as [|a bytes IH]; intros h Hr i; [apply Hr|].
  rewrite add_bytes_cons. apply IH. intro j.
  destruct (char_index schar a <? 0); [apply Hr|].
  unfold upd. destruct (j =? char_index schar a); [apply u64_range|apply Hr].
Qed.

Lemma vcAddToTable_hist schar v bytes v' :
  vcAddToTable schar v bytes = Some v' ->
  hist v' = add_bytes schar (hist v) bytes.
Proof.
  unfold vcAddToTable. destruct (state v); try discriminate;
    intro H; apply Some_inj in H; subst v'; reflexivity.
Qed.

Lemma filled_hist_range v : filled v -> forall i, 0 <= hist v i < 2 ^ 64.
Proof.
  induction 1 as [schar big bytes v H | schar v bytes v' Hf IH H]; intro i.
  - rewrite (vcAddToTable_hist _ _ _ _ H). apply add_bytes_range.
    intro j. cbn [vcCreate hist]. lia.
  - rewrite (vcAddToTable_hist _ _ _ _ H). apply add_bytes_range. exact IH.
Qed.

(** X1.  Two calls of [vcAddToTable] in a row have the effect of one call on
    the two byte strings concatenated, and fail exactly when that call
    fails. *)
Theorem add_to_table_app (schar : bool) (v : VGPcompressor) (x y : list Z) :
  match vcAddToTable schar v x with
  | Some v' => vcAddToTable schar v' y
  | None => None
  end = vcAddToTable schar v (x ++ y).
Proof.
  unfold vcAddToTable.
  destruct (state v); cbn [state isbig codebits codelens lookup esc_code hist];
    try reflexivity; unfold add_bytes; rewrite fold_left_app; reflexivity.
Qed.

(** X2.  [vcAddToTable] leaves the compressor in state FILLED, with its byte
    order and its code tables as they were, and the count of every byte
    grown by the number of its occurrences in the string, modulo [2^64];
    except that on a host where plain char is signed the bytes 128..255 are
    not counted: they index below [hist]. *)
Theorem add_to_table_counts (schar : bool) (v v' : VGPcompressor)
        (bytes : list Z) (b : Z) :
  vcAddToTable schar v bytes = Some v' ->
  0 <= b < 256 -> 0 <= hist v b < 2 ^ 64 ->
  hist v' b
  = u64 (hist v b + (if schar && (128 <=? b) then 0
                     else Z.of_nat (count_occ Z.eq_dec (map u8 bytes) b))) /\
  state v' = FILLED /\ isbig v' = isbig v /\
  codebits v' = codebits v /\ codelens v' = codelens v.
Proof.
  intros H Hb Hr. split.
  - rewrite (vcAddToTable_hist _ _ _ _ H).
    rewrite add_bytes_count by (try lia; exact Hr).
    rewrite (count_char_index schar b Hb).
    destruct (schar && (128 <=? b)); reflexivity.
  - unfold vcAddToTable in H.
    destruct (state v); try discriminate;
      apply Some_inj in H; subst v'; repeat split.
Qed.

Lemma add_to_table_counts_witness :
  vcAddToTable true (vcCreate false) [97; 200; 97]
  = Some (filled_with false [97; 97]) /\
  0 <= 97 < 256 /\
  0 <= hist (vcCreate false) 97 < 2 ^ 64 /\
  hist (filled_with false [97; 97]) 97
  = u64 (hist (vcCreate false) 97
         + (if true && (128 <=? 97) then 0
            else Z.of_nat (count_occ Z.eq_dec (map u8 [97; 200; 97]) 97))).
Proof.
  assert (H1 : vcAddToTable true (vcCreate false) [97; 200; 97]
               = Some (filled_with false [97; 97])) by reflexivity.
  assert (H2 : 0 <= 97 < 256) by lia.
  assert (H3 : 0 <= hist (vcCreate false) 97 < 2 ^ 64) by (cbn; lia).
  split; [exact H1|]. split; [exact H2|]. split; [exact H3|].
  exact (proj1 (add_to_table_counts true _ _ _ 97 H1 H2 H3)).
Defined.

(** X3.  A compressor that has a codec accepts no further histogram data
    and no second codec: [vcAddToTable] and [vcCreateCodec] both stop. *)
Theorem codec_is_final (schar : bool) (c : VGPcompressor) (bytes : list Z)
        (partial : bool) :
  coded c ->
  vcAddToTable schar c bytes = None /\ vcCreateCodec c partial = None.
Proof.
  intro Hc. pose proof (coded_is_coded c Hc) as Hs.
  unfold vcAddToTable, vcCreateCodec.
  destruct (state c); try discriminate; split; reflexivity.
Qed.

Lemma codec_is_final_witness :
  coded c_ab_esc /\
  vcAddToTable false c_ab_esc [97] = None /\ vcCreateCodec c_ab_esc true = None.
Proof.
  split; [exact c_ab_esc_coded|].
  exact (codec_is_final false c_ab_esc [97] true c_ab_esc_coded).
Defined.

(** X4.  A compressor that is still collecting its histogram cannot be
    serialised, and neither encodes nor decodes. *)
Theorem no_codec_no_service (v : VGPcompressor) :
  filled v ->
  vcSerialize (Owned v) = None /\
  (forall x, vcEncode (Owned v) x = None) /\
  (forall schar ilen x, vcDecode schar (Owned v) ilen x = None).
Proof.
  intro Hf. destruct (filled_state v Hf) as [Hs _].
  unfold vcSerialize, vcEncode, vcDecode. rewrite Hs. cbn [is_coded].
  split; [reflexivity|]. split; intros; reflexivity.
Qed.

Lemma no_codec_no_service_witness :
  filled v_ab /\
  vcSerialize (Owned v_ab) = None /\
  (forall x, vcEncode (Owned v_ab) x = None) /\
  (forall schar ilen x, vcDecode schar (Owned v_ab) ilen x = None).
Proof.
  split; [apply filled_with_filled|].
  exact (no_codec_no_service v_ab (filled_with_filled false [97; 98])).
Defined.

(** * Which bytes receive a code *)

Lemma collect_fold h : forall l e code,
  (forall x, In x l -> 0 <= x) ->
  exists e' sel,
    fold_left (collect_step h) l (e, code) = (e', code ++ sel) /\
    (forall x, In x sel <-> In x l /\ (0 < h x \/ (e < 0 /\ x = e'))) /\
    (0 <= e -> e' = e) /\
    (e < 0 ->
     (e' = e /\ forall x, In x l -> 0 < h x) \/
     (exists l1 l2, l = l1 ++ e' :: l2 /\ h e' <= 0 /\
                    forall x, In x l1 -> 0 < h x)).
Proof.
  induction l as [|a l IH]; intros e code Hpos.
  - exists e, []. cbn [fold_left]. rewrite app_nil_r. split; [reflexivity|].
    split; [|split].
    + intro x. cbn. tauto.
    + auto.
    + intros _. left. split; [reflexivity|]. intros x [].
  - assert (Hpos' : forall x, In x l -> 0 <= x) by (intros x Hx; apply Hpos; right; exact Hx).
    assert (Ha : 0 <= a) by (apply Hpos; left; reflexivity).
    cbn [fold_left]. unfold collect_step at 2.
    destruct (0 <? h a) eqn:E1.
    + apply Z.ltb_lt in E1.
      destruct (IH e (code ++ [a]) Hpos') as (e' & sel & Hf & Hin & Hge & Hlt).
      exists e', (a :: sel). split.
      { rewrite Hf. rewrite <- app_assoc. reflexivity. }
      split; [|split].
      * intro x. cbn [In]. rewrite Hin. split.
        -- intros [<-|[H1 H2]]; auto.
        -- intros [[<-|H1] H2]; auto.
      * exact Hge.
      * intro He. destruct (Hlt He) as [[H1 H2]|(l1 & l2 & H1 & H2 & H3)].
        -- left. split; [exact H1|]. intros x [<-|Hx]; auto.
        -- right. exists (a :: l1), l2. split; [rewrite H1; reflexivity|].
           split; [exact H2|]. intros x [<-|Hx]; auto.
    + apply Z.ltb_ge in E1. destruct (e <? 0) eqn:E2.
      * apply Z.ltb_lt in E2.
        destruct (IH a (code ++ [a]) Hpos') as (e' & sel & Hf & Hin & Hge & _).
        specialize (Hge Ha). subst e'.
        exists a, (a :: sel). split.
        { rewrite Hf. rewrite <- app_assoc. reflexivity. }
        split; [|split].
        -- intro x. cbn [In]. rewrite Hin. split.
           ++ intros [<-|[H1 [H2|[H2 _]]]]; auto. lia.
           ++ intros [[<-|H1] [H2|[_ H2]]]; auto.
        -- lia.
        -- intros _. right. exists [], l. split; [reflexivity|].
           split; [exact E1|]. intros x [].
      * apply Z.ltb_ge in E2.
        destruct (IH e code Hpos') as (e' & sel & Hf & Hin & Hge & _).
        exists e', sel. split; [exact Hf|]. split; [|split].
        -- intro x. rewrite Hin. cbn [In]. split.
           ++ intros [H1 [H2|[H2 _]]]; [auto|lia].
           ++ intros [[<-|H1] [H2|[H2 _]]]; try lia. auto.
        -- exact Hge.
        -- lia.
Qed.

Lemma bytes256_nth j : (j < 256)%nat -> nth j bytes256 0 = Z.of_nat j.
Proof.
  intro H. unfold bytes256.
  change 0 with (Z.of_nat 0) at 1. rewrite map_nth. rewrite seq_nth by exact H.
  reflexivity.
Qed.

Lemma bytes256_split e l1 l2 :
  bytes256 = l1 ++ e :: l2 -> forall j, 0 <= j < e -> In j l1.
Proof.
  intros H j Hj.
  assert (Hlen : (length l1 < 256)%nat).
  { pose proof length_bytes256 as L. rewrite H in L. rewrite length_app in L.
    cbn [length] in L. lia. }
  assert (He : e = Z.of_nat (length l1)).
  { rewrite <- (bytes256_nth (length l1) Hlen). rewrite H.
    rewrite nth_middle. reflexivity. }
  assert (Hjn : (Z.to_nat j < length l1)%nat) by lia.
  pose proof (bytes256_nth (Z.to_nat j) ltac:(lia)) as Hn.
  rewrite H in Hn. rewrite app_nth1 in Hn by exact Hjn.
  rewrite Z2Nat.id in Hn by lia. rewrite <- Hn. apply nth_In. exact Hjn.
Qed.

(** What [collect] returns: the members of [code], and the escape byte. *)
Lemma collect_members h partial e code0 :
  collect h partial = (e, code0) ->
  (forall x, In x code0 <->
             0 <= x < 256 /\ (0 < h x \/ (partial = true /\ x = e))) /\
  (partial = false -> e = 0) /\
  (partial = true ->
   (e = -1 /\ forall i, 0 <= i < 256 -> 0 < h i) \/
   (0 <= e < 256 /\ h e <= 0 /\ forall j, 0 <= j < e -> 0 < h j)).
Proof.
  unfold collect. intro Hc.
  destruct (collect_fold h bytes256 (if partial then -1 else 0) [])
    as (e' & sel & Hf & Hin & Hge & Hlt).
  { intros x Hx. apply bytes256_range in Hx. lia. }
  rewrite Hc in Hf. cbn [app] in Hf. inversion Hf; subst e' sel. clear Hf.
  split; [|split].
  - intro x. rewrite Hin. rewrite bytes256_range.
    destruct partial; split; intros [H1 [H2|[H2 H3]]]; auto; try lia; try discriminate.
  - intros ->. apply Hge. lia.
  - intros ->. destruct (Hlt ltac:(lia)) as [[H1 H2]|(l1 & l2 & H1 & H2 & H3)].
    + left. split; [exact H1|]. intros i Hi. apply H2. apply bytes256_range. exact Hi.
    + right. split; [|split; [exact H2|]].
      * apply bytes256_range. rewrite H1. apply in_or_app. right. left. reflexivity.
      * intros j Hj. apply H3. apply (bytes256_split e l1 l2 H1). exact Hj.
Qed.

Lemma parts_members v partial e code leng bits :
  codec_parts v partial e code leng bits ->
  forall x, In x code <->
            0 <= x < 256 /\ (0 < hist v x \/ (partial = true /\ x = e)).
Proof.
  intros P x. destruct (cp_collect _ _ _ _ _ _ P) as (code0 & Hc & Hq).
  destruct (collect_members _ _ _ _ Hc) as [Hm _]. rewrite <- Hm.
  rewrite Hq. split; intro H.
  - eapply Permutation_in; [apply qsort_perm|exact H].
  - eapply Permutation_in; [symmetry; apply qsort_perm|exact H].
Qed.

Lemma parts_escape v partial e code leng bits :
  codec_parts v partial e code leng bits ->
  (partial = false -> e = 0) /\
  (partial = true ->
   (e = -1 /\ forall i, 0 <= i < 256 -> 0 < hist v i) \/
   (0 <= e < 256 /\ hist v e <= 0 /\ forall j, 0 <= j < e -> 0 < hist v j)).
Proof.
  intro P. destruct (cp_collect _ _ _ _ _ _ P) as (code0 & Hc & Hq).
  destruct (collect_members _ _ _ _ Hc) as (_ & H1 & H2). auto.
Qed.

Lemma in_combine_map (f : Z -> Z) : forall (code leng : list Z) (i : Z),
  length leng = length code -> In i code ->
  exists l, In l leng /\ In (i, f l) (combine code (map f leng)).
Proof.
  induction code as [|c code IH]; intros leng i H1 Hin; [contradiction|].
  destruct leng as [|l0 leng]; [discriminate|].
  cbn [length] in H1. cbn [combine map].
  destruct Hin as [->|Hin].
  - exists l0. split; left; reflexivity.
  - destruct (IH leng i ltac:(lia) Hin) as (l & H2 & H3).
    exists l. split; right; assumption.
Qed.

(** A member of [code] has a code as soon as [code] has two members. *)
Lemma parts_codelens_pos v partial e code leng bits i :
  codec_parts v partial e code leng bits ->
  (2 <= length code)%nat -> In i code ->
  1 <= codelens (codec_of v partial e code leng bits) i <= 12.
Proof.
  intros P H2 Hin. cbn [codec_of codelens].
  destruct (in_combine_map u8 code leng i (cp_len_leng _ _ _ _ _ _ P) Hin) as (l & Hl & Hc).
  rewrite (scatter_in code (map u8 leng) _ i (u8 l) (cp_nodup _ _ _ _ _ _ P) Hc).
  pose proof (kraft_no_zero leng (cp_leng_range _ _ _ _ _ _ P) (cp_kraft _ _ _ _ _ _ P)) as Hnz.
  rewrite (cp_len_leng _ _ _ _ _ _ P) in Hnz. specialize (Hnz H2).
  rewrite Forall_forall in Hnz. specialize (Hnz l Hl).
  rewrite u8_small by lia. exact Hnz.
Qed.

Lemma parts_codelens_out v partial e code leng bits i :
  codec_parts v partial e code leng bits ->
  ~ In i code -> codelens (codec_of v partial e code leng bits) i = 0.
Proof.
  intros P Hn. cbn [codec_of codelens]. apply scatter_notin. exact Hn.
Qed.

Lemma two_members (code : list Z) i j :
  In i code -> In j code -> i <> j -> (2 <= length code)%nat.
Proof.
  intros Hi Hj Hne. destruct code as [|a [|b code]]; cbn [length]; try lia.
  - contradiction.
  - destruct Hi as [<-|[]]. destruct Hj as [<-|[]]. congruence.
Qed.

Lemma fill_lookup_no_code look :
  forall l, fold_left (fill_lookup_step (fun _ => 0) (fun _ => 0)) l look = look.
Proof.
  induction l as [|i l IH]; [reflexivity|]. cbn [fold_left].
  unfold fill_lookup_step at 2. cbn. exact IH.
Qed.

(** X5.  [vcCreateCodec] has no check for an empty histogram: on every
    compressor in state FILLED it returns, leaving a compressor in state
    CODED_WITH with the histogram and byte order it had.  When all counts
    are zero and [partial] is unset no byte takes part: every code length
    and every code is 0, there is no escape code, and no cell of the decoder
    table is assigned. *)
Theorem create_codec_always_returns (v : VGPcompressor) (partial : bool) :
  filled v ->
  exists c, vcCreateCodec v partial = Some c /\
            state c = CODED_WITH /\ isbig c = isbig v /\ hist c = hist v /\
            ((forall i, 0 <= i < 256 -> hist v i = 0) -> partial = false ->
             (forall i, codelens c i = 0) /\ (forall i, codebits c i = 0) /\
             (forall x, lookup c x = None) /\ esc_code c = -1).
Proof.
  intro Hf. destruct (filled_state v Hf) as [Hst Hlk].
  destruct (collect (hist v) partial) as [e code0] eqn:Hc.
  destruct (parts_from_collect v partial e code0 Hc) as (leng & bits & P).
  exists (codec_of v partial e (qsort (HSORT (hist v)) code0) leng bits).
  split; [apply codec_parts_create; assumption|].
  split; [reflexivity|]. split; [reflexivity|]. split; [reflexivity|].
  intros Hz ->.
  set (code := qsort (HSORT (hist v)) code0) in *.
  assert (Hnil : code = []).
  { destruct code as [|a code']; [reflexivity|exfalso].
    assert (Hin : In a (a :: code')) by (left; reflexivity).
    pose proof (cp_range _ _ _ _ _ _ P a Hin) as Hr.
    pose proof (cp_nopartial _ _ _ _ _ _ P eq_refl a Hin) as Hp.
    rewrite (Hz a Hr) in Hp. lia. }
  rewrite Hnil. cbn [codec_of codelens codebits lookup esc_code scatter].
  split; [reflexivity|]. split; [reflexivity|]. split; [|reflexivity].
  intro x. unfold fill_lookup. rewrite fill_lookup_no_code. rewrite Hlk. reflexivity.
Qed.

Lemma create_codec_always_returns_witness :
  filled (filled_with false []) /\
  exists c, vcCreateCodec (filled_with false []) false = Some c /\
            state c = CODED_WITH /\ isbig c = false /\
            hist c = hist (filled_with false []) /\
            ((forall i, 0 <= i < 256 -> hist (filled_with false []) i = 0) ->
             false = false ->
             (forall i, codelens c i = 0) /\ (forall i, codebits c i = 0) /\
             (forall x, lookup c x = None) /\ esc_code c = -1).
Proof.
  assert (H1 : filled (filled_with false [])) by apply filled_with_filled.
  split; [exact H1|].
  exact (create_codec_always_returns (filled_with false []) false H1).
Defined.

(** X6.  The escape code.  With [partial] unset the codec has none
    ([esc_code = -1]).  With [partial] set it is the lowest byte whose count
    is zero; when every byte has a non-zero count there is none either. *)
Theorem escape_is_lowest_absent (v c : VGPcompressor) (partial : bool) :
  filled v -> vcCreateCodec v partial = Some c ->
  (partial = false -> esc_code c = -1) /\
  (partial = true ->
   (esc_code c = -1 /\ forall i, 0 <= i < 256 -> 0 < hist v i) \/
   (0 <= esc_code c < 256 /\ hist v (esc_code c) = 0 /\
    forall j, 0 <= j < esc_code c -> 0 < hist v j)).
Proof.
  intros Hf Hc.
  destruct (vcCreateCodec_inv _ _ _ Hc) as (_ & e & code & leng & bits & P & ->).
  cbn [codec_of esc_code]. split.
  - intros ->. reflexivity.
  - intros ->. destruct (parts_escape _ _ _ _ _ _ P) as [_ H].
    destruct (H eq_refl) as [H1|(H1 & H2 & H3)]; [left; exact H1|right].
    split; [exact H1|]. split; [|exact H3].
    pose proof (filled_hist_range v Hf e). lia.
Qed.

Lemma escape_is_lowest_absent_witness :
  filled v_ab /\ vcCreateCodec v_ab true = Some c_ab_esc /\
  (true = false -> esc_code c_ab_esc = -1) /\
  (true = true ->
   (esc_code c_ab_esc = -1 /\ forall i, 0 <= i < 256 -> 0 < hist v_ab i) \/
   (0 <= esc_code c_ab_esc < 256 /\ hist v_ab (esc_code c_ab_esc) = 0 /\
    forall j, 0 <= j < esc_code c_ab_esc -> 0 < hist v_ab j)).
Proof.
  assert (H1 : filled v_ab) by apply filled_with_filled.
  assert (H2 : vcCreateCodec v_ab true = Some c_ab_esc)
    by (apply codec_or_created; vm_compute; reflexivity).
  split; [exact H1|]. split; [exact H2|].
  exact (escape_is_lowest_absent v_ab c_ab_esc true H1 H2).
Defined.

(** X7.  Which bytes have a code after [vcCreateCodec].  A byte with a code
    takes part: its count is non-zero or it is the escape byte.  Conversely,
    as soon as two different bytes take part, every byte that takes part has
    a code of 1 to 12 bits. *)
Theorem created_code_support (v c : VGPcompressor) (partial : bool) (i : Z) :
  filled v -> vcCreateCodec v partial = Some c -> 0 <= i < 256 ->
  (0 < codelens c i -> takes_part v partial c i) /\
  (takes_part v partial c i ->
   (exists j, 0 <= j < 256 /\ j <> i /\ takes_part v partial c j) ->
   1 <= codelens c i <= 12).
Proof.
  intros Hf Hc Hi.
  destruct (vcCreateCodec_inv _ _ _ Hc) as (_ & e & code & leng & bits & P & ->).
  assert (Hm : forall x, 0 <= x < 256 ->
             (In x code <-> takes_part v partial (codec_of v partial e code leng bits) x)).
  { intros x Hx. rewrite (parts_members _ _ _ _ _ _ P x).
    unfold takes_part. cbn [codec_of esc_code].
    destruct partial; split.
    - intros [_ H]. exact H.
    - intro H. split; [exact Hx|exact H].
    - intros [_ [H|[H _]]]; [left; exact H|discriminate].
    - intros [H|[H _]]; [split; [exact Hx|left; exact H]|discriminate]. }
  split.
  - intro Hl. apply Hm; [exact Hi|].
    destruct (in_dec Z.eq_dec i code) as [Hin|Hn]; [exact Hin|].
    rewrite (parts_codelens_out _ _ _ _ _ _ i P Hn) in Hl. lia.
  - intros Ht (j & Hj & Hne & Htj).
    apply Hm in Ht; [|exact Hi]. apply Hm in Htj; [|exact Hj].
    apply (parts_codelens_pos _ _ _ _ _ _ i P); [|exact Ht].
    apply (two_members code i j); auto.
Qed.

Lemma created_code_support_witness :
  filled v_ab /\ vcCreateCodec v_ab true = Some c_ab_esc /\ 0 <= 97 < 256 /\
  (0 < codelens c_ab_esc 97 -> takes_part v_ab true c_ab_esc 97) /\
  (takes_part v_ab true c_ab_esc 97 ->
   (exists j, 0 <= j < 256 /\ j <> 97 /\ takes_part v_ab true c_ab_esc j) ->
   1 <= codelens c_ab_esc 97 <= 12).
Proof.
  assert (H1 : filled v_ab) by apply filled_with_filled.
  assert (H2 : vcCreateCodec v_ab true = Some c_ab_esc)
    by (apply codec_or_created; vm_compute; reflexivity).
  assert (H3 : 0 <= 97 < 256) by lia.
  split; [exact H1|]. split; [exact H2|]. split; [exact H3|].
  exact (created_code_support v_ab c_ab_esc true 97 H1 H2 H3).
Defined.

(** * The encoder is defined on every input when there is an escape *)

Lemma encode_loop_total v ibits :
  0 <= esc_code v < 256 ->
  forall x st t, exists r, encode_loop v ibits x st t = Some r.
Proof.
  intros He x. apply encode_loop_defined. intros b _ _. lia.
Qed.

(** X8.  A codec created with [partial] set from a histogram in which some
    byte has a zero count encodes every input: [vcEncode] returns a buffer
    and a bit count whatever bytes the input holds. *)
Theorem encode_defined_with_escape (v c : VGPcompressor) (x : list Z) :
  filled v -> vcCreateCodec v true = Some c ->
  (exists e, 0 <= e < 256 /\ hist v e = 0) ->
  exists buf bits, vcEncode (Owned c) x = Some (buf, bits).
Proof.
  intros Hf Hc (e0 & He0 & Hz).
  assert (Hesc : 0 <= esc_code c < 256).
  { destruct (vcCreateCodec_inv _ _ _ Hc) as (_ & e & code & leng & bits & P & ->).
    cbn [codec_of esc_code]. destruct (parts_escape _ _ _ _ _ _ P) as [_ H].
    destruct (H eq_refl) as [[_ H1]|(H1 & _)]; [|exact H1].
    specialize (H1 e0 He0). lia. }
  unfold vcEncode. rewrite (vcCreateCodec_state _ _ _ Hc). cbn [is_coded]. cbv zeta.
  destruct (encode_loop_total c (to_int (Z.shiftl (Z.of_nat (length x)) 3)) Hesc x
              (mkEnc (if isbig c then 4611686018427387904 else 0) 62 []) 2) as (r & Hr).
  rewrite Hr. destruct r; eexists; eexists; reflexivity.
Qed.

Lemma encode_defined_with_escape_witness :
  filled v_ab /\ vcCreateCodec v_ab true = Some c_ab_esc /\
  (exists e, 0 <= e < 256 /\ hist v_ab e = 0) /\
  exists buf bits, vcEncode (Owned c_ab_esc) [0; 99; 97; 255] = Some (buf, bits).
Proof.
  assert (H1 : filled v_ab) by apply filled_with_filled.
  assert (H2 : vcCreateCodec v_ab true = Some c_ab_esc)
    by (apply codec_or_created; vm_compute; reflexivity).
  assert (H3 : exists e, 0 <= e < 256 /\ hist v_ab e = 0).
  { exists 0. split; [lia|]. vm_compute. reflexivity. }
  split; [exact H1|]. split; [exact H2|]. split; [exact H3|].
  exact (encode_defined_with_escape v_ab c_ab_esc [0; 99; 97; 255] H1 H2 H3).
Defined.

(** * The size of a serialised codec *)

Lemma length_serial_entries big lens bits : forall l,
  length (flat_map (serial_entry big lens bits) l)
  = (length l + 2 * length (filter (fun i => (0 <? lens i)%Z) l))%nat.
Proof.
  induction l as [|a l IH]; [reflexivity|].
  cbn [flat_map filter]. rewrite length_app, IH. unfold serial_entry.
  destruct (0 <? lens a); cbn [length]; rewrite ?length_word_bytes; lia.
Qed.

Lemma length_filter_le (A : Type) (f : A -> bool) : forall l,
  (length (filter f l) <= length l)%nat.
Proof.
  induction l as [|a l IH]; cbn [filter length]; [lia|].
  destruct (f a); cbn [length]; lia.
Qed.

Lemma u8_byte x : is_byte (u8 x).
Proof. unfold is_byte, u8. apply Z.mod_pos_bound. lia. Qed.

Lemma be_bytes_bytes : forall n w, Forall is_byte (be_bytes n w).
Proof.
  induction n as [|n IH]; intro w; cbn [be_bytes]; constructor; auto using u8_byte.
Qed.

Lemma word_bytes_bytes big n w : Forall is_byte (word_bytes big n w).
Proof.
  unfold word_bytes. destruct big; [apply be_bytes_bytes|].
  apply Forall_rev. apply be_bytes_bytes.
Qed.

Lemma serial_entries_bytes big lens bits : forall l,
  Forall is_byte (flat_map (serial_entry big lens bits) l).
Proof.
  induction l as [|a l IH]; [constructor|].
  cbn [flat_map]. apply Forall_app. split; [|exact IH].
  unfold serial_entry. constructor; [apply u8_byte|].
  destruct (0 <? lens a); [apply word_bytes_bytes|constructor].
Qed.

(** X9.  The blob written by [vcSerialize] for a compressor of its own holds
    the endian byte, the 4-byte escape code, one length byte per byte value
    and a 2-byte code for every byte value that has one: 261 bytes plus two
    per coded byte, never more than [vcMaxSerialSize].  Every item is a byte
    value. *)
Theorem serialized_size (c : VGPcompressor) (blob : list Z) :
  vcSerialize (Owned c) = Some blob ->
  Z.of_nat (length blob) = 261 + 2 * Z.of_nat (length (coded_bytes c)) /\
  261 <= Z.of_nat (length blob) <= vcMaxSerialSize /\
  Forall is_byte blob.
Proof.
  unfold vcSerialize. destruct (is_coded (state c)); [|discriminate].
  intro H. apply Some_inj in H. subst blob.
  assert (L : Z.of_nat (length (big_flag (isbig c)
                :: word_bytes (isbig c) 4 (u32 (esc_code c))
                ++ flat_map (serial_entry (isbig c) (codelens c) (codebits c)) bytes256))
              = 261 + 2 * Z.of_nat (length (coded_bytes c))).
  { cbn [length]. rewrite length_app, length_word_bytes, length_serial_entries.
    rewrite length_bytes256. unfold coded_bytes. lia. }
  split; [exact L|]. split.
  - rewrite L. pose proof (length_filter_le Z (fun i => 0 <? codelens c i) bytes256) as F.
    rewrite length_bytes256 in F. unfold coded_bytes, vcMaxSerialSize. lia.
  - constructor.
    + unfold is_byte, big_flag. destruct (isbig c); lia.
    + apply Forall_app. split; [apply word_bytes_bytes|apply serial_entries_bytes].
Qed.

Lemma serialized_size_witness :
  vcSerialize (Owned c_ab_esc) = Some (ser_bytes false c_ab_esc) /\
  Z.of_nat (length (ser_bytes false c_ab_esc))
  = 261 + 2 * Z.of_nat (length (coded_bytes c_ab_esc)) /\
  261 <= Z.of_nat (length (ser_bytes false c_ab_esc)) <= vcMaxSerialSize /\
  Forall is_byte (ser_bytes false c_ab_esc).
Proof.
  assert (H : vcSerialize (Owned c_ab_esc) = Some (ser_bytes false c_ab_esc))
    by (apply (vcSerialize_bytes c_ab_esc); vm_compute; reflexivity).
  split; [exact H|].
  exact (serialized_size c_ab_esc (ser_bytes false c_ab_esc) H).
Defined.

(** * The DNA compressor *)

Lemma list_quad_ind (A : Type) (P : list A -> Prop) :
  P [] -> (forall a, P [a]) -> (forall a b, P [a; b]) -> (forall a b c, P [a; b; c]) ->
  (forall a b c d l, P l -> P (a :: b :: c :: d :: l)) -> forall l, P l.
Proof.
  intros H0 H1 H2 H3 H4.
  assert (H : forall l, P l /\ (forall a, P (a :: l)) /\ (forall a b, P (a :: b :: l))
                        /\ (forall a b c, P (a :: b :: c :: l))).
  { induction l as [|x l (I0 & I1 & I2 & I3)].
    - repeat split; auto.
    - repeat split; auto. }
  intro l. apply H.
Qed.

Lemma number_range c : 0 <= number c <= 3.
Proof.
  unfold number.
  assert (H : Forall (fun v => 0 <= v <= 3) Number).
  { unfold Number. repeat (constructor; [lia|]). constructor. }
  destruct (Nat.lt_ge_cases (Z.to_nat c) (length Number)) as [Hl|Hl].
  - rewrite Forall_forall in H. apply H. apply nth_In. exact Hl.
  - rewrite nth_overflow by exact Hl. lia.
Qed.

Lemma base_pack4 a b c d :
  0 <= a <= 3 -> 0 <= b <= 3 -> 0 <= c <= 3 -> 0 <= d <= 3 ->
  base (pack4 a b c d) 6 = nth (Z.to_nat a) Base 0 /\
  base (pack4 a b c d) 4 = nth (Z.to_nat b) Base 0 /\
  base (pack4 a b c d) 2 = nth (Z.to_nat c) Base 0 /\
  base (pack4 a b c d) 0 = nth (Z.to_nat d) Base 0.
Proof.
  intros Ha Hb Hc Hd.
  assert (Ea : a = 0 \/ a = 1 \/ a = 2 \/ a = 3) by lia.
  assert (Eb : b = 0 \/ b = 1 \/ b = 2 \/ b = 3) by lia.
  assert (Ec : c = 0 \/ c = 1 \/ c = 2 \/ c = 3) by lia.
  assert (Ed : d = 0 \/ d = 1 \/ d = 2 \/ d = 3) by lia.
  clear Ha Hb Hc Hd.
  destruct Ea as [->|[->|[->| ->]]]; destruct Eb as [->|[->|[->| ->]]];
    destruct Ec as [->|[->|[->| ->]]]; destruct Ed as [->|[->|[->| ->]]];
    repeat split; reflexivity.
Qed.

Lemma base_of_zero : nth (Z.to_nat 0) Base 0 = 97.
Proof. reflexivity. Qed.

Lemma dna_pack_quad a b c d l :
  dna_pack (a :: b :: c :: d :: l)
  = pack4 (number a) (number b) (number c) (number d) :: dna_pack l.
Proof. reflexivity. Qed.

Lemma dna_unpack_quad s m :
  dna_unpack s (S (S (S (S m))))
  = base (hd 0 s) 6 :: base (hd 0 s) 4 :: base (hd 0 s) 2 :: base (hd 0 s) 0
      :: dna_unpack (tl s) m.
Proof. reflexivity. Qed.

Lemma dna_unpack_pack : forall s m,
  (m <= length s)%nat ->
  dna_unpack (dna_pack s) m = firstn m (map base_of s).
Proof.
  induction s as [|a|a b|a b c|a b c d l IH] using list_quad_ind; intros m Hm.
  - cbn [length] in Hm. assert (m = O) by lia. subst m. reflexivity.
  - cbn [length] in Hm.
    destruct (base_pack4 (number a) 0 0 0 (number_range a)) as (E1 & _); try lia.
    destruct m as [|[|m]]; [reflexivity| |lia].
    cbn [dna_pack dna_unpack hd map firstn]. rewrite E1. reflexivity.
  - cbn [length] in Hm.
    destruct (base_pack4 (number a) (number b) 0 0 (number_range a) (number_range b))
      as (E1 & E2 & _); try lia.
    destruct m as [|[|[|m]]]; [reflexivity| | |lia];
      cbn [dna_pack dna_unpack hd map firstn]; rewrite ?E1, ?E2; reflexivity.
  - cbn [length] in Hm.
    destruct (base_pack4 (number a) (number b) (number c) 0
                (number_range a) (number_range b) (number_range c))
      as (E1 & E2 & E3 & _); try lia.
    destruct m as [|[|[|[|m]]]]; [reflexivity| | | |lia];
      cbn [dna_pack dna_unpack hd map firstn]; rewrite ?E1, ?E2, ?E3; reflexivity.
  - cbn [length] in Hm. rewrite dna_pack_quad.
    destruct (base_pack4 (number a) (number b) (number c) (number d)
                (number_range a) (number_range b) (number_range c) (number_range d))
      as (E1 & E2 & E3 & E4).
    destruct m as [|[|[|[|m]]]].
    + reflexivity.
    + cbn [dna_unpack hd map firstn]. rewrite E1. reflexivity.
    + cbn [dna_unpack hd map firstn]. rewrite E1, E2. reflexivity.
    + cbn [dna_unpack hd map firstn]. rewrite E1, E2, E3. reflexivity.
    + rewrite dna_unpack_quad. cbn [hd tl map firstn].
      rewrite E1, E2, E3, E4. rewrite IH by lia. reflexivity.
Qed.

Lemma length_dna_pack : forall s,
  Z.of_nat (length (dna_pack s)) = (Z.of_nat (length s) + 3) / 4.
Proof.
  induction s as [|a|a b|a b c|a b c d l IH] using list_quad_ind;
    try reflexivity.
  rewrite dna_pack_quad. cbn [length].
  replace (Z.of_nat (S (S (S (S (length l))))) + 3)
    with ((Z.of_nat (length l) + 3) + 1 * 4) by lia.
  rewrite Z.div_add by lia. lia.
Qed.

(** X10.  [Compress_DNA] writes one byte per four bases, the last one
    partly filled: [ceil(n/4)] bytes for [n] bases, and it returns twice
    that number of bytes. *)
Theorem dna_packed_size (s : list Z) :
  Z.of_nat (length (fst (Compress_DNA s))) = (Z.of_nat (length s) + 3) / 4 /\
  snd (Compress_DNA s) = 2 * ((Z.of_nat (length s) + 3) / 4).
Proof.
  unfold Compress_DNA. cbn [fst snd]. rewrite shiftl_1, length_dna_pack. auto.
Qed.

Lemma shiftr_double m : Z.shiftr (2 * m) 1 = m.
Proof.
  rewrite shiftr_1. rewrite Z.mul_comm. apply Z.div_mul. lia.
Qed.

(** X11.  Decoding a packed DNA string.  When the buffer written by the DNA
    encoder for [s] is decoded with the bit count [2m], [m] at most the
    number of bases, the result is the first [m] bases, each as the letter
    [Base[Number[c]]]: one of a, c, g, t. *)
Theorem dna_decode_prefix (schar : bool) (s buf : list Z) (bits : Z) (m : nat) :
  Forall (fun c => 0 <= c < 128) s ->
  vcEncode DNAcompressor s = Some (buf, bits) ->
  (m <= length s)%nat ->
  vcDecode schar DNAcompressor (2 * Z.of_nat m) buf
  = Some (firstn m (map base_of s)) /\
  Forall (fun c => In c Base) (map base_of s).
Proof.
  intros _ He Hm. cbn [vcEncode] in He. apply Some_inj in He.
  unfold Compress_DNA in He. inversion He; subst buf bits. clear He.
  split.
  - cbn [vcDecode]. rewrite shiftr_double. unfold Uncompress_DNA.
    rewrite Nat2Z.id. rewrite dna_unpack_pack by exact Hm. reflexivity.
  - apply Forall_forall. intros x Hx. apply in_map_iff in Hx.
    destruct Hx as (c & <- & _). unfold base_of.
    pose proof (number_range c) as Hr. apply nth_In. cbn [Base length]. lia.
Qed.

Lemma dna_decode_prefix_witness :
  Forall (fun c => 0 <= c < 128) dna10 /\
  vcEncode DNAcompressor dna10 = Some ([0x1B; 0x1B; 0x10], 6) /\
  (7 <= length dna10)%nat /\
  vcDecode true DNAcompressor (2 * Z.of_nat 7) [0x1B; 0x1B; 0x10]
  = Some (firstn 7 (map base_of dna10)) /\
  Forall (fun c => In c Base) (map base_of dna10).
Proof.
  assert (H1 : Forall (fun c => 0 <= c < 128) dna10).
  { unfold dna10. repeat (constructor; [lia|]). constructor. }
  assert (H2 : vcEncode DNAcompressor dna10 = Some ([0x1B; 0x1B; 0x10], 6))
    by reflexivity.
  assert (H3 : (7 <= length dna10)%nat) by (cbn; lia).
  split; [exact H1|]. split; [exact H2|]. split; [exact H3|].
  exact (dna_decode_prefix true dna10 [0x1B; 0x1B; 0x10] 6 7 H1 H2 H3).
Defined.

Lemma base_of_dna c : is_dna c -> base_of c = to_lower c.
Proof.
  unfold is_dna. cbn [In].
  intros [<-|[<-|[<-|[<-|[<-|[<-|[<-|[<-|[]]]]]]]]]; reflexivity.
Qed.

(** X12.  Round trip of the DNA compressor.  For a string of the letters
    A, C, G, T in either case, decoding the encoder's buffer with two bits
    per base returns the string in lower case. *)
Theorem dna_roundtrip_lower_case (schar : bool) (s buf : list Z) (bits : Z) :
  Forall is_dna s ->
  vcEncode DNAcompressor s = Some (buf, bits) ->
  vcDecode schar DNAcompressor (2 * Z.of_nat (length s)) buf
  = Some (map to_lower s).
Proof.
  intros Hd He. cbn [vcEncode] in He. apply Some_inj in He.
  unfold Compress_DNA in He. inversion He; subst buf bits. clear He.
  cbn [vcDecode]. rewrite shiftr_double. unfold Uncompress_DNA.
  rewrite Nat2Z.id. rewrite dna_unpack_pack by lia.
  rewrite <- (length_map base_of s). rewrite firstn_all. f_equal.
  apply map_ext_in. intros c Hc. apply base_of_dna.
  rewrite Forall_forall in Hd. apply Hd. exact Hc.
Qed.

Lemma dna_roundtrip_lower_case_witness :
  Forall is_dna dna10 /\
  vcEncode DNAcompressor dna10 = Some ([0x1B; 0x1B; 0x10], 6) /\
  vcDecode true DNAcompressor (2 * Z.of_nat (length dna10)) [0x1B; 0x1B; 0x10]
  = Some (map to_lower dna10).
Proof.
  assert (H1 : Forall is_dna dna10).
  { unfold dna10, is_dna. repeat (constructor; [cbn; tauto|]). constructor. }
  assert (H2 : vcEncode DNAcompressor dna10 = Some ([0x1B; 0x1B; 0x10], 6))
    by reflexivity.
  split; [exact H1|]. split; [exact H2|].
  exact (dna_roundtrip_lower_case true dna10 [0x1B; 0x1B; 0x10] 6 H1 H2).
Defined.

(** * The order of the symbols handed to the coin filter *)

Lemma HSORT_small h x y :
  0 <= h x < 2 ^ 31 -> 0 <= h y < 2 ^ 31 -> HSORT h x y = h x - h y.
Proof.
  intros Hx Hy. unfold HSORT, to_int, u32, u64.
  rewrite Z.mod_mod_divide by (exists (2 ^ 32); reflexivity).
  destruct (Z_lt_le_dec (h x - h y) 0) as [Hn|Hp].
  - assert (E : (h x - h y) mod 2 ^ 32 = h x - h y + 2 ^ 32).
    { symmetry. apply (Z.mod_unique _ _ (-1)); lia. }
    rewrite E. destruct (_ <? 2 ^ 31) eqn:El; [apply Z.ltb_lt in El|]; lia.
  - rewrite Z.mod_small by lia.
    destruct (_ <? 2 ^ 31) eqn:El; [reflexivity|apply Z.ltb_ge in El; lia].
Qed.

Lemma qsort_insert_hd (R : Z -> Z -> Prop) cmp x y : forall l,
  R y x -> HdRel R y l -> HdRel R y (qsort_insert cmp x l).
Proof.
  intros l Hx Hl. destruct l as [|z l]; cbn [qsort_insert].
  - constructor. exact Hx.
  - destruct (cmp x z <=? 0); constructor; auto.
    inversion Hl; auto.
Qed.

Lemma qsort_insert_sorted h cmp x : forall l,
  (forall b, In b l -> (cmp x b <= 0 <-> h x <= h b)) ->
  Sorted (fun a b => h a <= h b) l ->
  Sorted (fun a b => h a <= h b) (qsort_insert cmp x l).
Proof.
  induction l as [|y l IH]; intros Hc Hs; cbn [qsort_insert].
  - constructor; constructor.
  - destruct (cmp x y <=? 0) eqn:E.
    + apply Z.leb_le in E. constructor; [exact Hs|]. constructor.
      apply Hc; [left; reflexivity|exact E].
    + apply Z.leb_gt in E.
      assert (Hyx : h y <= h x).
      { destruct (Z_le_gt_dec (h x) (h y)) as [Hle|Hgt]; [|lia].
        apply Hc in Hle; [lia|left; reflexivity]. }
      apply Sorted_inv in Hs. destruct Hs as [Hs Hh].
      constructor.
      * apply IH; [|exact Hs]. intros b Hb. apply Hc. right. exact Hb.
      * apply qsort_insert_hd; assumption.
Qed.

Lemma qsort_sorted h cmp : forall l,
  (forall a b, In a l -> In b l -> (cmp a b <= 0 <-> h a <= h b)) ->
  Sorted (fun a b => h a <= h b) (qsort cmp l).
Proof.
  induction l as [|x l IH]; intro Hc; cbn [qsort]; [constructor|].
  apply qsort_insert_sorted.
  - intros b Hb. apply Hc; [left; reflexivity|right].
    eapply Permutation_in; [apply qsort_perm|exact Hb].
  - apply IH. intros a b Ha Hb. apply Hc; right; assumption.
Qed.

Lemma Sorted_map_le (h : Z -> Z) : forall l,
  Sorted (fun a b => h a <= h b) l -> Sorted Z.le (map h l).
Proof.
  induction l as [|a l IH]; intro Hs; cbn [map]; [constructor|].
  apply Sorted_inv in Hs. destruct Hs as [Hs Hh]. constructor; [apply IH; exact Hs|].
  destruct l as [|b l]; cbn [map]; constructor. inversion Hh; auto.
Qed.

(** X13.  When every count is below [2^31], the difference returned by
    [HSORT] fits an [int], and the counts [countb] of the sorted symbols
    that [vcCreateCodec] hands to the coin filter are in ascending order. *)
Theorem sorted_counts_ascending (h : Z -> Z) (partial : bool) (e : Z) (code0 : list Z) :
  (forall i, 0 <= i < 256 -> 0 <= h i < 2 ^ 31) ->
  collect h partial = (e, code0) ->
  Sorted Z.le (map h (qsort (HSORT h) code0)).
Proof.
  intros Hh Hc. apply Sorted_map_le. apply qsort_sorted.
  destruct (collect_members _ _ _ _ Hc) as [Hm _].
  intros a b Ha Hb. apply Hm in Ha. apply Hm in Hb.
  rewrite HSORT_small by (apply Hh; tauto). lia.
Qed.

Lemma sorted_counts_ascending_witness :
  (forall i, 0 <= i < 256 -> 0 <= hist v_ab i < 2 ^ 31) /\
  collect (hist v_ab) true = (0, [0; 97; 98]) /\
  Sorted Z.le (map (hist v_ab) (qsort (HSORT (hist v_ab)) [0; 97; 98])).
Proof.
  assert (H1 : forall i, 0 <= i < 256 -> 0 <= hist v_ab i < 2 ^ 31).
  { intros i _. rewrite v_ab_hist.
    destruct (i =? 98); [|destruct (i =? 97)]; vm_compute; split; congruence. }
  assert (H2 : collect (hist v_ab) true = (0, [0; 97; 98])) by (vm_compute; reflexivity).
  split; [exact H1|]. split; [exact H2|].
  exact (sorted_counts_ascending (hist v_ab) true 0 [0; 97; 98] H1 H2).
Defined.

(** * The size of the encoder's output *)

Lemma Some_pair_inj (A B : Type) (a a' : A) (b b' : B) :
  Some (a, b) = Some (a', b') -> a = a' /\ b = b'.
Proof. intro H. split; congruence. Qed.

Lemma OCODE_inv L C st t :
  enc_inv st t -> 0 <= L <= 64 -> enc_inv (OCODE L C st) (t + L).
Proof.
  intros [H1 H2] HL. unfold OCODE, enc_inv.
  destruct (erem st - L <=? 0) eqn:E1.
  - apply Z.leb_le in E1.
    destruct (erem st - L <? 0) eqn:E2; cbn [erem owords];
      rewrite length_app; cbn [length]; [|apply Z.ltb_ge in E2]; lia.
  - apply Z.leb_gt in E1. cbn [erem owords]. lia.
Qed.

Lemma encode_loop_inv v ibits :
  (forall i, 0 <= codelens v i < 256) ->
  ibits + 263 <= INT_MAX ->
  (forall i, 0 <= i < 256 -> codelens v i <= 64) ->
  forall x st t st' t',
    (forall b, In b x -> codelens v (u8 b) = 0 -> esc_code v = -1 ->
               codebits_byte v 511 <= 64) ->
    enc_inv st t -> - 2 ^ 31 <= t <= ibits ->
    encode_loop v ibits x st t = Some (EncDone st' t') ->
    enc_inv st' t'.
Proof.
  intros Hnn Hmax Hl. induction x as [|b x IH]; intros st t st' t' Hel Hi Ht H.
  - cbn [encode_loop] in H. inversion H; subst. exact Hi.
  - rewrite encode_loop_cons in H by assumption.
    assert (Hel' : forall b', In b' x -> codelens v (u8 b') = 0 -> esc_code v = -1 ->
                              codebits_byte v 511 <= 64)
      by (intros b' Hb'; apply Hel; right; exact Hb').
    assert (Hb : 0 <= u8 b < 256) by apply u8_byte.
    pose proof (esc_len_range v Hnn) as Her.
    destruct (codelens v (u8 b) =? 0) eqn:E0.
    + apply Z.eqb_eq in E0.
      destruct ((-1 <=? esc_code v) && (esc_code v <? 256)) eqn:Ee; [|discriminate].
      apply andb_true_iff in Ee. destruct Ee as [Ee1 Ee2].
      apply Z.leb_le in Ee1. apply Z.ltb_lt in Ee2.
      destruct (_ >? ibits) eqn:Eo; [discriminate|].
      rewrite Z.gtb_ltb in Eo. apply Z.ltb_ge in Eo.
      apply IH in H; [exact H|exact Hel'| |lia].
      replace (t + (8 + esc_len v)) with (t + esc_len v + 8) by lia.
      apply OCODE_inv; [|lia]. apply OCODE_inv; [exact Hi|].
      split; [lia|]. unfold esc_len.
      destruct (esc_code v =? -1) eqn:E1.
      * apply Z.eqb_eq in E1. apply (Hel b); [left; reflexivity|exact E0|exact E1].
      * apply Z.eqb_neq in E1. apply Hl. lia.
    + destruct (_ >? ibits) eqn:Eo; [discriminate|].
      rewrite Z.gtb_ltb in Eo. apply Z.ltb_ge in Eo.
      pose proof (Hnn (u8 b)).
      apply IH in H; [exact H|exact Hel'| |lia]. apply OCODE_inv; [exact Hi|].
      split; [lia|]. apply Hl. exact Hb.
Qed.

Lemma length_up_to : forall n k hi,
  Z.of_nat (length (up_to n k hi)) = Z.min (Z.of_nat n) (Z.max 0 (hi - k)).
Proof.
  induction n as [|n IH]; intros k hi; cbn [up_to].
  - cbn [length]. lia.
  - destruct (k <? hi) eqn:E.
    + apply Z.ltb_lt in E. cbn [length]. rewrite Nat2Z.inj_succ, IH. lia.
    + apply Z.ltb_ge in E. cbn [length]. lia.
Qed.

Lemma length_down_from : forall n hi lo,
  Z.of_nat (length (down_from n hi lo)) = Z.min (Z.of_nat n) (Z.max 0 (hi - lo + 1)).
Proof.
  induction n as [|n IH]; intros hi lo; cbn [down_from].
  - cbn [length]. lia.
  - destruct (lo <=? hi) eqn:E.
    + apply Z.leb_le in E. cbn [length]. rewrite Nat2Z.inj_succ, IH. lia.
    + apply Z.leb_gt in E. cbn [length]. lia.
Qed.

Lemma length_tail_bytes big w rem :
  1 <= rem <= 64 -> Z.of_nat (length (tail_bytes big w rem)) = (71 - rem) / 8.
Proof.
  intro Hr. unfold tail_bytes.
  assert (H0 : 0 <= (71 - rem) / 8 <= 8).
  { split; [apply Z.div_pos; lia|].
    assert ((71 - rem) / 8 < 9) by (apply Z.div_lt_upper_bound; lia). lia. }
  destruct big; rewrite length_map.
  - rewrite length_up_to. rewrite Z.shiftr_div_pow2 by lia.
    change (2 ^ 3) with 8. change (Z.of_nat 8) with 8. lia.
  - rewrite length_down_from. rewrite Z.shiftr_div_pow2 by lia.
    change (2 ^ 3) with 8. change (Z.of_nat 8) with 8.
    replace (71 - rem) with (63 - rem + 1 * 8) in * by lia.
    rewrite Z.div_add in * by lia. lia.
Qed.

Lemma length_flat_words big : forall ws,
  Z.of_nat (length (flat_map (word_bytes big 8) ws)) = 8 * Z.of_nat (length ws).
Proof.
  induction ws as [|w ws IH]; [reflexivity|].
  cbn [flat_map]. rewrite length_app, length_word_bytes. cbn [length]. lia.
Qed.

Lemma length_wr_range_head buf bs :
  (length bs <= length buf)%nat -> length (wr_range buf 0 bs) = length buf.
Proof.
  intro H. unfold wr_range, rd_range. cbn [seq map app].
  rewrite length_app, length_skipn. lia.
Qed.

Lemma created_lens v partial c :
  vcCreateCodec v partial = Some c -> forall i, 0 <= codelens c i <= 12.
Proof.
  intros Hc i.
  destruct (vcCreateCodec_inv _ _ _ Hc) as (_ & e & code & leng & bits & P & ->).
  apply (codelens_codec_of _ _ _ _ _ _ P).
Qed.

(** X14.  The output of [vcEncode] on an input of [n] bytes, [n] below
    [2^28 - 32] (so that no bit count leaves the range of [int]), for a
    codec whose code lengths, and the byte read as the length of the escape
    code when there is none, are at most 64 (those built by [vcCreateCodec]
    have lengths of at most 12).  The buffer written holds exactly
    [ceil(bits/8)] bytes for the bit count [bits] returned, and [bits] is at
    least 2 and at most [8n + 8]: the output never takes more than [n + 1]
    bytes. *)
Theorem encoded_size (c : VGPcompressor) (x buf : list Z) (bits : Z) :
  coded c ->
  (forall i, 0 <= i < 256 -> codelens c i <= 64) ->
  (esc_code c = -1 -> codebits_byte c 511 <= 64) ->
  Z.of_nat (length x) < 2 ^ 28 - 32 ->
  vcEncode (Owned c) x = Some (buf, bits) ->
  Z.of_nat (length buf) = (bits + 7) / 8 /\
  2 <= bits <= 8 * Z.of_nat (length x) + 8.
Proof.
  intros Hc Hl Hel Hlen He. pose proof (coded_wf c Hc) as Hwf.
  assert (Hnn : forall i, 0 <= codelens c i < 256) by (intro i; apply (wf_lens c Hwf i)).
  unfold vcEncode in He. rewrite (coded_is_coded c Hc) in He. cbv zeta in He.
  rewrite shiftl_3 in He.
  set (n := Z.of_nat (length x)) in *.
  assert (Hn0 : 0 <= n) by (unfold n; lia).
  rewrite (to_int_small (8 * n)) in He by lia.
  assert (Hmax : 8 * n + 263 <= INT_MAX) by (unfold INT_MAX; lia).
  set (st0 := mkEnc (if isbig c then 4611686018427387904 else 0) 62 []) in *.
  destruct (encode_loop c (8 * n) x st0 2) as [[|st t]|] eqn:E; [| |discriminate].
  - rewrite to_int_small in He by lia.
    apply Some_pair_inj in He. destruct He as [<- <-]. cbn [length].
    rewrite Nat2Z.inj_succ. fold n.
    replace (8 * n + 8 + 7) with (7 + (n + 1) * 8) by lia.
    rewrite Z.div_add by lia. change (7 / 8) with 0. lia.
  - assert (Hx : (- 2 ^ 31 <= 2 <= 8 * n) \/ x = []).
    { destruct x; [right; reflexivity|left; unfold n; cbn [length]; lia]. }
    assert (Hi : enc_inv st t /\ 2 <= t <= 8 * n + 8).
    { destruct Hx as [Hx| ->].
      - split.
        + apply (encode_loop_inv c (8 * n) Hnn Hmax Hl x st0 2 st t);
            [intros b _ _; exact Hel| |exact Hx|exact E].
          unfold enc_inv, st0. cbn [erem owords length]. lia.
        + pose proof (encode_loop_bits c (8 * n) x st0 2 _ Hnn Hmax E Hx) as Hb.
          cbv beta iota in Hb. pose proof (sum_cost_nonneg c x Hnn). lia.
      - cbn [encode_loop] in E. apply Some_inj in E. inversion E; subst.
        split; [|cbn [length] in *; lia].
        unfold enc_inv, st0. cbn [erem owords length]. lia. }
    destruct Hi as [[Hr Ht] Hb].
    set (raw := flat_map (word_bytes (isbig c) 8) (owords st)
                ++ tail_bytes (isbig c) (ocode st) (erem st)) in *.
    assert (Lraw : Z.of_nat (length raw) = (t + 7) / 8).
    { unfold raw. rewrite length_app, Nat2Z.inj_add, length_flat_words.
      rewrite length_tail_bytes by exact Hr.
      replace (t + 7) with (71 - erem st + (8 * Z.of_nat (length (owords st))) * 8) by lia.
      rewrite Z.div_add by lia. lia. }
    destruct ((64 <=? t) && negb (isbig c)) eqn:Ef.
    + apply Some_pair_inj in He. destruct He as [<- <-]. split; [|exact Hb].
      rewrite length_wr_range_head; [exact Lraw|].
      rewrite length_word_bytes.
      apply andb_true_iff in Ef. destruct Ef as [Ef _]. apply Z.leb_le in Ef.
      assert (8 <= (t + 7) / 8) by (apply Z.div_le_lower_bound; lia). lia.
    + apply Some_pair_inj in He. destruct He as [<- <-]. split; [exact Lraw|exact Hb].
Qed.

Lemma encoded_size_witness :
  coded c_ab_esc /\
  (forall i, 0 <= i < 256 -> codelens c_ab_esc i <= 64) /\
  (esc_code c_ab_esc = -1 -> codebits_byte c_ab_esc 511 <= 64) /\
  Z.of_nat (length [99; 99; 97]) < 2 ^ 28 - 32 /\
  vcEncode (Owned c_ab_esc) [99; 99; 97] = Some ([54; 61; 142], 24) /\
  Z.of_nat (length [54; 61; 142]) = (24 + 7) / 8 /\
  2 <= 24 <= 8 * Z.of_nat (length [99; 99; 97]) + 8.
Proof.
  assert (H1 : coded c_ab_esc) by exact c_ab_esc_coded.
  assert (H2 : forall i, 0 <= i < 256 -> codelens c_ab_esc i <= 64).
  { intros i _.
    pose proof (created_lens v_ab true c_ab_esc
                  (codec_or_created v_ab true eq_refl) i). lia. }
  assert (H3 : esc_code c_ab_esc = -1 -> codebits_byte c_ab_esc 511 <= 64).
  { intros _. vm_compute. discriminate. }
  assert (H4 : Z.of_nat (length [99; 99; 97]) < 2 ^ 28 - 32) by reflexivity.
  assert (H5 : vcEncode (Owned c_ab_esc) [99; 99; 97] = Some ([54; 61; 142], 24))
    by (vm_compute; reflexivity).
  split; [exact H1|]. split; [exact H2|]. split; [exact H3|]. split; [exact H4|].
  split; [exact H5|].
  exact (encoded_size c_ab_esc [99; 99; 97] [54; 61; 142] 24 H1 H2 H3 H4 H5).
Defined.

(** * The decoder table of a codec built from a histogram *)

(** With counts below [2^52] the lengths fill the code space exactly and the
    codes tile it. *)
Lemma parts_positions v partial e code leng bits :
  codec_parts v partial e code leng bits ->
  (forall i, 0 <= i < 256 -> 0 <= hist v i < 2 ^ 52) ->
  code <> [] ->
  kraft12 leng = 2 ^ 12 /\ positions (2 ^ 12) leng bits.
Proof.
  intros P Hh Hne.
  assert (Hn1 : (1 <= length code <= 256)%nat).
  { pose proof (cp_ncode _ _ _ _ _ _ P). destruct code; [congruence|cbn in *; lia]. }
  assert (Hcb : Forall (fun w => 0 <= w < 2 ^ 52) (map (hist v) code)).
  { apply Forall_forall. intros w Hw. apply in_map_iff in Hw.
    destruct Hw as (i & <- & Hi). apply Hh. apply (cp_range _ _ _ _ _ _ P). exact Hi. }
  assert (Hk : kraft12 leng = 2 ^ 12).
  { rewrite (cp_leng _ _ _ _ _ _ P). apply code_lengths_exact; auto.
    rewrite length_map. exact Hn1. }
  split; [exact Hk|].
  assert (Hd : desc leng).
  { rewrite (cp_leng _ _ _ _ _ _ P). apply code_lengths_desc. }
  destruct (canonical_bits_exact leng) as (bs & Hb1 & Hb2); auto.
  { intro E. pose proof (cp_len_leng _ _ _ _ _ _ P) as Hl.
    rewrite E in Hl. cbn in Hl. lia. }
  { apply (cp_leng_range _ _ _ _ _ _ P). }
  rewrite (cp_bits _ _ _ _ _ _ P) in Hb1. apply Some_inj in Hb1. subst bs. exact Hb2.
Qed.

Lemma parts_sound v partial e code leng bits :
  lookup v = (fun _ => None) ->
  codec_parts v partial e code leng bits ->
  (forall i, 0 <= i < 256 -> 0 <= hist v i < 2 ^ 52) ->
  tiled (codelens (codec_of v partial e code leng bits))
        (codebits (codec_of v partial e code leng bits)) /\
  lookup_spec (codec_of v partial e code leng bits).
Proof.
  intros Hlk P Hh.
  assert (Ht : tiled (codelens (codec_of v partial e code leng bits))
                     (codebits (codec_of v partial e code leng bits))).
  { destruct code as [|a code'] eqn:Ec.
    - cbn [codec_of codelens codebits scatter]. split; intros; lia.
    - rewrite <- Ec in *.
      destruct (parts_positions _ _ _ _ _ _ P Hh) as [_ Hp];
        [rewrite Ec; discriminate|].
      exact (codec_of_tiled _ _ _ _ _ _ P Hp). }
  split; [exact Ht|].
  apply tiled_lookup; [exact Ht|].
  apply (wf_look _ (codec_of_wf _ _ _ _ _ _ Hlk P)).
Qed.

Lemma positions_cover : forall leng bits T,
  positions T leng bits -> Forall (fun l => 0 <= l <= 12) leng ->
  forall y, T - kraft12 leng <= y < T ->
  exists l b, In (l, b) (combine leng bits) /\ b * K l <= y < b * K l + K l.
Proof.
  induction leng as [|l leng IH]; intros bits T HP Hr y Hy.
  - cbn [kraft12] in Hy. lia.
  - destruct bits as [|b bits]; [contradiction|].
    cbn [positions] in HP. destruct HP as (Hb & HT & HP').
    apply Forall_cons_iff in Hr. destruct Hr as [Hl Hr].
    cbn [kraft12] in Hy. cbn [combine].
    destruct (Z_lt_le_dec y (b * K l)) as [Hlt|Hge].
    + destruct (IH bits (T - K l) HP' Hr y ltac:(lia)) as (l' & b' & Hin & Hc).
      exists l', b'. split; [right; exact Hin|exact Hc].
    + exists l, b. split; [left; reflexivity|lia].
Qed.

Lemma in_combine_code : forall (code leng bits : list Z) (l b : Z),
  length leng = length code -> length bits = length code ->
  In (l, b) (combine leng bits) ->
  exists i, In (i, (l, b)) (combine code (combine leng bits)).
Proof.
  induction code as [|c code IH]; intros leng bits l b H1 H2 Hin.
  - destruct leng; [contradiction|discriminate].
  - destruct leng as [|l0 leng]; [discriminate|].
    destruct bits as [|b0 bits]; [discriminate|].
    cbn [length] in H1, H2. cbn [combine] in *.
    destruct Hin as [E|Hin].
    + exists c. left. rewrite E. reflexivity.
    + destruct (IH leng bits l b ltac:(lia) ltac:(lia) Hin) as (i & Hi).
      exists i. right. exact Hi.
Qed.

(** The cell [x] of the decoder table of a codec with at least two symbols. *)
Lemma parts_lookup_total v partial e code leng bits x :
  lookup v = (fun _ => None) ->
  codec_parts v partial e code leng bits ->
  (forall i, 0 <= i < 256 -> 0 <= hist v i < 2 ^ 52) ->
  (2 <= length code)%nat -> 0 <= x < 65536 ->
  exists i, 0 <= i < 256 /\
            0 < codelens (codec_of v partial e code leng bits) i /\
            lookup (codec_of v partial e code leng bits) x = Some i.
Proof.
  intros Hlk P Hh H2 Hx.
  destruct (parts_positions _ _ _ _ _ _ P Hh) as [Hk Hp].
  { intro E. rewrite E in H2. cbn in H2. lia. }
  destruct (parts_sound _ _ _ _ _ _ Hlk P Hh) as [_ Hs].
  pose proof (cp_leng_range _ _ _ _ _ _ P) as Hr.
  assert (Hq : 0 <= x / 16 < 2 ^ 12).
  { split; [apply Z.div_pos; lia|]. apply Z.div_lt_upper_bound; lia. }
  destruct (positions_cover leng bits (2 ^ 12) Hp Hr (x / 16) ltac:(lia))
    as (l & b & Hin & Hc).
  destruct (in_combine_code code leng bits l b (cp_len_leng _ _ _ _ _ _ P)
              (cp_len_bits _ _ _ _ _ _ P) Hin) as (i & Hi).
  destruct (in_combine3_split u8 _ _ _ _ _ _ Hi) as [H3 H4].
  assert (Hl : 1 <= l <= 12).
  { pose proof (kraft_no_zero leng Hr ltac:(lia)) as Hnz.
    rewrite (cp_len_leng _ _ _ _ _ _ P) in Hnz. specialize (Hnz H2).
    rewrite Forall_forall in Hnz. apply Hnz.
    apply in_combine_l in Hin. exact Hin. }
  assert (Hi' : 0 <= i < 256).
  { apply (cp_range _ _ _ _ _ _ P). apply in_combine_l in Hi. exact Hi. }
  assert (El : codelens (codec_of v partial e code leng bits) i = l).
  { cbn [codec_of codelens].
    rewrite (scatter_in code (map u8 leng) _ i (u8 l) (cp_nodup _ _ _ _ _ _ P) H3).
    apply u8_small. lia. }
  assert (Eb : codebits (codec_of v partial e code leng bits) i = b).
  { cbn [codec_of codebits].
    apply (scatter_in code bits _ i b (cp_nodup _ _ _ _ _ _ P) H4). }
  exists i. split; [exact Hi'|]. split; [lia|].
  apply (Hs x i Hx). split; [exact Hi'|]. split; [lia|].
  rewrite El, Eb. apply shiftr_eq_range; [lia|].
  rewrite (K_16 l) by lia.
  pose proof (Z.div_mod x 16 ltac:(lia)) as Hdm.
  pose proof (Z.mod_pos_bound x 16 ltac:(lia)) as Hm.
  set (q := x / 16) in *. set (r := x mod 16) in *. set (k := K l) in *.
  nia.
Qed.

(** X15.  The decoder table after [vcCreateCodec].  For counts below
    [2^52] and at least two bytes taking part, every one of the 65536 cells
    of [lookup] is assigned, and it holds a byte that has a code. *)
Theorem decoder_table_total (v c : VGPcompressor) (partial : bool) (x : Z) :
  filled v ->
  (forall i, 0 <= i < 256 -> 0 <= hist v i < 2 ^ 52) ->
  vcCreateCodec v partial = Some c ->
  (exists i j, 0 <= i < 256 /\ 0 <= j < 256 /\ i <> j /\
               takes_part v partial c i /\ takes_part v partial c j) ->
  0 <= x < 65536 ->
  exists i, 0 <= i < 256 /\ 0 < codelens c i /\ lookup c x = Some i.
Proof.
  intros Hf Hh Hc (i & j & Hi & Hj & Hne & Hti & Htj) Hx.
  destruct (filled_state v Hf) as [_ Hlk].
  destruct (vcCreateCodec_inv _ _ _ Hc) as (_ & e & code & leng & bits & P & ->).
  apply (parts_lookup_total _ _ _ _ _ _ x Hlk P Hh); [|exact Hx].
  assert (Hm : forall y, 0 <= y < 256 ->
             takes_part v partial (codec_of v partial e code leng bits) y -> In y code).
  { intros y Hy Ht. apply (parts_members _ _ _ _ _ _ P y). split; [exact Hy|].
    unfold takes_part in Ht. cbn [codec_of esc_code] in Ht.
    destruct partial; [exact Ht|].
    destruct Ht as [H|[H _]]; [left; exact H|discriminate]. }
  apply (two_members code i j); auto.
Qed.

Lemma decoder_table_total_witness :
  filled v_ab /\
  (forall i, 0 <= i < 256 -> 0 <= hist v_ab i < 2 ^ 52) /\
  vcCreateCodec v_ab false = Some c_ab /\
  (exists i j, 0 <= i < 256 /\ 0 <= j < 256 /\ i <> j /\
               takes_part v_ab false c_ab i /\ takes_part v_ab false c_ab j) /\
  0 <= 12345 < 65536 /\
  exists i, 0 <= i < 256 /\ 0 < codelens c_ab i /\ lookup c_ab 12345 = Some i.
Proof.
  assert (H1 : filled v_ab) by apply filled_with_filled.
  assert (H2 : forall i, 0 <= i < 256 -> 0 <= hist v_ab i < 2 ^ 52).
  { intros i _. rewrite v_ab_hist.
    destruct (i =? 98); [|destruct (i =? 97)]; vm_compute; split; congruence. }
  assert (H3 : vcCreateCodec v_ab false = Some c_ab)
    by (apply codec_or_created; vm_compute; reflexivity).
  assert (H4 : exists i j, 0 <= i < 256 /\ 0 <= j < 256 /\ i <> j /\
               takes_part v_ab false c_ab i /\ takes_part v_ab false c_ab j).
  { exists 97, 98. split; [lia|]. split; [lia|]. split; [lia|].
    split; left; rewrite v_ab_hist; reflexivity. }
  assert (H5 : 0 <= 12345 < 65536) by lia.
  split; [exact H1|]. split; [exact H2|]. split; [exact H3|].
  split; [exact H4|]. split; [exact H5|].
  exact (decoder_table_total v_ab c_ab false 12345 H1 H2 H3 H4 H5).
Defined.

(** * Bit fields in a 64-bit word *)

Lemma pow2_pos n : 0 <= n -> 0 < 2 ^ n.
Proof. intro H. apply Z.pow_pos_nonneg; lia. Qed.

Lemma pow2_split a b : 0 <= a -> 0 <= b -> 2 ^ (a + b) = 2 ^ a * 2 ^ b.
Proof. intros. apply Z.pow_add_r; lia. Qed.

Lemma lor_disjoint m s r :
  0 <= s -> 0 <= r < 2 ^ s -> Z.lor (m * 2 ^ s) r = m * 2 ^ s + r.
Proof.
  intros Hs Hr.
  assert (E : Z.land (m * 2 ^ s) r = 0).
  { apply Z.bits_inj'. intros n Hn. rewrite Z.land_spec, Z.bits_0.
    destruct (Z_lt_le_dec n s) as [Hlt|Hge].
    - rewrite Z.mul_pow2_bits_low by lia. reflexivity.
    - rewrite <- (Z.mod_small r (2 ^ s)) by lia.
      rewrite Z.mod_pow2_bits_high by lia. apply andb_false_r. }
  rewrite <- Z.lxor_lor by exact E. symmetry. apply Z.add_nocarry_lxor. exact E.
Qed.

(** A word that holds the [n]-bit field [w] on top of the [s]-bit field [r],
    left-aligned: its top [n] bits, and what is left after a shift by [n]. *)
Lemma chunk n s w r :
  0 <= n -> 0 <= s -> n + s <= 64 -> 0 <= w < 2 ^ n -> 0 <= r < 2 ^ s ->
  0 <= (w * 2 ^ s + r) * 2 ^ (64 - (n + s)) < 2 ^ 64 /\
  Z.shiftr ((w * 2 ^ s + r) * 2 ^ (64 - (n + s))) (64 - n) = w /\
  u64 (Z.shiftl ((w * 2 ^ s + r) * 2 ^ (64 - (n + s))) n) = r * 2 ^ (64 - s).
Proof.
  intros Hn Hs Hns Hw Hr.
  pose proof (pow2_pos (64 - (n + s)) ltac:(lia)) as HP.
  pose proof (pow2_pos s Hs) as HS. pose proof (pow2_pos n Hn) as HN.
  assert (EQ : 2 ^ (64 - n) = 2 ^ s * 2 ^ (64 - (n + s))).
  { rewrite <- pow2_split by lia. f_equal. lia. }
  assert (E64 : 2 ^ 64 = 2 ^ (64 - n) * 2 ^ n).
  { rewrite <- pow2_split by lia. f_equal. lia. }
  assert (ES : 2 ^ (64 - s) = 2 ^ (64 - (n + s)) * 2 ^ n).
  { rewrite <- pow2_split by lia. f_equal. lia. }
  set (P := 2 ^ (64 - (n + s))) in *. set (S := 2 ^ s) in *. set (N := 2 ^ n) in *.
  set (Q := 2 ^ (64 - n)) in *.
  assert (HQ : 0 < Q) by (rewrite EQ; nia).
  assert (Hrp : 0 <= r * P < Q) by (rewrite EQ; nia).
  assert (Eic : (w * S + r) * P = w * Q + r * P) by (rewrite EQ; ring).
  split; [|split].
  - rewrite Eic, E64. nia.
  - rewrite Z.shiftr_div_pow2 by lia. fold Q. rewrite Eic.
    rewrite Z.div_add_l by lia. rewrite Z.div_small by lia. lia.
  - unfold u64. rewrite Z.shiftl_mul_pow2 by lia. fold N.
    rewrite ES. replace ((w * S + r) * P * N) with (r * (P * N) + w * 2 ^ 64).
    2:{ rewrite Eic, E64. ring. }
    rewrite Z.mod_add by lia. apply Z.mod_small.
    rewrite E64, EQ. nia.
Qed.

(** * The bits written for a short input *)

Lemma OCODE_short L C st m :
  0 < erem st - L -> erem st <= 64 -> 0 <= L -> 0 <= C < 2 ^ L ->
  ocode st = m * 2 ^ erem st ->
  OCODE L C st = mkEnc (ocode st + C * 2 ^ (erem st - L)) (erem st - L) (owords st).
Proof.
  intros Hr H64 HL HC Hm. unfold OCODE.
  destruct (erem st - L <=? 0) eqn:E; [apply Z.leb_le in E; lia|].
  f_equal.
  assert (EP : 2 ^ erem st = 2 ^ L * 2 ^ (erem st - L)).
  { rewrite <- pow2_split by lia. f_equal. lia. }
  pose proof (pow2_pos (erem st - L) ltac:(lia)) as HP.
  pose proof (pow2_pos L HL) as HLp.
  assert (Hsm : 0 <= C * 2 ^ (erem st - L) < 2 ^ erem st) by (rewrite EP; nia).
  assert (H2 : 2 ^ erem st <= 2 ^ 64) by (apply Z.pow_le_mono_r; lia).
  rewrite Z.shiftl_mul_pow2 by lia. rewrite u64_small by lia.
  rewrite Hm. apply lor_disjoint; lia.
Qed.

Lemma GET_refill_S f big buf st :
  GET_refill (S f) big buf st =
  if drem st <? 16 then
    let z := 64 - drem st in
    let ic := Z.lor (icode st) (Z.shiftr (ncode st) (drem st)) in
    if nem st >? z
    then Some (mkDec ic (u64 (Z.shiftl (ncode st) z)) 64 (nem st - z)
                     (dlen st) (dp st))
    else
      let rem := drem st + nem st in
      if rem >=? dlen st
      then Some (mkDec ic (ncode st) rem (nem st) (dlen st) (dp st))
      else if dlen st - rem <? 64
      then
        let nem' := dlen st - rem in
        GET_refill f big buf
          (mkDec ic (gather 8 buf (dp st) 0 nem' 0) rem nem' (dlen st) (dp st))
      else
        GET_refill f big buf
          (mkDec ic (bytes_word big (rd_range buf (dp st) 8)) rem 64
                 (dlen st) (dp st + 8))
  else Some st.
Proof. reflexivity. Qed.

Section ShortStream.

Variables c d : VGPcompressor.
Hypothesis Hlens : forall i, 0 <= codelens c i <= 12.
Hypothesis Hbits : forall i, 0 <= i < 256 -> 0 <= codebits c i < 2 ^ codelens c i.
Hypothesis Hspec : lookup_spec c.
Hypothesis Hesc : 0 <= esc_code c < 256 -> 0 < codelens c (esc_code c).
Hypothesis Hsame : same_codec c d.

Lemma byte_cost_enc b :
  encodable c b ->
  byte_cost c b = if codelens c (u8 b) =? 0 then 8 + codelens c (esc_code c)
                  else codelens c (u8 b).
Proof.
  intro He. unfold byte_cost. destruct (codelens c (u8 b) =? 0) eqn:E; [|reflexivity].
  apply Z.eqb_eq in E. rewrite esc_len_byte by (apply He; exact E). reflexivity.
Qed.

Lemma byte_word_enc b :
  encodable c b ->
  byte_word c b = if codelens c (u8 b) =? 0
                  then codebits c (esc_code c) * 2 ^ 8 + u8 b
                  else codebits c (u8 b).
Proof.
  intro He. unfold byte_word. destruct (codelens c (u8 b) =? 0) eqn:E; [|reflexivity].
  apply Z.eqb_eq in E. rewrite esc_bits_byte by (apply He; exact E). reflexivity.
Qed.

Lemma byte_cost_pos b : encodable c b -> 1 <= byte_cost c b <= 20.
Proof.
  intro He. rewrite (byte_cost_enc b He). pose proof (Hlens (u8 b)).
  destruct (codelens c (u8 b) =? 0) eqn:E.
  - apply Z.eqb_eq in E. pose proof (Hlens (esc_code c)). lia.
  - apply Z.eqb_neq in E. lia.
Qed.

Lemma byte_word_range b :
  encodable c b -> 0 <= byte_word c b < 2 ^ byte_cost c b.
Proof.
  intro He. rewrite (byte_word_enc b He), (byte_cost_enc b He).
  pose proof (Hlens (u8 b)) as Hl.
  pose proof (u8_byte b) as Hb. unfold is_byte in Hb.
  destruct (codelens c (u8 b) =? 0) eqn:E.
  - apply Z.eqb_eq in E. specialize (He E).
    pose proof (Hbits _ He) as HC. pose proof (Hlens (esc_code c)) as Hle.
    rewrite pow2_split by lia. change (2 ^ 8) with 256. lia.
  - apply Hbits. exact Hb.
Qed.

Lemma sum_cost_range x : Forall (encodable c) x -> 0 <= sum_cost c x.
Proof.
  induction 1 as [|b x Hb _ IH]; cbn [sum_cost]; [lia|].
  pose proof (byte_cost_pos b Hb). lia.
Qed.

Lemma stream_value_range x :
  Forall (encodable c) x -> 0 <= stream_value c x < 2 ^ sum_cost c x.
Proof.
  induction 1 as [|b x Hb Hx IH]; cbn [stream_value sum_cost].
  - change (2 ^ 0) with 1. lia.
  - pose proof (byte_word_range b Hb) as Hw.
    pose proof (byte_cost_pos b Hb) as Hc.
    pose proof (sum_cost_range x Hx) as Hs.
    rewrite pow2_split by lia.
    pose proof (pow2_pos (sum_cost c x) Hs). nia.
Qed.

(** The table cell selected by a word whose top bits are the code of [i]. *)
Lemma lookup_top ic i :
  0 <= ic < 2 ^ 64 -> 0 <= i < 256 -> 0 < codelens c i ->
  Z.shiftr ic (64 - codelens c i) = codebits c i ->
  lookup d (Z.shiftr ic 48) = Some i.
Proof.
  intros Hic Hi Hl Htop. destruct Hsame as (_ & _ & Hlk). rewrite Hlk.
  pose proof (Hlens i) as Hli.
  apply Hspec.
  - rewrite Z.shiftr_div_pow2 by lia. split; [apply Z.div_pos; lia|].
    apply Z.div_lt_upper_bound; [lia|]. change (2 ^ 48 * 65536) with (2 ^ 64). lia.
  - split; [exact Hi|]. split; [exact Hl|].
    rewrite Z.shiftr_shiftr by lia.
    replace (48 + (16 - codelens c i)) with (64 - codelens c i) by lia. exact Htop.
Qed.

End ShortStream.

Lemma decode_loop_S f schar v buf st :
  decode_loop (S f) schar v buf st =
  if 0 <? dlen st then
    match decode_step schar v buf st with
    | None => None
    | Some (st', b) => option_map (cons b) (decode_loop f schar v buf st')
    end
  else Some [].
Proof. reflexivity. Qed.

(** Where the decoder indexes [lens] inside the table: every symbol when
    plain char is unsigned, the symbols below 128 when it is signed. *)
Lemma lens_char_safe schar v s :
  0 <= s < 256 -> (schar = true -> s < 128) -> lens_char schar v s = codelens v s.
Proof.
  intros Hs Hsafe. unfold lens_char.
  assert (E : char_index schar s = s).
  { unfold char_index. rewrite u8_small by lia.
    destruct schar; cbn [andb]; [|reflexivity].
    assert (E : (128 <=? s) = false) by (apply Z.leb_gt; apply Hsafe; reflexivity).
    rewrite E. reflexivity. }
  rewrite E.
  assert (E0 : (s <? 0) = false) by (apply Z.ltb_ge; lia).
  rewrite E0. reflexivity.
Qed.

(** * The bytes of a short stream *)

Lemma be_value_app : forall l1 l2,
  be_value (l1 ++ l2) = be_value l1 * 2 ^ (8 * Z.of_nat (length l2)) + be_value l2.
Proof.
  induction l1 as [|b l1 IH]; intro l2; cbn [app be_value]; [lia|].
  rewrite IH, length_app, Nat2Z.inj_add.
  replace (8 * (Z.of_nat (length l1) + Z.of_nat (length l2)))
    with (8 * Z.of_nat (length l1) + 8 * Z.of_nat (length l2)) by lia.
  rewrite pow2_split by lia. ring.
Qed.

Lemma gather_S n buf off k nbits w :
  gather (S n) buf off k nbits w =
  if k <? nbits
  then gather n buf (S off) (k + 8) nbits
              (Z.lor w (u64 (Z.shiftl (rd buf off) (56 - k))))
  else w.
Proof. reflexivity. Qed.

(** The loop that gathers the bytes of a partial word, on a buffer that
    holds the bytes [bs] at the cursor: they are placed below the [kk] bits
    already in [w]. *)
Lemma gather_bytes : forall bs n pre suf kk nbits w m,
  Forall is_byte bs -> (length bs <= n)%nat ->
  0 <= kk -> kk + 8 * Z.of_nat (length bs) <= 64 ->
  (bs <> [] -> kk + 8 * (Z.of_nat (length bs) - 1) < nbits) ->
  nbits <= kk + 8 * Z.of_nat (length bs) ->
  w = m * 2 ^ (64 - kk) ->
  gather n (pre ++ bs ++ suf) (length pre) kk nbits w
  = w + be_value bs * 2 ^ (64 - kk - 8 * Z.of_nat (length bs)).
Proof.
  induction bs as [|b bs IH]; intros n pre suf kk nbits w m Hb Hn Hk H64 Hlo Hhi Hw.
  - cbn [length be_value] in *.
    destruct n as [|n]; [cbn [gather]; lia|].
    rewrite gather_S.
    destruct (kk <? nbits) eqn:E; [apply Z.ltb_lt in E; lia|lia].
  - apply Forall_cons_iff in Hb. destruct Hb as [Hb Hbs].
    cbn [length] in *. rewrite Nat2Z.inj_succ in *.
    destruct n as [|n]; [lia|].
    rewrite gather_S.
    assert (E : (kk <? nbits) = true).
    { apply Z.ltb_lt. specialize (Hlo ltac:(discriminate)). lia. }
    rewrite E. specialize (Hlo ltac:(discriminate)).
    assert (Erd : rd (pre ++ (b :: bs) ++ suf) (length pre) = b).
    { unfold rd. cbn [app]. apply nth_middle. }
    rewrite Erd.
    pose proof (pow2_pos (56 - kk) ltac:(lia)) as HP.
    assert (E8 : 2 ^ (64 - kk) = 2 ^ 8 * 2 ^ (56 - kk)).
    { rewrite <- pow2_split by lia. f_equal. lia. }
    assert (Hsm : 0 <= b * 2 ^ (56 - kk) < 2 ^ (64 - kk)).
    { rewrite E8. change (2 ^ 8) with 256. unfold is_byte in Hb. nia. }
    assert (H2 : 2 ^ (64 - kk) <= 2 ^ 64) by (apply Z.pow_le_mono_r; lia).
    rewrite Z.shiftl_mul_pow2 by lia. rewrite u64_small by lia.
    rewrite Hw. rewrite lor_disjoint by lia.
    replace (pre ++ (b :: bs) ++ suf) with ((pre ++ [b]) ++ bs ++ suf)
      by (rewrite <- app_assoc; reflexivity).
    replace (S (length pre)) with (length (pre ++ [b]))
      by (rewrite length_app; cbn [length]; lia).
    rewrite (IH n (pre ++ [b]) suf (kk + 8) nbits _ (m * 2 ^ 8 + b)); auto; try lia.
    + cbn [be_value].
      replace (64 - (kk + 8) - 8 * Z.of_nat (length bs))
        with (64 - kk - 8 * Z.succ (Z.of_nat (length bs))) by lia.
      replace (56 - kk)
        with (8 * Z.of_nat (length bs) + (64 - kk - 8 * Z.succ (Z.of_nat (length bs))))
        by lia.
      rewrite (pow2_split (8 * Z.of_nat (length bs))) by lia. ring.
    + replace (64 - (kk + 8)) with (56 - kk) by lia. rewrite E8. ring.
Qed.

Lemma be_bytes_8 w :
  be_bytes 8 w =
  [u8 (Z.shiftr w 56); u8 (Z.shiftr w 48); u8 (Z.shiftr w 40); u8 (Z.shiftr w 32);
   u8 (Z.shiftr w 24); u8 (Z.shiftr w 16); u8 (Z.shiftr w 8); u8 (Z.shiftr w 0)].
Proof. reflexivity. Qed.

(** The bytes of the partly filled last word are the leading bytes of
    [ocode], most significant first, on a host of either byte order. *)
Lemma tail_bytes_firstn big w rem :
  1 <= rem <= 64 ->
  tail_bytes big w rem = firstn (Z.to_nat ((71 - rem) / 8)) (be_bytes 8 w).
Proof.
  intro Hr. unfold tail_bytes, bcode, word_bytes.
  rewrite !Z.shiftr_div_pow2 by lia. change (2 ^ 3) with 8.
  assert (E : (63 - rem) / 8 = (71 - rem) / 8 - 1).
  { replace (71 - rem) with (63 - rem + 1 * 8) by lia.
    rewrite Z.div_add by lia. lia. }
  rewrite E.
  assert (H0 : 0 <= (71 - rem) / 8 < 9).
  { split; [apply Z.div_pos; lia|apply Z.div_lt_upper_bound; lia]. }
  set (q := (71 - rem) / 8) in *.
  rewrite be_bytes_8.
  generalize (u8 (Z.shiftr w 56)) (u8 (Z.shiftr w 48)) (u8 (Z.shiftr w 40))
             (u8 (Z.shiftr w 32)) (u8 (Z.shiftr w 24)) (u8 (Z.shiftr w 16))
             (u8 (Z.shiftr w 8)) (u8 (Z.shiftr w 0)).
  intros b0 b1 b2 b3 b4 b5 b6 b7.
  assert (Eq : q = 0 \/ q = 1 \/ q = 2 \/ q = 3 \/ q = 4 \/ q = 5 \/ q = 6
               \/ q = 7 \/ q = 8) by lia.
  clearbody q.
  destruct Eq as [->|[->|[->|[->|[->|[->|[->|[->| ->]]]]]]]];
    destruct big; reflexivity.
Qed.

(** Reading back the bytes written for fewer than 64 bits gives [ocode]. *)
Lemma gather_tail big oc t m :
  2 <= t < 64 -> oc = m * 2 ^ (64 - t) -> 0 <= oc < 2 ^ 63 ->
  gather 8 (tail_bytes big oc (64 - t)) 0 0 t 0 = oc /\
  0 <= rd (tail_bytes big oc (64 - t)) 0 < 128.
Proof.
  intros Ht Hm Hoc.
  rewrite tail_bytes_firstn by lia.
  replace (71 - (64 - t)) with (t + 7) by lia.
  assert (Hq : 1 <= (t + 7) / 8 <= 8).
  { split; [apply Z.div_le_lower_bound; lia|].
    assert ((t + 7) / 8 < 9) by (apply Z.div_lt_upper_bound; lia). lia. }
  pose proof (Z.div_mod (t + 7) 8 ltac:(lia)) as Hdm.
  pose proof (Z.mod_pos_bound (t + 7) 8 ltac:(lia)) as Hmb.
  set (q := (t + 7) / 8) in *.
  set (B := be_bytes 8 oc).
  assert (HB : Forall is_byte B) by apply be_bytes_bytes.
  assert (LB : length B = 8%nat) by apply length_be_bytes.
  assert (Lf : length (firstn (Z.to_nat q) B) = Z.to_nat q).
  { rewrite length_firstn, LB. lia. }
  assert (Ls : length (skipn (Z.to_nat q) B) = (8 - Z.to_nat q)%nat).
  { rewrite length_skipn, LB. reflexivity. }
  assert (Hfs : Forall is_byte (firstn (Z.to_nat q) B)
                /\ Forall is_byte (skipn (Z.to_nat q) B)).
  { apply Forall_app. rewrite firstn_skipn. exact HB. }
  destruct Hfs as [Hf Hs].
  split.
  - pose proof (gather_bytes (firstn (Z.to_nat q) B) 8 [] [] 0 t 0 0 Hf) as G.
    rewrite Lf in G. cbn [app length] in G. rewrite app_nil_r in G.
    rewrite Z2Nat.id in G by lia.
    rewrite G; try lia.
    + assert (EB : be_value B = oc).
      { unfold B. rewrite be_value_be_bytes. apply Z.mod_small.
        change (2 ^ (8 * Z.of_nat 8)) with (2 ^ 64).
        assert (2 ^ 63 < 2 ^ 64) by (apply Z.pow_lt_mono_r; lia). lia. }
      rewrite <- (firstn_skipn (Z.to_nat q) B) in EB.
      rewrite be_value_app in EB. rewrite Ls in EB.
      replace (8 * Z.of_nat (8 - Z.to_nat q)) with (64 - 8 * q) in EB by lia.
      pose proof (be_value_range _ Hs) as Rs. rewrite Ls in Rs.
      replace (8 * Z.of_nat (8 - Z.to_nat q)) with (64 - 8 * q) in Rs by lia.
      pose proof (be_value_range _ Hf) as Rf.
      replace (64 - 0 - 8 * q) with (64 - 8 * q) by lia.
      assert (Em : oc = (m * 2 ^ (8 * q - t)) * 2 ^ (64 - 8 * q)).
      { rewrite Hm. rewrite <- Z.mul_assoc. rewrite <- pow2_split by lia.
        f_equal. f_equal. lia. }
      pose proof (pow2_pos (64 - 8 * q) ltac:(lia)) as HP.
      set (P := 2 ^ (64 - 8 * q)) in *.
      set (X := be_value (firstn (Z.to_nat q) B)) in *.
      set (Y := be_value (skipn (Z.to_nat q) B)) in *.
      set (M := m * 2 ^ (8 * q - t)) in *.
      assert (Y = (M - X) * P) by lia.
      assert (M - X = 0) by nia. nia.
  - unfold rd. unfold B. rewrite be_bytes_8.
    destruct (Z.to_nat q) as [|k] eqn:Ek; [lia|].
    cbn [firstn nth].
    assert (Hsh : 0 <= Z.shiftr oc 56 < 128).
    { rewrite Z.shiftr_div_pow2 by lia. split; [apply Z.div_pos; lia|].
      apply Z.div_lt_upper_bound; [lia|]. change (2 ^ 56 * 128) with (2 ^ 63). lia. }
    rewrite u8_small by lia. exact Hsh.
Qed.

(** [vcDecode] on a compressed stream of fewer than 64 bits. *)
Lemma vcDecode_short schar d buf t :
  is_coded (state d) = true -> 2 <= t < 64 -> rd buf 0 <> 255 ->
  vcDecode schar (Owned d) t buf
  = decode_loop (64 * Z.to_nat t + 64) schar d buf
      (mkDec (u64 (Z.shiftl (gather 8 buf 0 0 t 0) 2)) 0 (t - 2) 0 (t - 2) 0).
Proof.
  intros Hs Ht Hff. unfold vcDecode. rewrite Hs.
  assert (E1 : (rd buf 0 =? 255) = false) by (apply Z.eqb_neq; exact Hff).
  rewrite E1. cbv zeta.
  assert (E2 : (64 <=? t) = false) by (apply Z.leb_gt; lia).
  rewrite E2, andb_false_r.
  assert (E3 : Z.to_nat (t / 64) = 0%nat) by (rewrite Z.div_small by lia; reflexivity).
  rewrite E3. cbn [flip_words].
  assert (E4 : (t <? 64) = true) by (apply Z.ltb_lt; lia).
  assert (E5 : (62 >? t - 2) = true) by (apply Z.gtb_lt; lia).
  destruct (Z.land (rd buf 0) 64 =? big_flag (isbig d)); rewrite E4, E5; reflexivity.
Qed.

(** * Codecs built from counts below 2^52 *)

Lemma K_pow l : 0 <= l <= 12 -> 2 ^ l * K l = 2 ^ 12.
Proof.
  intro H. unfold K, HUFF_CUTOFF. rewrite <- pow2_split by lia. f_equal. lia.
Qed.

Lemma tiled_bits_range lens bitv i :
  tiled lens bitv -> 0 <= i < 256 -> 0 < lens i -> 0 <= bitv i < 2 ^ lens i.
Proof.
  intros [Ht _] Hi Hl. destruct (Ht i Hi Hl) as (H1 & H2 & H3).
  pose proof (K_pow (lens i) ltac:(lia)) as HK.
  pose proof (K_pos (lens i) ltac:(lia)) as HKp.
  pose proof (pow2_pos (lens i) ltac:(lia)) as HP.
  split; [exact H2|]. nia.
Qed.

(** The facts about a codec built from counts below [2^52] that the round
    trip rests on. *)
Lemma created_sound v partial c :
  filled v -> (forall i, 0 <= i < 256 -> 0 <= hist v i < 2 ^ 52) ->
  vcCreateCodec v partial = Some c ->
  (forall i, 0 <= codelens c i <= 12) /\
  (forall i, 0 <= i < 256 -> 0 <= codebits c i < 2 ^ codelens c i) /\
  lookup_spec c /\
  ((forall i, codelens c i = 0) \/
   (0 <= esc_code c < 256 -> 0 < codelens c (esc_code c))).
Proof.
  intros Hf Hh Hc. destruct (filled_state v Hf) as [_ Hlk].
  pose proof (created_lens v partial c Hc) as Hlens.
  destruct (vcCreateCodec_inv _ _ _ Hc) as (_ & e & code & leng & bits & P & E).
  destruct (parts_sound _ _ _ _ _ _ Hlk P Hh) as [Ht Hs].
  pose proof (codec_of_wf _ _ _ _ _ _ Hlk P) as Hwf.
  rewrite <- E in Ht, Hs, Hwf.
  split; [exact Hlens|]. split; [|split; [exact Hs|]].
  - intros i Hi. pose proof (Hlens i) as Hl.
    destruct (Z.eq_dec (codelens c i) 0) as [E0|E0].
    + rewrite (wf_zero c Hwf i E0), E0. change (2 ^ 0) with 1. lia.
    + apply tiled_bits_range; [exact Ht|exact Hi|lia].
  - pose proof (cp_ncode _ _ _ _ _ _ P) as Hn.
    destruct (Nat.eq_dec (length code) 0) as [H0|H0].
    { left. intro i. destruct code; [|discriminate H0].
      rewrite E. reflexivity. }
    destruct (Nat.eq_dec (length code) 1) as [H1|H1].
    + left. intro i.
      destruct code as [|a [|a' code']]; try discriminate.
      assert (Hl : leng = [0]).
      { rewrite (cp_leng _ _ _ _ _ _ P). apply code_lengths_single. }
      rewrite E, Hl. cbn [codec_of codelens map scatter]. unfold upd.
      destruct (i =? a); reflexivity.
    + right. intro He. rewrite E in *. cbn [codec_of esc_code] in *.
      destruct partial; [|lia].
      assert (Hin : In e code).
      { apply (parts_members _ _ _ _ _ _ P e). split; [exact He|]. right. auto. }
      pose proof (parts_codelens_pos _ _ _ _ _ _ e P ltac:(lia) Hin). lia.
Qed.

Lemma length_le_cost c :
  (forall i, 0 <= codelens c i <= 12) ->
  forall x, Forall (encodable c) x -> Z.of_nat (length x) <= sum_cost c x.
Proof.
  intro Hl. induction 1 as [|b x Hb _ IH]; cbn [length sum_cost]; [lia|].
  pose proof (byte_cost_pos c Hl b Hb). lia.
Qed.

Lemma sum_cost_all_zero c :
  (forall i, codelens c i = 0) ->
  forall x, Forall (encodable c) x -> sum_cost c x = 8 * Z.of_nat (length x).
Proof.
  intro Hz. induction 1 as [|b x Hb _ IH]; cbn [sum_cost length]; [reflexivity|].
  unfold byte_cost. rewrite Hz. cbn [Z.eqb].
  rewrite esc_len_byte by (apply Hb; apply Hz). rewrite Hz. lia.
Qed.

Lemma same_codec_refl c : same_codec c c.
Proof. unfold same_codec. auto. Qed.

(** * Frequent bytes have short codes *)

Lemma sorted_head_min (h : Z -> Z) a l :
  Sorted (fun x y => h x <= h y) (a :: l) -> forall y, In y l -> h a <= h y.
Proof.
  intros Hs.
  assert (Ht : StronglySorted (fun x y => h x <= h y) (a :: l)).
  { apply Sorted_StronglySorted; [|exact Hs]. intros x y z. lia. }
  apply StronglySorted_inv in Ht. destruct Ht as [_ Hall].
  rewrite Forall_forall in Hall. exact Hall.
Qed.

(** In a list of symbols in ascending count order with lengths in
    descending order, a larger count goes with a length that is not
    larger. *)
Lemma sorted_desc_lengths (h : Z -> Z) : forall code leng i j li lj,
  Sorted (fun x y => h x <= h y) code -> desc leng ->
  In (i, li) (combine code leng) -> In (j, lj) (combine code leng) ->
  h i < h j -> lj <= li.
Proof.
  induction code as [|a code IH]; intros leng i j li lj Hs Hd Hi Hj Hlt.
  - contradiction.
  - destruct leng as [|l leng]; [contradiction|].
    pose proof (sorted_head_min h a code Hs) as Hmin.
    pose proof (desc_head_max l leng Hd) as Hmax. rewrite Forall_forall in Hmax.
    assert (Hs' : Sorted (fun x y => h x <= h y) code)
      by (apply Sorted_inv in Hs; tauto).
    assert (Hd' : desc leng) by (cbn [desc] in Hd; tauto).
    cbn [combine In] in Hi, Hj.
    destruct Hi as [Ei|Hi]; destruct Hj as [Ej|Hj].
    + inversion Ei; inversion Ej; subst. lia.
    + inversion Ei; subst. apply Hmax. apply in_combine_r in Hj. exact Hj.
    + inversion Ej; subst. apply in_combine_l in Hi. specialize (Hmin i Hi). lia.
    + apply (IH leng i j li lj); assumption.
Qed.

Lemma parts_entry v partial e code leng bits i :
  codec_parts v partial e code leng bits -> In i code ->
  exists l, In (i, l) (combine code leng) /\
            codelens (codec_of v partial e code leng bits) i = l.
Proof.
  intros P Hin.
  destruct (in_combine3 code leng bits i (cp_len_leng _ _ _ _ _ _ P)
              (cp_len_bits _ _ _ _ _ _ P) Hin) as (l & b & HE).
  destruct (in_combine3_split u8 _ _ _ _ _ _ HE) as [H1 _].
  exists l. split.
  - clear -HE. revert leng bits HE.
    induction code as [|a code IH]; intros leng bits HE; [contradiction|].
    destruct leng as [|l0 leng]; [contradiction|].
    destruct bits as [|b0 bits]; [contradiction|].
    cbn [combine In] in *. destruct HE as [E|HE].
    + left. inversion E; reflexivity.
    + right. apply (IH leng bits). exact HE.
  - cbn [codec_of codelens].
    rewrite (scatter_in code (map u8 leng) _ i (u8 l) (cp_nodup _ _ _ _ _ _ P) H1).
    pose proof (cp_leng_range _ _ _ _ _ _ P) as Hall. rewrite Forall_forall in Hall.
    apply u8_small. apply in_combine_r in HE. apply in_combine_l in HE.
    specialize (Hall l HE). lia.
Qed.

(** X17.  Frequent bytes have short codes.  When every count is below
    [2^31], of two bytes that take part in the codec the one with the
    larger count has a code that is not longer; in particular no code is
    longer than that of the escape byte, whose count is zero. *)
Theorem frequent_bytes_shorter_codes
        (v c : VGPcompressor) (partial : bool) (i j : Z) :
  filled v ->
  (forall k, 0 <= k < 256 -> hist v k < 2 ^ 31) ->
  vcCreateCodec v partial = Some c ->
  0 <= i < 256 -> 0 <= j < 256 ->
  takes_part v partial c i -> takes_part v partial c j ->
  hist v i < hist v j ->
  codelens c j <= codelens c i.
Proof.
  intros Hf Hh Hc Hi Hj Hti Htj Hlt.
  destruct (vcCreateCodec_inv _ _ _ Hc) as (_ & e & code & leng & bits & P & ->).
  assert (Hm : forall y, 0 <= y < 256 ->
             takes_part v partial (codec_of v partial e code leng bits) y -> In y code).
  { intros y Hy Ht. apply (parts_members _ _ _ _ _ _ P y). split; [exact Hy|].
    unfold takes_part in Ht. cbn [codec_of esc_code] in Ht.
    destruct partial; [exact Ht|].
    destruct Ht as [H|[H _]]; [left; exact H|discriminate]. }
  destruct (parts_entry _ _ _ _ _ _ i P (Hm i Hi Hti)) as (li & Hli & ->).
  destruct (parts_entry _ _ _ _ _ _ j P (Hm j Hj Htj)) as (lj & Hlj & ->).
  destruct (cp_collect _ _ _ _ _ _ P) as (code0 & Hcol & Hq).
  apply (sorted_desc_lengths (hist v) code leng i j li lj); auto.
  - rewrite Hq. apply qsort_sorted.
    destruct (collect_members _ _ _ _ Hcol) as [Hmem _].
    intros a b Ha Hb. apply Hmem in Ha. apply Hmem in Hb.
    pose proof (filled_hist_range v Hf a). pose proof (filled_hist_range v Hf b).
    rewrite HSORT_small; [lia| |].
    + split; [lia|apply Hh; tauto].
    + split; [lia|apply Hh; tauto].
  - rewrite (cp_leng _ _ _ _ _ _ P). apply code_lengths_desc.
Qed.

Lemma frequent_bytes_shorter_codes_witness :
  filled v_ab /\
  (forall k, 0 <= k < 256 -> hist v_ab k < 2 ^ 31) /\
  vcCreateCodec v_ab true = Some c_ab_esc /\
  0 <= 0 < 256 /\ 0 <= 97 < 256 /\
  takes_part v_ab true c_ab_esc 0 /\ takes_part v_ab true c_ab_esc 97 /\
  hist v_ab 0 < hist v_ab 97 /\
  codelens c_ab_esc 97 <= codelens c_ab_esc 0.
Proof.
  assert (H1 : filled v_ab) by apply filled_with_filled.
  assert (H2 : forall k, 0 <= k < 256 -> hist v_ab k < 2 ^ 31).
  { intros k _. rewrite v_ab_hist.
    destruct (k =? 98); [|destruct (k =? 97)]; vm_compute; congruence. }
  assert (H3 : vcCreateCodec v_ab true = Some c_ab_esc)
    by (apply codec_or_created; vm_compute; reflexivity).
  assert (H4 : 0 <= 0 < 256) by lia.
  assert (H5 : 0 <= 97 < 256) by lia.
  assert (H6 : takes_part v_ab true c_ab_esc 0).
  { right. split; [reflexivity|]. vm_compute. reflexivity. }
  assert (H7 : takes_part v_ab true c_ab_esc 97).
  { left. rewrite v_ab_hist. reflexivity. }
  assert (H8 : hist v_ab 0 < hist v_ab 97).
  { rewrite !v_ab_hist. reflexivity. }
  split; [exact H1|]. split; [exact H2|]. split; [exact H3|]. split; [exact H4|].
  split; [exact H5|]. split; [exact H6|]. split; [exact H7|]. split; [exact H8|].
  exact (frequent_bytes_shorter_codes v_ab c_ab_esc true 0 97 H1 H2 H3 H4 H5 H6 H7 H8).
Defined.

(** * The first byte of the encoder's output *)

Lemma OCODE_head L C st :
  head_inv st -> 0 <= L -> 0 <= C < 2 ^ L -> head_inv (OCODE L C st).
Proof.
  intros Hh HL HC. unfold head_inv in *.
  destruct (owords st) as [|F ws] eqn:Ew.
  - destruct Hh as (Hr & m & Hm & Ho).
    destruct (Z_lt_le_dec 0 (erem st - L)) as [Hpos|Hneg].
    + rewrite (OCODE_short L C st m) by (auto; lia).
      cbn [owords erem ocode]. rewrite Ew. split; [lia|].
      exists (m * 2 ^ L + C). split.
      * replace (63 - (erem st - L)) with (63 - erem st + L) by lia.
        rewrite pow2_split by lia.
        pose proof (pow2_pos L HL). nia.
      * rewrite Ho. replace (erem st) with (L + (erem st - L)) at 1 by lia.
        rewrite pow2_split by lia. ring.
    + unfold OCODE.
      assert (E1 : (erem st - L <=? 0) = true) by (apply Z.leb_le; lia).
      rewrite E1.
      assert (Hw : 0 <= Z.lor (ocode st) (Z.shiftr C (- (erem st - L))) < 2 ^ 63).
      { rewrite Z.shiftr_div_pow2 by lia.
        replace (- (erem st - L)) with (L - erem st) by lia.
        pose proof (pow2_pos (L - erem st) ltac:(lia)) as HP.
        pose proof (pow2_pos (erem st) ltac:(lia)) as HE.
        assert (EL : 2 ^ L = 2 ^ erem st * 2 ^ (L - erem st)).
        { rewrite <- pow2_split by lia. f_equal. lia. }
        assert (Hq : 0 <= C / 2 ^ (L - erem st) < 2 ^ erem st).
        { split; [apply Z.div_pos; lia|].
          apply Z.div_lt_upper_bound; [lia|]. rewrite Z.mul_comm, <- EL. lia. }
        rewrite Ho. rewrite lor_disjoint by lia.
        assert (E63 : 2 ^ 63 = 2 ^ (63 - erem st) * 2 ^ erem st).
        { rewrite <- pow2_split by lia. f_equal. lia. }
        rewrite E63. nia. }
      destruct (erem st - L <? 0); cbn [owords]; rewrite Ew; cbn [app]; exact Hw.
  - unfold OCODE.
    destruct (erem st - L <=? 0); [|cbn [owords]; rewrite Ew; exact Hh].
    destruct (erem st - L <? 0); cbn [owords]; rewrite Ew; cbn [app]; exact Hh.
Qed.

Lemma encode_loop_head v ibits :
  (forall i, 0 <= i < 256 -> 0 <= codelens v i) ->
  (forall i, 0 <= i < 256 -> 0 <= codebits v i < 2 ^ codelens v i) ->
  forall x st t st' t',
    Forall (encodable v) x ->
    head_inv st ->
    encode_loop v ibits x st t = Some (EncDone st' t') ->
    head_inv st'.
Proof.
  intros Hl Hb. induction x as [|b x IH]; intros st t st' t' Hx Hi H.
  - cbn [encode_loop] in H. inversion H; subst. exact Hi.
  - apply Forall_cons_iff in Hx. destruct Hx as [Henc Hx].
    cbn [encode_loop] in H.
    pose proof (u8_byte b) as Hu. unfold is_byte in Hu.
    destruct (codelens v (u8 b) =? 0) eqn:E0.
    + apply Z.eqb_eq in E0. specialize (Henc E0).
      destruct ((-1 <=? esc_code v) && (esc_code v <? 256)); [|discriminate].
      rewrite (esc_len_byte v Henc), (esc_bits_byte v Henc) in H.
      destruct (_ >? ibits); [discriminate|].
      apply IH in H; [exact H|exact Hx|].
      apply OCODE_head; [|lia|change (2 ^ 8) with 256; lia].
      apply OCODE_head; [exact Hi|apply Hl; lia|apply Hb; lia].
    + destruct (_ >? ibits); [discriminate|].
      apply IH in H; [exact H|exact Hx|].
      apply OCODE_head; [exact Hi|apply Hl; exact Hu|apply Hb; exact Hu].
Qed.

Lemma top_byte_small w : 0 <= w < 2 ^ 63 -> 0 <= u8 (Z.shiftr w 56) < 128.
Proof.
  intro Hw.
  assert (Hsh : 0 <= Z.shiftr w 56 < 128).
  { rewrite Z.shiftr_div_pow2 by lia. split; [apply Z.div_pos; lia|].
    apply Z.div_lt_upper_bound; [lia|]. change (2 ^ 56 * 128) with (2 ^ 63). lia. }
  rewrite u8_small by lia. exact Hsh.
Qed.

Lemma low_byte_shifted w : u8 (Z.shiftr (u64 (Z.shiftl w 2)) 0) <> 255.
Proof.
  rewrite Z.shiftr_0_r. unfold u8, u64.
  rewrite Z.mod_mod_divide by (exists (2 ^ 56); reflexivity).
  rewrite Z.shiftl_mul_pow2 by lia. change (2 ^ 2) with 4. change (2 ^ 8) with (4 * 64).
  rewrite (Z.mul_comm w 4). rewrite Z.mul_mod_distr_l by lia. lia.
Qed.

(** X18.  The fallback marker is unambiguous.  Take a codec built by
    [vcCreateCodec] from counts below [2^52] and an input of fewer than
    [2^28 - 32] bytes (so that no bit count leaves the range of [int]), each
    of which has a code unless the codec has an escape code.  The first byte
    of the buffer written by [vcEncode] is 0xFF exactly when the encoder
    took the literal-copy fallback: a compressed stream never starts with
    the byte on which [vcDecode] decides to copy its input. *)
Theorem fallback_marker_unambiguous
        (v c : VGPcompressor) (partial : bool) (x buf : list Z) (bits : Z) :
  filled v ->
  (forall i, 0 <= i < 256 -> 0 <= hist v i < 2 ^ 52) ->
  vcCreateCodec v partial = Some c ->
  Forall (encodable c) x ->
  Z.of_nat (length x) < 2 ^ 28 - 32 ->
  vcEncode (Owned c) x = Some (buf, bits) ->
  (rd buf 0 = 255 <-> takes_fallback c x).
Proof.
  intros Hf Hh Hc Hx Hlen He.
  destruct (created_sound v partial c Hf Hh Hc) as (Hlens & Hbits & _ & _).
  assert (Hnn : forall i, 0 <= codelens c i < 256)
    by (intro i; pose proof (Hlens i); lia).
  unfold takes_fallback, enc_start.
  unfold vcEncode in He. rewrite (vcCreateCodec_state _ _ _ Hc) in He.
  cbn [is_coded] in He. cbv zeta in He.
  rewrite shiftl_3 in *.
  set (n := Z.of_nat (length x)) in *.
  assert (Hn0 : 0 <= n) by (unfold n; lia).
  rewrite (to_int_small (8 * n)) in * by lia.
  assert (Hmax : 8 * n + 263 <= INT_MAX) by (unfold INT_MAX; lia).
  set (ibits := 8 * n) in *.
  set (st0 := mkEnc (if isbig c then 4611686018427387904 else 0) 62 []) in *.
  assert (H0 : head_inv st0).
  { unfold head_inv, st0. cbn [owords erem ocode]. split; [lia|].
    exists (if isbig c then 1 else 0). change (63 - 62) with 1.
    destruct (isbig c); split; try reflexivity; cbn; lia. }
  assert (I0 : enc_inv st0 2).
  { unfold enc_inv, st0. cbn [erem owords length]. lia. }
  destruct (encode_loop c ibits x st0 2) as [[|st t]|] eqn:E; [| |discriminate].
  - apply Some_pair_inj in He. destruct He as [<- _].
    split; [reflexivity|]. intros _. reflexivity.
  - split; [|discriminate]. intro Hff. exfalso.
    pose proof (encode_loop_head c ibits (fun i _ => proj1 (Hlens i)) Hbits
                  x st0 2 st t Hx H0 E) as Hh1.
    assert (Hne : x <> []).
    { intro Ex. rewrite Ex in E. cbn [encode_loop] in E. apply Some_inj in E.
      inversion E; subst st t. clear E.
      apply Some_pair_inj in He. destruct He as [Hbuf _].
      change (64 <=? 2) with false in Hbuf. cbn [andb] in Hbuf.
      rewrite <- Hbuf in Hff. unfold st0 in Hff.
      cbn [owords ocode erem flat_map app] in Hff.
      destruct (isbig c); vm_compute in Hff; discriminate. }
    assert (H2n : - 2 ^ 31 <= 2 <= ibits).
    { unfold ibits, n. destruct x; [congruence|cbn [length]; lia]. }
    assert (Hel : forall b, In b x -> codelens c (u8 b) = 0 -> esc_code c = -1 ->
                            codebits_byte c 511 <= 64).
    { intros b Hb E0 E1. rewrite Forall_forall in Hx.
      pose proof (Hx b Hb E0). lia. }
    pose proof (encode_loop_inv c ibits Hnn Hmax
                  (fun i _ => Z.le_trans _ 12 64 (proj2 (Hlens i)) ltac:(lia))
                  x st0 2 st t Hel I0 H2n E) as [Hr Ht].
    apply Some_pair_inj in He. destruct He as [Hbuf _].
    destruct ((64 <=? t) && negb (isbig c)) eqn:Ef.
    + apply andb_true_iff in Ef. destruct Ef as [_ Eb].
      apply negb_true_iff in Eb. rewrite Eb in Hbuf.
      rewrite <- Hbuf in Hff. unfold wr_range, rd_range, word_bytes in Hff.
      cbn [seq map app] in Hff. rewrite be_bytes_8 in Hff.
      cbn [rev app] in Hff. unfold rd in Hff. cbn [nth] in Hff.
      exact (low_byte_shifted _ Hff).
    + rewrite <- Hbuf in Hff. unfold head_inv in Hh1.
      destruct (owords st) as [|F ws] eqn:Ew.
      * destruct Hh1 as (Hr1 & m & Hm & Ho).
        cbn [flat_map app] in Hff.
        assert (Hoc : 0 <= ocode st < 2 ^ 63).
        { rewrite Ho.
          assert (E63 : 2 ^ 63 = 2 ^ (63 - erem st) * 2 ^ erem st).
          { rewrite <- pow2_split by lia. f_equal. lia. }
          pose proof (pow2_pos (erem st) ltac:(lia)). rewrite E63. nia. }
        rewrite tail_bytes_firstn in Hff by lia.
        assert (Hq : 1 <= (71 - erem st) / 8) by (apply Z.div_le_lower_bound; lia).
        destruct (Z.to_nat ((71 - erem st) / 8)) as [|k] eqn:Ek; [lia|].
        rewrite be_bytes_8 in Hff. unfold rd in Hff. cbn [firstn nth] in Hff.
        pose proof (top_byte_small _ Hoc). lia.
      * cbn [length] in Ht.
        assert (Eb : isbig c = true).
        { destruct (isbig c); [reflexivity|].
          cbn [negb] in Ef. rewrite andb_true_r in Ef. apply Z.leb_gt in Ef. lia. }
        rewrite Eb in Hff. cbn [flat_map] in Hff. unfold word_bytes in Hff.
        rewrite be_bytes_8 in Hff. unfold rd in Hff. cbn [app nth] in Hff.
        pose proof (top_byte_small _ Hh1). lia.
Qed.

Lemma fallback_marker_unambiguous_witness :
  filled v_ab /\
  (forall i, 0 <= i < 256 -> 0 <= hist v_ab i < 2 ^ 52) /\
  vcCreateCodec v_ab false = Some c_ab /\
  Forall (encodable c_ab) x62 /\
  Z.of_nat (length x62) < 2 ^ 28 - 32 /\
  vcEncode (Owned c_ab) x62 = Some ([252; 255; 255; 255; 255; 255; 255; 255], 64) /\
  (rd [252; 255; 255; 255; 255; 255; 255; 255] 0 = 255 <-> takes_fallback c_ab x62).
Proof.
  assert (H1 : filled v_ab) by apply filled_with_filled.
  assert (H2 : forall i, 0 <= i < 256 -> 0 <= hist v_ab i < 2 ^ 52).
  { intros i _. rewrite v_ab_hist.
    destruct (i =? 98); [|destruct (i =? 97)]; vm_compute; split; congruence. }
  assert (H3 : vcCreateCodec v_ab false = Some c_ab)
    by (apply codec_or_created; vm_compute; reflexivity).
  assert (H4 : Forall (encodable c_ab) x62).
  { apply Forall_forall. intros b Hb. apply repeat_spec in Hb. subst b.
    intro E. vm_compute in E. discriminate. }
  assert (H5 : Z.of_nat (length x62) < 2 ^ 28 - 32) by reflexivity.
  assert (H6 : vcEncode (Owned c_ab) x62
               = Some ([252; 255; 255; 255; 255; 255; 255; 255], 64))
    by (vm_compute; reflexivity).
  split; [exact H1|]. split; [exact H2|]. split; [exact H3|]. split; [exact H4|].
  split; [exact H5|]. split; [exact H6|].
  exact (fallback_marker_unambiguous v_ab c_ab false x62 _ 64 H1 H2 H3 H4 H5 H6).
Defined.

(** * A serialised codec followed by other data *)

Lemma deserialize_ser_bytes_app reader writer c suf :
  wf_codec c -> same_codec c (vcDeserialize reader (ser_bytes writer c ++ suf)).
Proof.
  intro Hwf. unfold vcDeserialize.
  set (blob := ser_bytes writer c ++ suf).
  assert (Eblob : blob = [big_flag writer] ++ word_bytes writer 4 (u32 (esc_code c))
                         ++ flat_map (serial_entry writer (codelens c) (codebits c)) bytes256
                         ++ suf).
  { unfold blob, ser_bytes. cbn [app]. rewrite <- app_assoc. reflexivity. }
  assert (Hflag : rd blob 0 = big_flag writer) by reflexivity.
  rewrite Hflag.
  set (flip := negb (big_flag reader =? big_flag writer)).
  assert (Hesc : to_int (read_item flip reader blob 1 4) = esc_code c).
  { unfold read_item.
    assert (Hr : rd_range blob 1 4 = word_bytes writer 4 (u32 (esc_code c))).
    { rewrite Eblob.
      pose proof (rd_range_exact (word_bytes writer 4 (u32 (esc_code c)))
                    [big_flag writer]
                    (flat_map (serial_entry writer (codelens c) (codebits c)) bytes256
                     ++ suf)) as R.
      rewrite length_word_bytes in R. exact R. }
    rewrite Hr. unfold flip. rewrite read_written.
    - apply to_int_u32. apply (wf_esc c Hwf).
    - unfold u32. change (2 ^ (8 * Z.of_nat 4)) with (2 ^ 32).
      apply Z.mod_pos_bound. lia. }
  destruct (deser_fold_entries reader writer c blob Hwf bytes256
              (big_flag writer :: word_bytes writer 4 (u32 (esc_code c))) suf
              (fun _ => 0) (fun _ => 0)) as (ip & Hfold).
  { rewrite Eblob. reflexivity. }
  cbn [length] in Hfold. rewrite length_word_bytes in Hfold.
  fold flip in Hfold. rewrite Hfold.
  assert (Hval : forall i, 0 <= i < 256 ->
            fold_left (fun t i => upd t i (codelens c i)) bytes256 (fun _ => 0) i = codelens c i /\
            fold_left (fun t i => upd t i (codebits c i)) bytes256 (fun _ => 0) i = codebits c i).
  { intros i Hi. rewrite !fold_upd_value.
    destruct (in_dec Z.eq_dec i bytes256) as [|Hn]; auto.
    exfalso. apply Hn. apply bytes256_range. exact Hi. }
  split; [|split]; cbn [codelens codebits esc_code lookup].
  - exact Hval.
  - exact Hesc.
  - intro x. rewrite (wf_look c Hwf x). unfold fill_lookup.
    rewrite (fill_lookup_ext (codelens c) (codebits c)); [reflexivity|].
    intros i Hi. apply Hval. apply bytes256_range. exact Hi.
Qed.

(** X19.  [vcDeserialize] reads the serialised codec and nothing after it:
    when the blob written by [vcSerialize] is followed by any other bytes,
    deserialising from its start, on a host of either byte order, still
    gives the code tables, escape code and decoder table of the compressor
    that was serialised. *)
Theorem deserialize_ignores_trailing_bytes
        (c : VGPcompressor) (blob junk : list Z) (reader : bool) :
  coded c -> vcSerialize (Owned c) = Some blob ->
  same_codec c (vcDeserialize reader (blob ++ junk)).
Proof.
  intros Hc Hs. pose proof (coded_wf c Hc) as Hwf.
  rewrite (vcSerialize_bytes c (coded_is_coded c Hc)) in Hs.
  apply Some_inj in Hs. subst blob.
  apply deserialize_ser_bytes_app. exact Hwf.
Qed.

Lemma deserialize_ignores_trailing_bytes_witness :
  coded c_ab_esc /\
  vcSerialize (Owned c_ab_esc) = Some (ser_bytes false c_ab_esc) /\
  same_codec c_ab_esc (vcDeserialize true (ser_bytes false c_ab_esc ++ [1; 2; 3])).
Proof.
  assert (H1 : coded c_ab_esc) by exact c_ab_esc_coded.
  assert (H2 : vcSerialize (Owned c_ab_esc) = Some (ser_bytes false c_ab_esc))
    by (apply (vcSerialize_bytes c_ab_esc); vm_compute; reflexivity).
  split; [exact H1|]. split; [exact H2|].
  exact (deserialize_ignores_trailing_bytes c_ab_esc _ [1; 2; 3] true H1 H2).
Defined.

(** * The code fills the code space *)

Lemma table_sum_upd_in lens c v : forall all,
  NoDup all -> In c all -> G (lens c) = 0 ->
  table_sum (upd lens c v) all = table_sum lens all + G v.
Proof.
  induction all as [|i all IH]; intros Hnd Hin Hz; [contradiction|].
  apply NoDup_cons_iff in Hnd. destruct Hnd as [Hni Hnd].
  cbn [table_sum fold_right]. fold (table_sum (upd lens c v) all). fold (table_sum lens all).
  destruct (Z.eq_dec i c) as [->|Hne].
  - rewrite table_sum_upd_notin by exact Hni.
    unfold upd at 1. rewrite Z.eqb_refl. lia.
  - destruct Hin as [E|Hin]; [congruence|].
    rewrite IH by assumption.
    unfold upd at 1. destruct (i =? c) eqn:E; [apply Z.eqb_eq in E; congruence|]. lia.
Qed.

Lemma table_sum_scatter_eq all : NoDup all ->
  forall code vals tab,
    NoDup code -> (forall c, In c code -> In c all) ->
    (forall c, In c code -> G (tab c) = 0) ->
    length vals = length code ->
    table_sum (scatter code vals tab) all
    = table_sum tab all + fold_right (fun v acc => G v + acc) 0 vals.
Proof.
  intros Hall. induction code as [|c code IH]; intros vals tab Hnd Hin Hz Hlen.
  - destruct vals; [|discriminate]. cbn [scatter fold_right]. lia.
  - destruct vals as [|v vals]; [discriminate|].
    apply NoDup_cons_iff in Hnd. destruct Hnd as [Hnc Hnd].
    cbn [scatter fold_right]. rewrite IH; auto.
    + rewrite table_sum_upd_in; auto; [lia| |].
      * apply Hin. left. reflexivity.
      * apply Hz. left. reflexivity.
    + intros c' Hc'. apply Hin. right. exact Hc'.
    + intros c' Hc'. unfold upd.
      destruct (c' =? c) eqn:E; [apply Z.eqb_eq in E; subst; contradiction|].
      apply Hz. right. exact Hc'.
Qed.

Lemma sum_G_eq_kraft leng :
  Forall (fun l => 1 <= l <= 12) leng ->
  fold_right (fun v acc => G v + acc) 0 (map u8 leng) = kraft12 leng.
Proof.
  induction 1 as [|l leng Hl _ IH]; cbn [map fold_right kraft12]; [reflexivity|].
  rewrite IH. rewrite u8_small by lia. unfold G.
  destruct (0 <? l) eqn:E; [reflexivity|apply Z.ltb_ge in E; lia].
Qed.

Lemma kraft_sum_eq_1 lens :
  (forall i, 0 <= i < 256 -> 0 <= lens i <= 12) ->
  table_sum lens bytes256 = 4096 ->
  (kraft_sum lens == 1)%Q.
Proof.
  intros H Hs. unfold kraft_sum.
  pose proof (kraft_sum_scaled lens bytes256
                ltac:(intros i Hi; apply H; apply bytes256_range; auto)) as E.
  rewrite Hs in E.
  apply (Qmult_inj_r _ _ (inject_Z 4096)); [discriminate|].
  rewrite E. ring.
Qed.

(** X20.  The code is complete.  For counts below [2^52] and at least two
    bytes taking part, the code lengths chosen by [vcCreateCodec] meet
    Kraft's inequality with equality: the sum of [2^(-length[i])] over the
    bytes that have a code is exactly 1, so no part of the code space is
    left unused. *)
Theorem created_code_complete (v c : VGPcompressor) (partial : bool) :
  filled v ->
  (forall i, 0 <= i < 256 -> 0 <= hist v i < 2 ^ 52) ->
  vcCreateCodec v partial = Some c ->
  (exists i j, 0 <= i < 256 /\ 0 <= j < 256 /\ i <> j /\
               takes_part v partial c i /\ takes_part v partial c j) ->
  (kraft_sum (codelens c) == 1)%Q.
Proof.
  intros Hf Hh Hc (i & j & Hi & Hj & Hne & Hti & Htj).
  destruct (vcCreateCodec_inv _ _ _ Hc) as (_ & e & code & leng & bits & P & ->).
  assert (Hm : forall y, 0 <= y < 256 ->
             takes_part v partial (codec_of v partial e code leng bits) y -> In y code).
  { intros y Hy Ht. apply (parts_members _ _ _ _ _ _ P y). split; [exact Hy|].
    unfold takes_part in Ht. cbn [codec_of esc_code] in Ht.
    destruct partial; [exact Ht|].
    destruct Ht as [H|[H _]]; [left; exact H|discriminate]. }
  assert (H2 : (2 <= length code)%nat) by (apply (two_members code i j); auto).
  destruct (parts_positions _ _ _ _ _ _ P Hh) as [Hk _].
  { intro E. rewrite E in H2. cbn in H2. lia. }
  pose proof (cp_leng_range _ _ _ _ _ _ P) as Hr.
  pose proof (kraft_no_zero leng Hr ltac:(lia)) as Hnz.
  rewrite (cp_len_leng _ _ _ _ _ _ P) in Hnz. specialize (Hnz H2).
  apply kraft_sum_eq_1.
  - intros k _. apply (codelens_codec_of _ _ _ _ _ _ P).
  - cbn [codec_of codelens].
    rewrite (table_sum_scatter_eq bytes256 bytes256_NoDup code (map u8 leng) (fun _ => 0)).
    + rewrite table_sum_zero. rewrite sum_G_eq_kraft by exact Hnz.
      rewrite Hk. reflexivity.
    + exact (cp_nodup _ _ _ _ _ _ P).
    + intros k Hk'. apply bytes256_range. apply (cp_range _ _ _ _ _ _ P). exact Hk'.
    + intros k _. reflexivity.
    + rewrite length_map. exact (cp_len_leng _ _ _ _ _ _ P).
Qed.

Lemma created_code_complete_witness :
  filled v_ab /\
  (forall i, 0 <= i < 256 -> 0 <= hist v_ab i < 2 ^ 52) /\
  vcCreateCodec v_ab true = Some c_ab_esc /\
  (exists i j, 0 <= i < 256 /\ 0 <= j < 256 /\ i <> j /\
               takes_part v_ab true c_ab_esc i /\ takes_part v_ab true c_ab_esc j) /\
  (kraft_sum (codelens c_ab_esc) == 1)%Q.
Proof.
  assert (H1 : filled v_ab) by apply filled_with_filled.
  assert (H2 : forall i, 0 <= i < 256 -> 0 <= hist v_ab i < 2 ^ 52).
  { intros i _. rewrite v_ab_hist.
    destruct (i =? 98); [|destruct (i =? 97)]; vm_compute; split; congruence. }
  assert (H3 : vcCreateCodec v_ab true = Some c_ab_esc)
    by (apply codec_or_created; vm_compute; reflexivity).
  assert (H4 : exists i j, 0 <= i < 256 /\ 0 <= j < 256 /\ i <> j /\
               takes_part v_ab true c_ab_esc i /\ takes_part v_ab true c_ab_esc j).
  { exists 97, 98. split; [lia|]. split; [lia|]. split; [lia|].
    split; left; rewrite v_ab_hist; reflexivity. }
  split; [exact H1|]. split; [exact H2|]. split; [exact H3|]. split; [exact H4|].
  exact (created_code_complete v_ab c_ab_esc true H1 H2 H3 H4).
Defined.

(** * Quotients and remainders by powers of two *)

Lemma pow2_nz n : 0 <= n -> 2 ^ n <> 0.
Proof. intro H. pose proof (pow2_pos n H). lia. Qed.

Lemma pow_div_div R a b :
  0 <= a -> 0 <= b -> R / 2 ^ a / 2 ^ b = R / 2 ^ (a + b).
Proof.
  intros Ha Hb. rewrite Z.div_div by (try apply pow2_nz; try apply pow2_pos; lia).
  rewrite pow2_split by lia. reflexivity.
Qed.

Lemma pow_mod_div R i j :
  0 <= j <= i -> (R mod 2 ^ i) / 2 ^ j = (R / 2 ^ j) mod 2 ^ (i - j).
Proof.
  intro H.
  replace (2 ^ i) with (2 ^ j * 2 ^ (i - j))
    by (rewrite <- pow2_split by lia; f_equal; lia).
  rewrite Z.rem_mul_r by (try apply pow2_nz; try apply pow2_pos; lia).
  rewrite (Z.mul_comm (2 ^ j)). rewrite Z.div_add by (apply pow2_nz; lia).
  rewrite Z.div_small; [lia|]. apply Z.mod_pos_bound. apply pow2_pos. lia.
Qed.

Lemma pow_mod_mod R i j :
  0 <= j <= i -> (R mod 2 ^ i) mod 2 ^ j = R mod 2 ^ j.
Proof.
  intro H. apply Z.mod_mod_divide. exists (2 ^ (i - j)).
  rewrite <- pow2_split by lia. f_equal. lia.
Qed.

Lemma pow_mul_mod a k :
  0 <= k <= 64 -> (a * 2 ^ k) mod 2 ^ 64 = (a mod 2 ^ (64 - k)) * 2 ^ k.
Proof.
  intro H.
  replace (2 ^ 64) with (2 ^ (64 - k) * 2 ^ k)
    by (rewrite <- pow2_split by lia; f_equal; lia).
  apply Z.mul_mod_distr_r; apply pow2_nz; lia.
Qed.

Lemma pow_concat R a b :
  0 <= a -> 0 <= b ->
  R / 2 ^ (a + b) * 2 ^ b + (R / 2 ^ a) mod 2 ^ b = R / 2 ^ a.
Proof.
  intros Ha Hb. rewrite <- pow_div_div by lia.
  pose proof (Z.div_mod (R / 2 ^ a) (2 ^ b) (pow2_nz b Hb)). lia.
Qed.

Lemma pow_div_range R L k :
  0 <= R < 2 ^ L -> 0 <= k <= L -> 0 <= R / 2 ^ (L - k) < 2 ^ k.
Proof.
  intros HR Hk. pose proof (pow2_pos (L - k) ltac:(lia)).
  split; [apply Z.div_pos; lia|].
  apply Z.div_lt_upper_bound; [lia|].
  rewrite <- pow2_split by lia. replace (L - k + k) with L by lia. lia.
Qed.

(** * The encoder on streams of any length *)

Lemma be_words_app : forall l1 l2,
  be_words (l1 ++ l2) = be_words l1 * 2 ^ (64 * Z.of_nat (length l2)) + be_words l2.
Proof.
  induction l1 as [|w l1 IH]; intro l2; cbn [app be_words]; [lia|].
  rewrite IH, length_app, Nat2Z.inj_add.
  replace (64 * (Z.of_nat (length l1) + Z.of_nat (length l2)))
    with (64 * Z.of_nat (length l1) + 64 * Z.of_nat (length l2)) by lia.
  rewrite pow2_split by lia. ring.
Qed.

Lemma be_words_snoc ws w : be_words (ws ++ [w]) = be_words ws * 2 ^ 64 + w.
Proof. rewrite be_words_app. cbn [be_words length]. change (64 * Z.of_nat 1) with 64. cbn. lia. Qed.

Lemma OCODE_gen L C st t m :
  gen_inv st t m -> 0 <= L <= 64 -> 0 <= C < 2 ^ L ->
  gen_inv (OCODE L C st) (t + L) (m * 2 ^ L + C).
Proof.
  intros (Hw & Hr & Ht & mo & Hmo & Ho & Hm) HL HC.
  pose proof (pow2_pos L ltac:(lia)) as HLp.
  pose proof (pow2_pos (erem st) ltac:(lia)) as HEp.
  pose proof (pow2_pos (64 - erem st) ltac:(lia)) as HE'p.
  assert (E64 : 2 ^ 64 = 2 ^ (64 - erem st) * 2 ^ erem st).
  { rewrite <- pow2_split by lia. f_equal. lia. }
  destruct (Z_lt_le_dec 0 (erem st - L)) as [Hpos|Hneg].
  - rewrite (OCODE_short L C st mo) by (auto; lia).
    unfold gen_inv. cbn [owords erem ocode].
    split; [exact Hw|]. split; [lia|]. split; [lia|].
    exists (mo * 2 ^ L + C).
    assert (E1 : 2 ^ (64 - (erem st - L)) = 2 ^ (64 - erem st) * 2 ^ L).
    { rewrite <- pow2_split by lia. f_equal. lia. }
    assert (E2 : 2 ^ erem st = 2 ^ L * 2 ^ (erem st - L)).
    { rewrite <- pow2_split by lia. f_equal. lia. }
    split; [rewrite E1; nia|]. split.
    + rewrite Ho, E2. ring.
    + rewrite E1, <- Hm. ring.
  - set (d := L - erem st).
    assert (Hd : 0 <= d <= 63) by (unfold d; lia).
    pose proof (pow2_pos d ltac:(lia)) as HDp.
    assert (EL : 2 ^ L = 2 ^ erem st * 2 ^ d).
    { rewrite <- pow2_split by lia. f_equal. unfold d. lia. }
    assert (Hq : 0 <= C / 2 ^ d < 2 ^ erem st).
    { split; [apply Z.div_pos; lia|].
      apply Z.div_lt_upper_bound; [lia|]. rewrite Z.mul_comm, <- EL. lia. }
    assert (Eoc : Z.lor (ocode st) (Z.shiftr C (- (erem st - L)))
                  = mo * 2 ^ erem st + C / 2 ^ d).
    { replace (- (erem st - L)) with d by (unfold d; lia).
      rewrite Z.shiftr_div_pow2 by lia. rewrite Ho. apply lor_disjoint; lia. }
    assert (Hwn : 0 <= mo * 2 ^ erem st + C / 2 ^ d < 2 ^ 64) by (rewrite E64; nia).
    pose proof (Z.div_mod C (2 ^ d) (pow2_nz d ltac:(lia))) as HCdm.
    pose proof (Z.mod_pos_bound C (2 ^ d) HDp) as HCm.
    unfold OCODE.
    assert (E1 : (erem st - L <=? 0) = true) by (apply Z.leb_le; lia).
    rewrite E1, Eoc.
    destruct (erem st - L <? 0) eqn:E2.
    + apply Z.ltb_lt in E2.
      unfold gen_inv. cbn [owords erem ocode].
      split; [apply Forall_app; split; [exact Hw|constructor; [exact Hwn|constructor]]|].
      split; [lia|]. split; [rewrite length_app, Nat2Z.inj_add; cbn [length]; lia|].
      exists (C mod 2 ^ d).
      replace (64 - (erem st - L + 64)) with d by (unfold d; lia).
      replace (erem st - L + 64) with (64 - d) by (unfold d; lia).
      split; [exact HCm|]. split.
      * unfold u64. rewrite Z.shiftl_mul_pow2 by lia.
        rewrite pow_mul_mod by lia. replace (64 - (64 - d)) with d by lia. reflexivity.
      * rewrite be_words_snoc. rewrite <- Hm.
        replace (2 ^ L) with (2 ^ erem st * 2 ^ d) by (symmetry; exact EL).
        rewrite E64. nia.
    + apply Z.ltb_ge in E2. assert (Ed : d = 0) by (unfold d; lia).
      unfold gen_inv. cbn [owords erem ocode].
      split; [apply Forall_app; split; [exact Hw|constructor; [exact Hwn|constructor]]|].
      split; [lia|]. split; [rewrite length_app, Nat2Z.inj_add; cbn [length]; lia|].
      exists 0. change (64 - 64) with 0. change (2 ^ 0) with 1.
      split; [lia|]. split; [lia|].
      rewrite be_words_snoc. rewrite <- Hm.
      rewrite Ed in *. change (2 ^ 0) with 1 in *. rewrite Z.div_1_r.
      assert (EL' : 2 ^ L = 2 ^ erem st) by lia.
      rewrite EL', E64. ring.
Qed.

Section LongEncode.

Variable c : VGPcompressor.
Hypothesis Hlens : forall i, 0 <= codelens c i <= 12.
Hypothesis Hbits : forall i, 0 <= i < 256 -> 0 <= codebits c i < 2 ^ codelens c i.

(** The stored words and the accumulator after the encoder's loop hold the
    tag bits followed by the code words of the input. *)
Lemma encode_loop_gen ibits : ibits + 263 <= INT_MAX ->
  forall x st t m st' t',
  Forall (encodable c) x ->
  gen_inv st t m -> - 2 ^ 31 <= t <= ibits ->
  encode_loop c ibits x st t = Some (EncDone st' t') ->
  t' = t + sum_cost c x /\
  gen_inv st' t' (m * 2 ^ sum_cost c x + stream_value c x).
Proof.
  intro Hmax.
  assert (Hnn : forall i, 0 <= codelens c i < 256)
    by (intro i; pose proof (Hlens i); lia).
  induction x as [|b x IH]; intros st t m st' t' Hx Hi Ht H.
  - cbn [encode_loop] in H. inversion H; subst st' t'.
    cbn [sum_cost stream_value]. split; [lia|].
    replace (m * 2 ^ 0 + 0) with m by (change (2 ^ 0) with 1; lia). exact Hi.
  - apply Forall_cons_iff in Hx. destruct Hx as [Henc Hx].
    pose proof (byte_cost_pos c Hlens b Henc) as Hcb.
    pose proof (u8_byte b) as Hu. unfold is_byte in Hu.
    rewrite encode_loop_cons in H by assumption.
    assert (Hstep : exists st1,
               encode_loop c ibits x st1 (t + byte_cost c b) = Some (EncDone st' t') /\
               t + byte_cost c b <= ibits /\
               gen_inv st1 (t + byte_cost c b) (m * 2 ^ byte_cost c b + byte_word c b)).
    { rewrite (byte_cost_enc c b Henc) in *. rewrite (byte_word_enc c b Henc).
      destruct (codelens c (u8 b) =? 0) eqn:E.
      - apply Z.eqb_eq in E. specialize (Henc E).
        assert (Ee : (-1 <=? esc_code c) && (esc_code c <? 256) = true).
        { apply andb_true_iff. split; [apply Z.leb_le|apply Z.ltb_lt]; lia. }
        rewrite Ee in H.
        rewrite (esc_len_byte c Henc), (esc_bits_byte c Henc) in H.
        destruct (t + (8 + codelens c (esc_code c)) >? ibits) eqn:Eo; [discriminate|].
        rewrite Z.gtb_ltb in Eo. apply Z.ltb_ge in Eo.
        eexists. split; [exact H|]. split; [exact Eo|].
        pose proof (Hlens (esc_code c)) as Hle.
        pose proof (Hbits _ Henc) as HC.
        pose proof (OCODE_gen (codelens c (esc_code c)) (codebits c (esc_code c))
                      st t m Hi ltac:(lia) HC) as I1.
        pose proof (OCODE_gen 8 (u8 b) _ _ _ I1 ltac:(lia)
                      ltac:(change (2 ^ 8) with 256; lia)) as I2.
        replace (t + (8 + codelens c (esc_code c)))
          with (t + codelens c (esc_code c) + 8) by lia.
        replace (m * 2 ^ (8 + codelens c (esc_code c))
                 + (codebits c (esc_code c) * 2 ^ 8 + u8 b))
          with ((m * 2 ^ codelens c (esc_code c) + codebits c (esc_code c)) * 2 ^ 8 + u8 b).
        + exact I2.
        + replace (8 + codelens c (esc_code c)) with (codelens c (esc_code c) + 8) by lia.
          rewrite pow2_split by lia. ring.
      - apply Z.eqb_neq in E.
        destruct (t + codelens c (u8 b) >? ibits) eqn:Eo; [discriminate|].
        rewrite Z.gtb_ltb in Eo. apply Z.ltb_ge in Eo.
        eexists. split; [exact H|]. split; [exact Eo|].
        pose proof (Hlens (u8 b)) as Hl.
        apply OCODE_gen; [exact Hi|lia|apply Hbits; exact Hu]. }
    destruct Hstep as (st1 & H1 & Hle1 & I1).
    destruct (IH st1 _ _ st' t' Hx I1 ltac:(lia) H1) as (E1 & E3).
    pose proof (sum_cost_nonneg c x Hnn) as Hsx.
    split; [cbn [sum_cost]; lia|].
    cbn [sum_cost stream_value].
    replace (m * 2 ^ (byte_cost c b + sum_cost c x)
             + (byte_word c b * 2 ^ sum_cost c x + stream_value c x))
      with ((m * 2 ^ byte_cost c b + byte_word c b) * 2 ^ sum_cost c x
            + stream_value c x).
    + exact E3.
    + rewrite pow2_split by lia. ring.
Qed.

End LongEncode.

(** * The layout of the encoder's buffer *)

Lemma be_words_range : forall ws,
  Forall (fun w => 0 <= w < 2 ^ 64) ws ->
  0 <= be_words ws < 2 ^ (64 * Z.of_nat (length ws)).
Proof.
  induction 1 as [|w ws Hw _ IH]; cbn [be_words length].
  - change (2 ^ (64 * Z.of_nat 0)) with 1. lia.
  - rewrite Nat2Z.inj_succ.
    replace (64 * Z.succ (Z.of_nat (length ws))) with (64 + 64 * Z.of_nat (length ws)) by lia.
    rewrite pow2_split by lia.
    pose proof (pow2_pos (64 * Z.of_nat (length ws)) ltac:(lia)). nia.
Qed.

(** Reading back the bytes of a partial word that follow [pre]. *)
Lemma gather_tail_at pre big oc M mo :
  0 < M < 64 -> oc = mo * 2 ^ (64 - M) -> 0 <= mo < 2 ^ M ->
  gather 8 (pre ++ tail_bytes big oc (64 - M)) (length pre) 0 M 0 = oc.
Proof.
  intros HM Hm Hmo.
  assert (Hoc : 0 <= oc < 2 ^ 64).
  { assert (E : 2 ^ 64 = 2 ^ M * 2 ^ (64 - M)).
    { rewrite <- pow2_split by lia. f_equal. lia. }
    pose proof (pow2_pos (64 - M) ltac:(lia)). rewrite Hm, E. nia. }
  rewrite tail_bytes_firstn by lia.
  replace (71 - (64 - M)) with (M + 7) by lia.
  assert (Hq : 1 <= (M + 7) / 8 <= 8).
  { split; [apply Z.div_le_lower_bound; lia|].
    assert ((M + 7) / 8 < 9) by (apply Z.div_lt_upper_bound; lia). lia. }
  pose proof (Z.div_mod (M + 7) 8 ltac:(lia)) as Hdm.
  pose proof (Z.mod_pos_bound (M + 7) 8 ltac:(lia)) as Hmb.
  set (q := (M + 7) / 8) in *.
  set (B := be_bytes 8 oc).
  assert (HB : Forall is_byte B) by apply be_bytes_bytes.
  assert (LB : length B = 8%nat) by apply length_be_bytes.
  assert (Lf : length (firstn (Z.to_nat q) B) = Z.to_nat q).
  { rewrite length_firstn, LB. lia. }
  assert (Ls : length (skipn (Z.to_nat q) B) = (8 - Z.to_nat q)%nat).
  { rewrite length_skipn, LB. reflexivity. }
  assert (Hfs : Forall is_byte (firstn (Z.to_nat q) B)
                /\ Forall is_byte (skipn (Z.to_nat q) B)).
  { apply Forall_app. rewrite firstn_skipn. exact HB. }
  destruct Hfs as [Hf Hs].
  pose proof (gather_bytes (firstn (Z.to_nat q) B) 8 pre [] 0 M 0 0 Hf) as G.
  rewrite Lf in G. rewrite app_nil_r in G.
  rewrite Z2Nat.id in G by lia.
  rewrite G; try lia.
  assert (EB : be_value B = oc).
  { unfold B. rewrite be_value_be_bytes. apply Z.mod_small.
    change (2 ^ (8 * Z.of_nat 8)) with (2 ^ 64). lia. }
  rewrite <- (firstn_skipn (Z.to_nat q) B) in EB.
  rewrite be_value_app in EB. rewrite Ls in EB.
  replace (8 * Z.of_nat (8 - Z.to_nat q)) with (64 - 8 * q) in EB by lia.
  pose proof (be_value_range _ Hs) as Rs. rewrite Ls in Rs.
  replace (8 * Z.of_nat (8 - Z.to_nat q)) with (64 - 8 * q) in Rs by lia.
  pose proof (be_value_range _ Hf) as Rf.
  replace (64 - 0 - 8 * q) with (64 - 8 * q) by lia.
  assert (Em : oc = (mo * 2 ^ (8 * q - M)) * 2 ^ (64 - 8 * q)).
  { rewrite Hm. rewrite <- Z.mul_assoc. rewrite <- pow2_split by lia.
    f_equal. f_equal. lia. }
  pose proof (pow2_pos (64 - 8 * q) ltac:(lia)) as HP.
  set (P := 2 ^ (64 - 8 * q)) in *.
  set (X := be_value (firstn (Z.to_nat q) B)) in *.
  set (Y := be_value (skipn (Z.to_nat q) B)) in *.
  set (MM := mo * 2 ^ (8 * q - M)) in *.
  assert (Y = (MM - X) * P) by lia.
  assert (MM - X = 0) by nia. nia.
Qed.

Lemma word_read_back big w : 0 <= w < 2 ^ 64 ->
  bytes_word big (word_bytes big 8 w) = w.
Proof.
  intro Hw. pose proof (read_written big big 8 w) as R.
  rewrite Z.eqb_refl in R. cbn [negb] in R. apply R.
  change (2 ^ (8 * Z.of_nat 8)) with (2 ^ 64). exact Hw.
Qed.

(** The buffer the encoder fills (on a little-endian host, before its first
    word is shifted), as a decoder of the same byte order reads it. *)
Lemma unread_of_words big oc erem mo : forall ws pre,
  Forall (fun w => 0 <= w < 2 ^ 64) ws ->
  1 <= erem <= 64 -> 0 <= mo < 2 ^ (64 - erem) -> oc = mo * 2 ^ erem ->
  unread big (pre ++ flat_map (word_bytes big 8) ws ++ tail_bytes big oc erem)
       (length pre)
       (be_words ws * 2 ^ (64 - erem) + mo)
       (64 * Z.of_nat (length ws) + (64 - erem)).
Proof.
  induction ws as [|w ws IH]; intros pre Hw Hr Hmo Ho.
  - cbn [flat_map app be_words length].
    replace (0 * 2 ^ (64 - erem) + mo) with mo by lia.
    replace (64 * Z.of_nat 0 + (64 - erem)) with (64 - erem) by lia.
    destruct (Z.eq_dec erem 64) as [->|Hne].
    + change (64 - 64) with 0 in *. change (2 ^ 0) with 1 in Hmo.
      assert (mo = 0) by lia. subst mo. apply unread_nil.
    + apply unread_tail; [lia|exact Hmo|].
      replace (64 - (64 - erem)) with erem by lia.
      rewrite <- Ho.
      pose proof (gather_tail_at pre big oc (64 - erem) mo ltac:(lia)) as G.
      replace (64 - (64 - erem)) with erem in G by lia.
      apply G; assumption.
  - apply Forall_cons_iff in Hw. destruct Hw as [Hw Hws].
    pose proof (be_words_range ws Hws) as Hbw.
    cbn [flat_map be_words length]. rewrite Nat2Z.inj_succ.
    set (M' := 64 * Z.of_nat (length ws) + (64 - erem)).
    set (Q' := be_words ws * 2 ^ (64 - erem) + mo).
    pose proof (pow2_pos (64 - erem) ltac:(lia)) as HPe.
    assert (EM' : 2 ^ M' = 2 ^ (64 * Z.of_nat (length ws)) * 2 ^ (64 - erem)).
    { unfold M'. rewrite pow2_split by lia. reflexivity. }
    assert (HQ' : 0 <= Q' < 2 ^ M').
    { unfold Q'. rewrite EM'. nia. }
    assert (EQ : (w * 2 ^ (64 * Z.of_nat (length ws)) + be_words ws) * 2 ^ (64 - erem) + mo
                 = w * 2 ^ M' + Q').
    { unfold Q'. rewrite EM'. ring. }
    rewrite EQ.
    replace (64 * Z.succ (Z.of_nat (length ws)) + (64 - erem)) with (M' + 64)
      by (unfold M'; lia).
    pose proof (pow2_pos M' ltac:(unfold M'; lia)) as HPM.
    apply unread_word.
    + unfold M'. lia.
    + replace (M' + 64) with (64 + M') by lia. rewrite pow2_split by (unfold M'; lia). nia.
    + replace (M' + 64 - 64) with M' by lia.
      rewrite Z.div_add_l by lia. rewrite Z.div_small by lia. rewrite Z.add_0_r.
      pose proof (rd_range_exact (word_bytes big 8 w) pre
                    (flat_map (word_bytes big 8) ws ++ tail_bytes big oc erem)) as R.
      rewrite length_word_bytes in R. rewrite <- app_assoc. rewrite R.
      apply word_read_back. exact Hw.
    + replace (M' + 64 - 64) with M' by lia.
      rewrite Z.add_comm. rewrite Z.mod_add by lia. rewrite Z.mod_small by lia.
      specialize (IH (pre ++ word_bytes big 8 w) Hws Hr Hmo Ho).
      rewrite length_app, length_word_bytes in IH.
      rewrite <- !app_assoc in IH. rewrite <- app_assoc. exact IH.
Qed.

(** * The decoder's window on a long stream *)

Section Window.

Variable big : bool.

Lemma unread_inv_tail buf p Q M :
  unread big buf p Q M -> 0 < M < 64 -> gather 8 buf p 0 M 0 = Q * 2 ^ (64 - M).
Proof. destruct 1; intro HM; lia. Qed.

Lemma unread_inv_word buf p Q M :
  unread big buf p Q M -> 64 <= M ->
  bytes_word big (rd_range buf p 8) = Q / 2 ^ (M - 64) /\
  unread big buf (p + 8) (Q mod 2 ^ (M - 64)) (M - 64).
Proof. destruct 1; intro HM; try lia. split; assumption. Qed.

Lemma lor_range a b n :
  0 <= n -> 0 <= a < 2 ^ n -> 0 <= b < 2 ^ n -> 0 <= Z.lor a b < 2 ^ n.
Proof.
  intros Hn Ha Hb.
  assert (H0 : 0 <= Z.lor a b) by (apply Z.lor_nonneg; lia).
  split; [exact H0|].
  assert (E : Z.shiftr (Z.lor a b) n = 0).
  { rewrite Z.shiftr_lor. rewrite !Z.shiftr_div_pow2 by lia.
    rewrite !Z.div_small by lia. reflexivity. }
  rewrite Z.shiftr_div_pow2 in E by lia.
  apply Z.div_small_iff in E; [|apply pow2_nz; lia]. lia.
Qed.

(** A word of [nem] bits, left-aligned, moved below [rem] bits. *)
Lemma shifted_word_range Y nem rem :
  0 <= nem <= 64 -> 0 <= rem -> 0 <= Y < 2 ^ nem ->
  0 <= Z.shiftr (Y * 2 ^ (64 - nem)) rem < 2 ^ 64.
Proof.
  intros Hn Hr HY. rewrite Z.shiftr_div_pow2 by lia.
  pose proof (pow2_pos (64 - nem) ltac:(lia)). pose proof (pow2_pos rem Hr).
  assert (E : 2 ^ 64 = 2 ^ nem * 2 ^ (64 - nem)).
  { rewrite <- pow2_split by lia. f_equal. lia. }
  split; [apply Z.div_pos; nia|].
  apply Z.div_lt_upper_bound; [lia|]. rewrite E. nia.
Qed.

Lemma pre_a_ranges buf st R L :
  pre_a big buf st R L -> 0 <= R < 2 ^ L ->
  0 <= icode st < 2 ^ 64 /\ 0 <= ncode st < 2 ^ 64.
Proof.
  intros (Hd & Hr & Hn & Hs & Hi & Hc & _) HR.
  pose proof (pow_div_range R L (drem st) HR ltac:(lia)) as H1.
  pose proof (pow2_pos (64 - drem st) ltac:(lia)).
  pose proof (pow2_pos (64 - nem st) ltac:(lia)).
  pose proof (Z.mod_pos_bound (R / 2 ^ (L - drem st - nem st)) (2 ^ nem st)
                (pow2_pos (nem st) ltac:(lia))) as H2.
  assert (E1 : 2 ^ 64 = 2 ^ drem st * 2 ^ (64 - drem st)).
  { rewrite <- pow2_split by lia. f_equal. lia. }
  assert (E2 : 2 ^ 64 = 2 ^ nem st * 2 ^ (64 - nem st)).
  { rewrite <- pow2_split by lia. f_equal. lia. }
  split.
  - rewrite Hi. rewrite E1. nia.
  - rewrite Hc. rewrite E2. nia.
Qed.

Lemma pre_a_to_b buf st R L :
  pre_a big buf st R L -> 0 <= R < 2 ^ L -> drem st = L -> mode_b st R L.
Proof.
  intros Hp HR Hrl. destruct (pre_a_ranges _ _ _ _ Hp HR) as [Hir Hnr].
  destruct Hp as (Hd & Hr & Hn & Hs & Hi & Hc & _).
  unfold mode_b. repeat split; try lia.
  rewrite Hi, Hrl. replace (L - L) with 0 by lia. change (2 ^ 0) with 1.
  rewrite Z.div_1_r. apply Z.div_mul. apply pow2_nz. lia.
Qed.

(** The top [n] bits of [icode] at the top of the loop. *)
Lemma mode_top buf st R L n :
  dec_mode big buf st R L -> 0 <= R < 2 ^ L -> 0 <= n <= 16 -> n <= L ->
  0 <= icode st < 2 ^ 64 /\ Z.shiftr (icode st) (64 - n) = R / 2 ^ (L - n).
Proof.
  intros [[Hp [H16 HlL]]|Hb] HR Hn HnL.
  - destruct (pre_a_ranges _ _ _ _ Hp HR) as [Hir _]. split; [exact Hir|].
    destruct Hp as (Hd & Hr & Hm & Hs & Hi & _).
    rewrite Z.shiftr_div_pow2 by lia. rewrite Hi.
    replace (2 ^ (64 - n)) with (2 ^ (drem st - n) * 2 ^ (64 - drem st))
      by (rewrite <- pow2_split by lia; f_equal; lia).
    rewrite Z.div_mul_cancel_r by (apply pow2_nz; lia).
    rewrite pow_div_div by lia. f_equal. f_equal. lia.
  - destruct Hb as (Hd & HL & Hr & Hm & Hnc & Hic & Ht). split; [exact Hic|].
    rewrite Z.shiftr_div_pow2 by lia. rewrite <- Ht.
    rewrite pow_div_div by lia. f_equal. f_equal. lia.
Qed.

(** The loop [while (rem < 16)] of [GET], from a state that still has part
    of the stream in the buffer. *)
Lemma refill_a buf R L : 0 <= R < 2 ^ L ->
  forall fuel st,
    pre_a big buf st R L ->
    16 - drem st + (if nem st =? 0 then 1 else 0) < Z.of_nat fuel ->
    (0 < fuel)%nat ->
    exists st', GET_refill fuel big buf st = Some st' /\ dec_mode big buf st' R L.
Proof.
  intro HR. induction fuel as [|f IH]; intros st Hp Hmeas Hpos; [lia|].
  destruct (pre_a_ranges _ _ _ _ Hp HR) as [Hir Hnr].
  pose proof Hp as (Hd & Hr & Hn & Hs & Hi & Hc & Hrest).
  rewrite GET_refill_S.
  destruct (drem st <? 16) eqn:E16.
  2:{ apply Z.ltb_ge in E16. exists st. split; [reflexivity|].
      destruct (Z_lt_le_dec (drem st) L) as [Hlt|Hge].
      - left. auto.
      - right. apply (pre_a_to_b buf); auto. lia. }
  apply Z.ltb_lt in E16. cbv zeta.
  set (rem := drem st) in *. set (ne := nem st) in *.
  set (X := R / 2 ^ (L - rem - ne)) in *.
  pose proof (Z.mod_pos_bound X (2 ^ ne) (pow2_pos ne ltac:(lia))) as HY.
  set (Y := X mod 2 ^ ne) in *.
  pose proof (pow2_pos (64 - rem) ltac:(lia)) as HPr.
  pose proof (pow2_pos (64 - ne) ltac:(lia)) as HPn.
  pose proof (pow2_pos ne ltac:(lia)) as HPne.
  destruct (ne >? 64 - rem) eqn:Egt.
  - (* the next word more than fills [icode] *)
    apply Z.gtb_lt in Egt.
    eexists. split; [reflexivity|]. left.
    assert (HL64 : 64 < L) by lia.
    set (k := ne - (64 - rem)) in *.
    assert (Hk : 0 < k <= 64) by (unfold k; lia).
    assert (Esh : Z.shiftr (ncode st) rem = Y / 2 ^ k).
    { rewrite Z.shiftr_div_pow2 by lia. rewrite Hc.
      replace (2 ^ rem) with (2 ^ k * 2 ^ (64 - ne))
        by (rewrite <- pow2_split by lia; f_equal; unfold k; lia).
      apply Z.div_mul_cancel_r; apply pow2_nz; lia. }
    assert (HYk : 0 <= Y / 2 ^ k < 2 ^ (64 - rem)).
    { pose proof (pow_div_range Y ne (64 - rem) HY ltac:(lia)) as H.
      replace (ne - (64 - rem)) with k in H by reflexivity. exact H. }
    assert (Eic : Z.lor (icode st) (Z.shiftr (ncode st) rem) = R / 2 ^ (L - 64)).
    { rewrite Esh, Hi. rewrite lor_disjoint by lia.
      unfold Y. rewrite pow_mod_div by lia. unfold X.
      rewrite pow_div_div by lia.
      replace (L - rem - ne + k) with (L - 64) by (unfold k; lia).
      replace (ne - k) with (64 - rem) by (unfold k; lia).
      replace (L - rem) with (L - 64 + (64 - rem)) by lia.
      apply pow_concat; lia. }
    split; [|cbn [drem]; lia].
    unfold pre_a. cbn [dlen drem nem icode ncode dp]. fold rem ne.
    split; [exact Hd|]. split; [lia|]. split; [lia|]. split; [lia|].
    split; [|split].
    + rewrite Eic. change (64 - 64) with 0. change (2 ^ 0) with 1. lia.
    + unfold u64. rewrite Z.shiftl_mul_pow2 by lia. rewrite Hc.
      rewrite <- Z.mul_assoc. rewrite <- pow2_split by lia.
      replace (64 - ne + (64 - rem)) with (64 - k) by (unfold k; lia).
      rewrite pow_mul_mod by lia.
      replace (64 - (64 - k)) with k by lia.
      replace (ne - (64 - rem)) with k by reflexivity.
      f_equal.
      replace (L - 64 - k) with (L - rem - ne) by (unfold k; lia).
      fold X. unfold Y. apply pow_mod_mod. lia.
    + replace (L - 64 - k) with (L - rem - ne) by (unfold k; lia). exact Hrest.
  - (* [ncode] is used up *)
    assert (Hle : ne <= 64 - rem).
    { rewrite Z.gtb_ltb in Egt. apply Z.ltb_ge in Egt. exact Egt. }
    assert (Esh : Z.shiftr (ncode st) rem = Y * 2 ^ (64 - rem - ne)).
    { rewrite Z.shiftr_div_pow2 by lia. rewrite Hc.
      replace (2 ^ (64 - ne)) with (2 ^ (64 - rem - ne) * 2 ^ rem)
        by (rewrite <- pow2_split by lia; f_equal; lia).
      rewrite Z.mul_assoc. apply Z.div_mul. apply pow2_nz. lia. }
    pose proof (pow2_pos (64 - rem - ne) ltac:(lia)) as HPrn.
    assert (HYs : 0 <= Y * 2 ^ (64 - rem - ne) < 2 ^ (64 - rem)).
    { assert (E : 2 ^ (64 - rem) = 2 ^ ne * 2 ^ (64 - rem - ne)).
      { rewrite <- pow2_split by lia. f_equal. lia. }
      rewrite E. nia. }
    assert (Eic : Z.lor (icode st) (Z.shiftr (ncode st) rem)
                  = R / 2 ^ (L - (rem + ne)) * 2 ^ (64 - (rem + ne))).
    { rewrite Esh, Hi. rewrite lor_disjoint by lia.
      replace (L - (rem + ne)) with (L - rem - ne) by lia. fold X.
      replace (R / 2 ^ (L - rem)) with (X / 2 ^ ne).
      2:{ unfold X. rewrite pow_div_div by lia. f_equal. f_equal. lia. }
      pose proof (Z.div_mod X (2 ^ ne) (pow2_nz ne ltac:(lia))) as HX. fold Y in HX.
      assert (E1 : 2 ^ (64 - rem) = 2 ^ ne * 2 ^ (64 - (rem + ne))).
      { rewrite <- pow2_split by lia. f_equal. lia. }
      replace (64 - rem - ne) with (64 - (rem + ne)) by lia.
      rewrite E1.
      assert (Hg : forall q N P x y, x = N * q + y -> q * (N * P) + y * P = x * P)
        by (intros; subst; ring).
      apply Hg. exact HX. }
    rewrite Eic. rewrite Hd.
    destruct (rem + ne >=? L) eqn:Ege.
    + (* the end of the stream is in [icode] *)
      apply Z.geb_le in Ege.
      eexists. split; [reflexivity|]. right.
      assert (Erl : rem + ne = L) by lia.
      unfold mode_b. cbn [dlen drem nem icode ncode].
      rewrite Erl. replace (L - L) with 0 by lia. change (2 ^ 0) with 1.
      rewrite Z.div_1_r.
      pose proof (pow2_pos (64 - L) ltac:(lia)) as HPL.
      assert (E64 : 2 ^ 64 = 2 ^ L * 2 ^ (64 - L)).
      { rewrite <- pow2_split by lia. f_equal. lia. }
      split; [reflexivity|]. split; [lia|]. split; [lia|]. split; [lia|].
      split; [exact Hnr|]. split; [rewrite E64; nia|].
      apply Z.div_mul. apply pow2_nz. lia.
    + assert (Hlt : rem + ne < L).
      { destruct (Z_lt_le_dec (rem + ne) L) as [H|H]; [exact H|].
        apply Z.geb_le in H. rewrite H in Ege. discriminate. }
      assert (Hm2 : 16 - (rem + ne) < Z.of_nat f).
      { destruct (ne =? 0) eqn:E0; [apply Z.eqb_eq in E0|apply Z.eqb_neq in E0]; lia. }
      assert (Hf : (0 < f)%nat).
      { destruct (ne =? 0) eqn:E0; [apply Z.eqb_eq in E0|apply Z.eqb_neq in E0]; lia. }
      set (M := L - rem - ne) in *.
      destruct (L - (rem + ne) <? 64) eqn:E64.
      * (* the last, partial word *)
        apply Z.ltb_lt in E64.
        pose proof (unread_inv_tail _ _ _ _ Hrest ltac:(unfold M; lia)) as Hg.
        apply IH; [|cbn [drem nem]|exact Hf].
        -- unfold pre_a. cbn [dlen drem nem icode ncode dp].
           split; [reflexivity|]. split; [lia|]. split; [lia|]. split; [lia|].
           split; [reflexivity|].
           replace (L - (rem + ne) - (L - (rem + ne))) with 0 by lia.
           replace (L - (rem + ne)) with M by (unfold M; lia).
           change (2 ^ 0) with 1. rewrite Z.div_1_r, Z.mod_1_r.
           split; [exact Hg|apply unread_nil].
        -- destruct (L - (rem + ne) =? 0) eqn:E0; [apply Z.eqb_eq in E0|]; lia.
      * (* a whole word *)
        apply Z.ltb_ge in E64.
        destruct (unread_inv_word _ _ _ _ Hrest ltac:(unfold M; lia)) as [Hw Hr'].
        apply IH; [|cbn [drem nem]; change (64 =? 0) with false; lia|exact Hf].
        unfold pre_a. cbn [dlen drem nem icode ncode dp].
        split; [reflexivity|]. split; [lia|]. split; [lia|]. split; [lia|].
        split; [reflexivity|].
        replace (L - (rem + ne) - 64) with (M - 64) by (unfold M; lia).
        change (64 - 64) with 0. change (2 ^ 0) with 1. rewrite Z.mul_1_r.
        split.
        -- rewrite Hw. rewrite pow_mod_div by (unfold M; lia).
           f_equal. f_equal. lia.
        -- rewrite pow_mod_mod in Hr' by (unfold M; lia). exact Hr'.
Qed.

(** [GET(n)] while part of the stream is still in the buffer. *)
Lemma GET_a buf st R L n :
  pre_a big buf st R L -> 16 <= drem st -> drem st < L ->
  0 <= R < 2 ^ L -> 0 <= n <= 16 ->
  exists st', GET n big buf st = Some st' /\
              dec_mode big buf st' (R mod 2 ^ (L - n)) (L - n).
Proof.
  intros (Hd & Hr & Hn & Hs & Hi & Hc & Hrest) H16 HlL HR Hn16.
  unfold GET.
  assert (HR' : 0 <= R mod 2 ^ (L - n) < 2 ^ (L - n))
    by (apply Z.mod_pos_bound; apply pow2_pos; lia).
  apply (refill_a buf _ _ HR'); [|cbn [drem nem]|lia].
  - unfold pre_a. cbn [dlen drem nem icode ncode dp].
    split; [lia|]. split; [lia|]. split; [lia|]. split; [lia|].
    replace (L - n - (drem st - n)) with (L - drem st) by lia.
    split; [|split].
    + unfold u64. rewrite Z.shiftl_mul_pow2 by lia. rewrite Hi.
      rewrite <- Z.mul_assoc. rewrite <- pow2_split by lia.
      rewrite pow_mul_mod by lia.
      replace (64 - (64 - drem st + n)) with (drem st - n) by lia.
      replace (64 - drem st + n) with (64 - (drem st - n)) by lia.
      f_equal. rewrite pow_mod_div by lia. f_equal. f_equal. lia.
    + rewrite Hc. f_equal.
      rewrite pow_mod_div by lia.
      replace (L - n - (L - drem st - nem st)) with (drem st + nem st - n) by lia.
      rewrite pow_mod_mod by lia. reflexivity.
    + rewrite pow_mod_mod by lia. exact Hrest.
  - change (Z.of_nat 100) with 100.
    destruct (nem st =? 0); lia.
Qed.

(** [GET(n)] once the rest of the stream is in [icode]. *)
Lemma GET_b buf st R L n :
  mode_b st R L -> 0 <= n <= L ->
  exists st', GET n big buf st = Some st' /\
              mode_b st' (R mod 2 ^ (L - n)) (L - n).
Proof.
  intros (Hd & HL & Hr & Hm & Hnc & Hic & Ht) Hn.
  unfold GET. change 100%nat with (S 99). rewrite GET_refill_S.
  cbn [icode ncode drem nem dlen dp]. cbv zeta.
  set (ic1 := u64 (Z.shiftl (icode st) n)).
  assert (R1 : 0 <= ic1 < 2 ^ 64) by apply u64_range.
  assert (T1 : ic1 / 2 ^ (64 - (L - n)) = R mod 2 ^ (L - n)).
  { unfold ic1, u64. rewrite Z.shiftl_mul_pow2 by lia.
    rewrite pow_mul_mod by lia.
    replace (2 ^ (64 - (L - n))) with (2 ^ (64 - L) * 2 ^ n)
      by (rewrite <- pow2_split by lia; f_equal; lia).
    rewrite Z.div_mul_cancel_r by (apply pow2_nz; lia).
    rewrite pow_mod_div by lia. rewrite Ht. f_equal. f_equal. lia. }
  destruct (drem st - n <? 16) eqn:E16.
  2:{ eexists. split; [reflexivity|].
      unfold mode_b. cbn [dlen drem nem icode ncode].
      repeat split; try lia. }
  set (Y := Z.shiftr (ncode st) (drem st - n)).
  assert (HY : 0 <= Y < 2 ^ (64 - (L - n))).
  { unfold Y. rewrite Z.shiftr_div_pow2 by lia.
    pose proof (pow2_pos (drem st - n) ltac:(lia)) as HP.
    split; [apply Z.div_pos; lia|].
    apply Z.div_lt_upper_bound; [lia|].
    assert (2 ^ 64 <= 2 ^ (drem st - n) * 2 ^ (64 - (L - n))).
    { rewrite <- pow2_split by lia. apply Z.pow_le_mono_r; lia. }
    lia. }
  assert (HY64 : 0 <= Y < 2 ^ 64).
  { assert (2 ^ (64 - (L - n)) <= 2 ^ 64) by (apply Z.pow_le_mono_r; lia). lia. }
  assert (R2 : 0 <= Z.lor ic1 Y < 2 ^ 64) by (apply lor_range; lia).
  assert (T2 : Z.lor ic1 Y / 2 ^ (64 - (L - n)) = R mod 2 ^ (L - n)).
  { rewrite <- Z.shiftr_div_pow2 by lia. rewrite Z.shiftr_lor.
    rewrite !Z.shiftr_div_pow2 by lia. rewrite T1.
    rewrite (Z.div_small Y) by lia. apply Z.lor_0_r. }
  destruct (nem st >? 64 - (drem st - n)) eqn:Egt.
  - apply Z.gtb_lt in Egt. eexists. split; [reflexivity|].
    unfold mode_b. cbn [dlen drem nem icode ncode].
    split; [lia|]. split; [lia|]. split; [lia|]. split; [lia|].
    split; [apply u64_range|]. split; [exact R2|exact T2].
  - rewrite Z.gtb_ltb in Egt. apply Z.ltb_ge in Egt.
    assert (Ege : (drem st - n + nem st >=? dlen st - n) = true)
      by (apply Z.geb_le; lia).
    rewrite Ege. eexists. split; [reflexivity|].
    unfold mode_b. cbn [dlen drem nem icode ncode].
    split; [lia|]. split; [lia|]. split; [lia|]. split; [lia|].
    split; [exact Hnc|]. split; [exact R2|exact T2].
Qed.

Lemma GET_mode buf st R L n :
  dec_mode big buf st R L -> 0 <= R < 2 ^ L -> 0 <= n <= 16 -> n <= L ->
  exists st', GET n big buf st = Some st' /\
              dec_mode big buf st' (R mod 2 ^ (L - n)) (L - n).
Proof.
  intros [[Hp [H16 HlL]]|Hb] HR Hn HnL.
  - apply (GET_a buf st R L n); auto.
  - destruct (GET_b buf st R L n Hb ltac:(lia)) as (st' & H1 & H2).
    exists st'. split; [exact H1|right; exact H2].
Qed.

Lemma dec_mode_dlen buf st R L : dec_mode big buf st R L -> dlen st = L.
Proof.
  intros [[Hp _]|Hb]; [destruct Hp as [H _]|destruct Hb as [H _]]; exact H.
Qed.

End Window.

Section LongDecode.

Variable schar : bool.
Variables c d : VGPcompressor.
Hypothesis Hlens : forall i, 0 <= codelens c i <= 12.
Hypothesis Hbits : forall i, 0 <= i < 256 -> 0 <= codebits c i < 2 ^ codelens c i.
Hypothesis Hspec : lookup_spec c.
Hypothesis Hesc : 0 <= esc_code c < 256 -> 0 < codelens c (esc_code c).
Hypothesis Hsame : same_codec c d.

(** One turn of the decoder's loop on the stream of [b :: x]. *)
Lemma decode_byte_long buf st b x :
  is_byte b -> b <> u8 (esc_code c) -> encodable c b -> char_safe schar c b ->
  Forall (encodable c) x ->
  dec_mode (isbig d) buf st (stream_value c (b :: x)) (sum_cost c (b :: x)) ->
  exists st', decode_step schar d buf st = Some (st', b) /\
              dec_mode (isbig d) buf st' (stream_value c x) (sum_cost c x).
Proof.
  intros Hb Hne He Hsafe Hx Hmode.
  pose proof (stream_value_range c Hlens Hbits Hesc x Hx) as Hr.
  pose proof (stream_value_range c Hlens Hbits Hesc (b :: x)
                (Forall_cons _ He Hx)) as HR.
  pose proof (sum_cost_range c Hlens x Hx) as Hs.
  pose proof (byte_cost_pos c Hlens b He) as Hc.
  destruct Hsame as (Htab & Hescd & _).
  cbn [stream_value sum_cost] in *.
  rewrite (byte_cost_enc c b He) in *. rewrite (byte_word_enc c b He) in *.
  unfold encodable in He. unfold char_safe, symbol_of in Hsafe.
  rewrite (u8_small b) in * by exact Hb.
  set (s := sum_cost c x) in *. set (r := stream_value c x) in *.
  pose proof (pow2_pos s Hs) as Hps.
  unfold decode_step.
  destruct (codelens c b =? 0) eqn:E.
  - apply Z.eqb_eq in E. specialize (He E).
    pose proof (Hesc He) as Hesc'. pose proof (Hlens (esc_code c)) as Hle'.
    pose proof (Hbits _ He) as HC.
    set (e := esc_code c) in *. set (ne := codelens c e) in *.
    set (C1 := codebits c e) in *.
    set (R := (C1 * 2 ^ 8 + b) * 2 ^ s + r) in *.
    assert (Hr1 : 0 <= b * 2 ^ s + r < 2 ^ (8 + s)).
    { rewrite pow2_split by lia. change (2 ^ 8) with 256. unfold is_byte in Hb. nia. }
    assert (ER : R = C1 * 2 ^ (8 + s) + (b * 2 ^ s + r)).
    { unfold R. rewrite (pow2_split 8 s) by lia. ring. }
    assert (Ediv : R / 2 ^ (8 + ne + s - ne) = C1).
    { replace (8 + ne + s - ne) with (8 + s) by lia. rewrite ER.
      rewrite Z.div_add_l by (apply pow2_nz; lia). rewrite Z.div_small by lia. lia. }
    assert (Emod : R mod 2 ^ (8 + ne + s - ne) = b * 2 ^ s + r).
    { replace (8 + ne + s - ne) with (8 + s) by lia. rewrite ER.
      rewrite Z.add_comm. rewrite Z.mod_add by (apply pow2_nz; lia).
      apply Z.mod_small. exact Hr1. }
    destruct (mode_top (isbig d) buf st R (8 + ne + s) ne Hmode HR
                ltac:(lia) ltac:(lia)) as [Hic Htop].
    rewrite Ediv in Htop.
    rewrite (lookup_top c d Hlens Hspec Hsame _ e Hic He Hesc' Htop).
    cbv zeta. rewrite (lens_char_safe schar d e He Hsafe).
    destruct (Htab e He) as [Hcl _]. rewrite Hcl. fold ne.
    destruct (GET_mode (isbig d) buf st R (8 + ne + s) ne Hmode HR
                ltac:(lia) ltac:(lia)) as (st1 & G1 & M1).
    rewrite G1. rewrite Emod in M1.
    replace (8 + ne + s - ne) with (8 + s) in M1 by lia.
    rewrite Hescd. fold e. rewrite (u8_small e) by exact He. rewrite Z.eqb_refl.
    destruct (mode_top (isbig d) buf st1 _ (8 + s) 8 M1 Hr1 ltac:(lia) ltac:(lia))
      as [Hic1 Htop1].
    assert (Ediv1 : (b * 2 ^ s + r) / 2 ^ (8 + s - 8) = b).
    { replace (8 + s - 8) with s by lia.
      rewrite Z.div_add_l by (apply pow2_nz; lia). rewrite Z.div_small by lia. lia. }
    assert (Emod1 : (b * 2 ^ s + r) mod 2 ^ (8 + s - 8) = r).
    { replace (8 + s - 8) with s by lia.
      rewrite Z.add_comm. rewrite Z.mod_add by (apply pow2_nz; lia).
      apply Z.mod_small. exact Hr. }
    change 56 with (64 - 8). rewrite Htop1, Ediv1. rewrite (u8_small b) by exact Hb.
    destruct (GET_mode (isbig d) buf st1 _ (8 + s) 8 M1 Hr1 ltac:(lia) ltac:(lia))
      as (st2 & G2 & M2).
    rewrite G2. rewrite Emod1 in M2. replace (8 + s - 8) with s in M2 by lia.
    exists st2. split; [reflexivity|exact M2].
  - apply Z.eqb_neq in E. pose proof (Hlens b) as Hl.
    pose proof (Hbits b Hb) as HC.
    set (n := codelens c b) in *. set (w := codebits c b) in *.
    set (R := w * 2 ^ s + r) in *.
    assert (Ediv : R / 2 ^ (n + s - n) = w).
    { replace (n + s - n) with s by lia. unfold R.
      rewrite Z.div_add_l by (apply pow2_nz; lia). rewrite Z.div_small by lia. lia. }
    assert (Emod : R mod 2 ^ (n + s - n) = r).
    { replace (n + s - n) with s by lia. unfold R.
      rewrite Z.add_comm. rewrite Z.mod_add by (apply pow2_nz; lia).
      apply Z.mod_small. exact Hr. }
    destruct (mode_top (isbig d) buf st R (n + s) n Hmode HR ltac:(lia) ltac:(lia))
      as [Hic Htop].
    rewrite Ediv in Htop.
    rewrite (lookup_top c d Hlens Hspec Hsame _ b Hic Hb
               ltac:(fold n; lia) Htop).
    cbv zeta. rewrite (lens_char_safe schar d b Hb Hsafe).
    destruct (Htab b Hb) as [Hcl _]. rewrite Hcl. fold n.
    destruct (GET_mode (isbig d) buf st R (n + s) n Hmode HR ltac:(lia) ltac:(lia))
      as (st1 & G1 & M1).
    rewrite G1. rewrite Emod in M1. replace (n + s - n) with s in M1 by lia.
    rewrite Hescd.
    assert (Eq : (b =? u8 (esc_code c)) = false) by (apply Z.eqb_neq; exact Hne).
    rewrite Eq. exists st1. split; [reflexivity|exact M1].
Qed.

(** The decoder's loop on the stream of [x]. *)
Lemma decode_long buf : forall x fuel st,
  Forall is_byte x -> ~ In (u8 (esc_code c)) x -> Forall (encodable c) x ->
  Forall (char_safe schar c) x ->
  (length x <= fuel)%nat ->
  dec_mode (isbig d) buf st (stream_value c x) (sum_cost c x) ->
  decode_loop fuel schar d buf st = Some x.
Proof.
  induction x as [|b x IH]; intros fuel st Hb Hne He Hcs Hf Hmode.
  - pose proof (dec_mode_dlen _ _ _ _ _ Hmode) as Hd. cbn [sum_cost] in Hd.
    destruct fuel; cbn [decode_loop]; rewrite Hd; reflexivity.
  - destruct fuel as [|f]; [cbn [length] in Hf; lia|].
    apply Forall_cons_iff in Hb. destruct Hb as [Hb Hbx].
    apply Forall_cons_iff in He. destruct He as [He Hex].
    apply Forall_cons_iff in Hcs. destruct Hcs as [Hcs Hcsx].
    rewrite decode_loop_S.
    pose proof (dec_mode_dlen _ _ _ _ _ Hmode) as Hd.
    pose proof (byte_cost_pos c Hlens b He) as Hc.
    pose proof (sum_cost_range c Hlens x Hex) as Hs.
    assert (Hpos : (0 <? dlen st) = true).
    { apply Z.ltb_lt. rewrite Hd. cbn [sum_cost]. lia. }
    rewrite Hpos.
    destruct (decode_byte_long buf st b x Hb) as (st' & D1 & M1); auto.
    { intro E. apply Hne. left. exact E. }
    rewrite D1. rewrite (IH f st'); auto.
    + intro Hin. apply Hne. right. exact Hin.
    + cbn [length] in Hf. lia.
Qed.

End LongDecode.

(** * Streams of 64 bits and more on a little-endian host *)

Lemma wr_range_head A bs tl :
  length A = length bs -> wr_range (A ++ tl) 0 bs = bs ++ tl.
Proof.
  intro H. unfold wr_range, rd_range. cbn [seq map app Nat.add].
  rewrite <- H. rewrite skipn_app, skipn_all, Nat.sub_diag. reflexivity.
Qed.

Lemma rd_range_head bs tl : rd_range (bs ++ tl) 0 (length bs) = bs.
Proof. exact (rd_range_exact bs [] tl). Qed.

(** The decoder's first state on a stream of [64] bits or more, once the
    first word is restored. *)
Lemma first_window big raw r s :
  62 <= s -> 0 <= r < 2 ^ s -> unread big raw 0 r (2 + s) ->
  dec_mode big raw
    (mkDec (u64 (Z.shiftl (bytes_word big (rd_range raw 0 8)) 2)) 0 62 0 s 8) r s.
Proof.
  intros Hs Hr Hrest.
  destruct (unread_inv_word _ _ _ _ _ Hrest ltac:(lia)) as [HW Hrest'].
  replace (2 + s - 64) with (s - 62) in HW, Hrest' by lia.
  pose proof (pow_div_range r s 62 Hr ltac:(lia)) as HW0.
  set (W0 := r / 2 ^ (s - 62)) in *.
  rewrite HW.
  assert (E : u64 (Z.shiftl W0 2) = W0 * 2 ^ 2).
  { unfold u64. rewrite Z.shiftl_mul_pow2 by lia. apply Z.mod_small.
    change (2 ^ 64) with (2 ^ 62 * 2 ^ 2). change (2 ^ 2) with 4. lia. }
  rewrite E.
  destruct (Z.eq_dec s 62) as [->|Hne].
  - right. unfold mode_b. cbn [dlen drem nem icode ncode].
    assert (EW : W0 = r).
    { unfold W0. change (2 ^ (62 - 62)) with 1. apply Z.div_1_r. }
    change (2 ^ 2) with 4. change (2 ^ 62) with 4611686018427387904 in *.
    change (2 ^ 64) with 18446744073709551616.
    change (2 ^ (64 - 62)) with 4.
    repeat split; try lia.
    rewrite Z.div_mul by lia. exact EW.
  - left. split; [|cbn [drem]; lia].
    unfold pre_a. cbn [dlen drem nem icode ncode dp].
    split; [reflexivity|]. split; [lia|]. split; [lia|]. split; [lia|].
    replace (s - 62 - 0) with (s - 62) by lia.
    split; [reflexivity|]. split; [|exact Hrest'].
    change (2 ^ 0) with 1. rewrite Z.mod_1_r. reflexivity.
Qed.

(** X21.  Round trip of long streams on little-endian hosts.  The codec is
    built from counts below [2^52]; encoder and decoder hosts are
    little-endian; the input has fewer than [2^28 - 32] bytes, each of which
    has a code unless the codec has an escape code; it does not contain the
    byte the decoder compares each symbol with; and where the decoder's
    plain char is signed, the symbols used are below 128.  When the encoder
    returns 64 bits or more and bit 0x40 of the first output byte is clear,
    the decoder returns the input: the encoder's shift of the first word by
    two bits is undone, no word is byte-swapped, and the refills of the
    decoder's window read the buffer word by word. *)
Theorem long_stream_roundtrip_le
        (schar : bool) (v c d : VGPcompressor) (partial : bool)
        (x buf : list Z) (bits : Z) :
  filled v ->
  (forall i, 0 <= i < 256 -> 0 <= hist v i < 2 ^ 52) ->
  vcCreateCodec v partial = Some c ->
  is_coded (state d) = true -> same_codec c d ->
  isbig c = false -> isbig d = false ->
  Forall is_byte x -> ~ In (u8 (esc_code c)) x ->
  Forall (encodable c) x -> Forall (char_safe schar c) x ->
  Z.of_nat (length x) < 2 ^ 28 - 32 ->
  vcEncode (Owned c) x = Some (buf, bits) -> 64 <= bits ->
  Z.land (rd buf 0) 64 = 0 ->
  vcDecode schar (Owned d) bits buf = Some x.
Proof.
  intros Hf Hh Hc Hd Hsame Hbc Hbd Hx Hne Henc Hcs Hlen He Hge Hbit.
  destruct (created_sound v partial c Hf Hh Hc) as (Hlens & Hbits & Hspec & Hdich).
  assert (Hnn : forall i, 0 <= codelens c i < 256)
    by (intro i; pose proof (Hlens i); lia).
  unfold vcEncode in He. rewrite (vcCreateCodec_state _ _ _ Hc) in He.
  cbn [is_coded] in He. cbv zeta in He. rewrite shiftl_3 in He.
  rewrite Hbc in He.
  set (n := Z.of_nat (length x)) in *.
  assert (Hn0 : 0 <= n) by (unfold n; lia).
  rewrite (to_int_small (8 * n)) in He by lia.
  assert (Hmax : 8 * n + 263 <= INT_MAX) by (unfold INT_MAX; lia).
  set (st0 := mkEnc 0 62 []) in *.
  assert (I0 : gen_inv st0 2 0).
  { unfold gen_inv, st0. cbn [owords erem ocode length be_words].
    split; [constructor|]. split; [lia|]. split; [reflexivity|].
    exists 0. change (2 ^ (64 - 62)) with 4. repeat split; lia. }
  destruct (encode_loop c (8 * n) x st0 2) as [[|st t]|] eqn:E; [| |discriminate].
  - (* the literal copy starts with the byte 255 *)
    apply Some_pair_inj in He. destruct He as [<- _].
    change (rd (255 :: x) 0) with 255 in Hbit. discriminate Hbit.
  - apply Some_pair_inj in He. destruct He as [Hbuf <-].
    assert (E64 : (64 <=? t) = true) by (apply Z.leb_le; lia).
    rewrite E64 in Hbuf. cbn [andb negb] in Hbuf.
    assert (H8 : - 2 ^ 31 <= 2 <= 8 * n \/ x = []).
    { destruct x; [right; reflexivity|left; unfold n; cbn [length]; lia]. }
    destruct H8 as [H8 | ->].
    2:{ cbn [encode_loop] in E. apply Some_inj in E.
        assert (t = 2) by congruence. lia. }
    assert (Hesc : 0 <= esc_code c < 256 -> 0 < codelens c (esc_code c)).
    { destruct Hdich as [Hz|Hp]; [|exact Hp].
      pose proof (encode_loop_bits c (8 * n) x st0 2 _ Hnn Hmax E H8) as Hb.
      cbv beta iota in Hb. destruct Hb as [Hb1 Hb2].
      rewrite (sum_cost_all_zero c Hz x Henc) in Hb1. fold n in Hb1. lia. }
    destruct (encode_loop_gen c Hlens Hbits (8 * n) Hmax x st0 2 0 st t Henc I0 H8 E)
      as (Et & Hw & Hrem & Hcnt & mo & Hmo & Hoc & Hval).
    set (s := sum_cost c x) in *. set (r := stream_value c x) in *.
    pose proof (stream_value_range c Hlens Hbits Hesc _ Henc) as Hr. fold s r in Hr.
    pose proof (length_le_cost c Hlens _ Henc) as Hlc. fold s in Hlc.
    replace (0 * 2 ^ s + r) with r in Hval by lia.
    pose proof (unread_of_words false (ocode st) (erem st) mo (owords st) []
                  Hw Hrem Hmo Hoc) as Hrest.
    cbn [app length] in Hrest. rewrite Hval, Hcnt, Et in Hrest.
    set (raw := flat_map (word_bytes false 8) (owords st)
                ++ tail_bytes false (ocode st) (erem st)) in *.
    destruct (owords st) as [|w0 ws] eqn:Ews; [cbn [length] in Hcnt; lia|].
    assert (Eraw : raw = word_bytes false 8 w0
                         ++ (flat_map (word_bytes false 8) ws
                             ++ tail_bytes false (ocode st) (erem st))).
    { unfold raw. cbn [flat_map]. rewrite <- app_assoc. reflexivity. }
    set (tl := flat_map (word_bytes false 8) ws
               ++ tail_bytes false (ocode st) (erem st)) in *.
    assert (Hw0 : 0 <= w0 < 2 ^ 64) by (inversion Hw; assumption).
    assert (Erd : rd_range raw 0 8 = word_bytes false 8 w0).
    { rewrite Eraw.
      rewrite <- (length_word_bytes false 8 w0) at 2. apply rd_range_head. }
    destruct (unread_inv_word _ _ _ _ _ Hrest ltac:(lia)) as [HW _].
    rewrite Erd, word_read_back in HW by exact Hw0.
    replace (2 + s - 64) with (s - 62) in HW by lia.
    pose proof (pow_div_range r s 62 Hr ltac:(lia)) as HW0. rewrite <- HW in HW0.
    rewrite Erd, word_read_back in Hbuf by exact Hw0.
    assert (E4 : u64 (Z.shiftl w0 2) = w0 * 4).
    { unfold u64. rewrite Z.shiftl_mul_pow2 by lia. apply Z.mod_small.
      change (2 ^ 64) with (2 ^ 62 * 4). change (2 ^ 2) with 4. lia. }
    rewrite E4, Eraw in Hbuf.
    rewrite wr_range_head in Hbuf by (rewrite !length_word_bytes; reflexivity).
    assert (H4 : 0 <= w0 * 4 < 2 ^ 64).
    { change (2 ^ 64) with (2 ^ 62 * 4). lia. }
    (* the decoder *)
    unfold vcDecode. rewrite Hd, Hbd.
    assert (E1 : (rd buf 0 =? 255) = false).
    { apply Z.eqb_neq. intro E255. rewrite E255 in Hbit. discriminate Hbit. }
    rewrite E1. cbv zeta. rewrite Hbit.
    change (0 =? 0) with true. change (0 =? big_flag false) with true.
    rewrite E64. cbn [andb].
    assert (E5 : (t <? 64) = false) by (apply Z.ltb_ge; lia).
    assert (E6 : (62 >? t - 2) = false).
    { rewrite Z.gtb_ltb. apply Z.ltb_ge. lia. }
    rewrite E5, E6.
    assert (Ebuf : wr_range buf 0
                     (word_bytes false 8
                        (Z.shiftr (bytes_word false (rd_range buf 0 8)) 2)) = raw).
    { rewrite <- Hbuf.
      rewrite <- (length_word_bytes false 8 (w0 * 4)) at 2.
      rewrite rd_range_head. rewrite word_read_back by exact H4.
      rewrite Z.shiftr_div_pow2 by lia. change (2 ^ 2) with 4.
      rewrite Z.div_mul by lia.
      rewrite wr_range_head by (rewrite !length_word_bytes; reflexivity).
      symmetry. exact Eraw. }
    rewrite Ebuf.
    replace (t - 2) with s by lia.
    apply (decode_long schar c d Hlens Hbits Hspec Hesc Hsame raw x); auto.
    + lia.
    + rewrite Hbd. apply first_window; [lia|exact Hr|exact Hrest].
Qed.

Lemma long_stream_roundtrip_le_witness :
  filled v_ab /\
  (forall i, 0 <= i < 256 -> 0 <= hist v_ab i < 2 ^ 52) /\
  vcCreateCodec v_ab true = Some c_ab_esc /\
  is_coded (state (vcDeserialize false (ser_bytes true c_ab_esc))) = true /\
  same_codec c_ab_esc (vcDeserialize false (ser_bytes true c_ab_esc)) /\
  isbig c_ab_esc = false /\
  isbig (vcDeserialize false (ser_bytes true c_ab_esc)) = false /\
  Forall is_byte x_long /\
  ~ In (u8 (esc_code c_ab_esc)) x_long /\
  Forall (encodable c_ab_esc) x_long /\
  Forall (char_safe true c_ab_esc) x_long /\
  Z.of_nat (length x_long) < 2 ^ 28 - 32 /\
  vcEncode (Owned c_ab_esc) x_long
  = Some ([44; 73; 146; 36; 73; 146; 36; 73; 99; 155; 192], 86) /\
  64 <= 86 /\
  Z.land (rd [44; 73; 146; 36; 73; 146; 36; 73; 99; 155; 192] 0) 64 = 0 /\
  vcDecode true (Owned (vcDeserialize false (ser_bytes true c_ab_esc))) 86
           [44; 73; 146; 36; 73; 146; 36; 73; 99; 155; 192]
  = Some x_long.
Proof.
  assert (H1 : filled v_ab) by apply filled_with_filled.
  assert (H2 : forall i, 0 <= i < 256 -> 0 <= hist v_ab i < 2 ^ 52).
  { intros i _. rewrite v_ab_hist.
    destruct (i =? 98); [|destruct (i =? 97)]; vm_compute; split; congruence. }
  assert (H3 : vcCreateCodec v_ab true = Some c_ab_esc)
    by (apply codec_or_created; vm_compute; reflexivity).
  assert (H4 : is_coded (state (vcDeserialize false (ser_bytes true c_ab_esc))) = true)
    by (rewrite vcDeserialize_state; reflexivity).
  assert (H5 : same_codec c_ab_esc (vcDeserialize false (ser_bytes true c_ab_esc)))
    by (apply deserialize_ser_bytes; apply coded_wf; exact c_ab_esc_coded).
  assert (H6 : isbig c_ab_esc = false) by (vm_compute; reflexivity).
  assert (H7 : isbig (vcDeserialize false (ser_bytes true c_ab_esc)) = false)
    by (vm_compute; reflexivity).
  assert (H8 : Forall is_byte x_long)
    by (apply is_byte_forallb; vm_compute; reflexivity).
  assert (Ee : esc_code c_ab_esc = 0) by (vm_compute; reflexivity).
  assert (H9 : ~ In (u8 (esc_code c_ab_esc)) x_long).
  { rewrite Ee. change (u8 0) with 0. intro Hin.
    assert (Hall : Forall (fun b => b <> 0) x_long).
    { unfold x_long. cbn [repeat concat app]. repeat constructor; discriminate. }
    rewrite Forall_forall in Hall. exact (Hall 0 Hin eq_refl). }
  assert (H10 : Forall (encodable c_ab_esc) x_long).
  { apply Forall_forall. intros b _ _. rewrite Ee. lia. }
  assert (H11 : Forall (char_safe true c_ab_esc) x_long).
  { apply Forall_forall. intros b Hb _. unfold symbol_of. rewrite Ee.
    rewrite Forall_forall in H8. specialize (H8 b Hb). unfold is_byte in H8.
    rewrite u8_small by exact H8.
    destruct (codelens c_ab_esc b =? 0) eqn:E0; [lia|].
    destruct (Z_lt_le_dec b 128) as [Hlt|Hge]; [exact Hlt|exfalso].
    assert (Hin : In b [98; 97; 99; 120]).
    { unfold x_long in Hb. cbn [repeat concat app In] in Hb. cbn [In]. tauto. }
    cbn [In] in Hin. lia. }
  assert (H12 : Z.of_nat (length x_long) < 2 ^ 28 - 32) by reflexivity.
  assert (H13 : vcEncode (Owned c_ab_esc) x_long
                = Some ([44; 73; 146; 36; 73; 146; 36; 73; 99; 155; 192], 86))
    by (vm_compute; reflexivity).
  assert (H14 : 64 <= 86) by lia.
  assert (H15 : Z.land (rd [44; 73; 146; 36; 73; 146; 36; 73; 99; 155; 192] 0) 64 = 0)
    by reflexivity.
  split; [exact H1|]. split; [exact H2|]. split; [exact H3|]. split; [exact H4|].
  split; [exact H5|]. split; [exact H6|]. split; [exact H7|]. split; [exact H8|].
  split; [exact H9|]. split; [exact H10|]. split; [exact H11|]. split; [exact H12|].
  split; [exact H13|]. split; [exact H14|]. split; [exact H15|].
  exact (long_stream_roundtrip_le true v_ab c_ab_esc _ true x_long
           [44; 73; 146; 36; 73; 146; 36; 73; 99; 155; 192] 86
           H1 H2 H3 H4 H5 H6 H7 H8 H9 H10 H11 H12 H13 H14 H15).
Defined.

(** * The decoder's escape test *)

(** C10.  The escape test of the decoder compares 8-bit values.  When the
    compressor has no escape ([esc_code] is -1) and the table yields the
    symbol 255, the decoder treats it as the escape code: after the [n] bits
    it takes for the symbol it consumes 8 further bits of the stream and
    stores those as a literal byte, not 255 itself.  [R] is what is left of
    the stream, a number of [L] bits held by the decoder's window and the
    buffer ([dec_mode]): the byte stored is made of the bits [n .. n+8) of
    [R], and the window moves on to the bits after them.  [n] is [lens[c]]
    for the char [c] = 0xFF: the code length of 255 where plain char is
    unsigned, and the byte before [codelens] (the last byte of [codebits])
    where it is signed. *)
Theorem decode_symbol_255_taken_as_escape
        (schar : bool) (v : VGPcompressor) (buf : list Z) (st : dec_state)
        (R L : Z) :
  esc_code v = -1 ->
  lookup v (Z.shiftr (icode st) 48) = Some 255 ->
  0 <= lens_char schar v 255 <= 16 ->
  lens_char schar v 255 + 8 <= L ->
  0 <= R < 2 ^ L ->
  dec_mode (isbig v) buf st R L ->
  exists st',
    decode_step schar v buf st
    = Some (st', (R / 2 ^ (L - lens_char schar v 255 - 8)) mod 2 ^ 8) /\
    dec_mode (isbig v) buf st' (R mod 2 ^ (L - lens_char schar v 255 - 8))
             (L - lens_char schar v 255 - 8).
Proof.
  intros He Hl Hn HL HR Hmode.
  set (n := lens_char schar v 255) in *.
  destruct (GET_mode (isbig v) buf st R L n Hmode HR Hn ltac:(lia))
    as (st1 & G1 & M1).
  assert (HR1 : 0 <= R mod 2 ^ (L - n) < 2 ^ (L - n))
    by (apply Z.mod_pos_bound; apply pow2_pos; lia).
  destruct (mode_top (isbig v) buf st1 _ (L - n) 8 M1 HR1 ltac:(lia) ltac:(lia))
    as [Hic1 Htop1].
  destruct (GET_mode (isbig v) buf st1 _ (L - n) 8 M1 HR1 ltac:(lia) ltac:(lia))
    as (st2 & G2 & M2).
  rewrite pow_mod_mod in M2 by lia.
  rewrite pow_mod_div in Htop1 by lia.
  replace (L - n - (L - n - 8)) with 8 in Htop1 by lia.
  exists st2. split.
  - unfold decode_step. rewrite Hl. cbv zeta. fold n. rewrite G1.
    rewrite He. change (255 =? u8 (-1)) with true. cbv iota.
    change 56 with (64 - 8). rewrite Htop1. rewrite G2.
    rewrite u8_small by (apply Z.mod_pos_bound; reflexivity).
    reflexivity.
  - exact M2.
Qed.

(** Witness of C10.  Where plain char is unsigned the code of 255 takes one
    bit and the literal is 0x41; where it is signed the length read for 255
    is the byte 0 that precedes [codelens], no bit is taken for the symbol,
    and the literal is made of the first 8 bits, 0x20. *)
Lemma decode_symbol_255_taken_as_escape_witness :
  esc_code c_ff = -1 /\
  lookup c_ff (Z.shiftr (icode st_ff) 48) = Some 255 /\
  0 <= 65 < 2 ^ 9 /\
  dec_mode (isbig c_ff) [] st_ff 65 9 /\
  (exists st', decode_step false c_ff [] st_ff = Some (st', 65) /\
               dec_mode (isbig c_ff) [] st' 0 0) /\
  (exists st', decode_step true c_ff [] st_ff = Some (st', 32) /\
               dec_mode (isbig c_ff) [] st' 1 1).
Proof.
  assert (H1 : esc_code c_ff = -1) by (vm_compute; reflexivity).
  assert (H2 : lookup c_ff (Z.shiftr (icode st_ff) 48) = Some 255)
    by (vm_compute; reflexivity).
  assert (H3 : 0 <= lens_char false c_ff 255 <= 16) by (vm_compute; split; discriminate).
  assert (H3' : 0 <= lens_char true c_ff 255 <= 16) by (vm_compute; split; discriminate).
  assert (H4 : lens_char false c_ff 255 + 8 <= 9) by (vm_compute; discriminate).
  assert (H4' : lens_char true c_ff 255 + 8 <= 9) by (vm_compute; discriminate).
  assert (H5 : 0 <= 65 < 2 ^ 9) by (split; [discriminate|reflexivity]).
  assert (H6 : dec_mode (isbig c_ff) [] st_ff 65 9).
  { right. unfold mode_b, st_ff. cbn [dlen drem nem icode ncode].
    repeat split; try discriminate; reflexivity. }
  split; [exact H1|]. split; [exact H2|]. split; [exact H5|]. split; [exact H6|].
  split.
  - exact (decode_symbol_255_taken_as_escape false c_ff [] st_ff 65 9
             H1 H2 H3 H4 H5 H6).
  - exact (decode_symbol_255_taken_as_escape true c_ff [] st_ff 65 9
             H1 H2 H3' H4' H5 H6).
Defined.

(** * Round trip of streams shorter than 64 bits *)

(** X16.  Round trip of short streams.  Let [c] be a codec built by
    [vcCreateCodec] from counts below [2^52], and [d] a compressor with the
    same tables (for instance [c] itself, or the result of deserialising the
    blob of [c] on a host of either byte order).  The input has fewer than
    [2^28 - 32] bytes, each of which has a code unless the codec has an
    escape code; it does not hold the byte to which the decoder compares
    every symbol (the escape byte; byte 255 when there is no escape); and
    where the decoder's plain char is signed, the symbols used are below
    128.  Whenever [vcEncode] with [c] returns fewer than 64 bits,
    [vcDecode] with [d] returns the input. *)
Theorem short_stream_roundtrip
        (schar : bool) (v c d : VGPcompressor) (partial : bool)
        (x buf : list Z) (bits : Z) :
  filled v ->
  (forall i, 0 <= i < 256 -> 0 <= hist v i < 2 ^ 52) ->
  vcCreateCodec v partial = Some c ->
  is_coded (state d) = true -> same_codec c d ->
  Forall is_byte x -> ~ In (u8 (esc_code c)) x ->
  Forall (encodable c) x -> Forall (char_safe schar c) x ->
  Z.of_nat (length x) < 2 ^ 28 - 32 ->
  vcEncode (Owned c) x = Some (buf, bits) -> bits < 64 ->
  vcDecode schar (Owned d) bits buf = Some x.
Proof.
  intros Hf Hh Hc Hd Hsame Hx Hne Henc Hcs Hlen He Hlt.
  destruct (created_sound v partial c Hf Hh Hc) as (Hlens & Hbits & Hspec & Hdich).
  assert (Hnn : forall i, 0 <= codelens c i < 256)
    by (intro i; pose proof (Hlens i); lia).
  unfold vcEncode in He. rewrite (vcCreateCodec_state _ _ _ Hc) in He.
  cbn [is_coded] in He. cbv zeta in He. rewrite shiftl_3 in He.
  set (n := Z.of_nat (length x)) in *.
  assert (Hn0 : 0 <= n) by (unfold n; lia).
  rewrite (to_int_small (8 * n)) in He by lia.
  assert (Hmax : 8 * n + 263 <= INT_MAX) by (unfold INT_MAX; lia).
  set (m0 := if isbig c then 1 else 0).
  assert (Hm0 : 0 <= m0 < 2 ^ 2) by (unfold m0; destruct (isbig c); cbn; lia).
  assert (Est0 : (if isbig c then 4611686018427387904 else 0) = m0 * 2 ^ 62).
  { unfold m0. destruct (isbig c); reflexivity. }
  rewrite Est0 in He.
  set (st0 := mkEnc (m0 * 2 ^ 62) 62 []) in *.
  assert (I0 : gen_inv st0 2 m0).
  { unfold gen_inv, st0. cbn [owords erem ocode length be_words].
    split; [constructor|]. split; [lia|]. split; [reflexivity|].
    exists m0. change (64 - 62) with 2. repeat split; lia. }
  destruct (encode_loop c (8 * n) x st0 2) as [[|st t]|] eqn:E; [| |discriminate].
  - (* the literal copy *)
    rewrite to_int_small in He by lia.
    apply Some_pair_inj in He. destruct He as [<- <-].
    unfold vcDecode. rewrite Hd.
    change (rd (255 :: x) 0) with 255. rewrite Z.eqb_refl.
    replace (8 * n + 8) with (8 * (n + 1)) by lia. rewrite shiftr_3.
    replace (n + 1 - 1) with n by lia. unfold n. rewrite Nat2Z.id.
    f_equal. pose proof (rd_range_exact x [255] []) as R.
    rewrite app_nil_r in R. exact R.
  - apply Some_pair_inj in He. destruct He as [Hbuf <-].
    assert (E64 : (64 <=? t) = false) by (apply Z.leb_gt; lia).
    rewrite E64 in Hbuf. cbn [andb] in Hbuf.
    destruct x as [|b x'].
    + (* the empty input: the two tag bits alone *)
      cbn [encode_loop] in E. apply Some_inj in E.
      assert (Est : st = st0 /\ t = 2) by (split; congruence).
      destruct Est as [-> ->]. unfold st0 in Hbuf.
      cbn [owords ocode erem flat_map app] in Hbuf.
      change 62 with (64 - 2) in Hbuf.
      destruct (gather_tail (isbig c) (m0 * 2 ^ (64 - 2)) 2 m0 ltac:(lia) eq_refl)
        as [_ G2].
      { change (64 - 2) with 62. change (2 ^ 63) with (2 * 2 ^ 62).
        change (2 ^ 2) with 4 in Hm0.
        pose proof (pow2_pos 62 ltac:(lia)). unfold m0 in *. destruct (isbig c); lia. }
      rewrite Hbuf in G2.
      rewrite vcDecode_short; [|exact Hd|lia|lia].
      replace (64 * Z.to_nat 2 + 64)%nat with (S (64 * Z.to_nat 2 + 63)) by lia.
      rewrite decode_loop_S. reflexivity.
    + (* a compressed stream *)
      assert (H8 : - 2 ^ 31 <= 2 <= 8 * n) by (unfold n; cbn [length]; lia).
      assert (Hesc : 0 <= esc_code c < 256 -> 0 < codelens c (esc_code c)).
      { destruct Hdich as [Hz|Hp]; [|exact Hp].
        pose proof (encode_loop_bits c (8 * n) (b :: x') st0 2 _ Hnn Hmax E H8) as Hb.
        cbv beta iota in Hb. destruct Hb as [Hb1 Hb2].
        rewrite (sum_cost_all_zero c Hz _ Henc) in Hb1. fold n in Hb1. lia. }
      destruct (encode_loop_gen c Hlens Hbits (8 * n) Hmax (b :: x') st0 2 m0 st t
                  Henc I0 H8 E)
        as (Et & Hw & Hrem & Hcnt & mo & Hmo & Hoc & Hval).
      set (s := sum_cost c (b :: x')) in *.
      set (r := stream_value c (b :: x')) in *.
      pose proof (stream_value_range c Hlens Hbits Hesc _ Henc) as Hr. fold s r in Hr.
      pose proof (sum_cost_range c Hlens _ Henc) as Hs. fold s in Hs.
      pose proof (length_le_cost c Hlens _ Henc) as Hlc. fold s in Hlc.
      destruct (owords st) as [|w0 ws] eqn:Ews;
        [|cbn [length] in Hcnt; rewrite Nat2Z.inj_succ in Hcnt; lia].
      cbn [length be_words] in Hcnt, Hval. cbn [flat_map app] in Hbuf.
      assert (Erem : erem st = 64 - t) by lia.
      assert (Emo : mo = m0 * 2 ^ s + r) by lia.
      rewrite Erem in Hoc, Hbuf. rewrite Emo in Hoc.
      destruct (chunk 2 s m0 r ltac:(lia) Hs ltac:(lia) Hm0 Hr) as (C1 & C2 & C3).
      assert (Eoc : ocode st = (m0 * 2 ^ s + r) * 2 ^ (64 - (2 + s))).
      { rewrite Hoc. f_equal. f_equal. lia. }
      assert (Hoc63 : 0 <= ocode st < 2 ^ 63).
      { rewrite Hoc. split.
        - apply Z.mul_nonneg_nonneg; [|apply Z.lt_le_incl, pow2_pos; lia].
          pose proof (pow2_pos s Hs). nia.
        - assert (E63 : 2 ^ 63 = 2 ^ (t - 1) * 2 ^ (64 - t)).
          { rewrite <- pow2_split by lia. f_equal. lia. }
          assert (Et1 : 2 ^ (t - 1) = 2 * 2 ^ s).
          { replace (t - 1) with (1 + s) by lia. rewrite pow2_split by lia. reflexivity. }
          pose proof (pow2_pos (64 - t) ltac:(lia)).
          pose proof (pow2_pos s Hs).
          change (2 ^ 2) with 4 in Hm0.
          assert (m0 <= 1) by (unfold m0; destruct (isbig c); lia).
          rewrite E63, Et1. nia. }
      destruct (gather_tail (isbig c) (ocode st) t _ ltac:(lia) Hoc Hoc63) as [G1 G2].
      rewrite Hbuf in G1, G2.
      rewrite vcDecode_short; [|exact Hd|lia|lia].
      rewrite G1. rewrite Eoc, C3.
      replace (t - 2) with s by lia.
      apply (decode_long schar c d Hlens Hbits Hspec Hesc Hsame buf (b :: x'));
        auto; [lia|].
      right. unfold mode_b. cbn [dlen drem nem icode ncode].
      pose proof (pow2_pos (64 - s) ltac:(lia)) as HP.
      assert (E64' : 2 ^ 64 = 2 ^ s * 2 ^ (64 - s)).
      { rewrite <- pow2_split by lia. f_equal. lia. }
      split; [reflexivity|]. split; [lia|]. split; [lia|]. split; [lia|].
      split; [change (2 ^ 64) with 18446744073709551616; lia|].
      split; [rewrite E64'; nia|].
      apply Z.div_mul. lia.
Qed.

Lemma short_stream_roundtrip_witness :
  filled v_ab /\
  (forall i, 0 <= i < 256 -> 0 <= hist v_ab i < 2 ^ 52) /\
  vcCreateCodec v_ab true = Some c_ab_esc /\
  is_coded (state (vcDeserialize true (ser_bytes false c_ab_esc))) = true /\
  same_codec c_ab_esc (vcDeserialize true (ser_bytes false c_ab_esc)) /\
  Forall is_byte [200; 99; 97] /\
  ~ In (u8 (esc_code c_ab_esc)) [200; 99; 97] /\
  Forall (encodable c_ab_esc) [200; 99; 97] /\
  Forall (char_safe true c_ab_esc) [200; 99; 97] /\
  Z.of_nat (length [200; 99; 97]) < 2 ^ 28 - 32 /\
  vcEncode (Owned c_ab_esc) [200; 99; 97] = Some ([60; 141; 142], 24) /\
  24 < 64 /\
  vcDecode true (Owned (vcDeserialize true (ser_bytes false c_ab_esc))) 24
           [60; 141; 142]
  = Some [200; 99; 97].
Proof.
  assert (H1 : filled v_ab) by apply filled_with_filled.
  assert (H2 : forall i, 0 <= i < 256 -> 0 <= hist v_ab i < 2 ^ 52).
  { intros i _. rewrite v_ab_hist.
    destruct (i =? 98); [|destruct (i =? 97)]; vm_compute; split; congruence. }
  assert (H3 : vcCreateCodec v_ab true = Some c_ab_esc)
    by (apply codec_or_created; vm_compute; reflexivity).
  assert (H4 : is_coded (state (vcDeserialize true (ser_bytes false c_ab_esc))) = true)
    by (rewrite vcDeserialize_state; reflexivity).
  assert (H5 : same_codec c_ab_esc (vcDeserialize true (ser_bytes false c_ab_esc)))
    by (apply deserialize_ser_bytes; apply coded_wf; exact c_ab_esc_coded).
  assert (H6 : Forall is_byte [200; 99; 97])
    by (apply is_byte_forallb; reflexivity).
  assert (Ee : esc_code c_ab_esc = 0) by (vm_compute; reflexivity).
  assert (H7 : ~ In (u8 (esc_code c_ab_esc)) [200; 99; 97]).
  { rewrite Ee. change (u8 0) with 0. cbn [In]. lia. }
  assert (H8 : Forall (encodable c_ab_esc) [200; 99; 97]).
  { apply Forall_forall. intros b _ _. rewrite Ee. lia. }
  assert (H9 : Forall (char_safe true c_ab_esc) [200; 99; 97]).
  { repeat constructor; intros _; vm_compute; reflexivity. }
  assert (H10 : Z.of_nat (length [200; 99; 97]) < 2 ^ 28 - 32) by reflexivity.
  assert (H11 : vcEncode (Owned c_ab_esc) [200; 99; 97] = Some ([60; 141; 142], 24))
    by (vm_compute; reflexivity).
  assert (H12 : 24 < 64) by lia.
  split; [exact H1|]. split; [exact H2|]. split; [exact H3|]. split; [exact H4|].
  split; [exact H5|]. split; [exact H6|]. split; [exact H7|]. split; [exact H8|].
  split; [exact H9|]. split; [exact H10|]. split; [exact H11|]. split; [exact H12|].
  exact (short_stream_roundtrip true v_ab c_ab_esc _ true [200; 99; 97] [60; 141; 142] 24
           H1 H2 H3 H4 H5 H6 H7 H8 H9 H10 H11 H12).
Defined.
